(** * markdown-to-notion: a shallow embedding of the sync engine

    The development follows the TypeScript sources:
    - the frontmatter module       the identity codec (its text follows
                                   [src/sync-docs-to-notion.ts], lines 277-372),
    - [src/sync-docs-to-notion.ts] path classification, chunking, per-document sync,
    - [src/notion-helpers.ts]      folder cache, page creation, concurrency runner,
    - [src/markdown-to-blocks.ts]  the content adapter and its sanitation pass,
    - [src/sync-changed-docs.ts]   the git-diff change selector,
    - the action entry point       the function [run] that reads the inputs.

    Strings are sequences of code units.  A character of [string] stands for
    the UTF-16 code unit with the same number (0..255); all the character
    classes the sources use ([\s], [\w], [.], case mapping of ASCII letters)
    are written out on that range.  A statement about every string is
    therefore a statement about every string of these code units: the white
    space and the line terminators above 255 (among them U+2028 and U+2029,
    which [.] rejects and [trim] removes) are not among its characters. *)

From Stdlib Require Import String Ascii List Bool Arith Lia ZArith Permutation.
From Stdlib Require DecimalString.
Import ListNotations.
Set Warnings "-register-all".
Open Scope string_scope.
Open Scope list_scope.
Open Scope bool_scope.
Open Scope nat_scope.

(** String concatenation, kept apart from list append. *)
Infix "+++" := String.append (right associativity, at level 60).

(* ================================================================== *)
(** * Part I: definitions                                              *)
(* ================================================================== *)

(** ** JavaScript string primitives *)

Module JS.

Definition code (c : ascii) : nat := nat_of_ascii c.

(** [\s] of regular expressions and the characters [trim] removes:
    TAB, LF, VT, FF, CR, SPACE and NBSP in the modelled range. *)
Definition is_space (c : ascii) : bool :=
  let n := code c in
  ((9 <=? n) && (n <=? 13)) || (n =? 32) || (n =? 160).

Definition is_upper (c : ascii) : bool :=
  let n := code c in (65 <=? n) && (n <=? 90).

Definition is_lower (c : ascii) : bool :=
  let n := code c in (97 <=? n) && (n <=? 122).

Definition is_digit (c : ascii) : bool :=
  let n := code c in (48 <=? n) && (n <=? 57).

(** [\w] is [[A-Za-z0-9_]]. *)
Definition is_word (c : ascii) : bool :=
  is_upper c || is_lower c || is_digit c || (code c =? 95).

(** Line terminators: the characters [.] does not match.  They are LF, CR,
    U+2028 and U+2029; only the first two are in the modelled range. *)
Definition is_line_terminator (c : ascii) : bool :=
  (code c =? 10) || (code c =? 13).

Definition upper_char (c : ascii) : ascii :=
  if is_lower c then ascii_of_nat (code c - 32) else c.

(** Lower case: the letters A-Z and, above 127, the capital letters from
    192 to 222 except the multiplication sign 215. *)
Definition lower_char (c : ascii) : ascii :=
  let n := code c in
  if is_upper c || ((192 <=? n) && (n <=? 222) && negb (n =? 215))
  then ascii_of_nat (n + 32) else c.

Fixpoint map_chars (f : ascii -> ascii) (s : string) : string :=
  match s with
  | EmptyString => EmptyString
  | String c s' => String (f c) (map_chars f s')
  end.

(** [toLowerCase] is exact on the modelled range.  [toUpperCase] is exact
    on ASCII and leaves the code units above 127 alone: the sources apply it
    to single word characters and compare its result on a whole string
    with ["README"] only, whose letters no upper-casing of a code unit above
    127 produces. *)
Definition toUpperCase : string -> string := map_chars upper_char.
Definition toLowerCase : string -> string := map_chars lower_char.

Fixpoint trimStart (s : string) : string :=
  match s with
  | EmptyString => EmptyString
  | String c s' => if is_space c then trimStart s' else s
  end.

Fixpoint trimEnd (s : string) : string :=
  match s with
  | EmptyString => EmptyString
  | String c s' =>
      match trimEnd s' with
      | EmptyString => if is_space c then EmptyString else String c EmptyString
      | t => String c t
      end
  end.

Definition trim (s : string) : string := trimEnd (trimStart s).

Fixpoint has_prefix (p s : string) : bool :=
  match p with
  | EmptyString => true
  | String a p' =>
      match s with
      | String b s' => Ascii.eqb a b && has_prefix p' s'
      | EmptyString => false
      end
  end.

Definition startsWith (s p : string) : bool := has_prefix p s.

Fixpoint drop (n : nat) (s : string) : string :=
  match n, s with
  | O, _ => s
  | S n', String _ s' => drop n' s'
  | S _, EmptyString => EmptyString
  end.

Fixpoint take (n : nat) (s : string) : string :=
  match n, s with
  | S n', String c s' => String c (take n' s')
  | _, _ => EmptyString
  end.

Definition endsWith (s p : string) : bool :=
  (String.length p <=? String.length s) && String.eqb (drop (String.length s - String.length p) s) p.

(** [s.split(sep)] for a one-character separator: never the empty list. *)
Fixpoint split_char (sep : ascii) (s : string) : list string :=
  match s with
  | EmptyString => [EmptyString]
  | String c s' =>
      if Ascii.eqb c sep then EmptyString :: split_char sep s'
      else match split_char sep s' with
           | h :: t => String c h :: t
           | [] => [String c EmptyString]
           end
  end.

(** [arr[i]] for a possibly negative index: [undefined] is [None]. *)
Definition index {A} (l : list A) (i : Z) : option A :=
  if (i <? 0)%Z then None else nth_error l (Z.to_nat i).

(** [s.replace(/[-_]/g, ' ')]. *)
Definition dashes_to_spaces : string -> string :=
  map_chars (fun c => if (code c =? 45) || (code c =? 95) then " "%char else c).

(** [s.replace(/\\/g, '/')]. *)
Definition backslashes_to_slashes : string -> string :=
  map_chars (fun c => if code c =? 92 then "/"%char else c).

(** [s.replace(/\b\w/g, c => c.toUpperCase())]: a word character is matched
    exactly when the character before it (if any) is not a word character;
    [prev] tells whether the previous character is one. *)
Fixpoint capitalize_from (prev : bool) (s : string) : string :=
  match s with
  | EmptyString => EmptyString
  | String c s' =>
      String (if is_word c && negb prev then upper_char c else c)
             (capitalize_from (is_word c) s')
  end.

Definition capitalize_words : string -> string := capitalize_from false.

(** [s.replace(/\.md$/i, '')]: without the [m] flag [$] is the end of the
    input, so the only possible match is the last three characters. *)
Definition strip_md_ext (s : string) : string :=
  if endsWith (toLowerCase s) ".md" then take (String.length s - 3) s else s.

End JS.

(** ** Path classifier ([sync-docs-to-notion.ts], lines 53-90) *)

Record ParsedRelPath := {
  folderName : option string;
  folderTitle : option string;
  docTitle : string
}.

Definition normalizeTitle (s : string) : string := JS.trim s.

(** The title-casing both helpers apply:
    [.replace(/[-_]/g, ' ').replace(/\b\w/g, c => c.toUpperCase())]. *)
Definition titleCase (s : string) : string :=
  JS.capitalize_words (JS.dashes_to_spaces s).

Definition pathToDisplayTitle (relativePath : string) : string :=
  let withoutExt := JS.strip_md_ext relativePath in
  let parts := JS.split_char "/" withoutExt in
  let last := List.last parts EmptyString in
  if String.eqb (JS.toUpperCase last) "README" then
    match JS.index parts (Z.of_nat (List.length parts) - 2) with
    | Some folder => if String.eqb folder EmptyString then "README" else titleCase folder
    | None => "README"
    end
  else titleCase last.

Definition parseRelPath (relativePath : string) : ParsedRelPath :=
  let docTitle := pathToDisplayTitle relativePath in
  let parts := JS.split_char "/" (JS.strip_md_ext relativePath) in
  if List.length parts <=? 1 then
    {| folderName := None; folderTitle := None; docTitle := normalizeTitle docTitle |}
  else
    let folderName := List.hd EmptyString parts in
    let folderTitle := titleCase folderName in
    {| folderName := Some folderName;
       folderTitle := Some (normalizeTitle folderTitle);
       docTitle := normalizeTitle docTitle |}.

(** A path segment: a string without ["/"]. *)
Fixpoint no_slash (s : string) : bool :=
  match s with
  | EmptyString => true
  | String c s' => negb (Ascii.eqb c "/") && no_slash s'
  end.

(** ** Block chunking ([sync-docs-to-notion.ts], lines 27 and 106-112) *)

Definition NOTION_BLOCK_CHUNK_SIZE : nat := 100.

(** [blocks.slice(i, j)] for [0 <= i <= j]. *)
Definition slice {T} (blocks : list T) (i j : nat) : list T :=
  firstn (j - i) (skipn i blocks).

(** The [for (let i = 0; i < blocks.length; i += size)] loop.  Each pass
    consumes one unit of [fuel]; [None] is a loop that did not finish within
    the fuel (with [size = 0] the source loop never ends). *)
Fixpoint chunk_loop {T} (fuel : nat) (blocks : list T) (size i : nat)
    (chunks : list (list T)) : option (list (list T)) :=
  if i <? List.length blocks then
    match fuel with
    | O => None
    | S fuel' =>
        chunk_loop fuel' blocks size (i + size) (chunks ++ [slice blocks i (i + size)])
    end
  else Some chunks.

Definition chunkBlocks {T} (blocks : list T) (size : nat) : option (list (list T)) :=
  chunk_loop (List.length blocks) blocks size 0 [].

(** ** Regular expressions

    A backtracking matcher with the priorities of ECMAScript's: alternatives
    are tried left to right, a greedy star tries one more iteration before
    stopping and a lazy star the other way round, an iteration that consumes
    nothing is rejected.  The two regular expressions of the identity codec
    are written below as terms of [re]. *)

Module Regex.

Inductive re : Type :=
| Eps                              (* the empty pattern *)
| Cls (p : ascii -> bool)          (* one character of a class *)
| Seq (r1 r2 : re)                 (* r1 r2 *)
| Alt (r1 r2 : re)                 (* r1|r2 *)
| Star (greedy : bool) (r : re)    (* r* (greedy) and r*? (lazy) *)
| Group (n : nat) (r : re)         (* the n-th capture group *)
| Bol                              (* ^ without the m flag *)
| Eol.                             (* $ without the m flag *)

Definition Chr (a : ascii) : re := Cls (Ascii.eqb a).
Definition Opt (r : re) : re := Alt r Eps.            (* r? *)
Definition Plus (r : re) : re := Seq r (Star true r). (* r+ *)

Fixpoint Lit (s : string) : re :=
  match s with
  | EmptyString => Eps
  | String a s' => Seq (Chr a) (Lit s')
  end.

(** Captures, most recent first. *)
Definition caps : Type := list (nat * string).

Fixpoint capture (n : nat) (c : caps) : option string :=
  match c with
  | [] => None
  | (n', s) :: c' => if n =? n' then Some s else capture n c'
  end.

Definition orelse {A} (x y : option A) : option A :=
  match x with Some _ => x | None => y end.

(** The iteration of a star.  [body] matches the starred pattern once;
    [fuel] bounds the number of iterations and starts above the length of the
    input, which every accepted iteration shortens. *)
Fixpoint star_loop {A}
    (body : nat -> string -> caps -> (nat -> string -> caps -> option A) -> option A)
    (greedy : bool) (k : nat -> string -> caps -> option A)
    (fuel : nat) (i : nat) (s : string) (c : caps) : option A :=
  match fuel with
  | O => None
  | S fuel' =>
      let again :=
        body i s c (fun i' s' c' =>
          if String.length s' <? String.length s
          then star_loop body greedy k fuel' i' s' c' else None) in
      if greedy then orelse again (k i s c) else orelse (k i s c) again
  end.

(** [run r i s c k]: match [r] against the rest [s] of the input, [i]
    characters into it, with captures [c]; [k] is what follows [r]. *)
Fixpoint run {A} (r : re) (i : nat) (s : string) (c : caps)
    (k : nat -> string -> caps -> option A) : option A :=
  match r with
  | Eps => k i s c
  | Cls p =>
      match s with
      | String a s' => if p a then k (S i) s' c else None
      | EmptyString => None
      end
  | Seq r1 r2 => run r1 i s c (fun i' s' c' => run r2 i' s' c' k)
  | Alt r1 r2 => orelse (run r1 i s c k) (run r2 i s c k)
  | Star greedy r' => star_loop (run r') greedy k (S (String.length s)) i s c
  | Group n r' =>
      run r' i s c (fun i' s' c' => k i' s' ((n, JS.take (i' - i) s) :: c'))
  | Bol => if i =? 0 then k i s c else None
  | Eol => match s with EmptyString => k i s c | _ => None end
  end.

(** [str.match(re)] for a regular expression without the [g] flag: the first
    start position with a match, and the captures of that match. *)
Fixpoint exec_from (r : re) (i : nat) (s : string) : option caps :=
  match run r i s [] (fun _ _ c => Some c) with
  | Some c => Some c
  | None =>
      match s with
      | EmptyString => None
      | String _ s' => exec_from r (S i) s'
      end
  end.

Definition exec (r : re) (s : string) : option caps := exec_from r 0 s.

Definition LF : ascii := ascii_of_nat 10.
Definition CR : ascii := ascii_of_nat 13.
Definition DQ : ascii := ascii_of_nat 34.   (* the double quote *)
Definition SQ : ascii := ascii_of_nat 39.   (* the single quote *)
Definition BSL : ascii := ascii_of_nat 92.  (* the backslash *)

(** [[\s\S]]: every character. *)
Definition any_char (c : ascii) : bool := JS.is_space c || negb (JS.is_space c).
(** [.]: every character but a line terminator (on the modelled range: but
    LF and CR). *)
Definition dot (c : ascii) : bool := negb (JS.is_line_terminator c).

End Regex.

(** ** Plain objects used as string maps

    A [Record<string, string>] is kept as the list of its own properties in
    creation order. *)

Definition obj : Type := list (string * string).

Fixpoint obj_get (k : string) (o : obj) : option string :=
  match o with
  | [] => None
  | (k', v) :: o' => if String.eqb k k' then Some v else obj_get k o'
  end.

(** Defining property [k]: an existing property keeps its place. *)
Fixpoint obj_define (k v : string) (o : obj) : obj :=
  match o with
  | [] => [(k, v)]
  | (k', v') :: o' =>
      if String.eqb k k' then (k, v) :: o' else (k', v') :: obj_define k v o'
  end.

(** [o[k] = v] on an object literal: the key ["__proto__"] reaches the
    accessor of [Object.prototype], which ignores a string; any other key
    defines an own property. *)
Definition obj_assign (k v : string) (o : obj) : obj :=
  if String.eqb k "__proto__" then o else obj_define k v o.

(** The numeric value of a key that is an array index: a canonical decimal
    numeral below [2^32 - 1]. *)
Fixpoint digits_value (acc : N) (s : string) : option N :=
  match s with
  | EmptyString => Some acc
  | String c s' =>
      if JS.is_digit c
      then digits_value (acc * 10 + N.of_nat (JS.code c - 48))%N s'
      else None
  end.

Definition array_index (k : string) : option N :=
  match k with
  | EmptyString => None
  | String c rest =>
      if Ascii.eqb c "0" && negb (String.eqb rest EmptyString) then None
      else if 10 <? String.length k then None
      else match digits_value 0%N k with
           | Some n => if (n <? 4294967295)%N then Some n else None
           | None => None
           end
  end.

Fixpoint insert_by_index (n : N) (e : string * string)
    (l : list (N * (string * string))) : list (N * (string * string)) :=
  match l with
  | [] => [(n, e)]
  | (n', e') :: l' =>
      if (n <? n')%N then (n, e) :: l else (n', e') :: insert_by_index n e l'
  end.

Fixpoint index_entries (o : obj) : list (N * (string * string)) :=
  match o with
  | [] => []
  | (k, v) :: o' =>
      match array_index k with
      | Some n => insert_by_index n (k, v) (index_entries o')
      | None => index_entries o'
      end
  end.

Definition is_array_index (k : string) : bool :=
  match array_index k with Some _ => true | None => false end.

(** [Object.entries(o)]: array-index keys in ascending numeric order, then
    the other keys in creation order. *)
Definition Object_entries (o : obj) : list (string * string) :=
  map snd (index_entries o)
  ++ filter (fun e => negb (is_array_index (fst e))) o.
(** ** Identity codec (the frontmatter module: [parseMdWithNotionId],
    [stringifyMdWithNotionId] and their helpers) *)

Definition NOTION_PAGE_ID_KEY : string := "notion_page_id".

Import Regex.

(** The source pattern, token by token (groups in parentheses):
    [^ \s* --- \r? \n ( [\s\S]*? ) \r? \n --- \r? \n? ( [\s\S]* ) $] *)
Definition FRONTMATTER_RE : re :=
  Seq Bol
 (Seq (Star true (Cls JS.is_space))
 (Seq (Lit "---")
 (Seq (Opt (Chr CR))
 (Seq (Chr LF)
 (Seq (Group 1 (Star false (Cls any_char)))
 (Seq (Opt (Chr CR))
 (Seq (Chr LF)
 (Seq (Lit "---")
 (Seq (Opt (Chr CR))
 (Seq (Opt (Chr LF))
 (Seq (Group 2 (Star true (Cls any_char)))
      Eol))))))))))).

(** The source pattern, token by token: [^ ( \w+ ) : \s* ( .* ) $] *)
Definition LINE_RE : re :=
  Seq Bol
 (Seq (Group 1 (Plus (Cls JS.is_word)))
 (Seq (Chr ":")
 (Seq (Star true (Cls JS.is_space))
 (Seq (Group 2 (Star true (Cls dot)))
      Eol)))).

(** [block.split(/\r?\n/)]: a line ends at LF, or at CR immediately followed
    by LF. *)
Fixpoint split_lines (s : string) : list string :=
  match s with
  | EmptyString => [EmptyString]
  | String c s' =>
      let keep :=
        match split_lines s' with
        | h :: t => String c h :: t
        | [] => [String c EmptyString]
        end in
      if Ascii.eqb c LF then EmptyString :: split_lines s'
      else if Ascii.eqb c CR then
        match s' with
        | String c' s'' =>
            if Ascii.eqb c' LF then EmptyString :: split_lines s'' else keep
        | EmptyString => keep
        end
      else keep
  end.

(** The replacement of backslash-quote by the quote alone, for a quote
    character [q], over the whole string: scanning from the left, every
    backslash directly followed by [q] is dropped. *)
Fixpoint unescape_quote (q : ascii) (s : string) : string :=
  match s with
  | EmptyString => EmptyString
  | String c s' =>
      match s' with
      | String c' s'' =>
          if Ascii.eqb c BSL && Ascii.eqb c' q
          then String q (unescape_quote q s'')
          else String c (unescape_quote q s')
      | EmptyString => String c EmptyString
      end
  end.

(** [value.slice(1, -1)]. *)
Definition slice_1_m1 (s : string) : string :=
  JS.take (String.length s - 2) (JS.drop 1 s).

Definition unquote (value : string) : string :=
  if (JS.startsWith value (String DQ EmptyString) && JS.endsWith value (String DQ EmptyString))
     || (JS.startsWith value (String SQ EmptyString) && JS.endsWith value (String SQ EmptyString))
  then unescape_quote DQ (unescape_quote SQ (slice_1_m1 value))
  else value.

(** One pass of the [for (const line of lines)] loop on [data]. *)
Definition parseFrontmatterLine (data : obj) (line : string) : obj :=
  match exec LINE_RE line with
  | None => data
  | Some m =>
      match capture 1 m, capture 2 m with
      | Some key, Some rest => obj_assign key (unquote (JS.trim rest)) data
      | _, _ => data
      end
  end.

Definition parseFrontmatterBlock (block : string) : obj :=
  fold_left parseFrontmatterLine (split_lines block) [].

Record ParsedFrontmatter := {
  body : string;
  notionPageId : option string;
  data : obj
}.

Definition parseMdWithNotionId (rawContent : string) : ParsedFrontmatter :=
  match exec FRONTMATTER_RE rawContent with
  | None => {| body := rawContent; notionPageId := None; data := [] |}
  | Some m =>
      match capture 1 m, capture 2 m with
      | Some frontBlock, Some body =>
          let data := parseFrontmatterBlock frontBlock in
          let notionPageId :=
            match obj_get NOTION_PAGE_ID_KEY data with
            | Some id =>
                if 0 <? String.length (JS.trim id) then Some (JS.trim id) else None
            | None => None
            end in
          {| body := body; notionPageId := notionPageId; data := data |}
      | _, _ => {| body := rawContent; notionPageId := None; data := [] |}
      end
  end.

(** The two replacements of [escapeYamlValue]: every backslash is doubled,
    then every double quote gets a backslash in front. *)
Fixpoint double_backslashes (s : string) : string :=
  match s with
  | EmptyString => EmptyString
  | String c s' =>
      if Ascii.eqb c BSL then String BSL (String BSL (double_backslashes s'))
      else String c (double_backslashes s')
  end.

Fixpoint escape_dquotes (s : string) : string :=
  match s with
  | EmptyString => EmptyString
  | String c s' =>
      if Ascii.eqb c DQ then String BSL (String DQ (escape_dquotes s'))
      else String c (escape_dquotes s')
  end.

(** The test in [escapeYamlValue]: does [s] hold a line feed, a double
    quote, a backslash or a colon? *)
Fixpoint needs_quoting (s : string) : bool :=
  match s with
  | EmptyString => false
  | String c s' =>
      Ascii.eqb c LF || Ascii.eqb c DQ || Ascii.eqb c BSL || Ascii.eqb c ":"
      || needs_quoting s'
  end.

Definition escapeYamlValue (s : string) : string :=
  if needs_quoting s
  then String DQ (escape_dquotes (double_backslashes s) +++ String DQ EmptyString)
  else s.

Definition frontLine (e : string * string) : string :=
  fst e +++ ": " +++ escapeYamlValue (snd e).

Definition stringifyMdWithNotionId (body : string) (existingData : obj)
    (notionPageId : string) : string :=
  let data := obj_define NOTION_PAGE_ID_KEY notionPageId existingData in
  let pairs := filter (fun e => negb (String.eqb (snd e) EmptyString)) (Object_entries data) in
  let frontLines := map frontLine pairs in
  let front :=
    match frontLines with
    | [] => EmptyString
    | _ => "---" +++ String LF (String.concat (String LF EmptyString) frontLines)
           +++ String LF ("---" +++ String LF EmptyString)
    end in
  front +++ body.
(** ** Auxiliary notions for the properties of the codec *)

Section MatcherShapes.

Import Regex.

(** What a greedy star over a character class does: take characters of the
    class as long as possible, then give them back one by one. *)
Fixpoint scan_greedy {A} (p : ascii -> bool)
    (k : nat -> string -> caps -> option A) (i : nat) (s : string) (c : caps)
    : option A :=
  match s with
  | String a s' =>
      if p a then orelse (scan_greedy p k (S i) s' c) (k i s c) else k i s c
  | EmptyString => k i s c
  end.

(** What a lazy star over every character does: try what follows at each
    position in turn. *)
Fixpoint scan_lazy {A} (k : nat -> string -> caps -> option A)
    (i : nat) (s : string) (c : caps) : option A :=
  match k i s c with
  | Some x => Some x
  | None =>
      match s with
      | String _ s' => scan_lazy k (S i) s' c
      | EmptyString => None
      end
  end.

End MatcherShapes.

(** All characters of [s] are in the class [p]. *)
Fixpoint all_chars (p : ascii -> bool) (s : string) : bool :=
  match s with
  | EmptyString => true
  | String a s' => p a && all_chars p s'
  end.

(** The first character of [s], if any, is outside the class [p]. *)
Definition head_not (p : ascii -> bool) (s : string) : bool :=
  match s with
  | EmptyString => true
  | String a _ => negb (p a)
  end.

(** Does [s] start with the closing marker, LF or CR LF followed by three
    dashes? *)
Definition closes (s : string) : bool :=
  JS.has_prefix (String LF "---") s
  || JS.has_prefix (String CR (String LF "---")) s.

(** A header block inside which the closing marker cannot start: no CR, and
    no LF directly followed by a dash. *)
Fixpoint block_safe (b : string) : bool :=
  match b with
  | EmptyString => true
  | String a b' =>
      negb (Ascii.eqb a CR)
      && (if Ascii.eqb a LF then head_not (Ascii.eqb "-") b' else true)
      && block_safe b'
  end.

(** The text [stringifyMdWithNotionId] writes around a header block. *)
Definition framed (block body : string) : string :=
  "---" +++ String LF (block +++ String LF ("---" +++ String LF body)).

(** *** Keys and values that survive a round trip *)

(** A key the line pattern reads back: one or more word characters, and not
    the one name an object literal does not store. *)
Definition key_ok (k : string) : bool :=
  negb (String.eqb k EmptyString) && all_chars JS.is_word k
  && negb (String.eqb k "__proto__").

Definition not_backslash (c : ascii) : bool := negb (Ascii.eqb c BSL).

(** A value the codec reads back as written: not empty, on one line, without
    a backslash, and, when it is written unquoted, equal to its own trim and
    not enclosed in single quotes. *)
Definition value_ok (v : string) : bool :=
  negb (String.eqb v EmptyString) && all_chars dot v && all_chars not_backslash v
  && (needs_quoting v
      || (String.eqb (JS.trim v) v
          && negb (JS.startsWith v (String SQ EmptyString)
                   && JS.endsWith v (String SQ EmptyString)))).

(** ** Change selector ([src/sync-changed-docs.ts]) *)

(** What [execSync] does: it returns the standard output of the command, or
    throws an error whose [status] field (when it has one) is the exit
    status. *)
Inductive exec_result : Type :=
| ExecOutput (out : string)
| ExecError (status : option Z).

(** A call that returns a value or throws the error it received. *)
Inductive outcome (A : Type) : Type :=
| Returned (a : A)
| Thrown (status : option Z).
Arguments Returned {A} a.
Arguments Thrown {A} status.

(** [[...new Set(l)]]: the first occurrence of every element, in order. *)
Fixpoint uniq_from (seen l : list string) : list string :=
  match l with
  | [] => []
  | x :: l' =>
      if existsb (String.eqb x) seen then uniq_from seen l'
      else x :: uniq_from (x :: seen) l'
  end.

Definition uniq (l : list string) : list string := uniq_from [] l.

Definition docsPrefixOf (docsPrefix : string) : string :=
  if JS.endsWith docsPrefix "/" then docsPrefix else docsPrefix +++ "/".

(** [out.split(/\r?\n/).map((s) => s.trim()).filter(Boolean)] *)
Definition outputLines (out : string) : list string :=
  filter (fun s => negb (String.eqb s EmptyString)) (map JS.trim (split_lines out)).

(** One pass of the [for (const line of lines)] loop: the path it pushes, if
    any. *)
Definition changedPathOfLine (prefix line : string) : option string :=
  let normalized := JS.backslashes_to_slashes line in
  if negb (JS.endsWith (JS.toLowerCase normalized) ".md") then None
  else if String.eqb normalized prefix
          || String.eqb normalized (JS.take (String.length prefix - 1) prefix)
  then None
  else if JS.startsWith normalized prefix
  then Some (JS.drop (String.length prefix) normalized)
  else None.

Fixpoint collectChanged (prefix : string) (lines : list string) : list string :=
  match lines with
  | [] => []
  | line :: lines' =>
      match changedPathOfLine prefix line with
      | Some p => p :: collectChanged prefix lines'
      | None => collectChanged prefix lines'
      end
  end.

Definition gitDiffCommand (baseRef headRef : string) : string :=
  "git diff --name-only " +++ baseRef +++ " " +++ headRef.

Section ChangeSelector.

(** [execSync command cwd]. *)
Variable execSync : string -> string -> exec_result.

Definition getChangedMdPaths (repoRoot docsPrefix baseRef headRef : string)
    : outcome (option (list string)) :=
  let prefix := docsPrefixOf docsPrefix in
  match execSync (gitDiffCommand baseRef headRef) repoRoot with
  | ExecOutput out =>
      Returned (Some (uniq (collectChanged prefix (outputLines out))))
  | ExecError status =>
      match status with
      | Some 128%Z => Returned None
      | _ => Thrown status
      end
  end.

End ChangeSelector.
(** ** Content adapter ([src/markdown-to-blocks.ts]) *)

(** Data the adapter carries along without looking into it. *)
Inductive json : Type :=
| JNull
| JBool (b : bool)
| JNum (n : Z)
| JStr (s : string)
| JArr (items : list json)
| JObj (members : list (string * json)).

(** [{ url: string }] *)
Record Link := { url : string }.

(** [text?: { content: string; link?: { url: string } | null }]: a missing
    and a [null] link are both [None]; [content] is an option because the
    code guards it with [?? '']. *)
Record TextObject := {
  content : option string;
  link : option Link
}.

(** [interface RichTextItem]: [item_other] holds every further member
    ([plain_text], [annotations], [href], ...). *)
Record RichTextItem := {
  item_type : string;
  item_text : option TextObject;
  item_other : list (string * json)
}.

(** [interface NotionBlock] and [interface BlockProperty].  A block is its
    [type] and its other members in order; a member is either an object
    ([Property], with its optional [rich_text] and [children] arrays and its
    further members) or a value the sanitation leaves as it is ([Plain]:
    null, a string, a number, a boolean, an array). *)
Inductive NotionBlock : Type :=
| Block (block_type : string) (members : list (string * BlockMember))
with BlockMember : Type :=
| Property (rich_text : option (list RichTextItem))
           (children : option (list NotionBlock))
           (other : list (string * json))
| Plain (value : json).

(** What [markdownToBlocks] can do: throw, return something that is not an
    array, or return an array of blocks. *)
Inductive conversion : Type :=
| ConversionThrows
| ConversionNotArray (value : json)
| ConversionBlocks (blocks : list NotionBlock).

Definition text_item (s : string) : RichTextItem :=
  {| item_type := "text";
     item_text := Some {| content := Some s; link := None |};
     item_other := [] |}.

Definition paragraph_of (s : string) : NotionBlock :=
  Block "paragraph" [("paragraph", Property (Some [text_item s]) None [])].

Definition FALLBACK_BLOCK : NotionBlock := paragraph_of "(No content)".

Definition isValidNotionUrl (url : string) : bool :=
  let u := JS.trim url in
  JS.startsWith u "http://" || JS.startsWith u "https://".

(** The function [sanitizeRichText] maps over the items. *)
Definition sanitizeItem (item : RichTextItem) : RichTextItem :=
  match item_text item with
  | Some text =>
      if String.eqb (item_type item) "text" then
        {| item_type := "text";
           item_text :=
             Some {| content := Some (match content text with
                                      | Some c => c
                                      | None => EmptyString
                                      end);
                     link := match link text with
                             | Some l =>
                                 if negb (String.eqb (url l) EmptyString)
                                    && isValidNotionUrl (url l)
                                 then Some {| url := url l |}
                                 else None
                             | None => None
                             end |};
           item_other := [] |}
      else item
  | None => item
  end.

Definition sanitizeRichText (richText : list RichTextItem) : list RichTextItem :=
  map sanitizeItem richText.

(** [sanitizeBlocks]: every object member of every block gets its
    [rich_text] array sanitised and its [children] array sanitised in turn;
    [type] and all other members stay. *)
Fixpoint sanitizeBlock (b : NotionBlock) : NotionBlock :=
  match b with
  | Block block_type members =>
      Block block_type
        (map (fun km => match km with (key, m) => (key, sanitizeMember m) end)
             members)
  end
with sanitizeMember (m : BlockMember) : BlockMember :=
  match m with
  | Property rich_text children other =>
      Property (option_map sanitizeRichText rich_text)
               (option_map (map sanitizeBlock) children)
               other
  | Plain value => Plain value
  end.

Definition sanitizeBlocks (blocks : list NotionBlock) : list NotionBlock :=
  map sanitizeBlock blocks.

Definition ensureBlocksArray (blocks : conversion) : list NotionBlock :=
  match blocks with
  | ConversionBlocks (b :: bs) => b :: bs
  | _ => [FALLBACK_BLOCK]
  end.

Section ContentAdapter.

(** The converter of [@tryfabric/martian]. *)
Variable markdownToBlocks : string -> conversion.

Definition convertMarkdownToNotionBlocks (markdownContent : string)
    : list NotionBlock :=
  let blocks :=
    match markdownToBlocks markdownContent with
    | ConversionThrows =>
        let excerpt := JS.take 2000 markdownContent in
        ConversionBlocks
          [paragraph_of (if String.eqb excerpt EmptyString then "(empty)"
                         else excerpt)]
    | converted => converted
    end in
  sanitizeBlocks (ensureBlocksArray blocks).

End ContentAdapter.

(** All the rich-text items of a block list, through [rich_text] arrays and
    nested [children], in document order. *)
Fixpoint items_of_block (b : NotionBlock) : list RichTextItem :=
  match b with
  | Block _ members =>
      flat_map (fun km => match km with (_, m) => items_of_member m end) members
  end
with items_of_member (m : BlockMember) : list RichTextItem :=
  match m with
  | Property rich_text children _ =>
      match rich_text with Some items => items | None => [] end
      ++ match children with
         | Some blocks => flat_map items_of_block blocks
         | None => []
         end
  | Plain _ => []
  end.

Definition rich_items (blocks : list NotionBlock) : list RichTextItem :=
  flat_map items_of_block blocks.

(** A converter for the examples. *)
Definition sample_converter (md : string) : conversion :=
  if String.eqb md "boom" then ConversionThrows
  else if String.eqb md EmptyString then ConversionBlocks []
  else ConversionBlocks
    [Block "bulleted_list_item"
       [("object", Plain (JStr "block"));
        ("bulleted_list_item",
         Property
           (Some [{| item_type := "text";
                     item_text := Some {| content := Some "click";
                                          link := Some {| url := "javascript:alert(1)" |} |};
                     item_other := [("annotations", JObj [("bold", JBool true)])] |}])
           (Some [Block "paragraph"
                    [("paragraph",
                      Property
                        (Some [{| item_type := "text";
                                  item_text := Some {| content := Some "docs";
                                                       link := Some {| url := " https://example.org" |} |};
                                  item_other := [("plain_text", JStr "docs")] |};
                               {| item_type := "equation";
                                  item_text := None;
                                  item_other := [("equation", JObj [("expression", JStr "x")])] |}])
                        None [])]])
           [("color", JStr "default")])]].

(** *** Every link of a block list

    The links of all the text items a block list holds: those of its
    [rich_text] arrays, and those held as data in other members (the
    [cells] of a table row, a caption). *)

Definition json_member (k : string) (j : json) : option json :=
  match j with
  | JObj members =>
      option_map snd (find (fun km => String.eqb (fst km) k) members)
  | _ => None
  end.

(** The URL of the link of [j], when [j] is a text item with a link. *)
Definition json_item_link_url (j : json) : list string :=
  match json_member "type" j, json_member "text" j with
  | Some (JStr t), Some text =>
      if String.eqb t "text" then
        match json_member "link" text with
        | Some l => match json_member "url" l with
                    | Some (JStr u) => [u]
                    | _ => []
                    end
        | None => []
        end
      else []
  | _, _ => []
  end.

Fixpoint json_link_urls (j : json) : list string :=
  json_item_link_url j
  ++ match j with
     | JArr items => flat_map json_link_urls items
     | JObj members => flat_map (fun km => json_link_urls (snd km)) members
     | _ => []
     end.

Definition item_link_url (item : RichTextItem) : list string :=
  if String.eqb (item_type item) "text" then
    match item_text item with
    | Some text => match link text with
                   | Some l => [url l]
                   | None => []
                   end
    | None => []
    end
  else [].

Fixpoint link_urls_of_block (b : NotionBlock) : list string :=
  match b with
  | Block _ members =>
      flat_map (fun km => link_urls_of_member (snd km)) members
  end
with link_urls_of_member (m : BlockMember) : list string :=
  match m with
  | Property rich_text children other =>
      match rich_text with
      | Some items => flat_map item_link_url items
      | None => []
      end
      ++ match children with
         | Some blocks => flat_map link_urls_of_block blocks
         | None => []
         end
      ++ flat_map (fun km => json_link_urls (snd km)) other
  | Plain value => json_link_urls value
  end.

Definition link_urls (blocks : list NotionBlock) : list string :=
  flat_map link_urls_of_block blocks.

(** A table of one row and one cell, as the converter builds it for a
    table whose cell is a link with a script URL. *)
Definition sample_table : NotionBlock :=
  Block "table"
    [("object", Plain (JStr "block"));
     ("table",
      Property None
        (Some [Block "table_row"
                 [("object", Plain (JStr "block"));
                  ("table_row",
                   Property None None
                     [("cells",
                       JArr [JArr [JObj [("type", JStr "text");
                                         ("text",
                                          JObj [("content", JStr "click");
                                                ("link",
                                                 JObj [("url",
                                                        JStr "javascript:alert(1)")])])]]])])]])
        [("table_width", JNum 1); ("has_column_header", JBool false)])].
(** ** Effects: the Notion client and the files of the docs directory *)

(** The error a rejected API call carries, as [notionRetrievePageIfExists]
    reads it: [body.code], [code] and [status]. *)
Record ApiError := {
  body_code : option string;
  code : option string;
  status : option Z
}.

Inductive error : Type :=
| NotionFailure (e : ApiError)   (* a rejected API call *)
| FileFailure (path : string)    (* readFileSync / writeFileSync threw *)
| ExecFailure (status : option Z)  (* execSync threw, with that exit status *)
| Unfinished.                    (* a loop of the model ran out of fuel *)

(** [page.parent]: [{ type?: string; page_id?: string }] *)
Record ParentRef := {
  parent_type : option string;
  parent_page_id : option string
}.

Record Page := {
  id : string;
  parent : ParentRef
}.

(** A child block as [blocks.children.list] returns it: [child_title] is
    [child_page.title] when that is an array, with the [plain_text] of each
    segment. *)
Record ChildBlock := {
  child_id : string;
  child_type : string;
  child_title : option (list (option string))
}.

Record ListResponse := {
  results : list ChildBlock;
  next_cursor : option string
}.

(** The calls the engine makes on the client. *)
Inductive call : Type :=
| PagesRetrieve (page_id : string)
| PagesCreate (parent_id title : string) (children : option (list NotionBlock))
| PagesTrash (page_id : string)                (* pages.update, in_trash: true *)
| BlocksAppend (block_id : string) (children : list NotionBlock)
| BlocksList (block_id : string) (start_cursor : option string).

(** The client: what each endpoint answers, given the calls made before. *)
Record NotionClient := {
  pages_retrieve : list call -> string -> Page + ApiError;
  pages_create :
    list call -> string -> string -> option (list NotionBlock) -> Page + ApiError;
  pages_update_trash : list call -> string -> unit + ApiError;
  blocks_children_append : list call -> string -> list NotionBlock -> unit + ApiError;
  blocks_children_list : list call -> string -> option string -> ListResponse + ApiError
}.

(** The docs directory as [readdirSync] shows it. *)
Inductive dirent : Type :=
| RegularFile (name : string) (text : string)
| Directory (name : string) (entries : list dirent)
| OtherEntry (name : string).        (* neither a file nor a directory *)

(** What a run changes: the calls made so far (oldest first), the files, and
    the identifiers validated in this run. *)
Record state := {
  calls : list call;
  files : list dirent;
  validatedPageIds : list string
}.

Definition M (A : Type) : Type := state -> (A + error) * state.

Definition ret {A} (a : A) : M A := fun s => (inl a, s).
Definition throw {A} (e : error) : M A := fun s => (inr e, s).
Definition bind {A B} (m : M A) (f : A -> M B) : M B :=
  fun s => match m s with
           | (inl a, s') => f a s'
           | (inr e, s') => (inr e, s')
           end.

Notation "x <- m ;; k" := (bind m (fun x => k))
  (at level 61, m at next level, right associativity).
Notation "m ;;; k" := (bind m (fun _ => k))
  (at level 61, right associativity).

(** One call on the client: it is recorded, and a rejection is thrown. *)
Definition request {A} (c : call) (answer : list call -> A + ApiError) : M A :=
  fun s =>
    let s' := {| calls := calls s ++ [c]; files := files s;
                 validatedPageIds := validatedPageIds s |} in
    match answer (calls s) with
    | inl a => (inl a, s')
    | inr e => (inr (NotionFailure e), s')
    end.

Definition entry_name (e : dirent) : string :=
  match e with
  | RegularFile n _ => n
  | Directory n _ => n
  | OtherEntry n => n
  end.

(** The entry of a directory with a given name. *)
Fixpoint find_entry (name : string) (entries : list dirent) : option dirent :=
  match entries with
  | [] => None
  | e :: rest =>
      if String.eqb (entry_name e) name then Some e else find_entry name rest
  end.

Definition find_file (name : string) (entries : list dirent) : option string :=
  match find_entry name entries with
  | Some (RegularFile _ text) => Some text
  | _ => None
  end.

Definition find_dir (name : string) (entries : list dirent) : option (list dirent) :=
  match find_entry name entries with
  | Some (Directory _ sub) => Some sub
  | _ => None
  end.

(** The text of the file at a path given by its segments. *)
Fixpoint read_path (segments : list string) (entries : list dirent) : option string :=
  match segments with
  | [] => None
  | [name] => find_file name entries
  | dir :: rest =>
      match find_dir dir entries with
      | Some sub => read_path rest sub
      | None => None
      end
  end.

(** Writing a file in a directory: the file is replaced, or created when no
    entry has its name; a name taken by something else is an error. *)
Fixpoint write_file (name text : string) (entries : list dirent)
    : option (list dirent) :=
  match entries with
  | [] => Some [RegularFile name text]
  | e :: rest =>
      if String.eqb (entry_name e) name then
        match e with
        | RegularFile _ _ => Some (RegularFile name text :: rest)
        | _ => None
        end
      else option_map (cons e) (write_file name text rest)
  end.

Fixpoint update_dir (name : string)
    (f : list dirent -> option (list dirent)) (entries : list dirent)
    : option (list dirent) :=
  match entries with
  | [] => None
  | e :: rest =>
      if String.eqb (entry_name e) name then
        match e with
        | Directory _ sub => option_map (fun sub' => Directory name sub' :: rest) (f sub)
        | _ => None
        end
      else option_map (cons e) (update_dir name f rest)
  end.

Fixpoint write_path (segments : list string) (text : string) (entries : list dirent)
    : option (list dirent) :=
  match segments with
  | [] => None
  | [name] => write_file name text entries
  | dir :: rest => update_dir dir (write_path rest text) entries
  end.

(** [readFileSync(join(docsDir, relPath), 'utf-8')] *)
Definition readFileSync (relPath : string) : M string :=
  fun s =>
    match read_path (JS.split_char "/" relPath) (files s) with
    | Some text => (inl text, s)
    | None => (inr (FileFailure relPath), s)
    end.

(** [writeFileSync(join(docsDir, relPath), text, 'utf-8')] *)
Definition writeFileSync (relPath text : string) : M unit :=
  fun s =>
    match write_path (JS.split_char "/" relPath) text (files s) with
    | Some files' =>
        (inl tt, {| calls := calls s; files := files';
                    validatedPageIds := validatedPageIds s |})
    | None => (inr (FileFailure relPath), s)
    end.
(** ** Notion helpers ([src/notion-helpers.ts]) *)

(** A [Map<string, string>] in insertion order, and a [Set<string>]. *)
Definition StringMap : Type := list (string * string).
Definition Map_get (k : string) (m : StringMap) : option string := obj_get k m.
Definition Map_has (k : string) (m : StringMap) : bool :=
  match Map_get k m with Some _ => true | None => false end.
Definition Map_set (k v : string) (m : StringMap) : StringMap := obj_define k v m.

Definition StringSet : Type := list string.
Definition Set_has (x : string) (s : StringSet) : bool := existsb (String.eqb x) s.
Definition Set_add (x : string) (s : StringSet) : StringSet :=
  if Set_has x s then s else s ++ [x].

(** Replacing every maximal run of characters of a class by [r], as
    [s.replace(/[-_]+/g, ' ')] and [s.replace(/\s+/g, ' ')] do; [in_run]
    tells whether the previous character was in the class. *)
Fixpoint collapse_runs (p : ascii -> bool) (r : ascii) (in_run : bool) (s : string)
    : string :=
  match s with
  | EmptyString => EmptyString
  | String c s' =>
      if p c then
        if in_run then collapse_runs p r true s'
        else String r (collapse_runs p r true s')
      else String c (collapse_runs p r false s')
  end.

Definition is_dash_or_underscore (c : ascii) : bool :=
  (JS.code c =? 45) || (JS.code c =? 95).

Definition normalizeTitleForMatch (s : string) : string :=
  JS.trim
    (collapse_runs JS.is_space " " false
       (collapse_runs is_dash_or_underscore " " false
          (JS.toLowerCase (JS.trim s)))).

Definition titlesMatch (a b : string) : bool :=
  let x := normalizeTitleForMatch a in
  let y := normalizeTitleForMatch b in
  (0 <? String.length x) && String.eqb x y.

Definition getBlockTitle (block : ChildBlock) : string :=
  match child_title block with
  | None => EmptyString
  | Some titleArr =>
      JS.trim (String.concat EmptyString
                 (map (fun t => match t with Some p => p | None => EmptyString end)
                      titleArr))
  end.

Definition is_not_found (e : ApiError) : bool :=
  let c := match body_code e with Some c => Some c | None => code e end in
  match c with
  | Some c => String.eqb c "object_not_found"
  | None => false
  end
  || match status e with
     | Some st => (st =? 404)%Z
     | None => false
     end.

Definition getParentPageId (page : Page) : option string :=
  match parent_type (parent page) with
  | Some t => if String.eqb t "page_id" then parent_page_id (parent page) else None
  | None => None
  end.

Section NotionHelpers.

Variable notion : NotionClient.

(** The [do ... while (cursor)] loop of [findFirstChildPageByTitle]; every
    page of results costs one unit of [fuel]. *)
Fixpoint findFirstChildPage_loop (fuel : nat) (parentPageId normalizedSearch : string)
    (cursor : option string) : M (option string) :=
  match fuel with
  | O => throw Unfinished
  | S fuel' =>
      resp <- request (BlocksList parentPageId cursor)
                (fun h => blocks_children_list notion h parentPageId cursor) ;;
      match find (fun b => String.eqb (child_type b) "child_page"
                           && String.eqb (normalizeTitleForMatch (getBlockTitle b))
                                         normalizedSearch)
                 (results resp) with
      | Some b => ret (Some (child_id b))
      | None =>
          match next_cursor resp with
          | Some c =>
              if String.eqb c EmptyString then ret None
              else findFirstChildPage_loop fuel' parentPageId normalizedSearch (Some c)
          | None => ret None
          end
      end
  end.

Definition findFirstChildPageByTitle (fuel : nat) (parentPageId title : string)
    : M (option string) :=
  let normalizedSearch := normalizeTitleForMatch title in
  if String.eqb normalizedSearch EmptyString then ret None
  else findFirstChildPage_loop fuel parentPageId normalizedSearch None.

Definition getOrCreateFolderPage (fuel : nat) (parentPageId folderTitle : string)
    : M string :=
  existingId <- findFirstChildPageByTitle fuel parentPageId folderTitle ;;
  match existingId with
  | Some existing =>
      if negb (String.eqb existing EmptyString) then ret existing
      else
        page <- request (PagesCreate parentPageId folderTitle None)
                  (fun h => pages_create notion h parentPageId folderTitle None) ;;
        ret (id page)
  | None =>
      page <- request (PagesCreate parentPageId folderTitle None)
                (fun h => pages_create notion h parentPageId folderTitle None) ;;
      ret (id page)
  end.

(** The [for (const folderTitle of folderTitles)] loop on the copied cache. *)
Fixpoint ensureFolderPages_loop (fuel : nat) (rootPageId : string)
    (folderTitles : list string) (cache : StringMap) : M StringMap :=
  match folderTitles with
  | [] => ret cache
  | folderTitle :: rest =>
      if Map_has folderTitle cache
      then ensureFolderPages_loop fuel rootPageId rest cache
      else
        pageId <- getOrCreateFolderPage fuel rootPageId folderTitle ;;
        ensureFolderPages_loop fuel rootPageId rest (Map_set folderTitle pageId cache)
  end.

Definition ensureFolderPagesCache (fuel : nat) (rootPageId : string)
    (folderTitles : StringSet) (initialCache : StringMap) : M StringMap :=
  ensureFolderPages_loop fuel rootPageId folderTitles initialCache.

Definition sendPageToTrash (pageId : string) : M unit :=
  request (PagesTrash pageId) (fun h => pages_update_trash notion h pageId).

(** The [for (const chunk of rest)] loop of [createSubpage]. *)
Fixpoint appendChunks (pageId : string) (rest : list (list NotionBlock)) : M unit :=
  match rest with
  | [] => ret tt
  | chunk :: rest' =>
      request (BlocksAppend pageId chunk)
        (fun h => blocks_children_append notion h pageId chunk) ;;;
      appendChunks pageId rest'
  end.

Definition createSubpage (parentPageId title : string)
    (blockChunks : list (list NotionBlock)) : M string :=
  let first := hd_error blockChunks in
  let rest := tl blockChunks in
  page <- request (PagesCreate parentPageId title first)
            (fun h => pages_create notion h parentPageId title first) ;;
  appendChunks (id page) rest ;;;
  ret (id page).

Definition notionRetrievePageIfExists (pageId : string) : M (option Page) :=
  fun s =>
    match request (PagesRetrieve pageId)
                  (fun h => pages_retrieve notion h pageId) s with
    | (inl page, s') => (inl (Some page), s')
    | (inr (NotionFailure e), s') =>
        if is_not_found e then (inl None, s') else (inr (NotionFailure e), s')
    | (inr e, s') => (inr e, s')
    end.

End NotionHelpers.
(** ** Per-document sync ([src/sync-docs-to-notion.ts], lines 118-178) *)

Inductive SyncAction : Type := created | updated.

Record SyncResult := {
  action : SyncAction;
  title : string;
  relPath : string;
  parent_label : string     (* the member [parent] of the source *)
}.

Definition resolveNotionParentId (rootPageId : string) (folderTitle : option string)
    (folderPageCache : StringMap) : string :=
  match folderTitle with
  | None => rootPageId
  | Some t =>
      match Map_get t folderPageCache with
      | Some pageId => pageId
      | None => rootPageId
      end
  end.

Definition validate (pageId : string) : M unit :=
  fun s => (inl tt, {| calls := calls s; files := files s;
                       validatedPageIds := Set_add pageId (validatedPageIds s) |}).

Definition isValidated (pageId : string) : M bool :=
  fun s => (inl (Set_has pageId (validatedPageIds s)), s).

Definition orFail {A} (o : option A) : M A :=
  match o with
  | Some a => ret a
  | None => throw Unfinished
  end.

Section SyncOneDoc.

Variable notion : NotionClient.
Variable markdownToBlocks : string -> conversion.

Definition resolveExistingDocPageId (notionPageIdFromFrontmatter : option string)
    : M (option string) :=
  let pageId := match notionPageIdFromFrontmatter with
                | Some x => JS.trim x
                | None => EmptyString
                end in
  if String.eqb pageId EmptyString then ret None
  else
    known <- isValidated pageId ;;
    if (known : bool) then ret (Some pageId)
    else
      page <- notionRetrievePageIfExists notion pageId ;;
      match page with
      | Some _ => validate pageId ;;; ret (Some pageId)
      | None => ret None
      end.

Definition syncOneDoc (rootPageId : string) (folderPageCache : StringMap)
    (path : string) : M SyncResult :=
  rawContent <- readFileSync path ;;
  let parsed := parseMdWithNotionId rawContent in
  let names := parseRelPath path in
  let blocks := convertMarkdownToNotionBlocks markdownToBlocks (body parsed) in
  blockChunks <- orFail (chunkBlocks blocks NOTION_BLOCK_CHUNK_SIZE) ;;
  let parentPageId :=
    resolveNotionParentId rootPageId (folderTitle names) folderPageCache in
  let label := match folderTitle names with
               | Some t => t
               | None => "(root)"
               end in
  existingPageId <- resolveExistingDocPageId (notionPageId parsed) ;;
  match existingPageId with
  | Some existing =>
      sendPageToTrash notion existing ;;;
      newPageId <- createSubpage notion parentPageId (docTitle names) blockChunks ;;
      writeFileSync path
        (stringifyMdWithNotionId (body parsed) (data parsed) newPageId) ;;;
      ret {| action := updated; title := docTitle names; relPath := path;
             parent_label := label |}
  | None =>
      newPageId <- createSubpage notion parentPageId (docTitle names) blockChunks ;;
      writeFileSync path
        (stringifyMdWithNotionId (body parsed) (data parsed) newPageId) ;;;
      ret {| action := created; title := docTitle names; relPath := path;
             parent_label := label |}
  end.

End SyncOneDoc.

(** The state after the further calls [cs]. *)
Definition with_calls (s : state) (cs : list call) : state :=
  {| calls := calls s ++ cs; files := files s;
     validatedPageIds := validatedPageIds s |}.

(** The calls of [createSubpage] for a page that comes back as [newPageId]:
    the creation with the first chunk, then one append per other chunk. *)
Definition creation_calls (parentPageId title : string)
    (chunks : list (list NotionBlock)) (newPageId : string) : list call :=
  PagesCreate parentPageId title (hd_error chunks)
  :: map (BlocksAppend newPageId) (tl chunks).

(** ** File collection and the working set of a run
    ([src/sync-docs-to-notion.ts], lines 34-47 and 184-221; [run] of the
    action entry point) *)

(** [Array.prototype.sort()] without a comparator orders strings by their
    code units. *)
Fixpoint insert_sorted (x : string) (l : list string) : list string :=
  match l with
  | [] => [x]
  | y :: l' => if String.leb x y then x :: l else y :: insert_sorted x l'
  end.

Definition sort_strings (l : list string) : list string :=
  fold_right insert_sorted [] l.

(** [relative(base, join(dir, name))] for a directory [dir] at the relative
    path [rel] under [base]. *)
Definition join_rel (rel name : string) : string :=
  if String.eqb rel EmptyString then name else rel +++ "/" +++ name.

(** What one entry of a directory at [rel] adds to [files]: for a
    subdirectory, the result of the recursive call of [collectMdFiles]. *)
Fixpoint collectEntry (rel : string) (e : dirent) : list string :=
  match e with
  | Directory name sub =>
      sort_strings (flat_map (collectEntry (join_rel rel name)) sub)
  | RegularFile name _ =>
      if JS.endsWith (JS.toLowerCase name) ".md"
      then [JS.backslashes_to_slashes (join_rel rel name)]
      else []
  | OtherEntry _ => []
  end.

Definition collectMdFiles (entries : list dirent) (rel : string) : list string :=
  sort_strings (flat_map (collectEntry rel) entries).

(** Does the decoded document lack an identifier (none, or empty once
    trimmed)? *)
Definition lacksPageId (raw : string) : bool :=
  String.eqb (match notionPageId (parseMdWithNotionId raw) with
              | Some x => JS.trim x
              | None => EmptyString
              end) EmptyString.

(** A document of the state that can be read and lacks an identifier. *)
Definition unsynced (s : state) (path : string) : Prop :=
  exists raw, read_path (JS.split_char "/" path) (files s) = Some raw
              /\ lacksPageId raw = true.

(** The [for (const relPath of allMd)] loop of [addDocsWithoutPageId]. *)
Fixpoint addDocsWithoutPageId_loop (allMd : list string) (relPathsSet : StringSet)
    : M StringSet :=
  match allMd with
  | [] => ret relPathsSet
  | path :: rest =>
      raw <- readFileSync path ;;
      addDocsWithoutPageId_loop rest
        (if lacksPageId raw then Set_add path relPathsSet else relPathsSet)
  end.

Definition addDocsWithoutPageId (relPathsSet : StringSet) : M StringSet :=
  fun s => addDocsWithoutPageId_loop (collectMdFiles (files s) EmptyString) relPathsSet s.

(** [new Set(paths)] *)
Definition Set_of (paths : list string) : StringSet :=
  fold_left (fun set x => Set_add x set) paths [].

(** The list [mdFiles] of [runSync]: the documents it syncs. *)
Definition mdFilesOf (optionalRelPaths : option (list string)) : M (list string) :=
  match optionalRelPaths with
  | Some paths =>
      set <- addDocsWithoutPageId (Set_of paths) ;;
      ret (sort_strings set)
  | None => fun s => (inl (collectMdFiles (files s) EmptyString), s)
  end.

(** [getDocsPrefix] of the entry point: forward slashes, no leading [./],
    one trailing slash. *)
Definition getDocsPrefix (rawDocsDir : string) : string :=
  let slashed := JS.backslashes_to_slashes rawDocsDir in
  let cleaned := if JS.startsWith slashed "./" then JS.drop 2 slashed else slashed in
  if JS.endsWith cleaned "/" then cleaned else cleaned +++ "/".

(** The inputs of the action that decide which files are synced. *)
Record RunInputs := {
  rawDocsDir : string;
  syncMode : string;
  gitBefore : string;
  gitAfter : string
}.

Section EntryPoint.

Variable execSync : string -> string -> exec_result.
Variable repoRoot : string.

(** The part of [run] from "determine which files to sync" to the call of
    [runSync], up to the list of documents [runSync] goes through; the early
    return of [run] syncs nothing. *)
Definition documentsSynced (inputs : RunInputs) : M (list string) :=
  if String.eqb (syncMode inputs) "changed" then
    if negb (String.eqb (gitBefore inputs) EmptyString)
       && negb (String.eqb (gitAfter inputs) EmptyString)
    then
      match getChangedMdPaths execSync repoRoot (getDocsPrefix (rawDocsDir inputs))
                              (gitBefore inputs) (gitAfter inputs) with
      | Thrown st => throw (ExecFailure st)
      | Returned None => mdFilesOf None
      | Returned (Some []) => ret []
      | Returned (Some changed) => mdFilesOf (Some changed)
      end
    else mdFilesOf None
  else mdFilesOf None.

End EntryPoint.
(** ** Concurrency runner ([src/notion-helpers.ts], lines 214-234)

    JavaScript runs the workers on one thread: a worker runs until its
    [await], and goes on when the promise it awaits settles.  The order in
    which the promises of the tasks settle is not decided by the program; it
    is the schedule below. *)

Module Runner.

Section Pool.

Variables T E : Type.

(** The number of task producers, and how the promise of each task settles:
    fulfilled with a value or rejected with an error. *)
Variable taskCount : nat.
Variable settle : nat -> T + E.

(** A worker is suspended at [await taskFns[i]()], or has returned, or has
    thrown the error of a rejected task. *)
Inductive worker : Type :=
| Awaiting (i : nat)
| Done
| Failed (e : E).

(** The variables the workers share ([index], [results]), the workers, and
    the first rejection among them, which is what [Promise.all] rejects
    with. *)
Record pool := {
  index : nat;
  results : list (option T);
  workers : list worker;
  rejection : option E
}.

Fixpoint set_nth {A} (l : list A) (i : nat) (x : A) : list A :=
  match l, i with
  | [], _ => []
  | _ :: l', O => x :: l'
  | y :: l', S i' => y :: set_nth l' i' x
  end.

(** A worker at the test of its [while] loop: it claims the next index and
    starts that task, or returns. *)
Definition next (p : pool) : worker * nat :=
  if index p <? taskCount then (Awaiting (index p), S (index p))
  else (Done, index p).

(** [() => worker()] in [Array.from]: one more worker, run up to its first
    [await]. *)
Definition spawn (p : pool) : pool :=
  {| index := snd (next p); results := results p;
     workers := workers p ++ [fst (next p)]; rejection := rejection p |}.

(** The state when [Promise.all(workers)] is awaited. *)
Definition start (concurrency : nat) : pool :=
  Nat.iter (Nat.min concurrency taskCount) spawn
    {| index := 0; results := repeat None taskCount; workers := [];
       rejection := None |}.

(** The promise awaited by worker [w] settles.  Fulfilled: the worker stores
    the value at the index it claimed and goes round its loop.  Rejected:
    the [await] throws and the worker's promise is rejected. *)
Definition step (w : nat) (p : pool) : option pool :=
  match nth_error (workers p) w with
  | Some (Awaiting i) =>
      match settle i with
      | inl v =>
          let p' := {| index := index p; results := set_nth (results p) i (Some v);
                       workers := workers p; rejection := rejection p |} in
          Some {| index := snd (next p'); results := results p';
                  workers := set_nth (workers p') w (fst (next p'));
                  rejection := rejection p' |}
      | inr e =>
          Some {| index := index p; results := results p;
                  workers := set_nth (workers p) w (Failed e);
                  rejection := match rejection p with
                               | Some first => Some first
                               | None => Some e
                               end |}
      end
  | _ => None
  end.

(** A schedule: the workers whose promises settle, in order. *)
Fixpoint exec (schedule : list nat) (p : pool) : option pool :=
  match schedule with
  | [] => Some p
  | w :: rest =>
      match step w p with
      | Some p' => exec rest p'
      | None => None
      end
  end.

Inductive promise : Type :=
| Pending
| Fulfilled (value : list (option T))
| Rejected (reason : E).

Definition is_done (w : worker) : bool :=
  match w with Done => true | _ => false end.

Definition is_awaiting (w : worker) : bool :=
  match w with Awaiting _ => true | _ => false end.

(** The promise [runWithConcurrency] returns: rejected with the first
    rejection of a worker, fulfilled with [results] once every worker has
    returned. *)
Definition outcome (p : pool) : promise :=
  match rejection p with
  | Some e => Rejected e
  | None => if forallb is_done (workers p) then Fulfilled (results p) else Pending
  end.

(** The tasks started and not yet settled. *)
Definition in_flight (p : pool) : nat :=
  List.length (filter is_awaiting (workers p)).

(** What holds of the pool all along a run with [m] workers. *)
Record invariant (m : nat) (p : pool) : Prop := {
  inv_results : List.length (results p) = taskCount;
  inv_workers : List.length (workers p) = m;
  inv_index : index p <= taskCount;
  inv_stored : forall i v, nth_error (results p) i = Some (Some v) -> settle i = inl v;
  inv_claimed : forall i, i < index p ->
    (exists w, nth_error (workers p) w = Some (Awaiting i))
    \/ (exists v, nth_error (results p) i = Some (Some v))
    \/ rejection p <> None;
  inv_awaited : forall w i, nth_error (workers p) w = Some (Awaiting i) -> i < index p;
  inv_done : forall w, nth_error (workers p) w = Some Done -> taskCount <= index p;
  inv_failed : forall w e, nth_error (workers p) w = Some (Failed e) -> rejection p <> None
}.

(** The steps still to come: the tasks not yet claimed and those in
    flight. *)
Definition budget (p : pool) : nat := (taskCount - index p) + in_flight p.

End Pool.

Arguments index {T E} p.
Arguments results {T E} p.
Arguments workers {T E} p.
Arguments rejection {T E} p.
Arguments next {T E} taskCount p.
Arguments spawn {T E} taskCount p.
Arguments step {T E} taskCount settle w p.
Arguments exec {T E} taskCount settle schedule p.
Arguments outcome {T E} p.
Arguments in_flight {T E} p.
Arguments is_done {E} w.
Arguments invariant {T E} taskCount settle m p.
Arguments budget {T E} taskCount p.
Arguments inv_results {T E taskCount settle m p} _.
Arguments inv_workers {T E taskCount settle m p} _.
Arguments inv_stored {T E taskCount settle m p} _.
Arguments inv_claimed {T E taskCount settle m p} _.
Arguments inv_done {T E taskCount settle m p} _.
Arguments inv_failed {T E taskCount settle m p} _.
Arguments is_awaiting {E} w.
Arguments Awaiting {E} i.
Arguments Done {E}.
Arguments Failed {E} e.
Arguments Pending {T E}.
Arguments Fulfilled {T E} value.
Arguments Rejected {T E} reason.

End Runner.
(** ** A client and a docs directory for the examples *)

Definition string_of_nat (n : nat) : string :=
  DecimalString.NilEmpty.string_of_uint (Nat.to_uint n).

Definition sample_page (pageId parentId : string) : Page :=
  {| id := pageId;
     parent := {| parent_type := Some "page_id"; parent_page_id := Some parentId |} |}.

Definition not_found_error : ApiError :=
  {| body_code := Some "object_not_found"; code := None; status := Some 404%Z |}.

(** A workspace whose root has one child page, the folder ["Guides"], with
    one document page ["known-1"] in it; a created page is named after the
    number of calls made before. *)
Definition sample_client : NotionClient :=
  {| pages_retrieve := fun _ pageId =>
       if String.eqb pageId "known-1"
       then inl (sample_page "known-1" "folder-guides")
       else inr not_found_error;
     pages_create := fun h parentId _ _ =>
       inl (sample_page ("new-" +++ string_of_nat (List.length h)) parentId);
     pages_update_trash := fun _ _ => inl tt;
     blocks_children_append := fun _ _ _ => inl tt;
     blocks_children_list := fun _ _ _ =>
       inl {| results := [{| child_id := "folder-guides";
                             child_type := "child_page";
                             child_title := Some [Some "Guides"] |}];
              next_cursor := None |} |}.

Definition sample_docs : list dirent :=
  [ RegularFile "intro.md" "# Intro";
    Directory "guides"
      [ RegularFile "setup.md"
          ("---" +++ String Regex.LF ("notion_page_id: known-1" +++ String Regex.LF
           ("---" +++ String Regex.LF "# Setup")));
        RegularFile "stale.md"
          ("---" +++ String Regex.LF ("notion_page_id: gone-9" +++ String Regex.LF
           ("---" +++ String Regex.LF "# Stale")));
        RegularFile "logo.png" "PNG" ] ].

Definition sample_state : state :=
  {| calls := []; files := sample_docs; validatedPageIds := [] |}.
From Stdlib Require Import Sorted.

(** ** Further notions for the properties of the helpers and of a run *)

(** A child page the client lists under [parentPageId] whose title matches
    [title]. *)
Definition listed_match (notion : NotionClient) (parentPageId title pageId : string)
    : Prop :=
  exists h cursor resp b,
    blocks_children_list notion h parentPageId cursor = inl resp
    /\ In b (results resp)
    /\ child_type b = "child_page"
    /\ titlesMatch (getBlockTitle b) title = true
    /\ child_id b = pageId.

(** ** The rest of a run ([src/sync-docs-to-notion.ts], lines 93-100 and
    234-250) *)

(** [getUniqueFolderTitles]: the folder titles of the paths, each once, in
    the order of their first document. *)
Definition getUniqueFolderTitles (relPaths : list string) : StringSet :=
  fold_left (fun set relPath =>
               match folderTitle (parseRelPath relPath) with
               | Some t => Set_add t set
               | None => set
               end) relPaths [].

(** One task of the pre-pass of [runSync].  The map [initialFolderCache],
    which the tasks share, is passed in and returned: a task only writes to
    it, after its one [await]. *)
Definition prePassTask (notion : NotionClient) (relPath : string)
    (initialFolderCache : StringMap) : M StringMap :=
  rawContent <- readFileSync relPath ;;
  let parsed := parseMdWithNotionId rawContent in
  let names := parseRelPath relPath in
  match notionPageId parsed with
  | None => ret initialFolderCache
  | Some pageId =>
      page <- notionRetrievePageIfExists notion pageId ;;
      match page with
      | None => ret initialFolderCache
      | Some page =>
          validate pageId ;;;
          match folderTitle names with
          | None => ret initialFolderCache
          | Some t =>
              match getParentPageId page with
              | Some parentId =>
                  if negb (String.eqb parentId EmptyString)
                  then ret (Map_set t parentId initialFolderCache)
                  else ret initialFolderCache
              | None => ret initialFolderCache
              end
          end
      end
  end.

(** A client that accepts what [sample_client] accepts, except that it
    rejects every page creation. *)
Definition unavailable : ApiError :=
  {| body_code := None; code := Some "service_unavailable"; status := Some 503%Z |}.

Definition read_only_client : NotionClient :=
  {| pages_retrieve := pages_retrieve sample_client;
     pages_create := fun _ _ _ _ => inr unavailable;
     pages_update_trash := pages_update_trash sample_client;
     blocks_children_append := blocks_children_append sample_client;
     blocks_children_list := blocks_children_list sample_client |}.

(** ** Well-formed docs directories *)

(** A name as a directory listing gives it: not empty, and without slash or
    backslash. *)
Definition plain_char (c : ascii) : bool :=
  negb (Ascii.eqb c "/") && negb (JS.code c =? 92).

(** The characters of a relative directory: all but the backslash. *)
Definition rel_char (c : ascii) : bool := negb (JS.code c =? 92).

Definition plain_name (n : string) : bool :=
  negb (String.eqb n EmptyString) && all_chars plain_char n.

Fixpoint distinct (l : list string) : bool :=
  match l with
  | [] => true
  | x :: l' => negb (existsb (String.eqb x) l') && distinct l'
  end.

(** Every name is plain and no directory holds two entries of one name. *)
Fixpoint entry_ok (e : dirent) : bool :=
  match e with
  | RegularFile name _ => plain_name name
  | Directory name sub =>
      plain_name name && forallb entry_ok sub && distinct (map entry_name sub)
  | OtherEntry name => plain_name name
  end.

Definition docs_ok (entries : list dirent) : bool :=
  forallb entry_ok entries && distinct (map entry_name entries).

(** The order of [Array.prototype.sort()] on strings. *)
Definition sorted_strings (l : list string) : Prop :=
  Sorted (fun a b => String.leb a b = true) l.

(** ** Normal forms of titles *)

(** A character that lower-casing leaves alone. *)
Definition lowered (c : ascii) : bool := Ascii.eqb (JS.lower_char c) c.

(** White space in single spaces only; [prev] tells whether the character
    before is white space. *)
Fixpoint spaced (prev : bool) (s : string) : bool :=
  match s with
  | EmptyString => true
  | String c s' =>
      if JS.is_space c then negb prev && Ascii.eqb c " " && spaced true s'
      else spaced false s'
  end.


(** ** The runner: each task is claimed once *)

(** No two workers await the same task, the slot of an awaited task is
    still empty, and so are the slots of the tasks not yet claimed. *)
Definition claimed_once {T E} (taskCount : nat) (p : Runner.pool T E) : Prop :=
  (forall w1 w2 i,
     nth_error (Runner.workers p) w1 = Some (Runner.Awaiting i) ->
     nth_error (Runner.workers p) w2 = Some (Runner.Awaiting i) -> w1 = w2)
  /\ (forall w i,
        nth_error (Runner.workers p) w = Some (Runner.Awaiting i) ->
        nth_error (Runner.results p) i = Some None)
  /\ (forall j, Runner.index p <= j -> j < taskCount ->
        nth_error (Runner.results p) j = Some None).
(** ** A run with one worker

    With [concurrency] 1, [runWithConcurrency] has one worker, which takes
    the tasks in index order and stops at the first one that fails: each
    pass of [runSync] is then its tasks one after the other. *)

(** The pre-pass: [runWithConcurrency(prePassTasks, 1)]. *)
Fixpoint prePass (notion : NotionClient) (mdFiles : list string)
    (initialFolderCache : StringMap) : M StringMap :=
  match mdFiles with
  | [] => ret initialFolderCache
  | relPath :: rest =>
      cache <- prePassTask notion relPath initialFolderCache ;;
      prePass notion rest cache
  end.

(** The main pass: [runWithConcurrency(taskFns, 1)]. *)
Fixpoint syncAll (notion : NotionClient) (markdownToBlocks : string -> conversion)
    (rootPageId : string) (folderPageCache : StringMap) (mdFiles : list string)
    : M (list SyncResult) :=
  match mdFiles with
  | [] => ret []
  | relPath :: rest =>
      result <- syncOneDoc notion markdownToBlocks rootPageId folderPageCache relPath ;;
      results <- syncAll notion markdownToBlocks rootPageId folderPageCache rest ;;
      ret (result :: results)
  end.

(** [const validatedPageIds = new Set<string>()] *)
Definition newValidatedPageIds : M unit :=
  fun s => (inl tt, {| calls := calls s; files := files s; validatedPageIds := [] |}).

(** [runSync] with [concurrency] 1; [fuel] bounds the pages of a listing. *)
Definition runSync_sequential (notion : NotionClient)
    (markdownToBlocks : string -> conversion) (fuel : nat) (rootPageId : string)
    (optionalRelPaths : option (list string)) : M (list SyncResult) :=
  mdFiles <- mdFilesOf optionalRelPaths ;;
  match mdFiles with
  | [] => ret []
  | _ :: _ =>
      newValidatedPageIds ;;;
      initialFolderCache <- prePass notion mdFiles [] ;;
      folderPageCache <-
        ensureFolderPagesCache notion fuel rootPageId
          (getUniqueFolderTitles mdFiles) initialFolderCache ;;
      syncAll notion markdownToBlocks rootPageId folderPageCache mdFiles
  end.

(** The calls of a page creation. *)
Definition is_creation_call (c : call) : bool :=
  match c with
  | PagesCreate _ _ _ => true
  | BlocksAppend _ _ => true
  | _ => false
  end.

(** A client whose created pages have identifiers the codec reads back:
    not empty, on one line, without backslash or white space at either end,
    as the identifiers of Notion are. *)
Definition good_identifiers (notion : NotionClient) : Prop :=
  forall h p t c page,
    pages_create notion h p t c = inl page ->
    value_ok (id page) = true /\ JS.trim (id page) = id page.

(** A character that is safe in an identifier: no white space, no quote,
    no backslash, no colon. *)
Definition safe_char (c : ascii) : bool :=
  negb (JS.is_space c) && negb (Ascii.eqb c Regex.DQ) && negb (Ascii.eqb c Regex.BSL)
  && negb (Ascii.eqb c ":") && negb (Ascii.eqb c Regex.SQ).

(** A workspace whose root lists a database and three pages, two of them
    titled like the folder ["guides"]. *)
Definition crowded_client : NotionClient :=
  {| pages_retrieve := pages_retrieve sample_client;
     pages_create := pages_create sample_client;
     pages_update_trash := pages_update_trash sample_client;
     blocks_children_append := blocks_children_append sample_client;
     blocks_children_list := fun _ _ _ =>
       inl {| results :=
                [{| child_id := "db-1"; child_type := "child_database";
                    child_title := Some [Some "Guides"] |};
                 {| child_id := "page-notes"; child_type := "child_page";
                    child_title := Some [Some "Notes"] |};
                 {| child_id := "page-first"; child_type := "child_page";
                    child_title := Some [Some "  GUIDES "] |};
                 {| child_id := "page-second"; child_type := "child_page";
                    child_title := Some [Some "Guides"] |}];
              next_cursor := Some "more" |} |}.

(* ================================================================== *)
(** * Part II: properties                                              *)
(* ================================================================== *)

(** ** Generic facts about strings *)

Section StringFacts.

Lemma append_empty_r (s : string) : s +++ EmptyString = s.
Proof. induction s; simpl; congruence. Qed.

Lemma append_assoc (a b c : string) : (a +++ b) +++ c = a +++ (b +++ c).
Proof. induction a; simpl; congruence. Qed.

Lemma length_append (a b : string) :
  String.length (a +++ b) = String.length a + String.length b.
Proof. induction a; simpl; congruence. Qed.

Lemma map_chars_append f (a b : string) :
  JS.map_chars f (a +++ b) = JS.map_chars f a +++ JS.map_chars f b.
Proof. induction a; simpl; congruence. Qed.

Lemma map_chars_length f (a : string) :
  String.length (JS.map_chars f a) = String.length a.
Proof. induction a; simpl; congruence. Qed.

Lemma drop_append (a b : string) : JS.drop (String.length a) (a +++ b) = b.
Proof. induction a; simpl; auto. Qed.

Lemma take_append (a b : string) : JS.take (String.length a) (a +++ b) = a.
Proof. induction a; simpl; [destruct b|]; congruence. Qed.

Lemma take_drop (n : nat) (s : string) : JS.take n s +++ JS.drop n s = s.
Proof.
  revert n. induction s as [|c s IH]; intros [|n]; cbn; try reflexivity.
  now rewrite IH.
Qed.

Lemma has_prefix_append (p s : string) : JS.has_prefix p (p +++ s) = true.
Proof.
  induction p as [|c p IH]; simpl; [reflexivity|].
  now rewrite Ascii.eqb_refl.
Qed.

Lemma endsWith_append (a p : string) : JS.endsWith (a +++ p) p = true.
Proof.
  unfold JS.endsWith. rewrite length_append.
  replace (String.length a + String.length p - String.length p)
    with (String.length a) by lia.
  rewrite drop_append, String.eqb_refl, andb_true_r.
  apply Nat.leb_le. lia.
Qed.

End StringFacts.

(** ** Path classifier *)

Section PathClassifier.

Lemma split_char_segment (s : string) :
  no_slash s = true -> JS.split_char "/" s = [s].
Proof.
  induction s as [|c s IH]; simpl; [reflexivity|].
  intros H. apply andb_true_iff in H as [Hc Hs].
  apply negb_true_iff in Hc. rewrite Hc, (IH Hs). reflexivity.
Qed.

Lemma split_char_cons (s rest : string) :
  no_slash s = true ->
  JS.split_char "/" (s +++ String "/" rest) = s :: JS.split_char "/" rest.
Proof.
  induction s as [|c s IH]; simpl; [reflexivity|].
  intros H. apply andb_true_iff in H as [Hc Hs].
  apply negb_true_iff in Hc. rewrite Hc, (IH Hs). reflexivity.
Qed.

(** Splitting a path built from slash-free segments gives the segments back. *)
Lemma split_char_concat (segs : list string) (final : string) :
  Forall (fun s => no_slash s = true) segs -> no_slash final = true ->
  JS.split_char "/" (String.concat "/" (segs ++ [final])) = segs ++ [final].
Proof.
  intros Hsegs Hfinal. induction Hsegs as [|s segs Hs _ IH]; simpl.
  - now apply split_char_segment.
  - destruct (segs ++ [final]) as [|x xs] eqn:E.
    + now destruct segs.
    + rewrite (split_char_cons s _ Hs), IH. reflexivity.
Qed.

Lemma concat_snoc_append (segs : list string) (b ext : string) :
  String.concat "/" (segs ++ [b +++ ext]) = String.concat "/" (segs ++ [b]) +++ ext.
Proof.
  induction segs as [|s segs IH]; simpl; [reflexivity|].
  destruct (segs ++ [b +++ ext]) as [|x xs] eqn:E1; [now destruct segs|].
  destruct (segs ++ [b]) as [|y ys] eqn:E2; [now destruct segs|].
  rewrite IH, !append_assoc. reflexivity.
Qed.

(** An extension that is [".md"] in some letter case is what
    [replace(/\.md$/i, '')] removes. *)
Lemma strip_md_ext_append (s ext : string) :
  JS.toLowerCase ext = ".md" -> JS.strip_md_ext (s +++ ext) = s.
Proof.
  intros Hext. unfold JS.strip_md_ext, JS.toLowerCase.
  rewrite map_chars_append. fold (JS.toLowerCase ext). rewrite Hext.
  rewrite endsWith_append, length_append.
  assert (Hlen : String.length ext = 3).
  { rewrite <- (map_chars_length JS.lower_char ext).
    fold (JS.toLowerCase ext). now rewrite Hext. }
  rewrite Hlen. replace (String.length s + 3 - 3) with (String.length s) by lia.
  apply take_append.
Qed.

Lemma last_snoc {A} (l : list A) (x d : A) : List.last (l ++ [x]) d = x.
Proof. apply last_last. Qed.

Lemma index_parent (dirs : list string) (b : string) :
  JS.index (dirs ++ [b]) (Z.of_nat (List.length (dirs ++ [b])) - 2)
  = match rev dirs with [] => None | parent :: _ => Some parent end.
Proof.
  unfold JS.index. rewrite length_app. simpl.
  destruct (rev dirs) as [|parent rd] eqn:E.
  - apply (f_equal (@rev _)) in E. rewrite rev_involutive in E. subst dirs.
    reflexivity.
  - apply (f_equal (@rev _)) in E. rewrite rev_involutive in E. subst dirs.
    simpl. rewrite length_app, length_rev. simpl.
    destruct (Z.ltb_spec (Z.of_nat (List.length rd + 1 + 1) - 2) 0); [lia|].
    replace (Z.to_nat (Z.of_nat (List.length rd + 1 + 1) - 2))
      with (List.length (rev rd)) by (rewrite length_rev; lia).
    rewrite <- app_assoc. rewrite nth_error_app2 by lia.
    rewrite Nat.sub_diag. reflexivity.
Qed.

(** The title and the folder of a path spelled out from its segments. *)
Lemma parseRelPath_segments (dirs : list string) (b ext : string) :
  Forall (fun s => no_slash s = true) dirs -> no_slash b = true ->
  JS.toLowerCase ext = ".md" ->
  let r := parseRelPath (String.concat "/" (dirs ++ [b +++ ext])) in
  docTitle r =
    (if String.eqb (JS.toUpperCase b) "README" then
       match rev dirs with
       | [] => "README"
       | parent :: _ =>
           if String.eqb parent EmptyString then "README" else JS.trim (titleCase parent)
       end
     else JS.trim (titleCase b))
  /\ folderTitle r =
       match dirs with
       | [] => None
       | top :: _ => Some (JS.trim (titleCase top))
       end.
Proof.
  intros Hdirs Hb Hext r. subst r.
  unfold parseRelPath, pathToDisplayTitle, normalizeTitle.
  rewrite concat_snoc_append, (strip_md_ext_append _ _ Hext).
  rewrite (split_char_concat dirs b Hdirs Hb).
  rewrite last_snoc, index_parent.
  assert (Hlen : (List.length (dirs ++ [b]) <=? 1)
                 = match dirs with [] => true | _ => false end).
  { rewrite length_app. simpl. destruct dirs; simpl; [reflexivity|].
    apply Nat.leb_gt. lia. }
  rewrite Hlen. destruct dirs as [|top ds]; simpl.
  - split; [|reflexivity].
    destruct (String.eqb (JS.toUpperCase b) "README"); reflexivity.
  - split; [|reflexivity].
    destruct (String.eqb (JS.toUpperCase b) "README"); [|reflexivity].
    destruct (rev ds ++ [top]) as [|parent rest]; [reflexivity|].
    destruct (String.eqb parent EmptyString); reflexivity.
Qed.

End PathClassifier.

(** C6 (as amended).  The three documented paths classify as stated:
    ["guides/setup.md"] gives title ["Setup"] and folder ["Guides"],
    ["guides/README.md"] gives ["Guides"] and ["Guides"], ["intro.md"] gives
    ["Intro"] and no folder.  In general, for a path made of slash-free
    directory segments [dirs], a final segment [b] and an extension that is
    [".md"] in some letter case: when [b] equals "readme" up to letter case the
    title is the name of the immediate parent directory, title-cased
    (dashes and underscores to spaces, first letter of each word upper-cased)
    and then trimmed, and it is the fixed string ["README"] when there is no
    parent directory or its name is empty; otherwise the title is [b]
    title-cased and trimmed.  The folder title is the first segment
    title-cased and trimmed for nested paths and absent at the root. *)
Theorem parseRelPath_classification :
  (docTitle (parseRelPath "guides/setup.md") = "Setup"
   /\ folderTitle (parseRelPath "guides/setup.md") = Some "Guides")
  /\ (docTitle (parseRelPath "guides/README.md") = "Guides"
      /\ folderTitle (parseRelPath "guides/README.md") = Some "Guides")
  /\ (docTitle (parseRelPath "intro.md") = "Intro"
      /\ folderTitle (parseRelPath "intro.md") = None)
  /\ forall (dirs : list string) (b ext : string),
       Forall (fun s => no_slash s = true) dirs -> no_slash b = true ->
       JS.toLowerCase ext = ".md" ->
       let r := parseRelPath (String.concat "/" (dirs ++ [b +++ ext])) in
       docTitle r =
         (if String.eqb (JS.toUpperCase b) "README" then
            match rev dirs with
            | [] => "README"
            | parent :: _ =>
                if String.eqb parent EmptyString then "README"
                else JS.trim (titleCase parent)
            end
          else JS.trim (titleCase b))
       /\ folderTitle r =
            match dirs with
            | [] => None
            | top :: _ => Some (JS.trim (titleCase top))
            end.
Proof.
  repeat split; try reflexivity; now apply parseRelPath_segments.
Qed.

(** The general rule of C6 at ["my-guides/sub/ReadMe.MD"]. *)
Lemma parseRelPath_classification_witness :
  Forall (fun s => no_slash s = true) ["my-guides"; "sub"]
  /\ no_slash "ReadMe" = true
  /\ JS.toLowerCase ".MD" = ".md"
  /\ docTitle (parseRelPath "my-guides/sub/ReadMe.MD") = "Sub"
  /\ folderTitle (parseRelPath "my-guides/sub/ReadMe.MD") = Some "My Guides".
Proof.
  assert (H1 : Forall (fun s => no_slash s = true) ["my-guides"; "sub"])
    by (repeat constructor).
  assert (H2 : no_slash "ReadMe" = true) by reflexivity.
  assert (H3 : JS.toLowerCase ".MD" = ".md") by reflexivity.
  destruct parseRelPath_classification as (_ & _ & _ & Hgen).
  exact (conj H1 (conj H2 (conj H3
           (Hgen ["my-guides"; "sub"] "ReadMe" ".MD" H1 H2 H3)))).
Defined.

(** C6 as first stated fails on letter case and on trimming: a root-level
    ["readme.md"] is titled ["README"], which is neither the segment itself
    nor its title-cased form; and the folder ["_drafts"] title-cases to
    [" Drafts"] but both derived titles come out trimmed. *)
Lemma parseRelPath_root_readme_counterexample :
  JS.toUpperCase "readme" = "README"
  /\ docTitle (parseRelPath "readme.md") <> "readme"
  /\ docTitle (parseRelPath "readme.md") <> titleCase "readme"
  /\ docTitle (parseRelPath "_drafts/README.md") <> titleCase "_drafts"
  /\ folderTitle (parseRelPath "_drafts/README.md") <> Some (titleCase "_drafts").
Proof.
  repeat split; try reflexivity; vm_compute; discriminate.
Qed.

(** ** Block chunking *)

Section Chunking.

Context {T : Type}.

(** What the loop has produced when it stops: the chunks appended to the
    accumulator partition the unread tail of [blocks]. *)
Lemma chunk_loop_spec (blocks : list T) (size : nat) :
  0 < size ->
  forall fuel i acc,
    List.length blocks - i <= fuel ->
    exists cs,
      chunk_loop fuel blocks size i acc = Some (acc ++ cs)
      /\ List.concat cs = skipn i blocks
      /\ Forall (fun c => 0 < List.length c <= size) cs
      /\ Forall (fun c => List.length c = size) (removelast cs)
      /\ (List.length blocks <= i -> cs = []).
Proof.
  intros Hsize fuel. induction fuel as [|fuel IH]; intros i acc Hfuel.
  - exists []. simpl.
    destruct (Nat.ltb_spec i (List.length blocks)); [lia|].
    rewrite app_nil_r, skipn_all2 by lia. repeat split; auto.
  - simpl. destruct (Nat.ltb_spec i (List.length blocks)) as [Hlt|Hge].
    + destruct (IH (i + size) (acc ++ [slice blocks i (i + size)])) as
        (cs & Hrun & Hcat & Hall & Hfull & Hdone); [lia|].
      exists (slice blocks i (i + size) :: cs).
      assert (Hslice : slice blocks i (i + size) = firstn size (skipn i blocks)).
      { unfold slice. f_equal. lia. }
      assert (Hlen : List.length (slice blocks i (i + size))
                     = Nat.min size (List.length blocks - i)).
      { rewrite Hslice, length_firstn, length_skipn. reflexivity. }
      repeat split.
      * rewrite Hrun, <- app_assoc. reflexivity.
      * simpl. rewrite Hcat, Hslice.
        replace (skipn (i + size) blocks) with (skipn size (skipn i blocks))
          by (rewrite skipn_skipn; f_equal; lia).
        apply firstn_skipn.
      * constructor; [lia | exact Hall].
      * destruct cs as [|c cs']; [constructor|].
        change (removelast (slice blocks i (i + size) :: c :: cs'))
          with (slice blocks i (i + size) :: removelast (c :: cs')).
        constructor; [|exact Hfull].
        destruct (Nat.le_gt_cases (List.length blocks) (i + size)) as [Hend|Hmore].
        -- specialize (Hdone Hend). discriminate.
        -- lia.
      * lia.
    + exists []. rewrite app_nil_r, skipn_all2 by lia. repeat split; auto.
Qed.

(** With a positive chunk size the loop always finishes, and its chunks
    partition [blocks]. *)
Lemma chunkBlocks_partition (blocks : list T) (size : nat) :
  0 < size ->
  exists chunks,
    chunkBlocks blocks size = Some chunks
    /\ List.concat chunks = blocks
    /\ Forall (fun c => 0 < List.length c <= size) chunks
    /\ Forall (fun c => List.length c = size) (removelast chunks)
    /\ (blocks <> [] -> chunks <> []).
Proof.
  intros Hsize.
  destruct (chunk_loop_spec blocks size Hsize (List.length blocks) 0 [])
    as (cs & Hrun & Hcat & Hall & Hfull & _); [lia|].
  exists cs. repeat split; auto.
  intros Hne ->. simpl in Hcat. auto.
Qed.

End Chunking.

Example chunkBlocks_five_by_two :
  chunkBlocks [1; 2; 3; 4; 5] 2 = Some [[1; 2]; [3; 4]; [5]].
Proof. reflexivity. Qed.

Example chunkBlocks_empty : chunkBlocks (@nil nat) 100 = Some [].
Proof. reflexivity. Qed.

(** ** The matcher on the patterns the codec uses *)

Section RegexFacts.

Import Regex.

Context {A : Type}.
Implicit Types (k : nat -> string -> caps -> option A).

Lemma star_loop_greedy_cls p k fuel i s c :
  String.length s < fuel ->
  star_loop (run (Cls p)) true k fuel i s c = scan_greedy p k i s c.
Proof.
  revert i s. induction fuel as [|fuel IH]; intros i s Hfuel; [lia|].
  destruct s as [|a s']; simpl; [reflexivity|].
  destruct (p a); [|reflexivity].
  destruct (Nat.ltb_spec (String.length s') (S (String.length s'))); [|lia].
  rewrite IH by (simpl in Hfuel; lia). reflexivity.
Qed.

Lemma run_star_greedy_cls p k i s c :
  run (Star true (Cls p)) i s c k = scan_greedy p k i s c.
Proof. apply star_loop_greedy_cls. lia. Qed.

Lemma star_loop_lazy_any k fuel i s c :
  String.length s < fuel ->
  star_loop (run (Cls any_char)) false k fuel i s c = scan_lazy k i s c.
Proof.
  revert i s. induction fuel as [|fuel IH]; intros i s Hfuel; [lia|].
  destruct s as [|a s']; simpl.
  - destruct (k i EmptyString c); reflexivity.
  - unfold any_char. rewrite orb_negb_r.
    destruct (Nat.ltb_spec (String.length s') (S (String.length s'))); [|lia].
    rewrite IH by (simpl in Hfuel; lia).
    destruct (k i (String a s') c); reflexivity.
Qed.

Lemma run_star_lazy_any k i s c :
  run (Star false (Cls any_char)) i s c k = scan_lazy k i s c.
Proof. apply star_loop_lazy_any. lia. Qed.

(** A greedy star first offers the whole run of class characters; when
    what follows accepts that, this is the match. *)
Lemma scan_greedy_run p k i (a r : string) c x :
  all_chars p a = true ->
  k (i + String.length a) r c = Some x ->
  head_not p r = true ->
  scan_greedy p k i (a +++ r) c = Some x.
Proof.
  revert i. induction a as [|h a IH]; intros i Ha Hk Hr; simpl in *.
  - rewrite Nat.add_0_r in Hk. destruct r as [|b r]; [exact Hk|].
    simpl. simpl in Hr. apply negb_true_iff in Hr. rewrite Hr. exact Hk.
  - apply andb_true_iff in Ha as [Hh Ha]. rewrite Hh.
    rewrite (IH (S i) Ha); [reflexivity| |exact Hr].
    rewrite <- Hk. f_equal. lia.
Qed.

(** A lazy star skips the positions at which what follows fails. *)
Lemma scan_lazy_skip k i (a r : string) c :
  (forall n, n < String.length a -> k (i + n) (JS.drop n (a +++ r)) c = None) ->
  scan_lazy k i (a +++ r) c = scan_lazy k (i + String.length a) r c.
Proof.
  revert i. induction a as [|h a IH]; intros i Hfail; simpl.
  - rewrite Nat.add_0_r. reflexivity.
  - pose proof (Hfail 0 ltac:(simpl; lia)) as H0. simpl in H0.
    rewrite Nat.add_0_r in H0.
    change (scan_lazy k i (String h (a +++ r)) c)
      with (match k i (String h (a +++ r)) c with
            | Some x => Some x
            | None => scan_lazy k (S i) (a +++ r) c
            end).
    rewrite H0, IH.
    + f_equal. lia.
    + intros n Hn. specialize (Hfail (S n) ltac:(simpl; lia)).
      simpl in Hfail. rewrite <- Hfail. f_equal. lia.
Qed.

End RegexFacts.

(** ** Steps of the matcher *)

Section RunSteps.

Import Regex.
Context {A : Type}.
Implicit Types (k : nat -> string -> caps -> option A).

Lemma run_Seq r1 r2 i s c k :
  run (Seq r1 r2) i s c k = run r1 i s c (fun i' s' c' => run r2 i' s' c' k).
Proof. reflexivity. Qed.

Lemma run_Group n r i s c k :
  run (Group n r) i s c k
  = run r i s c (fun i' s' c' => k i' s' ((n, JS.take (i' - i) s) :: c')).
Proof. reflexivity. Qed.

Lemma run_Bol_start s c k : run Bol 0 s c k = k 0 s c.
Proof. reflexivity. Qed.

Lemma run_Eol_end i c k : run Eol i EmptyString c k = k i EmptyString c.
Proof. reflexivity. Qed.

Lemma run_Cls_ok p a i s c k :
  p a = true -> run (Cls p) i (String a s) c k = k (S i) s c.
Proof. intros H. simpl. now rewrite H. Qed.

Lemma run_Chr_ok a i s c k : run (Chr a) i (String a s) c k = k (S i) s c.
Proof. apply run_Cls_ok, Ascii.eqb_refl. Qed.

Lemma run_Lit (l : string) i s c k :
  run (Lit l) i (l +++ s) c k = k (i + String.length l) s c.
Proof.
  revert i. induction l as [|a l IH]; intros i; simpl.
  - now rewrite Nat.add_0_r.
  - rewrite Ascii.eqb_refl. fold (@run A). rewrite IH. f_equal. lia.
Qed.

(** An optional character that is not there is skipped. *)
Lemma run_Opt_absent a i s c k :
  head_not (Ascii.eqb a) s = true -> run (Opt (Chr a)) i s c k = k i s c.
Proof.
  intros H. unfold Opt, Chr. simpl.
  destruct s as [|b s]; [reflexivity|].
  simpl in H. apply negb_true_iff in H. now rewrite H.
Qed.

(** An optional character that is there is taken when what follows agrees. *)
Lemma run_Opt_present a i s c k x :
  k (S i) s c = Some x -> run (Opt (Chr a)) i (String a s) c k = Some x.
Proof.
  intros H. unfold Opt, Chr. simpl. rewrite Ascii.eqb_refl, H. reflexivity.
Qed.

Lemma run_star_greedy_run p k i (a r : string) c x :
  all_chars p a = true -> head_not p r = true ->
  k (i + String.length a) r c = Some x ->
  run (Star true (Cls p)) i (a +++ r) c k = Some x.
Proof.
  intros Ha Hr Hk. rewrite run_star_greedy_cls. now apply scan_greedy_run.
Qed.

End RunSteps.

Lemma run_star_greedy_none {A} p (k : nat -> string -> caps -> option A) i s c :
  head_not p s = true -> run (Star true (Cls p)) i s c k = k i s c.
Proof.
  intros H. rewrite run_star_greedy_cls. destruct s as [|a s]; [reflexivity|].
  cbn [head_not] in H. apply negb_true_iff in H. cbn [scan_greedy]. now rewrite H.
Qed.

Lemma scan_lazy_here {A} (k : nat -> string -> caps -> option A) i s c x :
  k i s c = Some x -> scan_lazy k i s c = Some x.
Proof. intros H. destruct s; simpl; now rewrite H. Qed.

Lemma exec_first r s c :
  run r 0 s [] (fun _ _ c => Some c) = Some c -> exec r s = Some c.
Proof.
  intros H. unfold exec. destruct s; simpl; now rewrite H.
Qed.

Lemma take_all (s : string) : JS.take (String.length s) s = s.
Proof. induction s; simpl; congruence. Qed.

Lemma exec_LINE_RE (h : ascii) (k' w : string) :
  JS.is_word h = true -> all_chars JS.is_word k' = true ->
  head_not JS.is_space w = true -> all_chars dot w = true ->
  exec LINE_RE (String h k' +++ String ":" (String " " w))
  = Some [(2, w); (1, String h k')].
Proof.
  intros Hh Hk Hw Hdot. apply exec_first. unfold LINE_RE, Plus.
  rewrite run_Seq, run_Bol_start, run_Seq, run_Group, run_Seq.
  change (String h k' +++ String ":" (String " " w))
    with (String h (k' +++ String ":" (String " " w))).
  rewrite (run_Cls_ok _ _ _ _ _ _ Hh).
  apply run_star_greedy_run; [exact Hk | reflexivity |].
  rewrite run_Seq, run_Chr_ok, run_Seq.
  change (String " " w) with (" " +++ w).
  apply run_star_greedy_run; [reflexivity | exact Hw |].
  rewrite run_Seq, run_Group.
  rewrite <- (append_empty_r w) at 1.
  apply run_star_greedy_run; [exact Hdot | reflexivity |].
  rewrite run_Eol_end. do 3 f_equal.
  - f_equal. replace (S (1 + String.length k') + String.length " " + String.length w
                      - (S (1 + String.length k') + String.length " "))
      with (String.length w) by lia.
    apply take_all.
  - f_equal. replace (1 + String.length k' - 0) with (String.length (String h k'))
      by (simpl; lia).
    apply (take_append (String h k')).
Qed.

(** *** The header pattern on an encoded document *)

Section HeaderPattern.
Context {A : Type}.
Implicit Types (k : nat -> string -> caps -> option A).

Lemma run_Lit_prefix (l : string) i s c k :
  run (Lit l) i s c k
  = if JS.has_prefix l s
    then k (i + String.length l) (JS.drop (String.length l) s) c
    else None.
Proof.
  revert i s. induction l as [|a l IH]; intros i s; simpl.
  - now rewrite Nat.add_0_r.
  - destruct s as [|b s]; [reflexivity|].
    destruct (Ascii.eqb a b); [|reflexivity].
    fold (@run A). rewrite IH.
    replace (S i + String.length l) with (i + S (String.length l)) by lia.
    reflexivity.
Qed.

(** What follows the header block fails wherever the closing marker does
    not start. *)
Lemma run_closing_fail rest i s c k :
  closes s = false ->
  run (Seq (Opt (Chr CR)) (Seq (Chr LF) (Seq (Lit "---") rest))) i s c k = None.
Proof.
  intros Hc. apply orb_false_iff in Hc as [H1 H2].
  assert (Hlf : forall i s c,
    JS.has_prefix (String LF "---") s = false ->
    run (Seq (Chr LF) (Seq (Lit "---") rest)) i s c k = None).
  { intros j t d Ht.
    change (run (Seq (Chr LF) (Seq (Lit "---") rest)) j t d k)
      with (run (Lit (String LF "---")) j t d
              (fun i' s' c' => run rest i' s' c' k)).
    now rewrite run_Lit_prefix, Ht. }
  rewrite run_Seq. unfold Opt.
  change (run (Alt (Chr CR) Eps) i s c
            (fun i' s' c' => run (Seq (Chr LF) (Seq (Lit "---") rest)) i' s' c' k))
    with (orelse
            (run (Chr CR) i s c
               (fun i' s' c' => run (Seq (Chr LF) (Seq (Lit "---") rest)) i' s' c' k))
            (run (Seq (Chr LF) (Seq (Lit "---") rest)) i s c k)).
  rewrite (Hlf i s c H1).
  destruct s as [|a s]; [reflexivity|].
  change (run (Chr CR) i (String a s) c
            (fun i' s' c' => run (Seq (Chr LF) (Seq (Lit "---") rest)) i' s' c' k))
    with (if Ascii.eqb CR a
          then run (Seq (Chr LF) (Seq (Lit "---") rest)) (S i) s c k else None).
  destruct (Ascii.eqb CR a) eqn:Ea; [|reflexivity].
  apply Ascii.eqb_eq in Ea. subst a.
  rewrite Hlf; [reflexivity|]. exact H2.
Qed.

End HeaderPattern.

Lemma closes_inside (b r : string) :
  block_safe b = true -> head_not (Ascii.eqb "-") r = true ->
  forall n, n < String.length b -> closes (JS.drop n (b +++ r)) = false.
Proof.
  induction b as [|a b IH]; intros Hb Hr n Hn; simpl in Hn; [lia|].
  simpl in Hb. apply andb_true_iff in Hb as [Hb Hb'].
  apply andb_true_iff in Hb as [Hcr Hlf]. apply negb_true_iff in Hcr.
  destruct n as [|n]; [|apply IH; auto; lia].
  cbn [JS.drop append]. unfold closes. apply orb_false_iff. split.
  - cbn [JS.has_prefix]. rewrite (Ascii.eqb_sym LF a).
    destruct (Ascii.eqb a LF); [|reflexivity].
    assert (Hhd : head_not (Ascii.eqb "-") (b +++ r) = true)
      by (destruct b; [exact Hr | exact Hlf]).
    destruct (b +++ r) as [|x t]; [reflexivity|].
    cbn [head_not] in Hhd. apply negb_true_iff in Hhd. now rewrite Hhd.
  - cbn [JS.has_prefix]. rewrite (Ascii.eqb_sym CR a), Hcr. reflexivity.
Qed.

Lemma all_chars_any (s : string) : all_chars any_char s = true.
Proof.
  induction s as [|a s IH]; simpl; [reflexivity|].
  unfold any_char at 1. now rewrite orb_negb_r.
Qed.

Lemma exec_FRONTMATTER_RE (block body : string) :
  block_safe block = true ->
  exec FRONTMATTER_RE (framed block body) = Some [(2, body); (1, block)].
Proof.
  intros Hsafe. apply exec_first. unfold FRONTMATTER_RE, framed.
  rewrite run_Seq, run_Bol_start, run_Seq.
  rewrite run_star_greedy_none by reflexivity.
  rewrite run_Seq.
  rewrite run_Lit, run_Seq, run_Opt_absent by reflexivity.
  rewrite run_Seq, run_Chr_ok, run_Seq, run_Group, run_star_lazy_any.
  rewrite scan_lazy_skip.
  2:{ intros n Hn. apply run_closing_fail.
      apply closes_inside; [exact Hsafe | reflexivity | exact Hn]. }
  apply scan_lazy_here.
  rewrite run_Seq, run_Opt_absent by reflexivity.
  rewrite run_Seq, run_Chr_ok, run_Seq, run_Lit.
  rewrite run_Seq, run_Opt_absent by reflexivity.
  rewrite run_Seq. apply run_Opt_present.
  rewrite run_Seq, run_Group.
  rewrite <- (append_empty_r body) at 1.
  apply run_star_greedy_run; [apply all_chars_any | reflexivity |].
  rewrite run_Eol_end. do 3 f_equal.
  - etransitivity; [|apply take_all]. f_equal. lia.
  - f_equal. etransitivity;
      [|apply (take_append block (String LF ("---" +++ String LF body)))].
    f_equal. simpl. lia.
Qed.

(** ** Round trip of the identity codec *)


Section Trim.

Lemma trimEnd_length (s : string) : String.length (JS.trimEnd s) <= String.length s.
Proof.
  induction s as [|a s IH]; simpl; [lia|].
  destruct (JS.trimEnd s); [destruct (JS.is_space a)|]; simpl in *; lia.
Qed.

Lemma trimStart_length (s : string) : String.length (JS.trimStart s) <= String.length s.
Proof.
  induction s as [|a s IH]; simpl; [lia|].
  destruct (JS.is_space a); simpl; lia.
Qed.

(** A string equal to its trim does not start with white space. *)
Lemma trim_fixed_head (v : string) : JS.trim v = v -> head_not JS.is_space v = true.
Proof.
  destruct v as [|a v]; [reflexivity|]. intros H. cbn [head_not].
  destruct (JS.is_space a) eqn:Ea; [|reflexivity].
  apply (f_equal String.length) in H. unfold JS.trim in H.
  cbn [JS.trimStart] in H. rewrite Ea in H.
  pose proof (trimEnd_length (JS.trimStart v)).
  pose proof (trimStart_length v). simpl in H. lia.
Qed.

Lemma trimEnd_last (a : string) (c : ascii) :
  JS.is_space c = false ->
  JS.trimEnd (a +++ String c EmptyString) = a +++ String c EmptyString.
Proof.
  intros Hc. induction a as [|h a IH]; simpl.
  - now rewrite Hc.
  - rewrite IH. now destruct a.
Qed.

(** A string between two characters that are not white space is its own
    trim. *)
Lemma trim_enclosed (q : ascii) (a : string) :
  JS.is_space q = false ->
  JS.trim (String q (a +++ String q EmptyString)) = String q (a +++ String q EmptyString).
Proof.
  intros Hq. unfold JS.trim. cbn [JS.trimStart]. rewrite Hq.
  apply (trimEnd_last (String q a) q Hq).
Qed.

End Trim.

Section Escaping.

Lemma double_backslashes_none (v : string) :
  all_chars not_backslash v = true -> double_backslashes v = v.
Proof.
  induction v as [|a v IH]; simpl; [reflexivity|].
  intros H. apply andb_true_iff in H as [Ha Hv].
  unfold not_backslash in Ha. apply negb_true_iff in Ha.
  rewrite Ha, (IH Hv). reflexivity.
Qed.

(** Undoing the escape of single quotes leaves an escaped value alone: its
    backslashes all stand before double quotes. *)
Lemma unescape_SQ_escaped (v : string) :
  all_chars not_backslash v = true ->
  unescape_quote SQ (escape_dquotes v) = escape_dquotes v.
Proof.
  induction v as [|a v IH]; [reflexivity|].
  intros H. cbn [all_chars] in H. apply andb_true_iff in H as [Ha Hv].
  unfold not_backslash in Ha. apply negb_true_iff in Ha.
  specialize (IH Hv). cbn [escape_dquotes].
  destruct (Ascii.eqb a DQ) eqn:Eq.
  - cbn [unescape_quote]. rewrite Ascii.eqb_refl.
    change (Ascii.eqb DQ SQ) with false. cbn [andb].
    destruct (escape_dquotes v) as [|b t] eqn:Et; [reflexivity|].
    f_equal. 
    change (unescape_quote SQ (String DQ (String b t)))
      with (if Ascii.eqb DQ BSL && Ascii.eqb b SQ
            then String SQ (unescape_quote SQ t)
            else String DQ (unescape_quote SQ (String b t))).
    change (Ascii.eqb DQ BSL) with false. cbn [andb]. now rewrite IH.
  - destruct (escape_dquotes v) as [|b t] eqn:Et; [reflexivity|].
    change (unescape_quote SQ (String a (String b t)))
      with (if Ascii.eqb a BSL && Ascii.eqb b SQ
            then String SQ (unescape_quote SQ t)
            else String a (unescape_quote SQ (String b t))).
    rewrite Ha. cbn [andb]. now rewrite IH.
Qed.

(** Undoing the escape of double quotes gives the value back. *)
Lemma unescape_DQ_escaped (v : string) :
  all_chars not_backslash v = true ->
  unescape_quote DQ (escape_dquotes v) = v.
Proof.
  induction v as [|a v IH]; [reflexivity|].
  intros H. cbn [all_chars] in H. apply andb_true_iff in H as [Ha Hv].
  unfold not_backslash in Ha. apply negb_true_iff in Ha.
  specialize (IH Hv). cbn [escape_dquotes].
  destruct (Ascii.eqb a DQ) eqn:Eq.
  - apply Ascii.eqb_eq in Eq. subst a.
    cbn [unescape_quote]. rewrite !Ascii.eqb_refl. cbn [andb]. now rewrite IH.
  - destruct (escape_dquotes v) as [|b t] eqn:Et.
    + cbn [unescape_quote]. now rewrite <- IH.
    + change (unescape_quote DQ (String a (String b t)))
        with (if Ascii.eqb a BSL && Ascii.eqb b DQ
              then String DQ (unescape_quote DQ t)
              else String a (unescape_quote DQ (String b t))).
      rewrite Ha. cbn [andb]. now rewrite IH.
Qed.

End Escaping.

Section LineRoundTrip.

Lemma all_chars_append p (a b : string) :
  all_chars p (a +++ b) = all_chars p a && all_chars p b.
Proof. induction a as [|h a IH]; simpl; [reflexivity|]. now rewrite IH, andb_assoc. Qed.

Lemma escape_dquotes_dot (v : string) :
  all_chars dot v = true -> all_chars dot (escape_dquotes v) = true.
Proof.
  induction v as [|a v IH]; [reflexivity|]. cbn [all_chars escape_dquotes].
  intros H. apply andb_true_iff in H as [Ha Hv].
  destruct (Ascii.eqb a DQ); cbn [all_chars]; rewrite (IH Hv).
  - reflexivity.
  - now rewrite Ha.
Qed.

(** The written form of a good value: what the line pattern and the trim
    leave untouched, and what unquoting turns back into the value. *)
Lemma escapeYamlValue_readable (v : string) :
  value_ok v = true ->
  head_not JS.is_space (escapeYamlValue v) = true
  /\ all_chars dot (escapeYamlValue v) = true
  /\ JS.trim (escapeYamlValue v) = escapeYamlValue v
  /\ unquote (escapeYamlValue v) = v.
Proof.
  unfold value_ok. intros H.
  apply andb_true_iff in H as [H Hcase].
  apply andb_true_iff in H as [H Hbs].
  apply andb_true_iff in H as [Hne Hdot].
  unfold escapeYamlValue. destruct (needs_quoting v) eqn:Hq.
  - rewrite (double_backslashes_none v Hbs).
    set (esc := escape_dquotes v).
    repeat split.
    + cbn [all_chars]. rewrite all_chars_append. cbn [all_chars].
      unfold esc. rewrite (escape_dquotes_dot v Hdot). reflexivity.
    + apply trim_enclosed. reflexivity.
    + unfold unquote.
      assert (Hs : JS.startsWith (String DQ (esc +++ String DQ EmptyString))
                     (String DQ EmptyString) = true).
      { unfold JS.startsWith. cbn [JS.has_prefix]. now rewrite Ascii.eqb_refl. }
      assert (He : JS.endsWith (String DQ (esc +++ String DQ EmptyString))
                     (String DQ EmptyString) = true)
        by apply (endsWith_append (String DQ esc) (String DQ EmptyString)).
      rewrite Hs, He. cbn [andb orb].
      assert (Hsl : slice_1_m1 (String DQ (esc +++ String DQ EmptyString)) = esc).
      { unfold slice_1_m1. cbn [JS.drop String.length]. rewrite length_append.
        replace (S (String.length esc + String.length (String DQ EmptyString)) - 2)
          with (String.length esc) by (simpl; lia).
        apply take_append. }
      rewrite Hsl. unfold esc.
      rewrite (unescape_SQ_escaped v Hbs). apply (unescape_DQ_escaped v Hbs).
  - cbn [orb] in Hcase. apply andb_true_iff in Hcase as [Htrim Hsq].
    apply String.eqb_eq in Htrim. apply negb_true_iff in Hsq.
    repeat split; auto.
    + now apply trim_fixed_head.
    + unfold unquote. rewrite Hsq, orb_false_r.
      destruct v as [|a v]; [reflexivity|].
      unfold JS.startsWith. cbn [JS.has_prefix].
      cbn [needs_quoting] in Hq. apply orb_false_iff in Hq as [Hq _].
      apply orb_false_iff in Hq as [Hq _]. apply orb_false_iff in Hq as [Hq _].
      apply orb_false_iff in Hq as [_ Hq].
      rewrite (Ascii.eqb_sym DQ a), Hq. reflexivity.
Qed.

(** Reading back a written line defines exactly its key with its value. *)
Lemma parseFrontmatterLine_frontLine (d : obj) (k v : string) :
  key_ok k = true -> value_ok v = true ->
  parseFrontmatterLine d (frontLine (k, v)) = obj_define k v d.
Proof.
  intros Hk Hv. unfold key_ok in Hk.
  apply andb_true_iff in Hk as [Hk Hproto].
  apply andb_true_iff in Hk as [Hne Hword].
  destruct k as [|h k']; [discriminate|].
  cbn [all_chars] in Hword. apply andb_true_iff in Hword as [Hh Hk'].
  destruct (escapeYamlValue_readable v Hv) as (Hhead & Hdot & Htrim & Hunq).
  unfold parseFrontmatterLine, frontLine. cbn [fst snd].
  change (": " +++ escapeYamlValue v)
    with (String ":" (String " " (escapeYamlValue v))).
  rewrite (exec_LINE_RE h k' (escapeYamlValue v) Hh Hk' Hhead Hdot).
  cbn [capture Nat.eqb]. rewrite Htrim, Hunq.
  unfold obj_assign. apply negb_true_iff in Hproto. now rewrite Hproto.
Qed.

End LineRoundTrip.

Section BlockRoundTrip.

Lemma is_word_dot (c : ascii) : JS.is_word c = true -> dot c = true.
Proof. destruct c as [[] [] [] [] [] [] [] []]; vm_compute; congruence. Qed.

Lemma is_word_not_dash (c : ascii) : JS.is_word c = true -> Ascii.eqb "-" c = false.
Proof. destruct c as [[] [] [] [] [] [] [] []]; vm_compute; congruence. Qed.

Lemma all_chars_impl (p q : ascii -> bool) (s : string) :
  (forall c, p c = true -> q c = true) -> all_chars p s = true -> all_chars q s = true.
Proof.
  intros Hpq. induction s as [|a s IH]; simpl; [reflexivity|].
  intros H. apply andb_true_iff in H as [Ha Hs]. now rewrite (Hpq a Ha), IH.
Qed.

(** A written line stays on one line and starts with a word character. *)
Lemma frontLine_shape (k v : string) :
  key_ok k = true -> value_ok v = true ->
  all_chars dot (frontLine (k, v)) = true
  /\ head_not (Ascii.eqb "-") (frontLine (k, v)) = true.
Proof.
  intros Hk Hv. destruct (escapeYamlValue_readable v Hv) as (_ & Hdot & _ & _).
  unfold key_ok in Hk. apply andb_true_iff in Hk as [Hk _].
  apply andb_true_iff in Hk as [Hne Hword].
  unfold frontLine. cbn [fst snd]. split.
  - rewrite all_chars_append, (all_chars_impl _ _ k is_word_dot Hword).
    change (": " +++ escapeYamlValue v)
      with (String ":" (String " " (escapeYamlValue v))).
    cbn [all_chars]. now rewrite Hdot.
  - destruct k as [|h k']; [discriminate|].
    cbn [all_chars] in Hword. apply andb_true_iff in Hword as [Hh _].
    cbn [append head_not]. now rewrite (is_word_not_dash h Hh).
Qed.

Lemma dot_not_LF (c : ascii) : dot c = true -> Ascii.eqb c LF = false.
Proof. destruct c as [[] [] [] [] [] [] [] []]; vm_compute; congruence. Qed.

Lemma dot_not_CR (c : ascii) : dot c = true -> Ascii.eqb c CR = false.
Proof. destruct c as [[] [] [] [] [] [] [] []]; vm_compute; congruence. Qed.

Lemma split_lines_line (l : string) :
  all_chars dot l = true -> split_lines l = [l].
Proof.
  induction l as [|a l IH]; [reflexivity|]. cbn [all_chars].
  intros H. apply andb_true_iff in H as [Ha Hl].
  cbn [split_lines]. rewrite (dot_not_LF a Ha), (dot_not_CR a Ha), (IH Hl).
  reflexivity.
Qed.

Lemma split_lines_cons (l rest : string) :
  all_chars dot l = true ->
  split_lines (l +++ String LF rest) = l :: split_lines rest.
Proof.
  induction l as [|a l IH]; intros H.
  - cbn [append split_lines]. now rewrite Ascii.eqb_refl.
  - cbn [all_chars] in H. apply andb_true_iff in H as [Ha Hl].
    cbn [append split_lines].
    rewrite (dot_not_LF a Ha), (dot_not_CR a Ha), (IH Hl). reflexivity.
Qed.

Lemma concat_LF_cons (l l2 : string) (ls : list string) :
  String.concat (String LF EmptyString) (l :: l2 :: ls)
  = l +++ String LF (String.concat (String LF EmptyString) (l2 :: ls)).
Proof. reflexivity. Qed.

Lemma split_lines_concat (lines : list string) :
  lines <> [] -> Forall (fun l => all_chars dot l = true) lines ->
  split_lines (String.concat (String LF EmptyString) lines) = lines.
Proof.
  intros Hne Hall. induction Hall as [|l ls Hl Hls IH]; [congruence|].
  destruct ls as [|l2 ls].
  - cbn [String.concat]. now apply split_lines_line.
  - rewrite concat_LF_cons, (split_lines_cons l _ Hl), IH;
      [reflexivity | discriminate].
Qed.

Lemma block_safe_line (l : string) : all_chars dot l = true -> block_safe l = true.
Proof.
  induction l as [|a l IH]; [reflexivity|]. cbn [all_chars block_safe].
  intros H. apply andb_true_iff in H as [Ha Hl].
  now rewrite (dot_not_CR a Ha), (dot_not_LF a Ha), (IH Hl).
Qed.

Lemma block_safe_cons (l rest : string) :
  all_chars dot l = true -> head_not (Ascii.eqb "-") rest = true ->
  block_safe rest = true -> block_safe (l +++ String LF rest) = true.
Proof.
  intros Hl Hhead Hrest. induction l as [|a l IH].
  - cbn [append block_safe]. rewrite Ascii.eqb_refl, Hhead, Hrest. reflexivity.
  - cbn [all_chars] in Hl. apply andb_true_iff in Hl as [Ha Hl].
    cbn [append block_safe].
    now rewrite (dot_not_CR a Ha), (dot_not_LF a Ha), (IH Hl).
Qed.

Lemma block_safe_concat (lines : list string) :
  Forall (fun l => all_chars dot l = true
                   /\ head_not (Ascii.eqb "-") l = true) lines ->
  block_safe (String.concat (String LF EmptyString) lines) = true
  /\ head_not (Ascii.eqb "-") (String.concat (String LF EmptyString) lines) = true.
Proof.
  intros Hall. induction Hall as [|l ls [Hl Hh] Hls [IHs IHh]]; [now split|].
  destruct ls as [|l2 ls].
  - cbn [String.concat]. split; [now apply block_safe_line | exact Hh].
  - rewrite concat_LF_cons. split.
    + now apply block_safe_cons.
    + destruct l; [reflexivity | exact Hh].
Qed.

(** Defining a key the object does not have appends it. *)
Lemma obj_define_fresh (k v : string) (d : obj) :
  ~ In k (map fst d) -> obj_define k v d = d ++ [(k, v)].
Proof.
  induction d as [|[k' v'] d IH]; intros Hk; [reflexivity|].
  cbn [obj_define]. destruct (String.eqb_spec k k') as [->|Hne].
  - exfalso. apply Hk. now left.
  - cbn [app]. rewrite IH; [reflexivity|]. intros Hin. apply Hk. now right.
Qed.

Lemma fold_define_fresh (pairs d : obj) :
  NoDup (map fst (d ++ pairs)) ->
  fold_left (fun acc e => obj_define (fst e) (snd e) acc) pairs d = d ++ pairs.
Proof.
  revert d. induction pairs as [|[k v] pairs IH]; intros d Hnd.
  - now rewrite app_nil_r.
  - cbn [fold_left fst snd]. rewrite obj_define_fresh.
    + rewrite IH; rewrite <- app_assoc; [reflexivity | exact Hnd].
    + rewrite map_app in Hnd. cbn [map fst] in Hnd.
      apply NoDup_remove_2 in Hnd. intros Hin. apply Hnd.
      apply in_or_app. now left.
Qed.

(** Reading back the lines written for [pairs] rebuilds [pairs]. *)
Lemma parseFrontmatterBlock_lines (pairs : obj) :
  pairs <> [] -> NoDup (map fst pairs) ->
  Forall (fun e => key_ok (fst e) = true /\ value_ok (snd e) = true) pairs ->
  parseFrontmatterBlock (String.concat (String LF EmptyString) (map frontLine pairs))
  = pairs.
Proof.
  intros Hne Hnd Hok. unfold parseFrontmatterBlock.
  rewrite split_lines_concat.
  - assert (Hfold : forall d,
      fold_left parseFrontmatterLine (map frontLine pairs) d
      = fold_left (fun acc e => obj_define (fst e) (snd e) acc) pairs d).
    { clear Hne Hnd. induction Hok as [|[k v] ps [Hk Hv] _ IH]; intros d;
        [reflexivity|].
      cbn [map fold_left]. rewrite (parseFrontmatterLine_frontLine d k v Hk Hv).
      apply IH. }
    rewrite Hfold. now apply (fold_define_fresh pairs []).
  - destruct pairs; [congruence | discriminate].
  - apply Forall_map. eapply Forall_impl; [|exact Hok].
    intros [k v] [Hk Hv]. now apply frontLine_shape.
Qed.

End BlockRoundTrip.

Section Objects.

Lemma insert_by_index_perm n e l :
  Permutation (insert_by_index n e l) ((n, e) :: l).
Proof.
  induction l as [|[n' e'] l IH]; cbn [insert_by_index]; [reflexivity|].
  destruct (n <? n')%N; [reflexivity|].
  rewrite IH. apply perm_swap.
Qed.

Lemma index_entries_perm (o : obj) :
  Permutation (map snd (index_entries o))
              (filter (fun e => is_array_index (fst e)) o).
Proof.
  induction o as [|[k v] o IH]; [reflexivity|].
  cbn [index_entries filter fst]. unfold is_array_index at 1.
  destruct (array_index k) as [n|]; [|exact IH].
  rewrite insert_by_index_perm. cbn [map snd]. now constructor.
Qed.

Lemma filter_split_perm {X} (p : X -> bool) (l : list X) :
  Permutation (filter p l ++ filter (fun x => negb (p x)) l) l.
Proof.
  induction l as [|x l IH]; [reflexivity|]. cbn [filter].
  destruct (p x); cbn [negb app].
  - now constructor.
  - rewrite <- Permutation_middle. now constructor.
Qed.

(** [Object.entries] lists every own property once. *)
Lemma Object_entries_perm (o : obj) : Permutation (Object_entries o) o.
Proof.
  unfold Object_entries. rewrite index_entries_perm.
  apply (filter_split_perm (fun e => is_array_index (fst e))).
Qed.

Lemma obj_get_In (k v : string) (o : obj) :
  NoDup (map fst o) -> (obj_get k o = Some v <-> In (k, v) o).
Proof.
  induction o as [|[k' v'] o IH]; intros Hnd.
  - split; [discriminate | contradiction].
  - cbn [map fst] in Hnd. inversion Hnd as [|? ? Hnotin Hnd']; subst.
    cbn [obj_get]. destruct (String.eqb_spec k k') as [->|Hne].
    + split.
      * intros [= ->]. now left.
      * intros [[= ->]|Hin]; [reflexivity|].
        exfalso. apply Hnotin. now apply (in_map fst) in Hin.
    + rewrite (IH Hnd'). split; [now right|].
      intros [[= -> ->]|Hin]; [congruence | exact Hin].
Qed.

(** Lookup does not depend on the order of the properties. *)
Lemma obj_get_perm (k : string) (o o' : obj) :
  NoDup (map fst o) -> Permutation o o' -> obj_get k o = obj_get k o'.
Proof.
  intros Hnd Hperm.
  assert (Hnd' : NoDup (map fst o'))
    by (eapply Permutation_NoDup; [apply Permutation_map, Hperm | exact Hnd]).
  destruct (obj_get k o) as [v|] eqn:E.
  - symmetry. apply (obj_get_In k v o' Hnd').
    eapply Permutation_in; [exact Hperm|]. now apply (obj_get_In k v o Hnd).
  - destruct (obj_get k o') as [v'|] eqn:E'; [|reflexivity].
    apply (obj_get_In k v' o' Hnd') in E'.
    apply (Permutation_in _ (Permutation_sym Hperm)) in E'.
    apply (obj_get_In k v' o Hnd) in E'. congruence.
Qed.

Lemma obj_define_keys (k v : string) (o : obj) :
  map fst (obj_define k v o)
  = if in_dec string_dec k (map fst o) then map fst o else map fst o ++ [k].
Proof.
  induction o as [|[k' v'] o IH]; [reflexivity|].
  cbn [obj_define]. destruct (String.eqb_spec k k') as [->|Hne].
  - cbn [map fst]. destruct (in_dec string_dec k' (k' :: map fst o)) as [|Hn];
      [reflexivity|]. exfalso. apply Hn. now left.
  - cbn [map fst]. rewrite IH.
    destruct (in_dec string_dec k (map fst o)) as [Hin|Hnin];
      destruct (in_dec string_dec k (k' :: map fst o)) as [Hin'|Hnin'];
      try reflexivity.
    + exfalso. apply Hnin'. now right.
    + destruct Hin' as [->|Hin']; [congruence | contradiction].
Qed.

Lemma obj_define_NoDup (k v : string) (o : obj) :
  NoDup (map fst o) -> NoDup (map fst (obj_define k v o)).
Proof.
  intros Hnd. rewrite obj_define_keys.
  destruct (in_dec string_dec k (map fst o)) as [Hin|Hnin]; [exact Hnd|].
  apply NoDup_app; [exact Hnd | repeat constructor; intros [] |].
  intros x Hx [<-|[]]. contradiction.
Qed.

Lemma obj_define_Forall (P : string * string -> Prop) (k v : string) (o : obj) :
  P (k, v) -> Forall P o -> Forall P (obj_define k v o).
Proof.
  intros Hkv Ho. induction Ho as [|[k' v'] o Hx Ho IH]; cbn [obj_define].
  - now constructor.
  - destruct (String.eqb k k'); constructor; assumption.
Qed.

Lemma obj_get_define (k v : string) (o : obj) : obj_get k (obj_define k v o) = Some v.
Proof.
  induction o as [|[k' v'] o IH]; cbn [obj_define obj_get].
  - now rewrite String.eqb_refl.
  - destruct (String.eqb k k') eqn:E; cbn [obj_get].
    + now rewrite String.eqb_refl.
    + now rewrite E.
Qed.

Lemma filter_all {X} (p : X -> bool) (l : list X) :
  Forall (fun x => p x = true) l -> filter p l = l.
Proof.
  induction 1 as [|x l Hx _ IH]; [reflexivity|]. cbn [filter]. now rewrite Hx, IH.
Qed.

End Objects.

Lemma value_ok_nonempty (v : string) :
  value_ok v = true -> negb (String.eqb v EmptyString) = true.
Proof.
  unfold value_ok. intros H. apply andb_true_iff in H as [H _].
  apply andb_true_iff in H as [H _]. now apply andb_true_iff in H as [H _].
Qed.

(** C2 (as amended).  Take any body, a header whose keys are distinct,
    non-empty strings of word characters other than ["__proto__"], and whose
    values are not empty, hold no line terminator and no backslash and, when
    written unquoted (no double quote and no colon in them), have no white
    space at either end and do not both start and end with a single quote
    (which the value made of one single quote does); take an identifier that
    is such a value and has no white space at either end.  Then decoding the
    encoded document gives back the body, the identifier as [notionPageId],
    and a header that maps every key to what the input header with
    [notion_page_id] set to the identifier maps it to.

    The line terminators of a string of this development are the line feed
    and the carriage return.  The dot of the line pattern rejects the code
    units U+2028 and U+2029 too, so a value holding one of them is cut like
    a value holding a line feed; such values lie outside the strings
    modelled here, and the claim as amended leaves them out. *)
Theorem codec_round_trip (md_body : string) (header : obj) (id : string) :
  NoDup (map fst header) ->
  Forall (fun e => key_ok (fst e) = true /\ value_ok (snd e) = true) header ->
  value_ok id = true -> JS.trim id = id ->
  let r := parseMdWithNotionId (stringifyMdWithNotionId md_body header id) in
  body r = md_body
  /\ notionPageId r = Some id
  /\ (forall k, obj_get k (data r)
                = obj_get k (obj_define NOTION_PAGE_ID_KEY id header)).
Proof.
  intros Hnd Hok Hid Htrim.
  set (header' := obj_define NOTION_PAGE_ID_KEY id header).
  assert (Hnd' : NoDup (map fst header')) by now apply obj_define_NoDup.
  assert (Hok' : Forall (fun e => key_ok (fst e) = true /\ value_ok (snd e) = true)
                        header')
    by (apply obj_define_Forall; [split; [reflexivity | exact Hid] | exact Hok]).
  set (pairs := Object_entries header').
  pose proof (Object_entries_perm header') as Hperm. fold pairs in Hperm.
  assert (Hndp : NoDup (map fst pairs)).
  { eapply Permutation_NoDup; [|exact Hnd'].
    apply Permutation_map, Permutation_sym, Hperm. }
  assert (Hokp : Forall (fun e => key_ok (fst e) = true /\ value_ok (snd e) = true)
                        pairs).
  { eapply Permutation_Forall; [apply Permutation_sym, Hperm | exact Hok']. }
  assert (Hget : forall k, obj_get k pairs = obj_get k header').
  { intros k. symmetry. apply obj_get_perm; [exact Hnd' | now apply Permutation_sym]. }
  assert (Hne : pairs <> []).
  { intros E. specialize (Hget NOTION_PAGE_ID_KEY). rewrite E in Hget.
    unfold header' in Hget. rewrite obj_get_define in Hget. discriminate. }
  assert (Hstr : stringifyMdWithNotionId md_body header id
                 = framed (String.concat (String LF EmptyString) (map frontLine pairs))
                          md_body).
  { unfold stringifyMdWithNotionId. fold header'. fold pairs.
    rewrite filter_all.
    2:{ eapply Forall_impl; [|exact Hokp]. intros e [_ Hv].
        now apply value_ok_nonempty. }
    destruct (map frontLine pairs) as [|l ls] eqn:E.
    - destruct pairs; [congruence | discriminate].
    - unfold framed. rewrite !append_assoc. cbn [append]. reflexivity. }
  assert (Hshape : Forall (fun l => all_chars dot l = true
                                    /\ head_not (Ascii.eqb "-") l = true)
                          (map frontLine pairs)).
  { apply Forall_map. eapply Forall_impl; [|exact Hokp].
    intros [k v] [Hk Hv]. now apply frontLine_shape. }
  destruct (block_safe_concat _ Hshape) as [Hsafe _].
  cbv zeta. rewrite Hstr. unfold parseMdWithNotionId.
  rewrite (exec_FRONTMATTER_RE _ md_body Hsafe).
  cbn [capture Nat.eqb].
  rewrite (parseFrontmatterBlock_lines pairs Hne Hndp Hokp).
  cbn [body notionPageId data]. repeat split.
  - rewrite Hget. unfold header'. rewrite obj_get_define, Htrim.
    destruct id as [|a id']; [discriminate | reflexivity].
  - exact Hget.
Qed.

(** The round trip of C2 on a document with a quoted value, an array-index
    key and a previous identifier. *)
Lemma codec_round_trip_witness :
  let header := [("title", "My: Doc"); ("7", "x"); ("notion_page_id", "old-1")] in
  let r := parseMdWithNotionId (stringifyMdWithNotionId "# Hi" header "abc-123") in
  body r = "# Hi"
  /\ notionPageId r = Some "abc-123"
  /\ (forall k, obj_get k (data r)
                = obj_get k (obj_define NOTION_PAGE_ID_KEY "abc-123" header)).
Proof.
  apply codec_round_trip.
  - repeat constructor; simpl; intuition discriminate.
  - repeat constructor.
  - reflexivity.
  - reflexivity.
Defined.

(** C2 as first stated fails, each time by a rule the codec applies on
    purpose: a key with an empty value is not written; an unquoted value is
    trimmed when read; a key outside word characters is not read; a value
    enclosed in single quotes is unquoted when read; the identifier is
    trimmed when read. *)
Lemma codec_round_trip_counterexample :
  (let r := parseMdWithNotionId
              (stringifyMdWithNotionId "text" [("title", EmptyString)] "abc") in
   obj_get "title" (data r)
   <> obj_get "title" (obj_define NOTION_PAGE_ID_KEY "abc" [("title", EmptyString)]))
  /\ (let r := parseMdWithNotionId
                 (stringifyMdWithNotionId "text" [("title", " Draft")] "abc") in
      obj_get "title" (data r)
      <> obj_get "title" (obj_define NOTION_PAGE_ID_KEY "abc" [("title", " Draft")]))
  /\ (let r := parseMdWithNotionId
                 (stringifyMdWithNotionId "text" [("last-edit", "today")] "abc") in
      obj_get "last-edit" (data r)
      <> obj_get "last-edit"
           (obj_define NOTION_PAGE_ID_KEY "abc" [("last-edit", "today")]))
  /\ (let r := parseMdWithNotionId
                 (stringifyMdWithNotionId "text" [("title", "'Draft'")] "abc") in
      obj_get "title" (data r)
      <> obj_get "title" (obj_define NOTION_PAGE_ID_KEY "abc" [("title", "'Draft'")]))
  /\ (let r := parseMdWithNotionId (stringifyMdWithNotionId "text" [] " abc") in
      notionPageId r <> Some " abc").
Proof.
  repeat split; vm_compute; discriminate.
Qed.

(** Two further inputs on which the round trip is lost: a backslash in a
    value comes back doubled, and a value with a line feed is cut at it. *)
Example codec_backslash_doubled :
  let v := String "a" (String BSL "b") in
  obj_get "path" (data (parseMdWithNotionId
                          (stringifyMdWithNotionId "text" [("path", v)] "abc")))
  = Some (String "a" (String BSL (String BSL "b"))).
Proof. vm_compute. reflexivity. Qed.

Example codec_line_feed_cut :
  let v := String "a" (String LF "b") in
  obj_get "note" (data (parseMdWithNotionId
                          (stringifyMdWithNotionId "text" [("note", v)] "abc")))
  = Some (String DQ "a").
Proof. vm_compute. reflexivity. Qed.

(** A value made of one single quote starts and ends with a single quote: it
    is read back as the empty string. *)
Example codec_lone_quote_emptied :
  let v := String SQ EmptyString in
  obj_get "mark" (data (parseMdWithNotionId
                          (stringifyMdWithNotionId "text" [("mark", v)] "abc")))
  = Some EmptyString.
Proof. vm_compute. reflexivity. Qed.

(** ** Identity codec *)

Example stringify_example :
  stringifyMdWithNotionId "# Hi" [("title", "My: Doc"); ("7", "x"); ("3", "y")] "abc-123"
  = "---" +++ String Regex.LF ("3: y" +++ String Regex.LF ("7: x" +++ String Regex.LF
    ("title: " +++ String Regex.DQ ("My: Doc" +++ String Regex.DQ EmptyString) +++ String Regex.LF ("notion_page_id: abc-123" +++ String Regex.LF
    ("---" +++ String Regex.LF "# Hi"))))).
Proof. vm_compute. reflexivity. Qed.

Example parse_example :
  parseMdWithNotionId
    (stringifyMdWithNotionId "# Hi" [("title", "My: Doc"); ("7", "x")] "abc-123")
  = {| body := "# Hi"; notionPageId := Some "abc-123";
       data := [("7", "x"); ("title", "My: Doc"); ("notion_page_id", "abc-123")] |}.
Proof. vm_compute. reflexivity. Qed.

Example parse_no_header :
  parseMdWithNotionId "# Only a body"
  = {| body := "# Only a body"; notionPageId := None; data := [] |}.
Proof. vm_compute. reflexivity. Qed.

(** ** Change selector *)

Section ChangeSelectorFacts.

Lemma uniq_from_spec (seen l : list string) :
  NoDup (uniq_from seen l)
  /\ forall x, In x (uniq_from seen l) <-> In x l /\ ~ In x seen.
Proof.
  revert seen. induction l as [|y l IH]; intros seen.
  - split; [constructor | intros x; simpl; tauto].
  - cbn [uniq_from]. destruct (existsb (String.eqb y) seen) eqn:E.
    + destruct (IH seen) as [Hnd Hin]. split; [exact Hnd|].
      apply existsb_exists in E as (z & Hz & Hyz). apply String.eqb_eq in Hyz.
      subst z. intros x. rewrite Hin. simpl. split; [tauto|].
      intros [[<-|Hx] Hs]; [contradiction | tauto].
    + destruct (IH (y :: seen)) as [Hnd Hin].
      assert (Hy : ~ In y seen).
      { intros Hy. assert (existsb (String.eqb y) seen = true); [|congruence].
        apply existsb_exists. exists y. split; [exact Hy | apply String.eqb_refl]. }
      split.
      * constructor; [|exact Hnd]. rewrite Hin. simpl. tauto.
      * intros x. simpl. rewrite Hin. simpl.
        destruct (string_dec y x) as [->|Hne]; tauto.
Qed.

Lemma uniq_spec (l : list string) :
  NoDup (uniq l) /\ forall x, In x (uniq l) <-> In x l.
Proof.
  destruct (uniq_from_spec [] l) as [Hnd Hin]. split; [exact Hnd|].
  intros x. unfold uniq. rewrite Hin. simpl. tauto.
Qed.

Lemma has_prefix_length (p s : string) :
  JS.has_prefix p s = true -> String.length p <= String.length s.
Proof.
  revert s. induction p as [|a p IH]; intros s H; simpl; [lia|].
  destruct s as [|b s]; [discriminate|]. cbn [JS.has_prefix] in H.
  apply andb_true_iff in H as [_ H]. apply IH in H. simpl. lia.
Qed.

Lemma take_length (n : nat) (s : string) :
  String.length (JS.take n s) = Nat.min n (String.length s).
Proof.
  revert s. induction n as [|n IH]; intros s; [reflexivity|].
  destruct s as [|a s]; [reflexivity|]. simpl. now rewrite IH.
Qed.

Lemma endsWith_nonempty (s p : string) :
  JS.endsWith s p = true -> String.length p <= String.length s.
Proof.
  unfold JS.endsWith. intros H. apply andb_true_iff in H as [H _].
  now apply Nat.leb_le.
Qed.

(** The normalised prefix always ends with a slash, so it is not empty. *)
Lemma docsPrefixOf_length (d : string) : 0 < String.length (docsPrefixOf d).
Proof.
  unfold docsPrefixOf. destruct (JS.endsWith d "/") eqn:E.
  - apply endsWith_nonempty in E. simpl in E. lia.
  - rewrite length_append. simpl. lia.
Qed.

(** The pass over one line, as a condition on the normalised line: the test
    against the prefix without its slash never decides. *)
Lemma changedPathOfLine_spec (prefix line r : string) :
  0 < String.length prefix ->
  changedPathOfLine prefix line = Some r <->
  let normalized := JS.backslashes_to_slashes line in
  JS.endsWith (JS.toLowerCase normalized) ".md" = true
  /\ JS.startsWith normalized prefix = true
  /\ normalized <> prefix
  /\ r = JS.drop (String.length prefix) normalized.
Proof.
  intros Hlen. cbv zeta. unfold changedPathOfLine.
  set (normalized := JS.backslashes_to_slashes line).
  destruct (JS.endsWith (JS.toLowerCase normalized) ".md"); cbn [negb].
  2:{ split; [discriminate | intros [H _]; discriminate]. }
  destruct (String.eqb_spec normalized prefix) as [Heq|Hne]; cbn [orb].
  { split; [discriminate | intros (_ & _ & H & _); contradiction]. }
  destruct (JS.startsWith normalized prefix) eqn:Hsw.
  - destruct (String.eqb_spec normalized
                (JS.take (String.length prefix - 1) prefix)) as [Heq|_].
    + exfalso. unfold JS.startsWith in Hsw. apply has_prefix_length in Hsw.
      rewrite Heq, take_length in Hsw. lia.
    + split.
      * intros [= <-]. auto.
      * intros (_ & _ & _ & ->). reflexivity.
  - destruct (String.eqb normalized (JS.take (String.length prefix - 1) prefix));
      (split; [discriminate | intros (_ & H & _); discriminate]).
Qed.

Lemma collectChanged_In (prefix : string) (lines : list string) (r : string) :
  In r (collectChanged prefix lines) <->
  exists line, In line lines /\ changedPathOfLine prefix line = Some r.
Proof.
  induction lines as [|l lines IH]; cbn [collectChanged].
  - split; [contradiction | intros (? & [] & _)].
  - destruct (changedPathOfLine prefix l) as [p|] eqn:E.
    + cbn [In]. rewrite IH. split.
      * intros [<-|(line & Hin & Hl)]; [exists l | exists line]; simpl; auto.
      * intros (line & [<-|Hin] & Hl); [left; congruence | right; eauto].
    + rewrite IH. split.
      * intros (line & Hin & Hl). exists line. simpl. auto.
      * intros (line & [<-|Hin] & Hl); [congruence | eauto].
Qed.

End ChangeSelectorFacts.

Section DiffLines.

Import Regex.

(** A line feed is not in [s]. *)
Local Abbreviation no_LF s := (all_chars (fun c => negb (Ascii.eqb c LF)) s).

Lemma startsWith_iff (line p : string) :
  JS.startsWith line p = true <-> exists r, line = p +++ r.
Proof.
  unfold JS.startsWith. split.
  - intros H. exists (JS.drop (String.length p) line).
    revert line H. induction p as [|a p IH]; intros line H; [reflexivity|].
    destruct line as [|b line]; [discriminate|].
    cbn [JS.has_prefix] in H. apply andb_true_iff in H as [Hab Hp].
    apply Ascii.eqb_eq in Hab. subst b.
    cbn [String.length JS.drop append]. f_equal. now apply IH.
  - intros [r ->]. apply has_prefix_append.
Qed.

Lemma trimEnd_snoc_space (t : string) (c : ascii) :
  JS.is_space c = true ->
  JS.trimEnd (t +++ String c EmptyString) = JS.trimEnd t.
Proof.
  intros Hc. induction t as [|a t IH].
  - cbn [append JS.trimEnd]. now rewrite Hc.
  - cbn [append JS.trimEnd]. now rewrite IH.
Qed.

Lemma trim_snoc_space (s : string) (c : ascii) :
  JS.is_space c = true ->
  JS.trim (s +++ String c EmptyString) = JS.trim s.
Proof.
  intros Hc. unfold JS.trim. induction s as [|a s IH].
  - cbn [append JS.trimStart]. now rewrite Hc.
  - cbn [append JS.trimStart]. destruct (JS.is_space a); [exact IH|].
    exact (trimEnd_snoc_space (String a s) c Hc).
Qed.

(** A text without a line feed is one line. *)
Lemma split_lines_no_LF (seg : string) :
  no_LF seg = true -> split_lines seg = [seg].
Proof.
  induction seg as [|a seg IH]; [reflexivity|].
  cbn [all_chars]. intros H. apply andb_true_iff in H as [Ha Hseg].
  apply negb_true_iff in Ha. cbn [split_lines]. rewrite Ha, (IH Hseg).
  destruct (Ascii.eqb a CR); [|reflexivity].
  destruct seg as [|b seg]; [reflexivity|].
  cbn [all_chars] in Hseg. apply andb_true_iff in Hseg as [Hb _].
  apply negb_true_iff in Hb. now rewrite Hb.
Qed.

(** The first line of a text is what stands before its first line feed,
    without the carriage return that may end it. *)
Lemma split_lines_first (seg rest : string) :
  no_LF seg = true ->
  exists line,
    split_lines (seg +++ String LF rest) = line :: split_lines rest
    /\ (line = seg \/ seg = line +++ String CR EmptyString).
Proof.
  induction seg as [|a seg IH].
  - intros _. exists EmptyString. cbn [append split_lines].
    rewrite Ascii.eqb_refl. auto.
  - cbn [all_chars]. intros H. apply andb_true_iff in H as [Ha Hseg].
    apply negb_true_iff in Ha.
    destruct (IH Hseg) as (line & Hline & Hshape).
    cbn [append split_lines]. rewrite Ha, Hline.
    destruct (Ascii.eqb_spec a CR) as [->|Hcr].
    + destruct seg as [|b seg].
      * cbn [append]. rewrite Ascii.eqb_refl. exists EmptyString.
        split; [reflexivity | right; reflexivity].
      * cbn [append]. cbn [all_chars] in Hseg.
        apply andb_true_iff in Hseg as [Hb _]. apply negb_true_iff in Hb.
        rewrite Hb. exists (String CR line). split; [reflexivity|].
        destruct Hshape as [->| ->]; [left | right]; reflexivity.
    + exists (String a line). split; [reflexivity|].
      destruct Hshape as [->| ->]; [left | right]; reflexivity.
Qed.

Lemma CR_is_space : JS.is_space CR = true.
Proof. reflexivity. Qed.

(** The printed lines, trimmed, are the trimmed texts between the line
    feeds. *)
Lemma outputLines_concat (segments : list string) :
  Forall (fun seg => no_LF seg = true) segments ->
  outputLines (String.concat (String LF EmptyString) segments)
  = filter (fun s => negb (String.eqb s EmptyString)) (map JS.trim segments).
Proof.
  unfold outputLines. induction segments as [|seg segments IH]; intros H.
  - reflexivity.
  - inversion H as [|? ? Hseg Hrest]; subst.
    destruct segments as [|seg2 segments].
    + cbn [String.concat]. now rewrite (split_lines_no_LF seg Hseg).
    + change (String.concat (String LF EmptyString) (seg :: seg2 :: segments))
        with (seg +++ String LF (String.concat (String LF EmptyString) (seg2 :: segments))).
      destruct (split_lines_first seg
                  (String.concat (String LF EmptyString) (seg2 :: segments)) Hseg)
        as (line & -> & Hshape).
      cbn [map filter]. rewrite (IH Hrest).
      assert (E : JS.trim line = JS.trim seg).
      { destruct Hshape as [->| ->]; [reflexivity|].
        symmetry. apply trim_snoc_space, CR_is_space. }
      now rewrite E.
Qed.

(** Every text is a list of texts without a line feed, joined by line
    feeds. *)
Lemma lines_decompose (out : string) :
  exists segments,
    out = String.concat (String LF EmptyString) segments
    /\ Forall (fun seg => no_LF seg = true) segments.
Proof.
  induction out as [|a out (segments & -> & Hall)].
  - exists []. split; [reflexivity | constructor].
  - destruct (Ascii.eqb_spec a LF) as [->|Ha].
    + destruct segments as [|seg segments].
      * exists [EmptyString; EmptyString]. split; [reflexivity|].
        repeat constructor.
      * exists (EmptyString :: seg :: segments). split; [reflexivity|].
        constructor; [reflexivity | exact Hall].
    + apply Ascii.eqb_neq in Ha.
      destruct segments as [|seg segments].
      * exists [String a EmptyString]. split; [reflexivity|].
        constructor; [|constructor]. cbn [all_chars]. now rewrite Ha.
      * exists (String a seg :: segments). split.
        -- destruct segments; reflexivity.
        -- inversion Hall; subst. constructor; [|assumption].
           cbn [all_chars]. rewrite Ha. assumption.
Qed.

End DiffLines.

(** C8.  Whatever [execSync] does.  Take the text the diff command prints
    as the texts between its line feeds ([segments]; no line feed inside
    one).  Then the result is a list without repetition that holds exactly
    the non-empty paths [r] for which the docs prefix followed by [r] ends
    in [.md] in any letter case and is one of the printed lines, trimmed
    (which also removes the carriage return of a CR LF line end) and with
    its backslashes turned into slashes.  When the command fails with
    status 128 the result is the null sentinel; any other failure is thrown
    on to the caller.  The prefix is the docs prefix with a slash added
    unless it ends in one. *)
Theorem getChangedMdPaths_contract
    (execSync : string -> string -> exec_result)
    (repoRoot docsPrefix baseRef headRef : string) (segments : list string) :
  let command := "git diff --name-only " +++ baseRef +++ " " +++ headRef in
  let prefix := if JS.endsWith docsPrefix "/" then docsPrefix
                else docsPrefix +++ "/" in
  let result := getChangedMdPaths execSync repoRoot docsPrefix baseRef headRef in
  Forall (fun seg => all_chars (fun c => negb (Ascii.eqb c Regex.LF)) seg = true)
         segments ->
  (execSync command repoRoot
   = ExecOutput (String.concat (String Regex.LF EmptyString) segments) ->
   exists paths,
     result = Returned (Some paths)
     /\ NoDup paths
     /\ forall r, In r paths <->
          r <> EmptyString
          /\ JS.endsWith (JS.toLowerCase (prefix +++ r)) ".md" = true
          /\ exists seg,
               In seg segments
               /\ JS.backslashes_to_slashes (JS.trim seg) = prefix +++ r)
  /\ (execSync command repoRoot = ExecError (Some 128%Z) ->
      result = Returned None)
  /\ (forall status,
        execSync command repoRoot = ExecError status -> status <> Some 128%Z ->
        result = Thrown status).
Proof.
  cbv zeta. intros Hsegs. unfold getChangedMdPaths.
  change (gitDiffCommand baseRef headRef)
    with ("git diff --name-only " +++ baseRef +++ " " +++ headRef).
  change (docsPrefixOf docsPrefix)
    with (if JS.endsWith docsPrefix "/" then docsPrefix else docsPrefix +++ "/").
  set (prefix := if JS.endsWith docsPrefix "/" then docsPrefix else docsPrefix +++ "/").
  assert (Hlen : 0 < String.length prefix) by apply docsPrefixOf_length.
  split; [|split].
  - intros ->. rewrite (outputLines_concat segments Hsegs).
    set (lines := filter (fun s => negb (String.eqb s EmptyString))
                         (map JS.trim segments)).
    exists (uniq (collectChanged prefix lines)).
    destruct (uniq_spec (collectChanged prefix lines)) as [Hnd Hin].
    split; [reflexivity|]. split; [exact Hnd|].
    intros r. rewrite Hin, collectChanged_In. split.
    + intros (line & Hl & Hc).
      apply changedPathOfLine_spec in Hc; [|exact Hlen].
      cbv zeta in Hc. destruct Hc as (Hmd & Hsw & Hne & Hr).
      apply startsWith_iff in Hsw as [r' Hr'].
      rewrite Hr', drop_append in Hr. subst r'.
      split; [|split].
      * intros ->. apply Hne. rewrite Hr'. clear. induction prefix; cbn; congruence.
      * now rewrite <- Hr'.
      * unfold lines in Hl. apply filter_In in Hl as [Hl _].
        apply in_map_iff in Hl as (seg & <- & Hseg). exists seg. auto.
    + intros (Hne & Hmd & seg & Hseg & Hline).
      exists (JS.trim seg). split.
      * unfold lines. apply filter_In. split; [now apply in_map|].
        apply negb_true_iff, String.eqb_neq. intros E. rewrite E in Hline.
        cbn in Hline. destruct prefix; [cbn in Hlen; lia | discriminate].
      * apply changedPathOfLine_spec; [exact Hlen|]. cbv zeta. rewrite Hline.
        split; [exact Hmd|]. split; [apply startsWith_iff; eauto|]. split.
        -- intros E. apply Hne.
           assert (L : String.length (prefix +++ r) = String.length prefix)
             by now rewrite E.
           rewrite length_append in L. destruct r; [reflexivity | cbn in L; lia].
        -- now rewrite drop_append.
  - intros ->. reflexivity.
  - intros status -> Hst.
    destruct status as [[|p|p]|]; try reflexivity.
    repeat (destruct p as [p|p|]; try reflexivity). contradiction.
Qed.

(** C8 on a diff that names a document twice (once with a carriage return),
    a file outside the docs directory, a document in capitals, one written
    with backslashes, an image and the directory itself. *)
Lemma getChangedMdPaths_contract_witness :
  let segments :=
    ["docs/guides/setup.md"; "README.md";
     "docs/guides/setup.md" +++ String Regex.CR EmptyString;
     "  docs/Intro.MD"; "docs" +++ String Regex.BSL "api.md"; "docs/logo.png";
     "docs/"; "docs/.md"; EmptyString] in
  let execSync := fun (_ _ : string) =>
    ExecOutput (String.concat (String Regex.LF EmptyString) segments) in
  Forall (fun seg => all_chars (fun c => negb (Ascii.eqb c Regex.LF)) seg = true)
         segments
  /\ exists paths,
       getChangedMdPaths execSync "/repo" "docs" "a1" "b2" = Returned (Some paths)
       /\ NoDup paths
       /\ forall r, In r paths <->
            r = "guides/setup.md" \/ r = "Intro.MD" \/ r = "api.md" \/ r = ".md".
Proof.
  cbv zeta.
  set (segments :=
    ["docs/guides/setup.md"; "README.md";
     "docs/guides/setup.md" +++ String Regex.CR EmptyString;
     "  docs/Intro.MD"; "docs" +++ String Regex.BSL "api.md"; "docs/logo.png";
     "docs/"; "docs/.md"; EmptyString]).
  assert (Hsegs : Forall (fun seg => all_chars (fun c => negb (Ascii.eqb c Regex.LF))
                                       seg = true) segments)
    by (repeat constructor).
  split; [exact Hsegs|].
  destruct (getChangedMdPaths_contract
              (fun _ _ => ExecOutput (String.concat (String Regex.LF EmptyString)
                                        segments))
              "/repo" "docs" "a1" "b2" segments Hsegs) as (Hout & _).
  destruct (Hout eq_refl) as (paths & Hres & Hnd & Hin).
  exists paths. split; [exact Hres|]. split; [exact Hnd|].
  intros r. rewrite Hin. split.
  - intros (Hne & Hmd & seg & Hseg & Hline).
    cbn [In segments] in Hseg.
    repeat (destruct Hseg as [<-|Hseg];
            [vm_compute in Hline; try discriminate;
             injection Hline as <-; try tauto; try (now elim Hne);
             vm_compute in Hmd; discriminate|]).
    contradiction.
  - intros [->|[->|[->| ->]]]; (split; [discriminate|]); (split; [reflexivity|]).
    + exists "docs/guides/setup.md". split; [cbn; tauto | reflexivity].
    + exists "  docs/Intro.MD". split; [cbn; tauto | reflexivity].
    + exists ("docs" +++ String Regex.BSL "api.md"). split; [cbn; tauto | reflexivity].
    + exists "docs/.md". split; [cbn; tauto | reflexivity].
Defined.

Example getChangedMdPaths_example :
  getChangedMdPaths
    (fun _ _ => ExecOutput
       ("docs/guides/setup.md" +++ String Regex.LF
        ("README.md" +++ String Regex.LF
        ("docs/guides/setup.md" +++ String Regex.CR (String Regex.LF
        ("docs/Intro.MD" +++ String Regex.LF
        ("docs/logo.png" +++ String Regex.LF EmptyString)))))))
    "/repo" "docs" "a1" "b2"
  = Returned (Some ["guides/setup.md"; "Intro.MD"]).
Proof. vm_compute. reflexivity. Qed.

(** ** Content adapter *)

(** Induction over blocks and their members together, through the lists
    that nest them. *)
Section BlockInduction.

Variable P : NotionBlock -> Prop.
Variable Q : BlockMember -> Prop.

Hypothesis HBlock : forall block_type members,
  Forall (fun km => Q (snd km)) members -> P (Block block_type members).
Hypothesis HProperty : forall rich_text children other,
  (forall blocks, children = Some blocks -> Forall P blocks) ->
  Q (Property rich_text children other).
Hypothesis HPlain : forall value, Q (Plain value).

Fixpoint NotionBlock_nested_ind (b : NotionBlock) : P b :=
  match b with
  | Block block_type members =>
      HBlock block_type members
        ((fix members_ind (l : list (string * BlockMember))
            : Forall (fun km => Q (snd km)) l :=
            match l with
            | [] => Forall_nil _
            | (key, m) :: l' =>
                Forall_cons (key, m) (BlockMember_nested_ind m) (members_ind l')
            end) members)
  end
with BlockMember_nested_ind (m : BlockMember) : Q m :=
  match m with
  | Property rich_text children other =>
      HProperty rich_text children other
        (match children as c
               return forall blocks, c = Some blocks -> Forall P blocks with
         | Some bs =>
             fun blocks (E : Some bs = Some blocks) =>
               match E in _ = o
                     return match o with
                            | Some x => Forall P x
                            | None => True
                            end with
               | eq_refl =>
                   (fix blocks_ind (l : list NotionBlock) : Forall P l :=
                      match l with
                      | [] => Forall_nil _
                      | b :: l' =>
                          Forall_cons b (NotionBlock_nested_ind b) (blocks_ind l')
                      end) bs
               end
         | None => fun blocks (E : None = Some blocks) =>
             match E in _ = o
                   return match o with
                          | Some x => Forall P x
                          | None => True
                          end with
             | eq_refl => I
             end
         end)
  | Plain value => HPlain value
  end.

End BlockInduction.

Section Sanitation.

Lemma flat_map_map {X Y Z} (f : X -> Y) (g : Y -> list Z) (l : list X) :
  flat_map g (map f l) = flat_map (fun x => g (f x)) l.
Proof. induction l as [|x l IH]; simpl; congruence. Qed.

Lemma flat_map_ext_Forall {X Y} (f g : X -> list Y) (l : list X) :
  Forall (fun x => f x = g x) l -> flat_map f l = flat_map g l.
Proof. induction 1 as [|x l Hx _ IH]; simpl; congruence. Qed.

Lemma map_flat_map {X Y Z} (f : Y -> Z) (g : X -> list Y) (l : list X) :
  map f (flat_map g l) = flat_map (fun x => map f (g x)) l.
Proof.
  induction l as [|x l IH]; simpl; [reflexivity|]. now rewrite map_app, IH.
Qed.

(** Sanitation reaches every rich-text item, at every depth, and only
    through [sanitizeItem]. *)
Lemma items_of_sanitizeBlock (b : NotionBlock) :
  items_of_block (sanitizeBlock b) = map sanitizeItem (items_of_block b).
Proof.
  apply (NotionBlock_nested_ind
           (fun b => items_of_block (sanitizeBlock b)
                     = map sanitizeItem (items_of_block b))
           (fun m => items_of_member (sanitizeMember m)
                     = map sanitizeItem (items_of_member m))).
  - intros block_type members IH. cbn [sanitizeBlock items_of_block].
    rewrite flat_map_map, map_flat_map. apply flat_map_ext_Forall.
    eapply Forall_impl; [|exact IH]. intros [key m] Hm. exact Hm.
  - intros rich_text children other IH.
    cbn [sanitizeMember items_of_member]. rewrite map_app. f_equal.
    + destruct rich_text; reflexivity.
    + destruct children as [blocks|]; [|reflexivity]. cbn [option_map].
      rewrite flat_map_map, map_flat_map. apply flat_map_ext_Forall.
      exact (IH blocks eq_refl).
  - reflexivity.
Qed.

Lemma rich_items_sanitizeBlocks (blocks : list NotionBlock) :
  rich_items (sanitizeBlocks blocks) = map sanitizeItem (rich_items blocks).
Proof.
  unfold rich_items, sanitizeBlocks. rewrite flat_map_map, map_flat_map.
  apply flat_map_ext_Forall, Forall_forall. intros b _.
  apply items_of_sanitizeBlock.
Qed.

(** A link that a sanitised text item carries has a valid URL. *)
Lemma sanitizeItem_link_valid (item : RichTextItem) (text : TextObject) (l : Link) :
  item_type (sanitizeItem item) = "text" ->
  item_text (sanitizeItem item) = Some text -> link text = Some l ->
  item_type item = "text" /\ isValidNotionUrl (url l) = true.
Proof.
  unfold sanitizeItem. destruct (item_text item) as [t|] eqn:Et.
  - destruct (String.eqb_spec (item_type item) "text") as [Ety|Hne].
    + cbn [item_type item_text]. intros _ [= <-]. cbn [link].
      destruct (link t) as [l0|]; [|discriminate].
      destruct (negb (String.eqb (url l0) EmptyString) && isValidNotionUrl (url l0))
        eqn:Ev; [|discriminate].
      intros [= <-]. cbn [url]. apply andb_true_iff in Ev as [_ Ev]. auto.
    + intros Hty. contradiction.
  - intros _ Htext. rewrite Et in Htext. discriminate.
Qed.

End Sanitation.

Lemma isValidNotionUrl_nonempty (u : string) :
  negb (String.eqb u EmptyString) && isValidNotionUrl u = isValidNotionUrl u.
Proof. destruct u; reflexivity. Qed.

(** What [sanitizeItem] builds from a text item. *)
Lemma sanitizeItem_text (item : RichTextItem) (text : TextObject) :
  item_type item = "text" -> item_text item = Some text ->
  sanitizeItem item =
    {| item_type := "text";
       item_text :=
         Some {| content := Some (match content text with
                                  | Some c => c
                                  | None => EmptyString
                                  end);
                 link := match link text with
                         | Some l => if isValidNotionUrl (url l)
                                     then Some {| url := url l |} else None
                         | None => None
                         end |};
       item_other := [] |}.
Proof.
  intros Hty Htext. unfold sanitizeItem. rewrite Htext, Hty. cbn [String.eqb].
  change (String.eqb "text" "text") with true. cbv iota.
  destruct (link text) as [l|]; [|reflexivity].
  now rewrite isValidNotionUrl_nonempty.
Qed.


(** C5 (as amended).  Whatever the converter does on [md],
    [convertMarkdownToNotionBlocks] returns a block list (the call of the
    converter is the only step that can throw, and it is caught).  When the
    converter throws, the list is one block of type [paragraph] whose
    [rich_text] is one text item without a link, with the first 2000
    characters of [md] as its content, or ["(empty)"] when [md] is empty.
    When the converter returns something that is not an array, or an empty
    array, the list is the one paragraph with the content ["(No content)"].
    The list is never empty.  Every link on a text item of a [rich_text]
    array of the result (through nested [children] at any depth) has a URL
    that starts with ["http://"] or ["https://"] once trimmed; these items
    are the items of the converted blocks, each sanitised; a text item whose
    link is missing, or has a URL that does not start so, is rebuilt with
    its content and no link, and one whose link has a URL that starts so is
    rebuilt with its content and that link. *)
Theorem convertMarkdownToNotionBlocks_contract
    (markdownToBlocks : string -> conversion) (md : string) :
  let result := convertMarkdownToNotionBlocks markdownToBlocks md in
  let paragraph (s : string) : NotionBlock :=
    Block "paragraph"
      [("paragraph",
        Property
          (Some [{| item_type := "text";
                    item_text := Some {| content := Some s; link := None |};
                    item_other := [] |}])
          None [])] in
  (markdownToBlocks md = ConversionThrows ->
     let excerpt := JS.take 2000 md in
     (exists rest, md = excerpt +++ rest)
     /\ String.length excerpt = Nat.min 2000 (String.length md)
     /\ result = [paragraph (if String.eqb md EmptyString then "(empty)"
                             else excerpt)])
  /\ (forall value, markdownToBlocks md = ConversionNotArray value ->
        result = [paragraph "(No content)"])
  /\ (markdownToBlocks md = ConversionBlocks [] ->
        result = [paragraph "(No content)"])
  /\ result <> []
  /\ (forall item text l,
        In item (rich_items result) -> item_type item = "text" ->
        item_text item = Some text -> link text = Some l ->
        JS.startsWith (JS.trim (url l)) "http://" = true
        \/ JS.startsWith (JS.trim (url l)) "https://" = true)
  /\ (forall blocks, markdownToBlocks md = ConversionBlocks blocks ->
        blocks <> [] ->
        rich_items result = map sanitizeItem (rich_items blocks))
  /\ (forall item text,
        item_type item = "text" -> item_text item = Some text ->
        (link text = None
         \/ exists l, link text = Some l
                      /\ JS.startsWith (JS.trim (url l)) "http://" = false
                      /\ JS.startsWith (JS.trim (url l)) "https://" = false) ->
        sanitizeItem item =
          {| item_type := "text";
             item_text := Some {| content := Some (match content text with
                                                   | Some c => c
                                                   | None => EmptyString
                                                   end);
                                  link := None |};
             item_other := [] |})
  /\ (forall item text l,
        item_type item = "text" -> item_text item = Some text ->
        link text = Some l ->
        JS.startsWith (JS.trim (url l)) "http://" = true
        \/ JS.startsWith (JS.trim (url l)) "https://" = true ->
        sanitizeItem item =
          {| item_type := "text";
             item_text := Some {| content := Some (match content text with
                                                   | Some c => c
                                                   | None => EmptyString
                                                   end);
                                  link := Some {| url := url l |} |};
             item_other := [] |}).
Proof.
  cbv zeta. unfold convertMarkdownToNotionBlocks.
  repeat match goal with |- _ /\ _ => split end.
  - intros ->. split; [exists (JS.drop 2000 md); symmetry; apply take_drop|].
    split; [apply take_length|].
    destruct md as [|a md']; reflexivity.
  - intros value ->. reflexivity.
  - intros ->. reflexivity.
  - destruct (markdownToBlocks md) as [|value|[|b bs]]; discriminate.
  - intros item text l Hin Hty Htext Hlink.
    rewrite rich_items_sanitizeBlocks in Hin.
    apply in_map_iff in Hin as (item0 & <- & _).
    destruct (sanitizeItem_link_valid item0 text l Hty Htext Hlink) as [_ Hv].
    unfold isValidNotionUrl in Hv. now apply orb_true_iff in Hv.
  - intros blocks -> Hne. destruct blocks as [|b bs]; [congruence|].
    apply rich_items_sanitizeBlocks.
  - intros item text Hty Htext Hlink.
    rewrite (sanitizeItem_text item text Hty Htext).
    destruct Hlink as [->|(l & -> & H1 & H2)]; [reflexivity|].
    unfold isValidNotionUrl. now rewrite H1, H2.
  - intros item text l Hty Htext Hlink Hvalid.
    rewrite (sanitizeItem_text item text Hty Htext), Hlink.
    unfold isValidNotionUrl. apply orb_true_iff in Hvalid. now rewrite Hvalid.
Qed.

(** C5 as first stated fails: the sanitation looks into the [rich_text]
    and [children] members only, so the link of a text item held in the
    [cells] of a table row stays as the converter gave it, here with a
    script URL. *)
Lemma convertMarkdownToNotionBlocks_contract_counterexample :
  let result := convertMarkdownToNotionBlocks
                  (fun _ => ConversionBlocks [sample_table])
                  "| [click](javascript:alert(1)) |" in
  result = [sample_table]
  /\ In "javascript:alert(1)" (link_urls result)
  /\ JS.startsWith (JS.trim "javascript:alert(1)") "http://" = false
  /\ JS.startsWith (JS.trim "javascript:alert(1)") "https://" = false
  /\ rich_items result = [].
Proof.
  cbv zeta. split; [reflexivity|]. split; [vm_compute; tauto|].
  repeat split; reflexivity.
Qed.

(** C5 on a converter that throws on ["boom"], returns nothing on the empty
    document and otherwise a list item with a script link and a nested
    paragraph. *)
Lemma convertMarkdownToNotionBlocks_contract_witness :
  let paragraph (s : string) : NotionBlock :=
    Block "paragraph"
      [("paragraph",
        Property
          (Some [{| item_type := "text";
                    item_text := Some {| content := Some s; link := None |};
                    item_other := [] |}])
          None [])] in
  sample_converter "boom" = ConversionThrows
  /\ convertMarkdownToNotionBlocks sample_converter "boom" = [paragraph "boom"]
  /\ sample_converter EmptyString = ConversionBlocks []
  /\ convertMarkdownToNotionBlocks sample_converter EmptyString
     = [paragraph "(No content)"]
  /\ rich_items (convertMarkdownToNotionBlocks sample_converter "# list")
     = [{| item_type := "text";
           item_text := Some {| content := Some "click"; link := None |};
           item_other := [] |};
        {| item_type := "text";
           item_text := Some {| content := Some "docs";
                                link := Some {| url := " https://example.org" |} |};
           item_other := [] |};
        {| item_type := "equation";
           item_text := None;
           item_other := [("equation", JObj [("expression", JStr "x")])] |}].
Proof.
  cbv zeta.
  assert (H1 : sample_converter "boom" = ConversionThrows) by reflexivity.
  assert (H2 : sample_converter EmptyString = ConversionBlocks []) by reflexivity.
  destruct (convertMarkdownToNotionBlocks_contract sample_converter "boom")
    as (Hthrow & _).
  destruct (Hthrow H1) as (_ & _ & Hboom).
  destruct (convertMarkdownToNotionBlocks_contract sample_converter EmptyString)
    as (_ & _ & Hempty & _).
  destruct (convertMarkdownToNotionBlocks_contract sample_converter "# list")
    as (_ & _ & _ & _ & _ & Hitems & _ & _).
  refine (conj H1 (conj Hboom (conj H2 (conj (Hempty H2) _)))).
  rewrite (Hitems _ eq_refl ltac:(discriminate)). reflexivity.
Defined.



(** ** Page creation *)

Section PageCreation.

Variable notion : NotionClient.

Lemma with_calls_nil (s : state) : with_calls s [] = s.
Proof. destruct s. unfold with_calls. cbn. now rewrite app_nil_r. Qed.

Lemma with_calls_app (s : state) (cs cs' : list call) :
  with_calls (with_calls s cs) cs' = with_calls s (cs ++ cs').
Proof. unfold with_calls. cbn. now rewrite app_assoc. Qed.

Lemma request_ok {A} (c : call) (answer : list call -> A + ApiError) (s : state) (a : A) :
  answer (calls s) = inl a -> request c answer s = (inl a, with_calls s [c]).
Proof. intros H. unfold request. now rewrite H. Qed.

Lemma request_rejected {A} (c : call) (answer : list call -> A + ApiError)
    (s : state) (e : ApiError) :
  answer (calls s) = inr e ->
  request c answer s = (inr (NotionFailure e), with_calls s [c]).
Proof. intros H. unfold request. now rewrite H. Qed.

(** When no append is rejected, the chunks go out one call each, in order. *)
Lemma appendChunks_run (pageId : string) (rest : list (list NotionBlock)) (s : state) :
  (forall h chunk, blocks_children_append notion h pageId chunk = inl tt) ->
  appendChunks notion pageId rest s
  = (inl tt, with_calls s (map (BlocksAppend pageId) rest)).
Proof.
  intros Hok. revert s. induction rest as [|chunk rest IH]; intros s.
  - cbn [appendChunks map]. now rewrite with_calls_nil.
  - cbn [appendChunks map]. unfold bind.
    rewrite (request_ok _ _ s tt) by apply Hok.
    rewrite IH, with_calls_app. reflexivity.
Qed.

Lemma createSubpage_run (parentPageId title : string)
    (blockChunks : list (list NotionBlock)) (s : state) (page : Page) :
  pages_create notion (calls s) parentPageId title (hd_error blockChunks) = inl page ->
  (forall h chunk, blocks_children_append notion h (id page) chunk = inl tt) ->
  createSubpage notion parentPageId title blockChunks s
  = (inl (id page),
     with_calls s (PagesCreate parentPageId title (hd_error blockChunks)
                   :: map (BlocksAppend (id page)) (tl blockChunks))).
Proof.
  intros Hcreate Happend. unfold createSubpage, bind.
  rewrite (request_ok _ _ s page Hcreate).
  rewrite (appendChunks_run _ _ _ Happend), with_calls_app. reflexivity.
Qed.

End PageCreation.

(** C7.  For every block list, chunking by 100 finishes with chunks whose
    concatenation in order is the list, all of 100 blocks except possibly
    the last, and none empty.  Given those chunks, [createSubpage] sends the
    first with the page-creation call and then, when no call is rejected,
    one append call per remaining chunk on the new page, in the order of the
    chunks, touching nothing else. *)
Theorem chunked_page_creation (notion : NotionClient) (blocks : list NotionBlock)
    (parentPageId title : string) (s : state) :
  exists chunks,
    chunkBlocks blocks NOTION_BLOCK_CHUNK_SIZE = Some chunks
    /\ List.concat chunks = blocks
    /\ Forall (fun c => List.length c = 100) (removelast chunks)
    /\ Forall (fun c => 0 < List.length c <= 100) chunks
    /\ (blocks <> [] -> chunks <> [])
    /\ forall page,
         pages_create notion (calls s) parentPageId title (hd_error chunks) = inl page ->
         (forall h chunk, blocks_children_append notion h (id page) chunk = inl tt) ->
         createSubpage notion parentPageId title chunks s
         = (inl (id page),
            {| calls := calls s
                        ++ PagesCreate parentPageId title (hd_error chunks)
                           :: map (BlocksAppend (id page)) (tl chunks);
               files := files s;
               validatedPageIds := validatedPageIds s |}).
Proof.
  destruct (chunkBlocks_partition blocks NOTION_BLOCK_CHUNK_SIZE)
    as (chunks & Hrun & Hcat & Hall & Hfull & Hne);
    [unfold NOTION_BLOCK_CHUNK_SIZE; lia|].
  exists chunks. repeat match goal with |- _ /\ _ => split end; auto.
  intros page Hcreate Happend.
  now apply createSubpage_run.
Qed.

(** C7 on 205 blocks: chunks of 100, 100 and 5, the first sent with the
    creation and the other two appended in order. *)
Lemma chunked_page_creation_witness :
  let p := paragraph_of "x" in
  exists chunks,
    chunkBlocks (repeat p 205) NOTION_BLOCK_CHUNK_SIZE = Some chunks
    /\ chunks = [repeat p 100; repeat p 100; repeat p 5]
    /\ createSubpage sample_client "root" "Doc" chunks sample_state
       = (inl "new-0",
          {| calls := [PagesCreate "root" "Doc" (Some (repeat p 100));
                       BlocksAppend "new-0" (repeat p 100);
                       BlocksAppend "new-0" (repeat p 5)];
             files := sample_docs;
             validatedPageIds := [] |}).
Proof.
  cbv zeta.
  destruct (chunked_page_creation sample_client (repeat (paragraph_of "x") 205)
              "root" "Doc" sample_state)
    as (chunks & Hrun & _ & _ & _ & _ & Hcreate).
  exists chunks. split; [exact Hrun|].
  assert (Hchunks : chunks = [repeat (paragraph_of "x") 100;
                              repeat (paragraph_of "x") 100;
                              repeat (paragraph_of "x") 5]).
  { vm_compute in Hrun. injection Hrun as <-. reflexivity. }
  split; [exact Hchunks|].
  rewrite (Hcreate (sample_page "new-0" "root")).
  - rewrite Hchunks. reflexivity.
  - rewrite Hchunks. reflexivity.
  - reflexivity.
Defined.

(** ** Folder resolution *)

Section FolderResolution.

Variable notion : NotionClient.

Lemma Map_has_set_same (k v : string) (m : StringMap) : Map_has k (Map_set k v m) = true.
Proof. unfold Map_has, Map_get, Map_set. now rewrite obj_get_define. Qed.

Lemma Map_has_set_mono (k k' v : string) (m : StringMap) :
  Map_has k m = true -> Map_has k (Map_set k' v m) = true.
Proof.
  unfold Map_has, Map_get, Map_set.
  induction m as [|[k0 v0] m IH]; [discriminate|].
  cbn [obj_get obj_define].
  destruct (String.eqb_spec k' k0) as [->|Hne]; cbn [obj_get];
    destruct (String.eqb k k0); auto.
Qed.

(** A run on a cache that already has every title asks nothing and returns
    the cache. *)
Lemma ensureFolderPagesCache_noop (fuel : nat) (rootPageId : string)
    (folderTitles : StringSet) (cache : StringMap) (s : state) :
  (forall t, In t folderTitles -> Map_has t cache = true) ->
  ensureFolderPagesCache notion fuel rootPageId folderTitles cache s = (inl cache, s).
Proof.
  unfold ensureFolderPagesCache.
  induction folderTitles as [|t rest IH]; intros Hall; [reflexivity|].
  cbn [ensureFolderPages_loop]. rewrite (Hall t (or_introl eq_refl)).
  apply IH. intros t' Hin. apply Hall. now right.
Qed.

(** A run that returns has put every title in the cache it returns. *)
Lemma ensureFolderPagesCache_complete (fuel : nat) (rootPageId : string)
    (folderTitles : StringSet) (cache cache' : StringMap) (s s' : state) :
  ensureFolderPagesCache notion fuel rootPageId folderTitles cache s = (inl cache', s') ->
  (forall t, In t folderTitles -> Map_has t cache' = true)
  /\ (forall t, Map_has t cache = true -> Map_has t cache' = true).
Proof.
  unfold ensureFolderPagesCache. revert cache s.
  induction folderTitles as [|t rest IH]; intros cache s Hrun.
  - cbn in Hrun. injection Hrun as <- <-. split; [contradiction | auto].
  - cbn [ensureFolderPages_loop] in Hrun.
    destruct (Map_has t cache) eqn:Ht.
    + destruct (IH cache s Hrun) as [Hall Hmono]. split; [|exact Hmono].
      intros t' [<-|Hin]; auto.
    + unfold bind in Hrun.
      destruct (getOrCreateFolderPage notion fuel rootPageId t s)
        as [[pageId|e] s1]; [|discriminate].
      destruct (IH _ _ Hrun) as [Hall Hmono]. split.
      * intros t' [<-|Hin]; [|auto]. apply Hmono, Map_has_set_same.
      * intros t' Ht'. now apply Hmono, Map_has_set_mono.
Qed.

End FolderResolution.

(** C9.  If a run of [ensureFolderPagesCache] on a title set returns a
    cache, then running it again on the same title set with that cache, from
    any state and with any client, makes no call at all (the state, and so
    the list of calls, is unchanged) and returns that same cache. *)
Theorem ensureFolderPagesCache_idempotent
    (notion : NotionClient) (fuel : nat) (rootPageId : string)
    (folderTitles : StringSet) (initialCache cache : StringMap) (s s' : state) :
  ensureFolderPagesCache notion fuel rootPageId folderTitles initialCache s
  = (inl cache, s') ->
  forall (notion2 : NotionClient) (fuel2 : nat) (s2 : state),
    ensureFolderPagesCache notion2 fuel2 rootPageId folderTitles cache s2
    = (inl cache, s2)
    /\ forall t, In t folderTitles -> Map_has t cache = true.
Proof.
  intros Hfirst notion2 fuel2 s2.
  destruct (ensureFolderPagesCache_complete _ _ _ _ _ _ _ _ Hfirst) as [Hall _].
  split; [|exact Hall]. now apply ensureFolderPagesCache_noop.
Qed.

(** C9 on the sample workspace: the first run finds the folder ["Guides"]
    and creates ["Api"]; the second run does nothing. *)
Lemma ensureFolderPagesCache_idempotent_witness :
  let cache := [("Guides", "folder-guides"); ("Api", "new-2")] in
  let after :=
    {| calls := [BlocksList "root" None; BlocksList "root" None;
                 PagesCreate "root" "Api" None];
       files := sample_docs; validatedPageIds := [] |} in
  ensureFolderPagesCache sample_client 5 "root" ["Guides"; "Api"] [] sample_state
  = (inl cache, after)
  /\ ensureFolderPagesCache sample_client 5 "root" ["Guides"; "Api"] cache after
     = (inl cache, after).
Proof.
  cbv zeta.
  assert (Hfirst :
    ensureFolderPagesCache sample_client 5 "root" ["Guides"; "Api"] [] sample_state
    = (inl [("Guides", "folder-guides"); ("Api", "new-2")],
       {| calls := [BlocksList "root" None; BlocksList "root" None;
                    PagesCreate "root" "Api" None];
          files := sample_docs; validatedPageIds := [] |}))
    by (vm_compute; reflexivity).
  split; [exact Hfirst|].
  exact (proj1 (ensureFolderPagesCache_idempotent _ _ _ _ _ _ _ _ Hfirst
                  sample_client 5 _)).
Defined.

(** ** Per-document sync *)

Section TrimFacts.

Lemma trimStart_head (s : string) : head_not JS.is_space (JS.trimStart s) = true.
Proof.
  induction s as [|a s IH]; [reflexivity|]. cbn [JS.trimStart].
  destruct (JS.is_space a) eqn:Ea; [exact IH|]. cbn [head_not]. now rewrite Ea.
Qed.

Lemma trimEnd_head (s : string) :
  head_not JS.is_space s = true -> head_not JS.is_space (JS.trimEnd s) = true.
Proof.
  destruct s as [|a s]; [reflexivity|]. cbn [head_not JS.trimEnd]. intros Ha.
  apply negb_true_iff in Ha.
  destruct (JS.trimEnd s); [rewrite Ha|]; cbn [head_not]; now rewrite Ha.
Qed.

Lemma trimStart_fixed (s : string) :
  head_not JS.is_space s = true -> JS.trimStart s = s.
Proof.
  destruct s as [|a s]; [reflexivity|]. cbn [head_not JS.trimStart]. intros Ha.
  apply negb_true_iff in Ha. now rewrite Ha.
Qed.

Lemma trimEnd_idempotent (s : string) : JS.trimEnd (JS.trimEnd s) = JS.trimEnd s.
Proof.
  induction s as [|a s IH]; [reflexivity|]. cbn [JS.trimEnd].
  destruct (JS.trimEnd s) as [|b t] eqn:E.
  - destruct (JS.is_space a) eqn:Ea; [reflexivity|]. cbn [JS.trimEnd]. now rewrite Ea.
  - cbn [JS.trimEnd]. cbn [JS.trimEnd] in IH. now rewrite IH.
Qed.

(** Trimming twice is trimming once. *)
Lemma trim_idempotent (s : string) : JS.trim (JS.trim s) = JS.trim s.
Proof.
  unfold JS.trim.
  rewrite (trimStart_fixed (JS.trimEnd (JS.trimStart s)))
    by apply trimEnd_head, trimStart_head.
  apply trimEnd_idempotent.
Qed.

End TrimFacts.

(** A decoded identifier is trimmed and not empty. *)
Lemma notionPageId_trimmed (rawContent pageId : string) :
  notionPageId (parseMdWithNotionId rawContent) = Some pageId ->
  JS.trim pageId = pageId /\ String.eqb pageId EmptyString = false.
Proof.
  unfold parseMdWithNotionId.
  destruct (Regex.exec FRONTMATTER_RE rawContent) as [m|]; [|discriminate].
  destruct (Regex.capture 1 m); [|discriminate].
  destruct (Regex.capture 2 m); [|discriminate].
  cbn [notionPageId].
  destruct (obj_get NOTION_PAGE_ID_KEY _) as [v|]; [|discriminate].
  destruct (Nat.ltb_spec 0 (String.length (JS.trim v))) as [Hlen|]; [|discriminate].
  intros [= <-]. split; [apply trim_idempotent|].
  destruct (JS.trim v); [simpl in Hlen; lia | reflexivity].
Qed.

Section FilesFacts.

Lemma write_file_found (name text text' : string) (entries : list dirent) :
  find_file name entries = Some text ->
  exists entries', write_file name text' entries = Some entries'.
Proof.
  unfold find_file. induction entries as [|e rest IH]; [discriminate|].
  cbn [find_entry write_file].
  destruct (String.eqb (entry_name e) name).
  - destruct e; try discriminate. eauto.
  - intros H. destruct (IH H) as [entries' ->]. cbn [option_map]. eauto.
Qed.

Lemma update_dir_found (name : string) (f : list dirent -> option (list dirent))
    (entries sub : list dirent) :
  find_dir name entries = Some sub -> (exists sub', f sub = Some sub') ->
  exists entries', update_dir name f entries = Some entries'.
Proof.
  unfold find_dir. intros Hfind [sub' Hf].
  induction entries as [|e rest IH]; [discriminate|].
  cbn [find_entry update_dir] in *.
  destruct (String.eqb (entry_name e) name).
  - destruct e; try discriminate. injection Hfind as ->. rewrite Hf.
    cbn [option_map]. eauto.
  - destruct (IH Hfind) as [entries' ->]. cbn [option_map]. eauto.
Qed.

(** A file that can be read can be written. *)
Lemma write_path_found (segments : list string) (text text' : string)
    (entries : list dirent) :
  read_path segments entries = Some text ->
  exists entries', write_path segments text' entries = Some entries'.
Proof.
  revert entries. induction segments as [|seg rest IH]; intros entries; [discriminate|].
  destruct rest as [|seg2 rest].
  - cbn [read_path write_path]. apply write_file_found.
  - change (read_path (seg :: seg2 :: rest) entries)
      with (match find_dir seg entries with
            | Some sub => read_path (seg2 :: rest) sub
            | None => None
            end).
    change (write_path (seg :: seg2 :: rest) text' entries)
      with (update_dir seg (write_path (seg2 :: rest) text') entries).
    destruct (find_dir seg entries) as [sub|] eqn:E; [|discriminate].
    intros Hread. eapply update_dir_found; [exact E|]. now apply IH.
Qed.

End FilesFacts.

Section SyncOneDocFacts.

Variable notion : NotionClient.

Hypothesis create_ok : forall h p t c, exists page, pages_create notion h p t c = inl page.
Hypothesis append_ok : forall h p c, blocks_children_append notion h p c = inl tt.

(** The common end of both branches: create the page, append the chunks,
    write the identifier back. *)
Lemma create_and_persist (parentPageId docTitle path raw : string)
    (chunks : list (list NotionBlock)) (r : SyncResult)
    (mk : string -> string) (s1 : state) :
  read_path (JS.split_char "/" path) (files s1) = Some raw ->
  exists newPageId s',
    (newPageId <- createSubpage notion parentPageId docTitle chunks ;;
     writeFileSync path (mk newPageId) ;;; ret r) s1 = (inl r, s')
    /\ calls s' = calls s1 ++ creation_calls parentPageId docTitle chunks newPageId.
Proof.
  intros Hread.
  destruct (create_ok (calls s1) parentPageId docTitle (hd_error chunks))
    as [page Hpage].
  exists (id page). unfold bind.
  rewrite (createSubpage_run notion _ _ _ _ page Hpage (fun h c => append_ok h _ c)).
  unfold writeFileSync. cbn [files with_calls].
  destruct (write_path_found _ raw (mk (id page)) _ Hread) as [files' ->].
  eexists. split; reflexivity.
Qed.

End SyncOneDocFacts.

Lemma bind_ok {A B} (m : M A) (f : A -> M B) (s s' : state) (a : A) :
  m s = (inl a, s') -> bind m f s = f a s'.
Proof. intros H. unfold bind. now rewrite H. Qed.

Section SyncOneDocDecision.

Variable notion : NotionClient.
Variable markdownToBlocks : string -> conversion.

(** How a decoded identifier is resolved. *)
Lemma resolveExistingDocPageId_cases (raw pageId : string) (s : state) :
  notionPageId (parseMdWithNotionId raw) = Some pageId ->
  resolveExistingDocPageId notion (Some pageId) s =
    if Set_has pageId (validatedPageIds s) then (inl (Some pageId), s)
    else match pages_retrieve notion (calls s) pageId with
         | inl _ =>
             (inl (Some pageId),
              {| calls := calls s ++ [PagesRetrieve pageId]; files := files s;
                 validatedPageIds := Set_add pageId (validatedPageIds s) |})
         | inr e =>
             if is_not_found e
             then (inl None, with_calls s [PagesRetrieve pageId])
             else (inr (NotionFailure e), with_calls s [PagesRetrieve pageId])
         end.
Proof.
  intros Hid. destruct (notionPageId_trimmed raw pageId Hid) as [Htrim Hne].
  unfold resolveExistingDocPageId. rewrite Htrim, Hne.
  unfold bind, isValidated.
  destruct (Set_has pageId (validatedPageIds s)); [reflexivity|].
  unfold notionRetrievePageIfExists.
  destruct (pages_retrieve notion (calls s) pageId) as [page|e] eqn:E.
  - rewrite (request_ok _ _ s page E). reflexivity.
  - rewrite (request_rejected _ _ s e E). destruct (is_not_found e); reflexivity.
Qed.

End SyncOneDocDecision.

(** The rejections [notionRetrievePageIfExists] takes for a missing page:
    the code [object_not_found], read from the body of the error or, when
    the body has none, from the error itself, or the status 404. *)
Lemma is_not_found_spec (e : ApiError) :
  is_not_found e = true <->
  match body_code e with Some c => Some c | None => code e end
  = Some "object_not_found"
  \/ status e = Some 404%Z.
Proof.
  unfold is_not_found. rewrite orb_true_iff.
  destruct (match body_code e with Some c => Some c | None => code e end) as [c|];
    destruct (status e) as [st|].
  - rewrite String.eqb_eq, Z.eqb_eq. split; intros [H|H]; try (left; congruence);
      right; congruence.
  - rewrite String.eqb_eq. split; intros [H|H]; try discriminate; left; congruence.
  - rewrite Z.eqb_eq. split; intros [H|H]; try discriminate; right; congruence.
  - split; intros [H|H]; discriminate.
Qed.

(** The decoded identifier is the trimmed value of the reserved key of the
    decoded header, when there is one and it is not empty. *)
Lemma notionPageId_of_data (rawContent : string) :
  notionPageId (parseMdWithNotionId rawContent)
  = match obj_get "notion_page_id" (data (parseMdWithNotionId rawContent)) with
    | Some value =>
        if String.eqb (JS.trim value) EmptyString then None
        else Some (JS.trim value)
    | None => None
    end.
Proof.
  unfold parseMdWithNotionId.
  destruct (Regex.exec FRONTMATTER_RE rawContent) as [m|]; [|reflexivity].
  destruct (Regex.capture 1 m); [|reflexivity].
  destruct (Regex.capture 2 m); [|reflexivity].
  cbn [notionPageId data].
  change NOTION_PAGE_ID_KEY with "notion_page_id".
  destruct (obj_get "notion_page_id" _) as [v|]; [|reflexivity].
  destruct (JS.trim v); reflexivity.
Qed.

(** C4.  Take a document that can be read, and a client that rejects no
    create, trash or append call.  The decoded identifier is the trimmed
    value of [notion_page_id] in the decoded header.  If it is absent (the
    header has none, or an empty one once trimmed), [syncOneDoc] creates the
    page under the resolved parent without trashing anything and reports
    [created].  If the identifier is in the validated set, it trashes that
    page, then creates the new one under the resolved parent, and reports
    [updated]; if it is not in the set and the page is retrieved, it does
    the same after the retrieval.  If the retrieval is rejected as not
    found, that is with the status 404 or with the code [object_not_found]
    (in the body of the error or, when the body has no code, on the error
    itself), it creates the page directly and reports [created]: nothing is
    trashed and no error is raised.  Any other rejection of the retrieval is
    thrown. *)
Theorem syncOneDoc_create_or_update
    (notion : NotionClient) (markdownToBlocks : string -> conversion)
    (rootPageId : string) (folderPageCache : StringMap)
    (path raw : string) (s : state) :
  read_path (JS.split_char "/" path) (files s) = Some raw ->
  (forall h p t c, exists page, pages_create notion h p t c = inl page) ->
  (forall h p, pages_update_trash notion h p = inl tt) ->
  (forall h p c, blocks_children_append notion h p c = inl tt) ->
  let parsed := parseMdWithNotionId raw in
  let names := parseRelPath path in
  let parentPageId :=
    resolveNotionParentId rootPageId (folderTitle names) folderPageCache in
  let run := syncOneDoc notion markdownToBlocks rootPageId folderPageCache path s in
  let synced (act : SyncAction) (before : list call) : Prop :=
    exists chunks newPageId s',
      chunkBlocks (convertMarkdownToNotionBlocks markdownToBlocks (body parsed))
                  NOTION_BLOCK_CHUNK_SIZE = Some chunks
      /\ run = (inl {| action := act; title := docTitle names; relPath := path;
                       parent_label := match folderTitle names with
                                       | Some t => t
                                       | None => "(root)"
                                       end |}, s')
      /\ calls s' = calls s ++ before
                    ++ creation_calls parentPageId (docTitle names) chunks newPageId in
  notionPageId parsed
  = match obj_get "notion_page_id" (data parsed) with
    | Some value =>
        if String.eqb (JS.trim value) EmptyString then None
        else Some (JS.trim value)
    | None => None
    end
  /\ match notionPageId parsed with
     | None => synced created []
     | Some pageId =>
         if Set_has pageId (validatedPageIds s)
         then synced updated [PagesTrash pageId]
         else match pages_retrieve notion (calls s) pageId with
              | inl _ => synced updated [PagesRetrieve pageId; PagesTrash pageId]
              | inr e =>
                  let errorCode := match body_code e with
                                   | Some c => Some c
                                   | None => code e
                                   end in
                  (errorCode = Some "object_not_found" \/ status e = Some 404%Z ->
                   synced created [PagesRetrieve pageId])
                  /\ (errorCode <> Some "object_not_found" ->
                      status e <> Some 404%Z ->
                      fst run = inr (NotionFailure e))
              end
     end.
Proof.
  intros Hread Hcreate Htrash Happend. cbv zeta.
  split; [apply notionPageId_of_data|].
  destruct (chunkBlocks_partition
              (convertMarkdownToNotionBlocks markdownToBlocks
                 (body (parseMdWithNotionId raw))) NOTION_BLOCK_CHUNK_SIZE)
    as (chunks & Hchunks & _); [unfold NOTION_BLOCK_CHUNK_SIZE; lia|].
  assert (Hread' : readFileSync path s = (inl raw, s))
    by (unfold readFileSync; now rewrite Hread).
  assert (Hchunks' :
    orFail (chunkBlocks (convertMarkdownToNotionBlocks markdownToBlocks
                           (body (parseMdWithNotionId raw)))
                        NOTION_BLOCK_CHUNK_SIZE) s = (inl chunks, s))
    by (now rewrite Hchunks).
  unfold syncOneDoc.
  rewrite (bind_ok _ _ _ _ _ Hread'), (bind_ok _ _ _ _ _ Hchunks').
  destruct (notionPageId (parseMdWithNotionId raw)) as [pageId|] eqn:Hid.
  - pose proof (resolveExistingDocPageId_cases notion raw pageId s Hid) as Hres.
    destruct (Set_has pageId (validatedPageIds s)) eqn:Hknown.
    + (* validated earlier in the run *)
      destruct (create_and_persist notion Hcreate Happend
                  (resolveNotionParentId rootPageId (folderTitle (parseRelPath path))
                     folderPageCache)
                  (docTitle (parseRelPath path)) path raw chunks
                  {| action := updated; title := docTitle (parseRelPath path);
                     relPath := path;
                     parent_label := match folderTitle (parseRelPath path) with
                                     | Some t => t
                                     | None => "(root)"
                                     end |}
                  (fun newPageId => stringifyMdWithNotionId
                     (body (parseMdWithNotionId raw)) (data (parseMdWithNotionId raw))
                     newPageId)
                  (with_calls s [PagesTrash pageId]) Hread)
        as (newPageId & s' & Hrun & Hcalls).
      exists chunks, newPageId, s'. split; [exact Hchunks|]. split.
      * rewrite (bind_ok _ _ _ _ _ Hres).
        unfold sendPageToTrash.
        rewrite (bind_ok _ _ _ _ _ (request_ok _ _ s tt (Htrash _ _))).
        exact Hrun.
      * rewrite Hcalls. cbn [with_calls calls]. now rewrite <- app_assoc.
    + destruct (pages_retrieve notion (calls s) pageId) as [page|e] eqn:Eret.
      * (* validated now *)
        set (s1 := {| calls := calls s ++ [PagesRetrieve pageId]; files := files s;
                      validatedPageIds := Set_add pageId (validatedPageIds s) |}) in *.
        destruct (create_and_persist notion Hcreate Happend
                  (resolveNotionParentId rootPageId (folderTitle (parseRelPath path))
                     folderPageCache)
                  (docTitle (parseRelPath path)) path raw chunks
                  {| action := updated; title := docTitle (parseRelPath path);
                     relPath := path;
                     parent_label := match folderTitle (parseRelPath path) with
                                     | Some t => t
                                     | None => "(root)"
                                     end |}
                  (fun newPageId => stringifyMdWithNotionId
                     (body (parseMdWithNotionId raw)) (data (parseMdWithNotionId raw))
                     newPageId)
                  (with_calls s1 [PagesTrash pageId]) Hread)
          as (newPageId & s' & Hrun & Hcalls).
        exists chunks, newPageId, s'. split; [exact Hchunks|]. split.
        -- rewrite (bind_ok _ _ _ _ _ Hres).
           unfold sendPageToTrash.
           rewrite (bind_ok _ _ _ _ _ (request_ok _ _ s1 tt (Htrash _ _))).
           exact Hrun.
        -- rewrite Hcalls. cbn [with_calls calls s1].
           rewrite <- !app_assoc. reflexivity.
      * destruct (is_not_found e) eqn:Enf.
        -- (* not found: never synced *)
           split; [intros _ | intros H1 H2; apply is_not_found_spec in Enf; tauto].
           destruct (create_and_persist notion Hcreate Happend
                  (resolveNotionParentId rootPageId (folderTitle (parseRelPath path))
                     folderPageCache)
                  (docTitle (parseRelPath path)) path raw chunks
                  {| action := created; title := docTitle (parseRelPath path);
                     relPath := path;
                     parent_label := match folderTitle (parseRelPath path) with
                                     | Some t => t
                                     | None => "(root)"
                                     end |}
                  (fun newPageId => stringifyMdWithNotionId
                     (body (parseMdWithNotionId raw)) (data (parseMdWithNotionId raw))
                     newPageId)
                  (with_calls s [PagesRetrieve pageId]) Hread)
             as (newPageId & s' & Hrun & Hcalls).
           exists chunks, newPageId, s'. split; [exact Hchunks|]. split.
           ++ rewrite (bind_ok _ _ _ _ _ Hres). exact Hrun.
           ++ rewrite Hcalls. cbn [with_calls calls]. now rewrite <- app_assoc.
        -- split; [intros Hnf; apply is_not_found_spec in Hnf; congruence|].
           intros _ _. unfold bind at 1. rewrite Hres. reflexivity.
  - (* no identifier *)
    destruct (create_and_persist notion Hcreate Happend
                (resolveNotionParentId rootPageId (folderTitle (parseRelPath path))
                   folderPageCache)
                (docTitle (parseRelPath path)) path raw chunks
                {| action := created; title := docTitle (parseRelPath path);
                   relPath := path;
                   parent_label := match folderTitle (parseRelPath path) with
                                   | Some t => t
                                   | None => "(root)"
                                   end |}
                (fun newPageId => stringifyMdWithNotionId
                   (body (parseMdWithNotionId raw)) (data (parseMdWithNotionId raw))
                   newPageId)
                s Hread)
      as (newPageId & s' & Hrun & Hcalls).
    exists chunks, newPageId, s'. split; [exact Hchunks|]. split.
    + assert (Hnone : resolveExistingDocPageId notion None s = (inl None, s))
        by reflexivity.
      rewrite (bind_ok _ _ _ _ _ Hnone). exact Hrun.
    + exact Hcalls.
Qed.


(** C4 on the sample workspace.  ["guides/setup.md"] records the page
    ["known-1"], which exists: it is retrieved, trashed and replaced.
    ["guides/stale.md"] records ["gone-9"], whose retrieval the client
    rejects with status 404: the page is created directly and nothing is
    trashed. *)
Lemma syncOneDoc_create_or_update_witness :
  let cache := [("Guides", "folder-guides")] in
  (read_path (JS.split_char "/" "guides/setup.md") (files sample_state)
   = Some ("---" +++ String Regex.LF ("notion_page_id: known-1" +++ String Regex.LF
            ("---" +++ String Regex.LF "# Setup")))
   /\ exists chunks newPageId s',
        chunkBlocks (convertMarkdownToNotionBlocks sample_converter "# Setup")
                    NOTION_BLOCK_CHUNK_SIZE = Some chunks
        /\ syncOneDoc sample_client sample_converter "root" cache "guides/setup.md"
             sample_state
           = (inl {| action := updated; title := "Setup"; relPath := "guides/setup.md";
                     parent_label := "Guides" |}, s')
        /\ calls s' = [] ++ [PagesRetrieve "known-1"; PagesTrash "known-1"]
                      ++ creation_calls "folder-guides" "Setup" chunks newPageId)
  /\ (read_path (JS.split_char "/" "guides/stale.md") (files sample_state)
      = Some ("---" +++ String Regex.LF ("notion_page_id: gone-9" +++ String Regex.LF
               ("---" +++ String Regex.LF "# Stale")))
      /\ pages_retrieve sample_client [] "gone-9"
         = inr {| body_code := Some "object_not_found"; code := None;
                  status := Some 404%Z |}
      /\ exists chunks newPageId s',
           chunkBlocks (convertMarkdownToNotionBlocks sample_converter "# Stale")
                       NOTION_BLOCK_CHUNK_SIZE = Some chunks
           /\ syncOneDoc sample_client sample_converter "root" cache "guides/stale.md"
                sample_state
              = (inl {| action := created; title := "Stale";
                        relPath := "guides/stale.md"; parent_label := "Guides" |}, s')
           /\ calls s' = [] ++ [PagesRetrieve "gone-9"]
                         ++ creation_calls "folder-guides" "Stale" chunks newPageId).
Proof.
  cbv zeta.
  assert (Hread :
    read_path (JS.split_char "/" "guides/setup.md") (files sample_state)
    = Some ("---" +++ String Regex.LF ("notion_page_id: known-1" +++ String Regex.LF
             ("---" +++ String Regex.LF "# Setup")))) by reflexivity.
  assert (Hstale :
    read_path (JS.split_char "/" "guides/stale.md") (files sample_state)
    = Some ("---" +++ String Regex.LF ("notion_page_id: gone-9" +++ String Regex.LF
             ("---" +++ String Regex.LF "# Stale")))) by reflexivity.
  split; [split; [exact Hread|] | split; [exact Hstale | split; [reflexivity|]]].
  - pose proof (syncOneDoc_create_or_update sample_client sample_converter "root"
                  [("Guides", "folder-guides")] "guides/setup.md" _ sample_state Hread
                  (fun h p t c => ex_intro _ _ eq_refl)
                  (fun h p => eq_refl) (fun h p c => eq_refl)) as H.
    cbv zeta in H. apply proj2 in H.
    assert (Eparsed :
      parseMdWithNotionId
        ("---" +++ String Regex.LF ("notion_page_id: known-1" +++ String Regex.LF
          ("---" +++ String Regex.LF "# Setup")))
      = {| body := "# Setup"; notionPageId := Some "known-1";
           data := [("notion_page_id", "known-1")] |}) by (vm_compute; reflexivity).
    assert (Enames : parseRelPath "guides/setup.md"
                     = {| folderTitle := Some "Guides"; docTitle := "Setup" |})
      by (vm_compute; reflexivity).
    rewrite Eparsed, Enames in H.
    cbn [notionPageId body folderTitle docTitle] in H.
    change (Set_has "known-1" (validatedPageIds sample_state)) with false in H.
    change (pages_retrieve sample_client (calls sample_state) "known-1")
      with (@inl Page ApiError (sample_page "known-1" "folder-guides")) in H.
    cbv iota in H.
    exact H.
  - pose proof (syncOneDoc_create_or_update sample_client sample_converter "root"
                  [("Guides", "folder-guides")] "guides/stale.md" _ sample_state Hstale
                  (fun h p t c => ex_intro _ _ eq_refl)
                  (fun h p => eq_refl) (fun h p c => eq_refl)) as H.
    cbv zeta in H. apply proj2 in H.
    assert (Eparsed :
      parseMdWithNotionId
        ("---" +++ String Regex.LF ("notion_page_id: gone-9" +++ String Regex.LF
          ("---" +++ String Regex.LF "# Stale")))
      = {| body := "# Stale"; notionPageId := Some "gone-9";
           data := [("notion_page_id", "gone-9")] |}) by (vm_compute; reflexivity).
    assert (Enames : parseRelPath "guides/stale.md"
                     = {| folderTitle := Some "Guides"; docTitle := "Stale" |})
      by (vm_compute; reflexivity).
    rewrite Eparsed, Enames in H.
    cbn [notionPageId body folderTitle docTitle] in H.
    change (Set_has "gone-9" (validatedPageIds sample_state)) with false in H.
    change (pages_retrieve sample_client (calls sample_state) "gone-9")
      with (@inr Page ApiError not_found_error) in H.
    cbv iota in H.
    exact (proj1 H (or_intror eq_refl)).
Defined.

(** ** The working set of a run *)

Section WorkingSet.

Lemma insert_sorted_perm (x : string) (l : list string) :
  Permutation (insert_sorted x l) (x :: l).
Proof.
  induction l as [|y l IH]; cbn [insert_sorted]; [reflexivity|].
  destruct (String.leb x y); [reflexivity|].
  rewrite IH. apply perm_swap.
Qed.

Lemma sort_strings_perm (l : list string) : Permutation (sort_strings l) l.
Proof.
  induction l as [|x l IH]; [reflexivity|]. cbn [sort_strings fold_right].
  fold (sort_strings l). rewrite insert_sorted_perm. now constructor.
Qed.

Lemma Set_has_In (x : string) (s : StringSet) : Set_has x s = true <-> In x s.
Proof.
  unfold Set_has. rewrite existsb_exists. split.
  - intros (y & Hy & Hxy). apply String.eqb_eq in Hxy. now subst.
  - intros H. exists x. split; [exact H | apply String.eqb_refl].
Qed.

Lemma Set_add_spec (x : string) (s : StringSet) :
  NoDup s ->
  NoDup (Set_add x s) /\ forall y, In y (Set_add x s) <-> y = x \/ In y s.
Proof.
  intros Hnd. unfold Set_add. destruct (Set_has x s) eqn:E.
  - apply Set_has_In in E. split; [exact Hnd|]. intros y. split; [tauto|].
    intros [->|H]; assumption.
  - assert (Hx : ~ In x s) by (intros H; apply Set_has_In in H; congruence).
    split.
    + apply NoDup_app; [exact Hnd | repeat constructor; intros [] |].
      intros y Hy [<-|[]]. contradiction.
    + intros y. rewrite in_app_iff. simpl. intuition congruence.
Qed.

Lemma Set_of_spec (paths : list string) :
  NoDup (Set_of paths) /\ forall y, In y (Set_of paths) <-> In y paths.
Proof.
  unfold Set_of.
  assert (H : forall acc, NoDup acc ->
    NoDup (fold_left (fun set x => Set_add x set) paths acc)
    /\ forall y, In y (fold_left (fun set x => Set_add x set) paths acc)
                 <-> In y paths \/ In y acc).
  { induction paths as [|x paths IH]; intros acc Hacc.
    - split; [exact Hacc | intros y; simpl; tauto].
    - cbn [fold_left]. destruct (Set_add_spec x acc Hacc) as [Hnd Hin].
      destruct (IH _ Hnd) as [Hnd' Hin']. split; [exact Hnd'|].
      intros y. rewrite Hin', Hin. simpl. intuition congruence. }
  destruct (H [] (NoDup_nil _)) as [Hnd Hin]. split; [exact Hnd|].
  intros y. rewrite Hin. simpl. tauto.
Qed.

Lemma addDocsWithoutPageId_loop_spec (allMd : list string) (set : StringSet) (s : state) :
  NoDup set ->
  (forall p, In p allMd -> exists raw,
     read_path (JS.split_char "/" p) (files s) = Some raw) ->
  exists set',
    addDocsWithoutPageId_loop allMd set s = (inl set', s)
    /\ NoDup set'
    /\ forall y, In y set' <-> In y set \/ (In y allMd /\ unsynced s y).
Proof.
  revert set. induction allMd as [|p rest IH]; intros set Hnd Hread.
  - exists set. split; [reflexivity|]. split; [exact Hnd|].
    intros y. simpl. tauto.
  - destruct (Hread p (or_introl eq_refl)) as [raw Hraw].
    cbn [addDocsWithoutPageId_loop]. unfold bind, readFileSync. rewrite Hraw.
    assert (Hrest : forall q, In q rest -> exists raw',
              read_path (JS.split_char "/" q) (files s) = Some raw')
      by (intros q Hq; apply Hread; now right).
    destruct (lacksPageId raw) eqn:El.
    + destruct (Set_add_spec p set Hnd) as [Hnd1 Hin1].
      destruct (IH _ Hnd1 Hrest) as (set' & Hrun & Hnd' & Hin').
      exists set'. split; [exact Hrun|]. split; [exact Hnd'|].
      intros y. rewrite Hin', Hin1. simpl. split.
      * intros [[->|Hy]|[Hy Hu]]; auto.
        right. split; [now left|]. now exists raw.
      * intros [Hy|[[<-|Hy] Hu]]; auto.
    + destruct (IH _ Hnd Hrest) as (set' & Hrun & Hnd' & Hin').
      exists set'. split; [exact Hrun|]. split; [exact Hnd'|].
      intros y. rewrite Hin'. simpl. split.
      * intros [Hy|[Hy Hu]]; auto.
      * intros [Hy|[[<-|Hy] Hu]]; auto.
        destruct Hu as (raw' & Hraw' & Hl). congruence.
Qed.

(** With an explicit list, [runSync] goes through that list and every
    document without an identifier, each once. *)
Lemma mdFilesOf_explicit (paths : list string) (s : state) :
  (forall p, In p (collectMdFiles (files s) EmptyString) -> exists raw,
     read_path (JS.split_char "/" p) (files s) = Some raw) ->
  exists mdFiles,
    mdFilesOf (Some paths) s = (inl mdFiles, s)
    /\ NoDup mdFiles
    /\ forall y, In y mdFiles <->
         In y paths
         \/ (In y (collectMdFiles (files s) EmptyString) /\ unsynced s y).
Proof.
  intros Hread. destruct (Set_of_spec paths) as [Hnd Hin].
  destruct (addDocsWithoutPageId_loop_spec _ _ s Hnd Hread)
    as (set' & Hrun & Hnd' & Hin').
  exists (sort_strings set'). split.
  - cbn [mdFilesOf]. unfold bind, addDocsWithoutPageId. now rewrite Hrun.
  - split.
    + eapply Permutation_NoDup; [apply Permutation_sym, sort_strings_perm | exact Hnd'].
    + intros y. rewrite <- Hin, <- Hin'. split; intros H.
      * eapply Permutation_in; [apply sort_strings_perm | exact H].
      * eapply Permutation_in; [apply Permutation_sym, sort_strings_perm | exact H].
Qed.

Variable execSync : string -> string -> exec_result.
Variable repoRoot : string.

(** In [changed] mode with both refs, a diff that lists at least one
    document leads to the documents of [mdFilesOf_explicit]. *)
Lemma documentsSynced_nonempty_diff (inputs : RunInputs) (first : string)
    (others : list string) (s : state) :
  syncMode inputs = "changed" ->
  gitBefore inputs <> EmptyString -> gitAfter inputs <> EmptyString ->
  getChangedMdPaths execSync repoRoot (getDocsPrefix (rawDocsDir inputs))
    (gitBefore inputs) (gitAfter inputs) = Returned (Some (first :: others)) ->
  documentsSynced execSync repoRoot inputs s = mdFilesOf (Some (first :: others)) s.
Proof.
  intros Hmode Hb Ha Hdiff. unfold documentsSynced.
  rewrite Hmode, Hdiff. apply String.eqb_neq in Hb, Ha. now rewrite Hb, Ha.
Qed.

(** In [changed] mode with both refs, a diff that lists no document ends
    the run before [runSync]: nothing is synced, whatever the documents. *)
Lemma documentsSynced_empty_diff (inputs : RunInputs) (s : state) :
  syncMode inputs = "changed" ->
  gitBefore inputs <> EmptyString -> gitAfter inputs <> EmptyString ->
  getChangedMdPaths execSync repoRoot (getDocsPrefix (rawDocsDir inputs))
    (gitBefore inputs) (gitAfter inputs) = Returned (Some []) ->
  documentsSynced execSync repoRoot inputs s = (inl [], s).
Proof.
  intros Hmode Hb Ha Hdiff. unfold documentsSynced.
  rewrite Hmode, Hdiff. apply String.eqb_neq in Hb, Ha. now rewrite Hb, Ha.
Qed.

End WorkingSet.

(** C1 (the code departs from it).  A push that touches no document, in
    [changed] mode with both refs given, on a docs directory where
    ["intro.md"] has never been synced: the diff collaborator returns the
    empty list, ["intro.md"] is a document without an identifier, and yet
    the run syncs nothing.  With one changed document in the diff the same
    ["intro.md"] is synced. *)
Theorem empty_diff_skips_unsynced_documents :
  let inputs := {| rawDocsDir := "docs"; syncMode := "changed";
                   gitBefore := "a1"; gitAfter := "b2" |} in
  let quiet := fun _ _ : string => ExecOutput ("README.md" +++ String Regex.LF EmptyString) in
  let busy := fun _ _ : string =>
    ExecOutput ("docs/guides/setup.md" +++ String Regex.LF EmptyString) in
  getChangedMdPaths quiet "/repo" (getDocsPrefix "docs") "a1" "b2" = Returned (Some [])
  /\ In "intro.md" (collectMdFiles (files sample_state) EmptyString)
  /\ read_path ["intro.md"] (files sample_state) = Some "# Intro"
  /\ lacksPageId "# Intro" = true
  /\ documentsSynced quiet "/repo" inputs sample_state = (inl [], sample_state)
  /\ documentsSynced busy "/repo" inputs sample_state
     = (inl ["guides/setup.md"; "intro.md"], sample_state).
Proof.
  cbv zeta. repeat match goal with |- _ /\ _ => split end;
    try (vm_compute; reflexivity).
  vm_compute. tauto.
Qed.

(** ** Concurrency runner *)

Section RunnerFacts.

Import Runner.

Variables T E : Type.
Variable taskCount : nat.
Variable settle : nat -> T + E.

Lemma set_nth_length {A} (l : list A) (i : nat) (x : A) :
  List.length (set_nth l i x) = List.length l.
Proof.
  revert i. induction l as [|y l IH]; intros [|i]; simpl; auto.
Qed.

Lemma nth_error_set_nth_same {A} (l : list A) (i : nat) (x : A) :
  i < List.length l -> nth_error (set_nth l i x) i = Some x.
Proof.
  revert i. induction l as [|y l IH]; intros [|i] Hi; simpl in *; try lia; auto.
  apply IH. lia.
Qed.

Lemma nth_error_set_nth_other {A} (l : list A) (i j : nat) (x : A) :
  i <> j -> nth_error (set_nth l i x) j = nth_error l j.
Proof.
  revert i j. induction l as [|y l IH]; intros [|i] [|j] Hij; simpl; auto.
  congruence.
Qed.

Lemma nth_error_set_nth {A} (l : list A) (i j : nat) (x y : A) :
  nth_error (set_nth l i x) j = Some y ->
  (i = j /\ y = x) \/ (i <> j /\ nth_error l j = Some y).
Proof.
  intros H. destruct (Nat.eq_dec i j) as [->|Hne].
  - left. split; [reflexivity|].
    destruct (Nat.lt_ge_cases j (List.length l)) as [Hlt|Hge].
    + rewrite nth_error_set_nth_same in H by exact Hlt. congruence.
    + assert (Hs : nth_error (set_nth l j x) j <> None) by congruence.
      apply nth_error_Some in Hs. rewrite set_nth_length in Hs. lia.
  - right. split; [exact Hne|]. now rewrite nth_error_set_nth_other in H.
Qed.

Lemma start_shape (concurrency : nat) :
  start T E taskCount concurrency
  = {| index := Nat.min concurrency taskCount;
       results := repeat None taskCount;
       workers := map Awaiting (seq 0 (Nat.min concurrency taskCount));
       rejection := None |}.
Proof.
  unfold start.
  assert (H : forall m, m <= taskCount ->
    Nat.iter m (spawn taskCount)
      {| index := 0; results := repeat None taskCount; workers := [];
         rejection := @None E |}
    = {| index := m; results := repeat (@None T) taskCount;
         workers := map Awaiting (seq 0 m); rejection := None |}).
  { induction m as [|m IH]; intros Hm; [reflexivity|].
    cbn [Nat.iter nat_rect]. 
    change (nat_rect _ _ _ m) with
      (Nat.iter m (spawn taskCount)
         {| index := 0; results := repeat (@None T) taskCount; workers := [];
            rejection := @None E |}).
    rewrite IH by lia.
    unfold spawn, next. cbn [index results workers rejection].
    destruct (Nat.ltb_spec m taskCount); [|lia]. cbn [fst snd].
    rewrite seq_S, map_app. reflexivity. }
  apply H. lia.
Qed.

Lemma start_invariant (concurrency : nat) :
  invariant taskCount settle (Nat.min concurrency taskCount) (start T E taskCount concurrency).
Proof.
  rewrite start_shape. constructor; cbn [index results workers rejection].
  - apply repeat_length.
  - now rewrite length_map, length_seq.
  - lia.
  - intros i v H. apply nth_error_In, repeat_spec in H. discriminate.
  - intros i Hi. left. exists i.
    rewrite nth_error_map, nth_error_seq.
    destruct (Nat.ltb_spec i (Nat.min concurrency taskCount)); [reflexivity | lia].
  - intros w i H. rewrite nth_error_map in H.
    destruct (nth_error (seq 0 (Nat.min concurrency taskCount)) w) as [j|] eqn:Ej;
      [|discriminate].
    injection H as ->. apply nth_error_In, in_seq in Ej. lia.
  - intros w H. rewrite nth_error_map in H.
    destruct (nth_error _ w); discriminate.
  - intros w e H. rewrite nth_error_map in H.
    destruct (nth_error _ w); discriminate.
Qed.

Lemma step_invariant (m w : nat) (p p' : pool T E) :
  invariant taskCount settle m p -> step taskCount settle w p = Some p' -> invariant taskCount settle m p'.
Proof.
  intros [Hres Hwork Hidx Hstored Hclaimed Hawaited Hdone Hfailed] Hstep.
  unfold step in Hstep.
  destruct (nth_error (workers p) w) as [[i| |e0]|] eqn:Ew; try discriminate.
  assert (Hw : w < List.length (workers p))
    by (apply nth_error_Some; congruence).
  pose proof (Hawaited w i Ew) as Hi.
  destruct (settle i) as [v|e] eqn:Es; injection Hstep as <-.
  - (* the task is fulfilled *)
    unfold next. cbn [index results workers rejection].
    destruct (Nat.ltb_spec (index p) taskCount) as [Hlt|Hge]; cbn [fst snd];
      constructor; cbn [index results workers rejection];
      try (now rewrite set_nth_length); try lia.
    + intros j v' H. apply nth_error_set_nth in H as [[<- [= <-]]|[_ H]]; eauto.
    + intros j Hj. destruct (Nat.eq_dec j (index p)) as [->|Hne].
      * left. exists w. now apply nth_error_set_nth_same.
      * destruct (Hclaimed j ltac:(lia)) as [[w0 Hw0]|[[v0 Hv0]|Hrej]]; auto.
        -- destruct (Nat.eq_dec w w0) as [<-|Hww].
           ++ right. left. exists v. rewrite Ew in Hw0. injection Hw0 as <-.
              apply nth_error_set_nth_same. lia.
           ++ left. exists w0. now rewrite nth_error_set_nth_other.
        -- right. left. destruct (Nat.eq_dec i j) as [<-|Hij].
           ++ exists v. apply nth_error_set_nth_same. lia.
           ++ exists v0. now rewrite nth_error_set_nth_other.
    + intros w0 j H. apply nth_error_set_nth in H as [[<- [= <-]]|[_ H]]; [lia|].
      apply Hawaited in H. lia.
    + intros w0 H. apply nth_error_set_nth in H as [[<- [=]]|[_ H]].
      apply Hdone in H. lia.
    + intros w0 e0 H. apply nth_error_set_nth in H as [[<- [=]]|[_ H]]. eauto.
    + intros j v' H. apply nth_error_set_nth in H as [[<- [= <-]]|[_ H]]; eauto.
    + intros j Hj.
      destruct (Hclaimed j Hj) as [[w0 Hw0]|[[v0 Hv0]|Hrej]]; auto.
      * destruct (Nat.eq_dec w w0) as [<-|Hww].
        -- right. left. exists v. rewrite Ew in Hw0. injection Hw0 as <-.
           apply nth_error_set_nth_same. lia.
        -- left. exists w0. now rewrite nth_error_set_nth_other.
      * right. left. destruct (Nat.eq_dec i j) as [<-|Hij].
        -- exists v. apply nth_error_set_nth_same. lia.
        -- exists v0. now rewrite nth_error_set_nth_other.
    + intros w0 j H. apply nth_error_set_nth in H as [[<- [=]]|[_ H]]. eauto.
    + intros w0 e0 H. apply nth_error_set_nth in H as [[<- [=]]|[_ H]]. eauto.
  - (* the task is rejected *)
    assert (Hrej : match rejection p with Some first => Some first | None => Some e end
                   <> None) by (destruct (rejection p); discriminate).
    constructor; cbn [index results workers rejection]; auto.
    + now rewrite set_nth_length.
    + intros w0 j H. apply nth_error_set_nth in H as [[<- [=]]|[_ H]]. eauto.
    + intros w0 H. apply nth_error_set_nth in H as [[<- [=]]|[_ H]]. eauto.
Qed.

Lemma exec_invariant (m : nat) (schedule : list nat) (p p' : pool T E) :
  invariant taskCount settle m p -> exec taskCount settle schedule p = Some p' -> invariant taskCount settle m p'.
Proof.
  revert p. induction schedule as [|w rest IH]; intros p Hinv Hexec.
  - injection Hexec as <-. exact Hinv.
  - cbn [exec] in Hexec.
    destruct (step taskCount settle w p) as [p1|] eqn:Es; [|discriminate].
    eapply IH; [|exact Hexec]. eapply step_invariant; eauto.
Qed.

Lemma filter_set_nth_length {A} (f : A -> bool) (l : list A) (i : nat) (x y : A) :
  nth_error l i = Some y ->
  List.length (filter f (set_nth l i x)) + (if f y then 1 else 0)
  = List.length (filter f l) + (if f x then 1 else 0).
Proof.
  revert i. induction l as [|z l IH]; intros [|i] H; simpl in H; try discriminate.
  - injection H as ->. cbn [set_nth filter].
    destruct (f x), (f y); simpl; lia.
  - cbn [set_nth filter]. specialize (IH i H).
    destruct (f z); simpl; lia.
Qed.

Lemma step_budget (m w : nat) (p p' : pool T E) :
  invariant taskCount settle m p -> step taskCount settle w p = Some p' -> S (budget taskCount p') = budget taskCount p.
Proof.
  intros Hinv Hstep. unfold step in Hstep.
  destruct (nth_error (workers p) w) as [[i| |e0]|] eqn:Ew; try discriminate.
  unfold budget, in_flight.
  destruct (settle i) as [v|e]; injection Hstep as <-;
    cbn [index results workers rejection].
  - unfold next. cbn [index].
    destruct (Nat.ltb_spec (index p) taskCount) as [Hlt|Hge]; cbn [fst snd].
    + pose proof (filter_set_nth_length is_awaiting (workers p) w
                    (Awaiting (index p)) (Awaiting i) Ew) as H.
      cbn [is_awaiting] in H. lia.
    + pose proof (filter_set_nth_length is_awaiting (workers p) w Done (Awaiting i) Ew)
        as H.
      cbn [is_awaiting] in H. lia.
  - pose proof (filter_set_nth_length is_awaiting (workers p) w (Failed e) (Awaiting i) Ew)
      as H.
    cbn [is_awaiting] in H. lia.
Qed.

Lemma exec_budget (m : nat) (schedule : list nat) (p p' : pool T E) :
  invariant taskCount settle m p -> exec taskCount settle schedule p = Some p' ->
  List.length schedule + budget taskCount p' = budget taskCount p.
Proof.
  revert p. induction schedule as [|w rest IH]; intros p Hinv Hexec.
  - injection Hexec as <-. reflexivity.
  - cbn [exec] in Hexec.
    destruct (step taskCount settle w p) as [p1|] eqn:Es; [|discriminate].
    pose proof (step_budget m w p p1 Hinv Es).
    pose proof (IH p1 (step_invariant m w p p1 Hinv Es) Hexec).
    cbn [List.length]. lia.
Qed.

Lemma start_budget (concurrency : nat) :
  budget taskCount (start T E taskCount concurrency) = taskCount.
Proof.
  rewrite start_shape. unfold budget, in_flight. cbn [index workers].
  assert (H : forall l : list nat,
    List.length (filter (@is_awaiting E) (map Awaiting l)) = List.length l)
    by (induction l; simpl; congruence).
  rewrite H, length_seq. lia.
Qed.

(** While the returned promise is pending, some awaited promise can
    settle. *)
Lemma pending_progress (m : nat) (p : pool T E) :
  invariant taskCount settle m p -> outcome p = Pending ->
  exists w p', step taskCount settle w p = Some p'.
Proof.
  intros Hinv Hpend. unfold outcome in Hpend.
  destruct (rejection p) as [e|] eqn:Er; [discriminate|].
  destruct (forallb is_done (workers p)) eqn:Eall; [discriminate|].
  assert (Hex : exists w x, nth_error (workers p) w = Some x /\ is_done x = false).
  { clear -Eall. induction (workers p) as [|x l IH]; [discriminate|].
    cbn [forallb] in Eall. destruct (is_done x) eqn:Ex.
    - destruct (IH Eall) as (w & y & Hw & Hy). exists (S w), y. auto.
    - exists 0, x. auto. }
  destruct Hex as (w & [i| |e] & Hw & Hx); try discriminate.
  - exists w. unfold step. rewrite Hw. destruct (settle i); eauto.
  - exfalso. apply (inv_failed Hinv w e Hw). exact Er.
Qed.

(** When the returned promise is fulfilled, every task has its value at its
    own index. *)
Lemma fulfilled_results (concurrency : nat) (p : pool T E) (rs : list (option T)) :
  0 < concurrency ->
  invariant taskCount settle (Nat.min concurrency taskCount) p -> outcome p = Fulfilled rs ->
  List.length rs = taskCount
  /\ forall i, i < taskCount ->
       exists v, settle i = inl v /\ nth_error rs i = Some (Some v).
Proof.
  intros Hc Hinv Hful. unfold outcome in Hful.
  destruct (rejection p) as [e|] eqn:Er; [discriminate|].
  destruct (forallb is_done (workers p)) eqn:Eall; [|discriminate].
  injection Hful as <-. split; [apply (inv_results Hinv)|].
  intros i Hi.
  assert (Hdone : forall w x, nth_error (workers p) w = Some x -> x = Done).
  { intros w x Hw. apply nth_error_In in Hw.
    rewrite forallb_forall in Eall. specialize (Eall x Hw). now destruct x. }
  assert (Hfull : taskCount <= index p).
  { destruct (nth_error (workers p) 0) as [x|] eqn:E0.
    - apply (inv_done Hinv 0). rewrite E0. f_equal. now apply (Hdone 0).
    - apply nth_error_None in E0. rewrite (inv_workers Hinv) in E0. lia. }
  destruct (inv_claimed Hinv i ltac:(lia)) as [[w Hw]|[[v Hv]|Hrej]].
  - apply Hdone in Hw. discriminate.
  - exists v. split; [apply (inv_stored Hinv i v Hv) | exact Hv].
  - congruence.
Qed.

(** A rejection is never replaced. *)
Lemma rejected_stays (reason : E) (schedule : list nat) (p p' : pool T E) :
  outcome p = Rejected reason -> exec taskCount settle schedule p = Some p' ->
  outcome p' = Rejected reason.
Proof.
  revert p. induction schedule as [|w rest IH]; intros p Hrej Hexec.
  - injection Hexec as <-. exact Hrej.
  - cbn [exec] in Hexec.
    destruct (step taskCount settle w p) as [p1|] eqn:Es; [|discriminate].
    apply (IH p1); [|exact Hexec].
    unfold outcome in Hrej. destruct (rejection p) as [e|] eqn:Er.
    + injection Hrej as ->. unfold step in Es.
      destruct (nth_error (workers p) w) as [[i| |e0]|]; try discriminate.
      destruct (settle i); injection Es as <-; unfold outcome;
        cbn [rejection]; now rewrite Er.
    + destruct (forallb is_done (workers p)); discriminate.
Qed.

(** The first task to be rejected rejects the returned promise. *)
Lemma first_failure_rejects (w i : nat) (e : E) (p p' : pool T E) :
  rejection p = None -> nth_error (workers p) w = Some (Awaiting i) ->
  settle i = inr e -> step taskCount settle w p = Some p' ->
  outcome p' = Rejected e.
Proof.
  intros Hnone Hw Hs Hstep. unfold step in Hstep. rewrite Hw, Hs in Hstep.
  injection Hstep as <-. unfold outcome. cbn [rejection]. now rewrite Hnone.
Qed.

(** Without a rejected task there is no rejection. *)
Lemma no_failure_no_rejection (w : nat) (p p' : pool T E) :
  rejection p = None -> step taskCount settle w p = Some p' ->
  (forall i, nth_error (workers p) w = Some (Awaiting i) ->
             exists v, settle i = inl v) ->
  rejection p' = None.
Proof.
  intros Hnone Hstep Hok. unfold step in Hstep.
  destruct (nth_error (workers p) w) as [[i| |e0]|]; try discriminate.
  destruct (Hok i eq_refl) as [v Hv]. rewrite Hv in Hstep.
  injection Hstep as <-. exact Hnone.
Qed.

End RunnerFacts.

(** C3.  With a positive bound, [runWithConcurrency] starts
    [min(bound, taskCount)] workers, on the first tasks in order.  Then,
    whatever the order in which the awaited promises settle: the result
    array keeps the length of the input; at most [min(bound, taskCount)]
    tasks are in flight; at most [taskCount] promises settle in all, and
    while the returned promise is pending one more can; when the returned
    promise is fulfilled, its array has the value of task [i] at index [i]
    for every [i]; when a task is rejected while the returned promise is
    pending, the returned promise is rejected with that error and stays so
    (no partial array is returned); and when every task is fulfilled the
    returned promise is never rejected. *)
Theorem runWithConcurrency_contract (T E : Type) (taskCount concurrency : nat)
    (settle : nat -> T + E) :
  0 < concurrency ->
  let m := Nat.min concurrency taskCount in
  let p0 := Runner.start T E taskCount concurrency in
  Runner.workers p0 = map Runner.Awaiting (seq 0 m)
  /\ forall schedule p,
       Runner.exec taskCount settle schedule p0 = Some p ->
       List.length (Runner.results p) = taskCount
       /\ Runner.in_flight p <= m
       /\ List.length schedule <= taskCount
       /\ (Runner.outcome p = Runner.Pending ->
           exists w p', Runner.step taskCount settle w p = Some p')
       /\ (forall rs, Runner.outcome p = Runner.Fulfilled rs ->
             List.length rs = taskCount
             /\ forall i, i < taskCount ->
                  exists v, settle i = inl v /\ nth_error rs i = Some (Some v))
       /\ (forall w i e p',
             Runner.outcome p = Runner.Pending ->
             nth_error (Runner.workers p) w = Some (Runner.Awaiting i) ->
             settle i = inr e ->
             Runner.step taskCount settle w p = Some p' ->
             Runner.outcome p' = Runner.Rejected e
             /\ forall later p'',
                  Runner.exec taskCount settle later p' = Some p'' ->
                  Runner.outcome p'' = Runner.Rejected e)
       /\ ((forall i, exists v, settle i = inl v) ->
           forall e, Runner.outcome p <> Runner.Rejected e).
Proof.
  intros Hc. cbv zeta. split; [now rewrite start_shape|].
  intros schedule p Hexec.
  pose proof (start_invariant T E taskCount settle concurrency) as Hinv0.
  pose proof (exec_invariant T E taskCount settle _ _ _ _ Hinv0 Hexec) as Hinv.
  pose proof (exec_budget T E taskCount settle _ _ _ _ Hinv0 Hexec) as Hbudget.
  rewrite start_budget in Hbudget.
  repeat match goal with |- _ /\ _ => split end.
  - apply (Runner.inv_results Hinv).
  - unfold Runner.in_flight. rewrite <- (Runner.inv_workers Hinv).
    apply filter_length_le.
  - lia.
  - now apply (pending_progress T E taskCount settle _ p Hinv).
  - intros rs. now apply (fulfilled_results T E taskCount settle concurrency).
  - intros w i e p' Hpend Hw Hs Hstep.
    assert (Hnone : Runner.rejection p = None).
    { unfold Runner.outcome in Hpend. now destruct (Runner.rejection p). }
    pose proof (first_failure_rejects T E taskCount settle w i e p p' Hnone Hw Hs Hstep)
      as Hrej.
    split; [exact Hrej|]. intros later p'' Hlater.
    now apply (rejected_stays T E taskCount settle e later p' p'').
  - intros Hall e Hrej.
    assert (Hkeep : forall sched q q',
      Runner.rejection q = None ->
      Runner.exec taskCount settle sched q = Some q' -> Runner.rejection q' = None).
    { induction sched as [|w rest IH]; intros q q' Hq Hex.
      - now injection Hex as <-.
      - cbn [Runner.exec] in Hex.
        destruct (Runner.step taskCount settle w q) as [q1|] eqn:Es; [|discriminate].
        apply (IH q1 q'); [|exact Hex].
        apply (no_failure_no_rejection T E taskCount settle w q q1 Hq Es).
        intros i _. apply Hall. }
    assert (Hnone : Runner.rejection p = None).
    { apply (Hkeep schedule (Runner.start T E taskCount concurrency) p);
        [|exact Hexec]. now rewrite start_shape. }
    unfold Runner.outcome in Hrej. rewrite Hnone in Hrej.
    destruct (forallb Runner.is_done (Runner.workers p)); discriminate.
Qed.

(** C3 on ten tasks and a bound of three (task [i] yields [i * i]), for one
    order of completion. *)
Lemma runWithConcurrency_contract_witness :
  let settle := fun i : nat => @inl nat string (i * i) in
  let schedule := [2; 0; 0; 1; 2; 2; 0; 1; 2; 0] in
  0 < 3
  /\ Runner.workers (Runner.start nat string 10 3)
     = [Runner.Awaiting 0; Runner.Awaiting 1; Runner.Awaiting 2]
  /\ exists p,
       Runner.exec 10 settle schedule (Runner.start nat string 10 3) = Some p
       /\ Runner.outcome p
          = Runner.Fulfilled (map Some [0; 1; 4; 9; 16; 25; 36; 49; 64; 81])
       /\ List.length (Runner.results p) = 10
       /\ Runner.in_flight p <= 3.
Proof.
  cbv zeta.
  assert (Hc : 0 < 3) by lia.
  destruct (runWithConcurrency_contract nat string 10 3
              (fun i : nat => inl (i * i)) Hc) as [Hstart Hrun].
  split; [exact Hc|]. split; [exact Hstart|].
  set (final := {| Runner.index := 10;
                   Runner.results := map Some [0; 1; 4; 9; 16; 25; 36; 49; 64; 81];
                   Runner.workers := [Runner.Done; Runner.Done; Runner.Done];
                   Runner.rejection := None |} : Runner.pool nat string).
  assert (Ep : Runner.exec 10 (fun i : nat => @inl nat string (i * i))
                 [2; 0; 0; 1; 2; 2; 0; 1; 2; 0] (Runner.start nat string 10 3)
               = Some final) by (vm_compute; reflexivity).
  exists final. split; [exact Ep|].
  destruct (Hrun _ final Ep) as (Hlen & Hfl & _).
  split; [reflexivity|]. split; [exact Hlen | exact Hfl].
Defined.
(** ** More on the identity codec: what decoding guarantees on every input *)

Section MatcherInversion.

Import Regex.

(** A greedy star over a class that succeeds has taken some run of class
    characters and what follows accepted the rest. *)
Lemma scan_greedy_inv {A} p (k : nat -> string -> caps -> option A) i s c x :
  scan_greedy p k i s c = Some x ->
  exists n, n <= String.length s /\ all_chars p (JS.take n s) = true
            /\ k (i + n) (JS.drop n s) c = Some x.
Proof.
  revert i. induction s as [|a s IH]; intros i H; cbn [scan_greedy] in H.
  - exists 0. cbn. rewrite Nat.add_0_r. auto.
  - destruct (p a) eqn:Hp.
    + destruct (scan_greedy p k (S i) s c) as [y|] eqn:Hs; cbn [orelse] in H.
      * injection H as <-. apply IH in Hs. destruct Hs as (n & Hn & Hall & Hk).
        exists (S n). cbn [String.length JS.take JS.drop all_chars]. rewrite Hp.
        split; [lia|]. split; [exact Hall|].
        replace (i + S n) with (S i + n) by lia. exact Hk.
      * exists 0. cbn [JS.take JS.drop all_chars]. rewrite Nat.add_0_r.
        split; [lia|]. auto.
    + exists 0. cbn [JS.take JS.drop all_chars]. rewrite Nat.add_0_r.
      split; [lia|]. auto.
Qed.

Lemma scan_greedy_fails {A} p (k : nat -> string -> caps -> option A) i s c :
  (forall n, n <= String.length s -> all_chars p (JS.take n s) = true ->
             k (i + n) (JS.drop n s) c = None) ->
  scan_greedy p k i s c = None.
Proof.
  intros H. destruct (scan_greedy p k i s c) as [x|] eqn:E; [|reflexivity].
  apply scan_greedy_inv in E. destruct E as (n & Hn & Hall & Hk).
  rewrite (H n Hn Hall) in Hk. discriminate.
Qed.

(** A pattern anchored at the start matches at position 0 or not at all. *)
Lemma exec_from_Bol_later r i s : 0 < i -> exec_from (Seq Bol r) i s = None.
Proof.
  revert i. induction s as [|a s IH]; intros i Hi; cbn [exec_from run].
  - destruct (Nat.eqb_spec i 0); [lia|]. reflexivity.
  - destruct (Nat.eqb_spec i 0); [lia|]. apply IH. lia.
Qed.

Lemma exec_Bol r s :
  exec (Seq Bol r) s = run r 0 s [] (fun _ _ c => Some c).
Proof.
  unfold exec. destruct s as [|a s]; cbn [exec_from run Nat.eqb].
  - destruct (run r 0 EmptyString [] _); reflexivity.
  - destruct (run r 0 (String a s) [] _); [reflexivity|].
    apply exec_from_Bol_later. lia.
Qed.

Lemma all_chars_take p n (s : string) :
  all_chars p s = true -> all_chars p (JS.take n s) = true.
Proof.
  revert n. induction s as [|a s IH]; intros [|n] H; cbn in *; auto.
  apply andb_true_iff in H. destruct H as [Ha Hs]. rewrite Ha. cbn. auto.
Qed.

Lemma all_chars_drop p n (s : string) :
  all_chars p s = true -> all_chars p (JS.drop n s) = true.
Proof.
  revert n. induction s as [|a s IH]; intros [|n] H; cbn in *; auto.
  apply andb_true_iff in H. destruct H as [Ha Hs]. auto.
Qed.

Lemma run_Cls_eq {A} p i s c (k : nat -> string -> caps -> option A) :
  run (Cls p) i s c k
  = match s with
    | String a s' => if p a then k (S i) s' c else None
    | EmptyString => None
    end.
Proof. reflexivity. Qed.

Lemma run_Eol_eq {A} i s c (k : nat -> string -> caps -> option A) :
  run Eol i s c k = match s with EmptyString => k i s c | _ => None end.
Proof. reflexivity. Qed.

(** Whatever the line pattern captures: a non-empty key of word characters
    and a rest without line terminators. *)
Lemma exec_LINE_RE_inv (line : string) (m : caps) :
  exec LINE_RE line = Some m ->
  exists key rest,
    m = [(2, rest); (1, key)]
    /\ negb (String.eqb key EmptyString) = true
    /\ all_chars JS.is_word key = true
    /\ all_chars dot rest = true.
Proof.
  unfold LINE_RE. rewrite exec_Bol, run_Seq, run_Group. unfold Plus.
  rewrite run_Seq.
  rewrite run_Cls_eq.
  destruct line as [|a l]; [discriminate|].
  destruct (JS.is_word a) eqn:Ha; [|discriminate].
  rewrite run_star_greedy_cls.
  intros H. apply scan_greedy_inv in H. destruct H as (n & Hn & Hkey & H).
  rewrite run_Seq in H. unfold Chr in H. rewrite run_Cls_eq in H.
  destruct (JS.drop n l) as [|b l1] eqn:El1; [discriminate|].
  destruct (Ascii.eqb ":" b); [|discriminate].
  rewrite run_Seq, run_star_greedy_cls in H.
  apply scan_greedy_inv in H. destruct H as (n2 & Hn2 & _ & H).
  rewrite run_Seq, run_Group, run_star_greedy_cls in H.
  apply scan_greedy_inv in H. destruct H as (n3 & Hn3 & Hrest & H).
  rewrite run_Eol_eq in H.
  destruct (JS.drop n3 (JS.drop n2 l1)); [|discriminate].
  replace (S (1 + n) + n2 + n3 - (S (1 + n) + n2)) with n3 in H by lia.
  replace (1 + n - 0) with (S n) in H by lia.
  injection H as <-.
  exists (String a (JS.take n l)), (JS.take n3 (JS.drop n2 l1)).
  split; [reflexivity|]. cbn [all_chars]. rewrite Ha, Hkey.
  repeat split; try reflexivity. exact Hrest.
Qed.

End MatcherInversion.

Section DecodedHeader.

Import Regex.

Lemma all_chars_trimStart p (s : string) :
  all_chars p s = true -> all_chars p (JS.trimStart s) = true.
Proof.
  induction s as [|a s IH]; [reflexivity|]. cbn [JS.trimStart all_chars].
  intros H. apply andb_true_iff in H. destruct H as [Ha Hs].
  destruct (JS.is_space a); [auto|]. cbn [all_chars]. now rewrite Ha, Hs.
Qed.

Lemma all_chars_trimEnd p (s : string) :
  all_chars p s = true -> all_chars p (JS.trimEnd s) = true.
Proof.
  induction s as [|a s IH]; [reflexivity|]. cbn [JS.trimEnd all_chars].
  intros H. apply andb_true_iff in H. destruct H as [Ha Hs].
  specialize (IH Hs). destruct (JS.trimEnd s) as [|b t].
  - destruct (JS.is_space a); [reflexivity|]. cbn [all_chars]. now rewrite Ha.
  - cbn [all_chars] in *. now rewrite Ha, IH.
Qed.

Lemma all_chars_trim p (s : string) :
  all_chars p s = true -> all_chars p (JS.trim s) = true.
Proof. intros H. apply all_chars_trimEnd, all_chars_trimStart, H. Qed.

Lemma unescape_quote_step q a b (s : string) :
  unescape_quote q (String a (String b s))
  = if Ascii.eqb a BSL && Ascii.eqb b q
    then String q (unescape_quote q s)
    else String a (unescape_quote q (String b s)).
Proof. reflexivity. Qed.

Lemma all_chars_unescape p q (s : string) :
  p q = true -> all_chars p s = true -> all_chars p (unescape_quote q s) = true.
Proof.
  intros Hq. remember (String.length s) as n eqn:Hn.
  revert s Hn. induction n as [n IH] using lt_wf_ind. intros s Hn Hs.
  destruct s as [|a [|b s]]; [reflexivity|exact Hs|].
  rewrite unescape_quote_step. cbn [all_chars] in Hs.
  apply andb_true_iff in Hs. destruct Hs as [Ha Hs].
  destruct (Ascii.eqb a BSL && Ascii.eqb b q).
  - cbn [all_chars]. rewrite Hq. cbn [andb].
    apply andb_true_iff in Hs. destruct Hs as [_ Hs].
    apply (IH (String.length s)); [subst n; cbn; lia|reflexivity|exact Hs].
  - cbn [all_chars]. rewrite Ha. cbn [andb].
    apply (IH (String.length (String b s))); [subst n; cbn; lia|reflexivity|exact Hs].
Qed.

Lemma all_chars_unquote (v : string) :
  all_chars dot v = true -> all_chars dot (unquote v) = true.
Proof.
  intros H. unfold unquote.
  destruct (_ || _); [|exact H].
  apply all_chars_unescape; [reflexivity|].
  apply all_chars_unescape; [reflexivity|].
  unfold slice_1_m1. apply all_chars_take, all_chars_drop, H.
Qed.

(** One line of a header keeps a decoded object well formed: distinct keys
    that are words other than the prototype name, one-line values. *)
Lemma parseFrontmatterLine_well_formed (d : obj) (line : string) :
  NoDup (map fst d) ->
  Forall (fun e => key_ok (fst e) = true /\ all_chars dot (snd e) = true) d ->
  NoDup (map fst (parseFrontmatterLine d line))
  /\ Forall (fun e => key_ok (fst e) = true /\ all_chars dot (snd e) = true)
            (parseFrontmatterLine d line).
Proof.
  intros Hnd Hall. unfold parseFrontmatterLine.
  destruct (exec LINE_RE line) as [m|] eqn:E; [|auto].
  apply exec_LINE_RE_inv in E.
  destruct E as (key & rest & -> & Hne & Hword & Hdot).
  cbn [capture Nat.eqb]. unfold obj_assign.
  destruct (String.eqb key "__proto__") eqn:Hproto; [auto|].
  split; [apply obj_define_NoDup, Hnd|].
  apply obj_define_Forall; [|exact Hall]. cbn [fst snd]. split.
  - unfold key_ok. now rewrite Hne, Hword, Hproto.
  - apply all_chars_unquote, all_chars_trim, Hdot.
Qed.

Lemma parseFrontmatterBlock_well_formed (block : string) :
  NoDup (map fst (parseFrontmatterBlock block))
  /\ Forall (fun e => key_ok (fst e) = true /\ all_chars dot (snd e) = true)
            (parseFrontmatterBlock block).
Proof.
  unfold parseFrontmatterBlock.
  assert (Hgen : forall lines d,
    NoDup (map fst d) ->
    Forall (fun e => key_ok (fst e) = true /\ all_chars dot (snd e) = true) d ->
    NoDup (map fst (fold_left parseFrontmatterLine lines d))
    /\ Forall (fun e => key_ok (fst e) = true /\ all_chars dot (snd e) = true)
              (fold_left parseFrontmatterLine lines d)).
  { induction lines as [|l lines IH]; intros d Hnd Hall; [auto|].
    cbn [fold_left].
    destruct (parseFrontmatterLine_well_formed d l Hnd Hall) as [Hnd' Hall'].
    apply IH; assumption. }
  apply Hgen; constructor.
Qed.

Lemma parseMdWithNotionId_data (raw : string) :
  data (parseMdWithNotionId raw) = []
  \/ exists block, data (parseMdWithNotionId raw) = parseFrontmatterBlock block.
Proof.
  unfold parseMdWithNotionId.
  destruct (exec FRONTMATTER_RE raw) as [m|]; [|now left].
  destruct (capture 1 m) as [block|]; [|now left].
  destruct (capture 2 m); [|now left].
  right. exists block. reflexivity.
Qed.

End DecodedHeader.

(** X3. Whatever the file holds, the decoded header has distinct keys, each a
    non-empty run of word characters other than the prototype name, and
    values without line terminators. *)
Theorem decoded_header_well_formed (rawContent : string) :
  let d := data (parseMdWithNotionId rawContent) in
  NoDup (map fst d)
  /\ Forall (fun e => key_ok (fst e) = true
                      /\ all_chars Regex.dot (snd e) = true) d.
Proof.
  cbv zeta.
  destruct (parseMdWithNotionId_data rawContent) as [-> | [block ->]].
  - split; constructor.
  - apply parseFrontmatterBlock_well_formed.
Qed.

Section HeaderAbsent.

Import Regex.

Lemma is_space_not_dash (a : ascii) :
  JS.is_space a = true -> Ascii.eqb "-" a = false.
Proof.
  intros H. destruct (Ascii.eqb_spec "-"%char a) as [<-|]; [|reflexivity].
  vm_compute in H. discriminate.
Qed.

Lemma no_dashes_after_spaces (s : string) (n : nat) :
  JS.has_prefix "---" (JS.trimStart s) = false ->
  all_chars JS.is_space (JS.take n s) = true ->
  JS.has_prefix "---" (JS.drop n s) = false.
Proof.
  revert n. induction s as [|a s IH]; intros n Hs Hn.
  - destruct n; reflexivity.
  - cbn [JS.trimStart] in Hs. destruct n as [|n].
    + cbn [JS.drop]. destruct (JS.is_space a) eqn:Ha; [|exact Hs].
      cbn [JS.has_prefix]. now rewrite (is_space_not_dash a Ha).
    + cbn [JS.take all_chars] in Hn. apply andb_true_iff in Hn as [Ha Hn].
      rewrite Ha in Hs. cbn [JS.drop]. now apply IH.
Qed.

(** The header pattern finds nothing unless the first text after leading
    white space is three dashes. *)
Lemma exec_FRONTMATTER_RE_none (raw : string) :
  JS.has_prefix "---" (JS.trimStart raw) = false ->
  exec FRONTMATTER_RE raw = None.
Proof.
  intros H. unfold FRONTMATTER_RE.
  rewrite exec_Bol, run_Seq, run_star_greedy_cls.
  apply scan_greedy_fails. intros n _ Hn.
  rewrite run_Seq, run_Lit_prefix.
  now rewrite (no_dashes_after_spaces raw n H Hn).
Qed.

End HeaderAbsent.

(** X1. A file whose first text after leading white space is not three dashes
    has no header: the whole file is the body, there is no identifier and no
    header data. *)
Theorem parse_without_header (rawContent : string) :
  JS.has_prefix "---" (JS.trimStart rawContent) = false ->
  parseMdWithNotionId rawContent
  = {| body := rawContent; notionPageId := None; data := [] |}.
Proof.
  intros H. unfold parseMdWithNotionId.
  now rewrite (exec_FRONTMATTER_RE_none rawContent H).
Qed.

Lemma parse_without_header_witness :
  parseMdWithNotionId "  # Title"
  = {| body := "  # Title"; notionPageId := None; data := [] |}.
Proof. exact (parse_without_header "  # Title" eq_refl). Defined.

(** X2. A file that starts with a header block in which the closing marker
    cannot begin (no carriage return, no line feed directly followed by a
    dash) is split exactly there: the body is the text after the closing
    line, whatever it holds, the header data are those of the block and the
    identifier is the trimmed value of its [notion_page_id] line when that is
    not empty. *)
Theorem parse_framed_header (block md_body : string) :
  block_safe block = true ->
  let r := parseMdWithNotionId (framed block md_body) in
  body r = md_body
  /\ data r = parseFrontmatterBlock block
  /\ notionPageId r
     = match obj_get NOTION_PAGE_ID_KEY (parseFrontmatterBlock block) with
       | Some v => if String.eqb (JS.trim v) EmptyString then None
                   else Some (JS.trim v)
       | None => None
       end.
Proof.
  intros Hsafe. cbv zeta. unfold parseMdWithNotionId.
  rewrite (exec_FRONTMATTER_RE block md_body Hsafe).
  cbn [Regex.capture Nat.eqb body data notionPageId].
  repeat split.
  destruct (obj_get NOTION_PAGE_ID_KEY (parseFrontmatterBlock block)) as [v|];
    [|reflexivity].
  destruct (JS.trim v); reflexivity.
Qed.

Lemma parse_framed_header_witness :
  let block := "title: Setup" +++ String Regex.LF "notion_page_id:  abc-1 " in
  let md_body := "--- not a header" in
  block_safe block = true
  /\ (let r := parseMdWithNotionId (framed block md_body) in
      body r = md_body
      /\ data r = parseFrontmatterBlock block
      /\ notionPageId r
         = match obj_get NOTION_PAGE_ID_KEY (parseFrontmatterBlock block) with
           | Some v => if String.eqb (JS.trim v) EmptyString then None
                       else Some (JS.trim v)
           | None => None
           end).
Proof.
  exact (conj eq_refl
           (parse_framed_header
              ("title: Setup" +++ String Regex.LF "notion_page_id:  abc-1 ")
              "--- not a header" eq_refl)).
Defined.

(** X4. An identifier read from a file is never empty, has no white space at
    either end, holds no line terminator, and is the trimmed value of the
    [notion_page_id] key of the decoded header. *)
Theorem decoded_identifier_normal (rawContent pageId : string) :
  notionPageId (parseMdWithNotionId rawContent) = Some pageId ->
  String.eqb pageId EmptyString = false
  /\ JS.trim pageId = pageId
  /\ all_chars Regex.dot pageId = true
  /\ exists v, obj_get NOTION_PAGE_ID_KEY (data (parseMdWithNotionId rawContent)) = Some v
               /\ pageId = JS.trim v.
Proof.
  intros H. destruct (notionPageId_trimmed rawContent pageId H) as [Htrim Hne].
  assert (Hv : exists v,
    obj_get NOTION_PAGE_ID_KEY (data (parseMdWithNotionId rawContent)) = Some v
    /\ pageId = JS.trim v).
  { revert H. unfold parseMdWithNotionId.
    destruct (Regex.exec FRONTMATTER_RE rawContent) as [m|]; [|discriminate].
    destruct (Regex.capture 1 m); [|discriminate].
    destruct (Regex.capture 2 m); [|discriminate].
    cbn [notionPageId data].
    destruct (obj_get NOTION_PAGE_ID_KEY _) as [v|]; [|discriminate].
    destruct (0 <? String.length (JS.trim v)); [|discriminate].
    intros [= <-]. exists v. auto. }
  repeat split; try assumption.
  destruct Hv as (v & Hget & ->).
  apply all_chars_trim.
  destruct (parseMdWithNotionId_data rawContent) as [E | [block E]];
    rewrite E in Hget; [discriminate|].
  destruct (parseFrontmatterBlock_well_formed block) as [Hnd Hall].
  apply obj_get_In in Hget; [|exact Hnd].
  rewrite Forall_forall in Hall. apply (Hall _ Hget).
Qed.

Lemma decoded_identifier_normal_witness :
  let raw := framed "notion_page_id:   abc-1  " "text" in
  notionPageId (parseMdWithNotionId raw) = Some "abc-1"
  /\ String.eqb "abc-1" EmptyString = false
  /\ JS.trim "abc-1" = "abc-1"
  /\ all_chars Regex.dot "abc-1" = true
  /\ exists v, obj_get NOTION_PAGE_ID_KEY (data (parseMdWithNotionId raw)) = Some v
               /\ "abc-1" = JS.trim v.
Proof.
  exact (conj eq_refl
           (decoded_identifier_normal
              (framed "notion_page_id:   abc-1  " "text") "abc-1" eq_refl)).
Defined.

Section Rewriting.

Import Regex.

Lemma leading_spaces (s : string) :
  exists ws, s = ws +++ JS.trimStart s /\ all_chars JS.is_space ws = true.
Proof.
  induction s as [|a s (ws & E & Hws)].
  - exists EmptyString. auto.
  - cbn [JS.trimStart]. destruct (JS.is_space a) eqn:Ha.
    + exists (String a ws). cbn [append all_chars]. rewrite Ha, Hws, <- E. auto.
    + exists EmptyString. auto.
Qed.

(** The line pattern on a key, a colon, white space and a one-line rest. *)
Lemma exec_LINE_RE_spaced (h : ascii) (k' ws w : string) :
  JS.is_word h = true -> all_chars JS.is_word k' = true ->
  all_chars JS.is_space ws = true ->
  head_not JS.is_space w = true -> all_chars dot w = true ->
  exec LINE_RE (String h k' +++ String ":" (ws +++ w))
  = Some [(2, w); (1, String h k')].
Proof.
  intros Hh Hk Hws Hw Hdot. apply exec_first. unfold LINE_RE, Plus.
  rewrite run_Seq, run_Bol_start, run_Seq, run_Group, run_Seq.
  change (String h k' +++ String ":" (ws +++ w))
    with (String h (k' +++ String ":" (ws +++ w))).
  rewrite (run_Cls_ok _ _ _ _ _ _ Hh).
  apply run_star_greedy_run; [exact Hk | reflexivity |].
  rewrite run_Seq, run_Chr_ok, run_Seq.
  apply run_star_greedy_run; [exact Hws | exact Hw |].
  rewrite run_Seq, run_Group.
  rewrite <- (append_empty_r w) at 1.
  apply run_star_greedy_run; [exact Hdot | reflexivity |].
  rewrite run_Eol_end. do 3 f_equal.
  - f_equal. replace (S (1 + String.length k') + String.length ws + String.length w
                      - (S (1 + String.length k') + String.length ws))
      with (String.length w) by lia.
    apply take_all.
  - f_equal. replace (1 + String.length k' - 0) with (String.length (String h k'))
      by (simpl; lia).
    apply (take_append (String h k')).
Qed.

Lemma double_backslashes_dot (v : string) :
  all_chars dot v = true -> all_chars dot (double_backslashes v) = true.
Proof.
  induction v as [|a v IH]; [reflexivity|]. cbn [all_chars double_backslashes].
  intros H. apply andb_true_iff in H as [Ha Hv].
  destruct (Ascii.eqb a BSL); cbn [all_chars]; rewrite ?Ha, (IH Hv); reflexivity.
Qed.

Lemma escapeYamlValue_dot (v : string) :
  all_chars dot v = true -> all_chars dot (escapeYamlValue v) = true.
Proof.
  intros H. unfold escapeYamlValue. destruct (needs_quoting v); [|exact H].
  cbn [all_chars]. rewrite all_chars_append. cbn [all_chars].
  rewrite (escape_dquotes_dot _ (double_backslashes_dot v H)). reflexivity.
Qed.

Lemma key_ok_parts (k : string) :
  key_ok k = true ->
  exists h k', k = String h k' /\ JS.is_word h = true
               /\ all_chars JS.is_word k' = true
               /\ String.eqb k "__proto__" = false.
Proof.
  unfold key_ok. intros Hk.
  apply andb_true_iff in Hk as [Hk Hproto].
  apply andb_true_iff in Hk as [Hne Hword].
  destruct k as [|h k']; [discriminate|].
  cbn [all_chars] in Hword. apply andb_true_iff in Hword as [Hh Hk'].
  exists h, k'. apply negb_true_iff in Hproto. auto.
Qed.

(** Reading back the line written for any key with a one-line value defines
    that key, with some value. *)
Lemma parseFrontmatterLine_written (d : obj) (k v : string) :
  key_ok k = true -> all_chars dot v = true ->
  exists v', parseFrontmatterLine d (frontLine (k, v)) = obj_define k v' d.
Proof.
  intros Hk Hv.
  destruct (key_ok_parts k Hk) as (h & k' & -> & Hh & Hk' & Hproto).
  pose proof (escapeYamlValue_dot v Hv) as Hdot.
  destruct (leading_spaces (escapeYamlValue v)) as (ws & E & Hws).
  unfold parseFrontmatterLine, frontLine. cbn [fst snd].
  change (": " +++ escapeYamlValue v)
    with (String ":" (String " " (escapeYamlValue v))).
  rewrite E.
  change (String " " (ws +++ JS.trimStart (escapeYamlValue v)))
    with (String " " ws +++ JS.trimStart (escapeYamlValue v)).
  rewrite (exec_LINE_RE_spaced h k' (String " " ws)
             (JS.trimStart (escapeYamlValue v)) Hh Hk').
  - cbn [capture Nat.eqb]. unfold obj_assign. rewrite Hproto. eauto.
  - cbn [all_chars]. now rewrite Hws.
  - apply trimStart_head.
  - now apply all_chars_trimStart.
Qed.

Lemma obj_get_define_other (k k' v : string) (o : obj) :
  k <> k' -> obj_get k (obj_define k' v o) = obj_get k o.
Proof.
  intros Hne. induction o as [|[k0 v0] o IH]; cbn [obj_define obj_get].
  - destruct (String.eqb_spec k k'); [contradiction | reflexivity].
  - destruct (String.eqb_spec k' k0) as [->|Hk0]; cbn [obj_get].
    + destruct (String.eqb_spec k k0); [contradiction | reflexivity].
    + destruct (String.eqb_spec k k0); [reflexivity | exact IH].
Qed.

Lemma written_lines_other (pairs d : obj) (key : string) :
  ~ In key (map fst pairs) ->
  Forall (fun e => key_ok (fst e) = true /\ all_chars dot (snd e) = true) pairs ->
  obj_get key (fold_left parseFrontmatterLine (map frontLine pairs) d)
  = obj_get key d.
Proof.
  intros Hnotin Hok. revert d.
  induction Hok as [|[k v] ps [Hk Hv] _ IH]; intros d; [reflexivity|].
  cbn [map fold_left]. cbn [fst snd] in Hk, Hv.
  destruct (parseFrontmatterLine_written d k v Hk Hv) as [v' ->].
  rewrite IH.
  - apply obj_get_define_other. intros ->. apply Hnotin. now left.
  - intros Hin. apply Hnotin. now right.
Qed.

(** Among written lines with distinct keys, the line of a good value is read
    back as that value, whatever the other lines hold. *)
Lemma written_lines_key (pairs d : obj) (k v : string) :
  NoDup (map fst pairs) -> In (k, v) pairs ->
  Forall (fun e => key_ok (fst e) = true /\ all_chars dot (snd e) = true) pairs ->
  value_ok v = true ->
  obj_get k (fold_left parseFrontmatterLine (map frontLine pairs) d) = Some v.
Proof.
  intros Hnd Hin Hok Hv. revert d.
  induction pairs as [|[k0 v0] ps IH]; intros d; [destruct Hin|].
  cbn [map fst] in Hnd. inversion Hnd as [|? ? Hnotin Hnd']; subst.
  inversion Hok as [|? ? [Hk0 Hv0] Hok']; subst. cbn [fst snd] in Hk0, Hv0.
  cbn [map fold_left]. destruct Hin as [[= -> ->]|Hin].
  - rewrite (parseFrontmatterLine_frontLine d k v Hk0 Hv).
    rewrite (written_lines_other ps _ k Hnotin Hok'). apply obj_get_define.
  - now apply IH.
Qed.

Lemma NoDup_keys_filter (f : string * string -> bool) (o : obj) :
  NoDup (map fst o) -> NoDup (map fst (filter f o)).
Proof.
  induction o as [|e o IH]; intros Hnd; [constructor|].
  cbn [map] in Hnd. inversion Hnd as [|? ? Hnotin Hnd']; subst.
  cbn [filter]. destruct (f e); [|now apply IH].
  cbn [map]. constructor; [|now apply IH].
  intros Hin. apply Hnotin. apply in_map_iff in Hin.
  destruct Hin as (e' & E & Hin). apply filter_In in Hin.
  apply in_map_iff. exists e'. tauto.
Qed.

(** Writing any well-formed header with a good identifier and reading the
    result back gives the body and the identifier. *)
Lemma stringify_then_parse (md_body : string) (d : obj) (id : string) :
  NoDup (map fst d) ->
  Forall (fun e => key_ok (fst e) = true /\ all_chars dot (snd e) = true) d ->
  value_ok id = true -> JS.trim id = id ->
  let r := parseMdWithNotionId (stringifyMdWithNotionId md_body d id) in
  body r = md_body /\ notionPageId r = Some id.
Proof.
  intros Hnd Hok Hid Htrim.
  assert (Hiddot : all_chars dot id = true).
  { unfold value_ok in Hid. apply andb_true_iff in Hid as [Hid _].
    apply andb_true_iff in Hid as [Hid _]. now apply andb_true_iff in Hid as [_ Hid]. }
  set (d' := obj_define NOTION_PAGE_ID_KEY id d).
  assert (Hnd' : NoDup (map fst d')) by now apply obj_define_NoDup.
  assert (Hok' : Forall (fun e => key_ok (fst e) = true
                                  /\ all_chars dot (snd e) = true) d')
    by (apply obj_define_Forall; [split; [reflexivity | exact Hiddot] | exact Hok]).
  pose proof (Object_entries_perm d') as Hperm.
  set (pairs := filter (fun e => negb (String.eqb (snd e) EmptyString))
                       (Object_entries d')).
  assert (Hndp : NoDup (map fst pairs)).
  { apply NoDup_keys_filter. eapply Permutation_NoDup; [|exact Hnd'].
    apply Permutation_map, Permutation_sym, Hperm. }
  assert (Hokp : Forall (fun e => key_ok (fst e) = true
                                  /\ all_chars dot (snd e) = true) pairs).
  { apply Forall_forall. intros e He. apply filter_In in He as [He _].
    assert (Hall : Forall (fun e => key_ok (fst e) = true
                                    /\ all_chars dot (snd e) = true)
                          (Object_entries d'))
      by (eapply Permutation_Forall; [apply Permutation_sym, Hperm | exact Hok']).
    rewrite Forall_forall in Hall. now apply Hall. }
  assert (Hin : In (NOTION_PAGE_ID_KEY, id) pairs).
  { apply filter_In. split.
    - eapply Permutation_in; [apply Permutation_sym, Hperm|].
      apply obj_get_In; [exact Hnd'|]. apply obj_get_define.
    - cbn [snd]. now apply value_ok_nonempty. }
  assert (Hstr : stringifyMdWithNotionId md_body d id
                 = framed (String.concat (String LF EmptyString) (map frontLine pairs))
                          md_body).
  { unfold stringifyMdWithNotionId. fold d'. fold pairs.
    destruct (map frontLine pairs) as [|l ls] eqn:E.
    - destruct pairs; [destruct Hin | discriminate].
    - unfold framed. rewrite !append_assoc. cbn [append]. reflexivity. }
  assert (Hshape : Forall (fun l => all_chars dot l = true
                                    /\ head_not (Ascii.eqb "-") l = true)
                          (map frontLine pairs)).
  { apply Forall_map. eapply Forall_impl; [|exact Hokp].
    intros [k v] [Hk Hv]. cbn [fst snd] in Hk, Hv.
    destruct (key_ok_parts k Hk) as (h & k' & -> & Hh & Hk' & _).
    unfold frontLine. cbn [fst snd]. split.
    - rewrite !all_chars_append. cbn [all_chars].
      rewrite (is_word_dot h Hh), (all_chars_impl _ _ k' is_word_dot Hk').
      now rewrite (escapeYamlValue_dot v Hv).
    - cbn [append head_not]. now rewrite (is_word_not_dash h Hh). }
  destruct (block_safe_concat _ Hshape) as [Hsafe _].
  cbv zeta. rewrite Hstr. unfold parseMdWithNotionId.
  rewrite (exec_FRONTMATTER_RE _ md_body Hsafe).
  cbn [capture Nat.eqb body notionPageId data]. split; [reflexivity|].
  unfold parseFrontmatterBlock. rewrite split_lines_concat.
  - rewrite (written_lines_key pairs [] NOTION_PAGE_ID_KEY id Hndp Hin Hokp Hid).
    rewrite Htrim. destruct id as [|a id']; [discriminate | reflexivity].
  - destruct pairs; [destruct Hin | discriminate].
  - eapply Forall_impl; [|exact Hshape]. intros l [Hl _]. exact Hl.
Qed.

End Rewriting.

(** X5. Storing an identifier in any file keeps the body of that file: decode
    a file, whatever it holds, encode the decoded body and header with a good
    identifier (not empty, single-line, without backslash, no white space at
    either end, not enclosed in single quotes), and decode again; the body is
    the one of the first decoding and the identifier is the one stored. *)
Theorem store_identifier_keeps_body (rawContent id : string) :
  value_ok id = true -> JS.trim id = id ->
  let p := parseMdWithNotionId rawContent in
  let r := parseMdWithNotionId (stringifyMdWithNotionId (body p) (data p) id) in
  body r = body p /\ notionPageId r = Some id.
Proof.
  intros Hid Htrim. cbv zeta.
  assert (Hwf : NoDup (map fst (data (parseMdWithNotionId rawContent)))
                /\ Forall (fun e => key_ok (fst e) = true
                                    /\ all_chars Regex.dot (snd e) = true)
                          (data (parseMdWithNotionId rawContent))).
  { destruct (parseMdWithNotionId_data rawContent) as [-> | [block ->]].
    - split; constructor.
    - apply parseFrontmatterBlock_well_formed. }
  destruct Hwf as [Hnd Hok].
  exact (stringify_then_parse _ _ id Hnd Hok Hid Htrim).
Qed.

Lemma store_identifier_keeps_body_witness :
  let raw := framed ("path: C:" +++ String Regex.BSL "docs" +++ String Regex.LF "notion_page_id: old-1")
                    "# Title" in
  let id := "new-2" in
  value_ok id = true /\ JS.trim id = id
  /\ (let p := parseMdWithNotionId raw in
      let r := parseMdWithNotionId (stringifyMdWithNotionId (body p) (data p) id) in
      body r = body p /\ notionPageId r = Some id).
Proof.
  exact (conj eq_refl (conj eq_refl
           (store_identifier_keeps_body
              (framed ("path: C:" +++ String Regex.BSL "docs" +++ String Regex.LF "notion_page_id: old-1")
                      "# Title")
              "new-2" eq_refl eq_refl))).
Defined.

(** ** More on chunking: the number of chunks *)

Section ChunkCount.

Context {T : Type}.

Lemma ceil_step (n size : nat) :
  0 < size -> 0 < n -> (n + size - 1) / size = S ((n - size + size - 1) / size).
Proof.
  intros Hs Hn. destruct (Nat.le_gt_cases size n) as [Hle|Hgt].
  - replace (n + size - 1) with ((n - size + size - 1) + 1 * size) by lia.
    rewrite Nat.div_add by lia. lia.
  - replace (n - size) with 0 by lia. cbn [Nat.add].
    rewrite (Nat.div_small (size - 1) size) by lia.
    symmetry. apply (Nat.div_unique (n + size - 1) size 1 (n - 1)); lia.
Qed.

Lemma chunk_loop_count (blocks : list T) (size : nat) :
  0 < size ->
  forall fuel i acc r,
    chunk_loop fuel blocks size i acc = Some r ->
    List.length r = List.length acc + (List.length blocks - i + size - 1) / size.
Proof.
  intros Hsize fuel. induction fuel as [|fuel IH]; intros i acc r; cbn [chunk_loop];
    destruct (Nat.ltb_spec i (List.length blocks)) as [Hlt|Hge]; try discriminate.
  - intros [= <-]. replace (List.length blocks - i) with 0 by lia.
    cbn [Nat.add]. rewrite Nat.div_small by lia. lia.
  - intros H. apply IH in H. rewrite H, length_app. cbn [List.length].
    rewrite (ceil_step (List.length blocks - i) size) by lia.
    replace (List.length blocks - (i + size)) with (List.length blocks - i - size) by lia.
    lia.
  - intros [= <-]. replace (List.length blocks - i) with 0 by lia.
    cbn [Nat.add]. rewrite Nat.div_small by lia. lia.
Qed.

End ChunkCount.

(** X6. For every positive chunk size the chunking loop finishes; its chunks,
    concatenated in order, are the input list, and their number is the
    length of the list divided by the size, rounded up (so an empty list
    gives no chunk at all). *)
Theorem chunkBlocks_count {T} (blocks : list T) (size : nat) :
  0 < size ->
  exists chunks,
    chunkBlocks blocks size = Some chunks
    /\ List.concat chunks = blocks
    /\ List.length chunks = (List.length blocks + size - 1) / size.
Proof.
  intros Hsize.
  destruct (chunkBlocks_partition blocks size Hsize) as (chunks & Hrun & Hcat & _).
  exists chunks. split; [exact Hrun|]. split; [exact Hcat|].
  unfold chunkBlocks in Hrun.
  rewrite (chunk_loop_count blocks size Hsize _ _ _ _ Hrun).
  cbn [List.length Nat.add]. now rewrite Nat.sub_0_r.
Qed.

Lemma chunkBlocks_count_witness :
  0 < 2
  /\ exists chunks,
       chunkBlocks [1; 2; 3; 4; 5] 2 = Some chunks
       /\ List.concat chunks = [1; 2; 3; 4; 5]
       /\ List.length chunks = (List.length [1; 2; 3; 4; 5] + 2 - 1) / 2.
Proof.
  exact (conj (Nat.lt_0_succ 1)
              (chunkBlocks_count [1; 2; 3; 4; 5] 2 (Nat.lt_0_succ 1))).
Defined.

(** ** More on the content adapter: sanitation is a projection *)

Section SanitationTwice.

Lemma sanitizeItem_idempotent (item : RichTextItem) :
  sanitizeItem (sanitizeItem item) = sanitizeItem item.
Proof.
  unfold sanitizeItem at 2 3.
  destruct (item_text item) as [text|] eqn:Et.
  - destruct (String.eqb (item_type item) "text") eqn:Ety.
    + unfold sanitizeItem. cbn [item_text item_type content link String.eqb Ascii.eqb Bool.eqb].
      do 3 f_equal.
      destruct (link text) as [l|]; [|reflexivity].
      destruct (negb (String.eqb (url l) EmptyString) && isValidNotionUrl (url l)) eqn:Ev;
        [|reflexivity].
      cbn [url]. now rewrite Ev.
    + unfold sanitizeItem. now rewrite Et, Ety.
  - unfold sanitizeItem. now rewrite Et.
Qed.

Lemma map_fixed {X} (f : X -> X) (l : list X) :
  Forall (fun x => f (f x) = f x) l -> map f (map f l) = map f l.
Proof. induction 1 as [|x l Hx _ IH]; cbn [map]; congruence. Qed.

Lemma sanitizeBlock_idempotent (b : NotionBlock) :
  sanitizeBlock (sanitizeBlock b) = sanitizeBlock b.
Proof.
  apply (NotionBlock_nested_ind
           (fun b => sanitizeBlock (sanitizeBlock b) = sanitizeBlock b)
           (fun m => sanitizeMember (sanitizeMember m) = sanitizeMember m)).
  - intros block_type members Hmembers. cbn [sanitizeBlock]. f_equal.
    induction Hmembers as [|[key m] l Hm _ IH]; [reflexivity|].
    cbn [map snd] in *. now rewrite Hm, IH.
  - intros rich_text children other Hchildren. cbn [sanitizeMember]. f_equal.
    + destruct rich_text as [items|]; [|reflexivity]. cbn [option_map]. f_equal.
      unfold sanitizeRichText. apply map_fixed.
      apply Forall_forall. intros item _. apply sanitizeItem_idempotent.
    + destruct children as [blocks|]; [|reflexivity]. cbn [option_map]. f_equal.
      apply map_fixed. now apply Hchildren.
  - reflexivity.
Qed.

End SanitationTwice.

(** X7. Sanitation is idempotent: sanitising a sanitised block list changes
    nothing, so the blocks the content adapter returns are already in the
    form sanitation produces. *)
Theorem sanitizeBlocks_idempotent :
  (forall blocks, sanitizeBlocks (sanitizeBlocks blocks) = sanitizeBlocks blocks)
  /\ (forall markdownToBlocks md,
        sanitizeBlocks (convertMarkdownToNotionBlocks markdownToBlocks md)
        = convertMarkdownToNotionBlocks markdownToBlocks md).
Proof.
  assert (H : forall blocks,
    sanitizeBlocks (sanitizeBlocks blocks) = sanitizeBlocks blocks).
  { intros blocks. unfold sanitizeBlocks. apply map_fixed.
    apply Forall_forall. intros b _. apply sanitizeBlock_idempotent. }
  split; [exact H|]. intros markdownToBlocks md.
  unfold convertMarkdownToNotionBlocks. apply H.
Qed.

(** ** More on the Notion helpers: what each one asks of the client *)

Section HelperCalls.

Variable notion : NotionClient.

(** A request adds its call and nothing else, whatever the answer. *)
Lemma request_state {A} (c : call) (answer : list call -> A + ApiError) (s : state) :
  snd (request c answer s) = with_calls s [c].
Proof. unfold request. destruct (answer (calls s)); reflexivity. Qed.

Lemma request_result {A} (c : call) (answer : list call -> A + ApiError) (s : state) :
  fst (request c answer s)
  = match answer (calls s) with
    | inl a => inl a
    | inr e => inr (NotionFailure e)
    end.
Proof. unfold request. destruct (answer (calls s)); reflexivity. Qed.

Lemma findFirstChildPage_loop_run (fuel : nat) (parentPageId title : string)
    (cursor : option string) (s : state) :
  normalizeTitleForMatch title <> EmptyString ->
  let run := findFirstChildPage_loop notion fuel parentPageId
               (normalizeTitleForMatch title) cursor s in
  (exists cursors,
     snd run = with_calls s (map (BlocksList parentPageId) cursors))
  /\ forall pageId, fst run = inl (Some pageId) ->
       listed_match notion parentPageId title pageId.
Proof.
  intros Hne. cbv zeta. revert cursor s.
  induction fuel as [|fuel IH]; intros cursor s.
  - cbn [findFirstChildPage_loop]. split; [|discriminate].
    exists []. cbn [map]. now rewrite with_calls_nil.
  - cbn [findFirstChildPage_loop]. unfold bind.
    destruct (blocks_children_list notion (calls s) parentPageId cursor)
      as [resp|e] eqn:Hresp.
    + rewrite (request_ok _ _ s resp Hresp).
      destruct (find _ (results resp)) as [b|] eqn:Hfind.
      * cbn [ret fst snd]. split; [exists [cursor]; reflexivity|].
        intros pageId [= <-]. apply find_some in Hfind as [Hin Hb].
        apply andb_true_iff in Hb as [Hty Htitle].
        apply String.eqb_eq in Hty, Htitle.
        exists (calls s), cursor, resp, b. repeat split; auto.
        unfold titlesMatch. rewrite Htitle, String.eqb_refl, andb_true_r.
        destruct (normalizeTitleForMatch title); [congruence | reflexivity].
      * assert (Hstop : forall r : option string,
          r = None ->
          (exists cursors,
             snd (ret r (with_calls s [BlocksList parentPageId cursor]))
             = with_calls s (map (BlocksList parentPageId) cursors))
          /\ forall pageId,
               fst (ret r (with_calls s [BlocksList parentPageId cursor]))
               = inl (Some pageId) -> listed_match notion parentPageId title pageId).
        { intros r ->. cbn [ret fst snd]. split; [exists [cursor]; reflexivity|].
          discriminate. }
        destruct (next_cursor resp) as [c|]; [|now apply Hstop].
        destruct (String.eqb c EmptyString); [now apply Hstop|].
        destruct (IH (Some c) (with_calls s [BlocksList parentPageId cursor]))
          as [(cursors & Hstate) Hfound].
        split; [|exact Hfound].
        exists (cursor :: cursors). rewrite Hstate, with_calls_app. reflexivity.
    + rewrite (request_rejected _ _ s e Hresp). cbn [fst snd].
      split; [exists [cursor]; reflexivity | discriminate].
Qed.

(** The lookup only lists children of the parent, and what it finds is a
    listed child page with a matching title. *)
Lemma findFirstChildPageByTitle_run (fuel : nat) (parentPageId title : string)
    (s : state) :
  let run := findFirstChildPageByTitle notion fuel parentPageId title s in
  (exists cursors,
     snd run = with_calls s (map (BlocksList parentPageId) cursors))
  /\ forall pageId, fst run = inl (Some pageId) ->
       listed_match notion parentPageId title pageId.
Proof.
  cbv zeta. unfold findFirstChildPageByTitle.
  destruct (String.eqb_spec (normalizeTitleForMatch title) EmptyString) as [E|Hne].
  - cbn [ret fst snd]. split; [|discriminate].
    exists []. cbn [map]. now rewrite with_calls_nil.
  - apply (findFirstChildPage_loop_run fuel parentPageId title None s Hne).
Qed.

(** The folder lookup-or-create: listings of the parent, then at most one
    creation, made only when the lookup found nothing. *)
Lemma getOrCreateFolderPage_run (fuel : nat) (parentPageId folderTitle : string)
    (s : state) :
  let run := getOrCreateFolderPage notion fuel parentPageId folderTitle s in
  exists cursors creations,
    snd run = with_calls s (map (BlocksList parentPageId) cursors ++ creations)
    /\ ((creations = []
         /\ forall pageId, fst run = inl pageId ->
              pageId <> EmptyString
              /\ listed_match notion parentPageId folderTitle pageId)
        \/ (creations = [PagesCreate parentPageId folderTitle None]
            /\ forall pageId, fst run = inl pageId ->
                 exists h page,
                   pages_create notion h parentPageId folderTitle None = inl page
                   /\ id page = pageId)).
Proof.
  cbv zeta. unfold getOrCreateFolderPage, bind.
  destruct (findFirstChildPageByTitle_run fuel parentPageId folderTitle s)
    as [(cursors & Hstate) Hfound].
  destruct (findFirstChildPageByTitle notion fuel parentPageId folderTitle s)
    as [[existingId|e] s1] eqn:Hrun; cbn [fst snd] in Hstate, Hfound; subst s1.
  - assert (Hcreate : forall lists,
      lists = with_calls s (map (BlocksList parentPageId) cursors) ->
      let run := (page <- request (PagesCreate parentPageId folderTitle None)
                     (fun h => pages_create notion h parentPageId folderTitle None) ;;
                  ret (id page)) lists in
      exists cursors0 creations,
        snd run = with_calls s (map (BlocksList parentPageId) cursors0 ++ creations)
        /\ ((creations = []
             /\ forall pageId, fst run = inl pageId ->
                  pageId <> EmptyString
                  /\ listed_match notion parentPageId folderTitle pageId)
            \/ (creations = [PagesCreate parentPageId folderTitle None]
                /\ forall pageId, fst run = inl pageId ->
                     exists h page,
                       pages_create notion h parentPageId folderTitle None = inl page
                       /\ id page = pageId))).
    { intros lists ->. cbv zeta. unfold bind.
      exists cursors, [PagesCreate parentPageId folderTitle None].
      destruct (pages_create notion
                  (calls (with_calls s (map (BlocksList parentPageId) cursors)))
                  parentPageId folderTitle None) as [page|e] eqn:Hpage.
      - rewrite (request_ok _ _ _ page Hpage). cbn [ret fst snd].
        rewrite with_calls_app. split; [reflexivity|]. right.
        split; [reflexivity|]. intros pageId [= <-]. eauto.
      - rewrite (request_rejected _ _ _ e Hpage). cbn [fst snd].
        rewrite with_calls_app. split; [reflexivity|]. right.
        split; [reflexivity | discriminate]. }
    destruct existingId as [existing|]; [|now apply Hcreate].
    destruct (String.eqb_spec existing EmptyString) as [E|Hne]; cbn [negb].
    + now apply Hcreate.
    + exists cursors, []. cbn [ret fst snd]. rewrite app_nil_r.
      split; [reflexivity|]. left. split; [reflexivity|].
      intros pageId [= <-]. split; [exact Hne|]. now apply Hfound.
  - exists cursors, []. cbn [fst snd]. rewrite app_nil_r.
    split; [reflexivity|]. left. split; [reflexivity | discriminate].
Qed.

Lemma Map_has_set_inv (k k' v : string) (m : StringMap) :
  Map_has k (Map_set k' v m) = true -> k = k' \/ Map_has k m = true.
Proof.
  destruct (String.eqb_spec k k') as [->|Hne]; [now left|]. right.
  unfold Map_has, Map_get, Map_set in *.
  now rewrite (obj_get_define_other k k' v m Hne) in H.
Qed.

(** Filling the folder cache keeps what was in it, adds only titles of the
    set, and asks the client only for listings of the root and for the
    creation of folders the cache did not have. *)
Lemma ensureFolderPages_loop_run (fuel : nat) (rootPageId : string)
    (folderTitles : list string) (cache cache' : StringMap) (s s' : state) :
  ensureFolderPages_loop notion fuel rootPageId folderTitles cache s = (inl cache', s') ->
  (forall k v, Map_get k cache = Some v -> Map_get k cache' = Some v)
  /\ (forall k, Map_has k cache' = true -> Map_has k cache = true \/ In k folderTitles)
  /\ exists cs,
       s' = with_calls s cs
       /\ Forall (fun c =>
                   (exists cursor, c = BlocksList rootPageId cursor)
                   \/ (exists t, c = PagesCreate rootPageId t None
                                 /\ In t folderTitles /\ Map_has t cache = false)) cs.
Proof.
  revert cache s. induction folderTitles as [|t rest IH]; intros cache s Hrun.
  - cbn in Hrun. injection Hrun as <- <-. repeat split; auto.
    exists []. now rewrite with_calls_nil.
  - cbn [ensureFolderPages_loop] in Hrun. destruct (Map_has t cache) eqn:Ht.
    + destruct (IH cache s Hrun) as (Hkeep & Hkeys & cs & Hs & Hcs).
      split; [exact Hkeep|]. split.
      * intros k Hk. destruct (Hkeys k Hk); [now left | right; now right].
      * exists cs. split; [exact Hs|]. eapply Forall_impl; [|exact Hcs].
        intros c [Hl | (t' & Hc & Hin & Hno)]; [now left|].
        right. exists t'. repeat split; auto. now right.
    + unfold bind in Hrun.
      destruct (getOrCreateFolderPage_run fuel rootPageId t s)
        as (cursors & creations & Hstate & Hcases).
      destruct (getOrCreateFolderPage notion fuel rootPageId t s)
        as [[pageId|e] s1]; [|discriminate].
      cbn [fst snd] in Hstate, Hcases. subst s1.
      destruct (IH _ _ Hrun) as (Hkeep & Hkeys & cs & Hs & Hcs).
      split; [|split].
      * intros k v Hk. apply Hkeep. unfold Map_get, Map_set in *.
        rewrite obj_get_define_other; [exact Hk|].
        intros ->. unfold Map_has, Map_get in Ht. now rewrite Hk in Ht.
      * intros k Hk. destruct (Hkeys k Hk) as [Hk1|Hin]; [|right; now right].
        apply Map_has_set_inv in Hk1 as [->|Hk1]; [right; now left | now left].
      * exists ((map (BlocksList rootPageId) cursors ++ creations) ++ cs).
        split; [now rewrite Hs, with_calls_app|].
        apply Forall_app. split; [apply Forall_app; split|].
        -- apply Forall_forall. intros c Hc. apply in_map_iff in Hc as (cur & <- & _).
           left. eauto.
        -- destruct Hcases as [[-> _] | [-> _]]; [constructor|].
           constructor; [|constructor]. right. exists t.
           repeat split; auto. now left.
        -- eapply Forall_impl; [|exact Hcs].
           intros c [Hl | (t' & Hc & Hin & Hno)]; [now left|].
           right. exists t'. split; [exact Hc|]. split; [now right|].
           destruct (Map_has t' cache) eqn:Ht'; [|reflexivity].
           now rewrite (Map_has_set_mono t' t pageId cache Ht') in Hno.
Qed.

(** The appends of a page go out in order and stop at the first rejected
    one. *)
Lemma appendChunks_stops (pageId : string) (rest : list (list NotionBlock)) (s : state) :
  let run := appendChunks notion pageId rest s in
  exists n,
    n <= List.length rest
    /\ snd run = with_calls s (map (BlocksAppend pageId) (firstn n rest))
    /\ ((fst run = inl tt /\ n = List.length rest)
        \/ (exists e, fst run = inr (NotionFailure e) /\ 0 < n)).
Proof.
  cbv zeta. revert s. induction rest as [|chunk rest IH]; intros s.
  - exists 0. cbn. rewrite with_calls_nil. auto.
  - cbn [appendChunks]. unfold bind.
    destruct (blocks_children_append notion (calls s) pageId chunk) as [[]|e] eqn:Hc.
    + rewrite (request_ok _ _ s tt Hc).
      destruct (IH (with_calls s [BlocksAppend pageId chunk]))
        as (n & Hn & Hstate & Hres).
      exists (S n). cbn [List.length firstn map]. split; [lia|].
      split; [now rewrite Hstate, with_calls_app|].
      destruct Hres as [[Hok ->] | (e & He & _)]; [left; auto|].
      right. exists e. split; [exact He | lia].
    + rewrite (request_rejected _ _ s e Hc). exists 1.
      cbn [List.length firstn map fst snd]. split; [lia|].
      split; [reflexivity|]. right. exists e. split; [reflexivity | lia].
Qed.

End HelperCalls.

(** X8. Looking a child page up by title only lists children of the parent:
    every call it makes is a listing of that parent, and files and validated
    identifiers are untouched.  An identifier it returns is the one of a
    child page the client listed under the parent whose title matches the
    title sought.  For a title that normalises to the empty string it makes
    no call and finds nothing. *)
Theorem findFirstChildPageByTitle_reads_only (notion : NotionClient) (fuel : nat)
    (parentPageId title : string) (s : state) :
  let run := findFirstChildPageByTitle notion fuel parentPageId title s in
  (exists cursors,
     snd run = with_calls s (map (BlocksList parentPageId) cursors))
  /\ (forall pageId, fst run = inl (Some pageId) ->
        listed_match notion parentPageId title pageId)
  /\ (normalizeTitleForMatch title = EmptyString -> run = (inl None, s)).
Proof.
  cbv zeta.
  destruct (findFirstChildPageByTitle_run notion fuel parentPageId title s)
    as [Hstate Hfound].
  split; [exact Hstate|]. split; [exact Hfound|].
  intros E. unfold findFirstChildPageByTitle. now rewrite E.
Qed.

(** X9. Getting or creating a folder page lists children of the parent and
    then makes at most one creation call, touching nothing else.  Without a
    creation, the identifier it returns is not empty and belongs to a listed
    child page whose title matches the folder title; with a creation, it is
    the identifier of the page the client created under the parent with the
    folder title and no content. *)
Theorem getOrCreateFolderPage_calls (notion : NotionClient) (fuel : nat)
    (parentPageId folderTitle : string) (s : state) :
  let run := getOrCreateFolderPage notion fuel parentPageId folderTitle s in
  exists cursors creations,
    snd run = with_calls s (map (BlocksList parentPageId) cursors ++ creations)
    /\ ((creations = []
         /\ forall pageId, fst run = inl pageId ->
              pageId <> EmptyString
              /\ listed_match notion parentPageId folderTitle pageId)
        \/ (creations = [PagesCreate parentPageId folderTitle None]
            /\ forall pageId, fst run = inl pageId ->
                 exists h page,
                   pages_create notion h parentPageId folderTitle None = inl page
                   /\ id page = pageId)).
Proof. exact (getOrCreateFolderPage_run notion fuel parentPageId folderTitle s). Qed.

(** X10. A run of [ensureFolderPagesCache] that returns keeps every entry of
    the initial cache with its value, adds only keys taken from the title
    set, and asks the client only for listings of the root page and for the
    creation, under the root, of folders whose title is in the set and was
    not in the initial cache; files and validated identifiers are
    untouched. *)
Theorem ensureFolderPagesCache_extends (notion : NotionClient) (fuel : nat)
    (rootPageId : string) (folderTitles : StringSet)
    (initialCache cache : StringMap) (s s' : state) :
  ensureFolderPagesCache notion fuel rootPageId folderTitles initialCache s
  = (inl cache, s') ->
  (forall k v, Map_get k initialCache = Some v -> Map_get k cache = Some v)
  /\ (forall k, Map_has k cache = true ->
                Map_has k initialCache = true \/ In k folderTitles)
  /\ exists cs,
       s' = with_calls s cs
       /\ Forall (fun c =>
                   (exists cursor, c = BlocksList rootPageId cursor)
                   \/ (exists t, c = PagesCreate rootPageId t None
                                 /\ In t folderTitles
                                 /\ Map_has t initialCache = false)) cs.
Proof.
  intros Hrun.
  exact (ensureFolderPages_loop_run notion fuel rootPageId folderTitles
           initialCache cache s s' Hrun).
Qed.

Lemma ensureFolderPagesCache_extends_witness :
  let seeded := [("Guides", "folder-guides")] in
  let cache := [("Guides", "folder-guides"); ("Api", "new-1")] in
  let s' := with_calls sample_state
              [BlocksList "root" None; PagesCreate "root" "Api" None] in
  ensureFolderPagesCache sample_client 5 "root" ["Guides"; "Api"] seeded sample_state
  = (inl cache, s')
  /\ (forall k v, Map_get k seeded = Some v -> Map_get k cache = Some v)
  /\ (forall k, Map_has k cache = true ->
                Map_has k seeded = true \/ In k ["Guides"; "Api"])
  /\ exists cs,
       s' = with_calls sample_state cs
       /\ Forall (fun c =>
                   (exists cursor, c = BlocksList "root" cursor)
                   \/ (exists t, c = PagesCreate "root" t None
                                 /\ In t ["Guides"; "Api"]
                                 /\ Map_has t seeded = false)) cs.
Proof.
  exact (conj eq_refl
           (ensureFolderPagesCache_extends sample_client 5 "root" ["Guides"; "Api"]
              [("Guides", "folder-guides")]
              [("Guides", "folder-guides"); ("Api", "new-1")]
              sample_state
              (with_calls sample_state
                 [BlocksList "root" None; PagesCreate "root" "Api" None])
              eq_refl)).
Defined.


(** ** More on the per-document sync: what it does to the files *)

Section FilesAfterWrite.

Lemma find_entry_name (name : string) (entries : list dirent) (e : dirent) :
  find_entry name entries = Some e -> entry_name e = name.
Proof.
  induction entries as [|e0 rest IH]; [discriminate|]. cbn [find_entry].
  destruct (String.eqb_spec (entry_name e0) name) as [E|_]; [|exact IH].
  now intros [= <-].
Qed.

Lemma write_file_read (name text : string) (entries entries' : list dirent) :
  write_file name text entries = Some entries' ->
  find_file name entries' = Some text.
Proof.
  unfold find_file. revert entries'.
  induction entries as [|e rest IH]; intros entries'; cbn [write_file].
  - intros [= <-]. cbn [find_entry entry_name]. now rewrite String.eqb_refl.
  - destruct (String.eqb (entry_name e) name) eqn:E.
    + destruct e; try discriminate. intros [= <-].
      cbn [find_entry entry_name]. now rewrite String.eqb_refl.
    + destruct (write_file name text rest) as [rest'|]; [|discriminate].
      cbn [option_map]. intros [= <-]. cbn [find_entry]. rewrite E. now apply IH.
Qed.

Lemma write_file_other (name name' text : string) (entries entries' : list dirent) :
  write_file name text entries = Some entries' -> name' <> name ->
  find_entry name' entries' = find_entry name' entries.
Proof.
  intros Hw Hne. revert entries' Hw.
  induction entries as [|e rest IH]; intros entries'; cbn [write_file].
  - intros [= <-]. cbn [find_entry entry_name].
    destruct (String.eqb_spec name name'); [congruence | reflexivity].
  - destruct (String.eqb_spec (entry_name e) name) as [E|E].
    + destruct e; try discriminate. intros [= <-].
      cbn [find_entry entry_name]. cbn [entry_name] in E. subst name0.
      destruct (String.eqb_spec name name'); [congruence | reflexivity].
    + destruct (write_file name text rest) as [rest'|]; [|discriminate].
      cbn [option_map]. intros [= <-]. cbn [find_entry].
      destruct (String.eqb (entry_name e) name'); [reflexivity|]. now apply IH.
Qed.

Lemma update_dir_read (name : string) (f : list dirent -> option (list dirent))
    (entries entries' : list dirent) :
  update_dir name f entries = Some entries' ->
  exists sub sub', find_dir name entries = Some sub /\ f sub = Some sub'
                   /\ find_dir name entries' = Some sub'.
Proof.
  unfold find_dir. revert entries'.
  induction entries as [|e rest IH]; intros entries'; cbn [update_dir]; [discriminate|].
  destruct (String.eqb (entry_name e) name) eqn:E.
  - destruct e as [| n sub |]; try discriminate.
    destruct (f sub) as [sub'|] eqn:Hf; [|discriminate].
    cbn [option_map]. intros [= <-]. exists sub, sub'.
    cbn [entry_name] in E. cbn [find_entry entry_name].
    rewrite E, String.eqb_refl. auto.
  - destruct (update_dir name f rest) as [rest'|]; [|discriminate].
    cbn [option_map]. intros [= <-]. cbn [find_entry]. rewrite E.
    now apply IH.
Qed.

Lemma update_dir_other (name name' : string) (f : list dirent -> option (list dirent))
    (entries entries' : list dirent) :
  update_dir name f entries = Some entries' -> name' <> name ->
  find_entry name' entries' = find_entry name' entries.
Proof.
  intros Hu Hne. revert entries' Hu.
  induction entries as [|e rest IH]; intros entries'; cbn [update_dir]; [discriminate|].
  destruct (String.eqb_spec (entry_name e) name) as [E|E].
  - destruct e as [| n sub |]; try discriminate.
    destruct (f sub) as [sub'|]; [|discriminate].
    cbn [option_map]. intros [= <-]. cbn [find_entry entry_name].
    cbn [entry_name] in E. subst n.
    destruct (String.eqb_spec name name'); [congruence | reflexivity].
  - destruct (update_dir name f rest) as [rest'|]; [|discriminate].
    cbn [option_map]. intros [= <-]. cbn [find_entry].
    destruct (String.eqb (entry_name e) name'); [reflexivity|]. now apply IH.
Qed.

(** A directory entry is not a file: looking a directory name up as a file
    finds nothing, before and after an update of that directory. *)
Lemma update_dir_file (name : string) (f : list dirent -> option (list dirent))
    (entries entries' : list dirent) :
  update_dir name f entries = Some entries' ->
  find_file name entries' = find_file name entries.
Proof.
  intros Hu. destruct (update_dir_read _ _ _ _ Hu) as (sub & sub' & H1 & _ & H2).
  unfold find_file, find_dir in *.
  destruct (find_entry name entries) as [[]|]; try discriminate.
  destruct (find_entry name entries') as [[]|]; try discriminate. reflexivity.
Qed.

Lemma write_file_dir (name text : string) (entries entries' : list dirent) :
  write_file name text entries = Some entries' ->
  find_dir name entries' = find_dir name entries.
Proof.
  intros Hw. pose proof (write_file_read _ _ _ _ Hw) as H2.
  unfold find_file, find_dir in *.
  destruct (find_entry name entries') as [[]|] eqn:E'; try discriminate.
  clear H2. revert entries' Hw E'.
  induction entries as [|e rest IH]; intros entries'; cbn [write_file find_entry].
  - reflexivity.
  - destruct (String.eqb (entry_name e) name) eqn:E.
    + destruct e; try discriminate. reflexivity.
    + destruct (write_file name text rest) as [rest'|] eqn:Hr; [|discriminate].
      cbn [option_map]. intros [= <-]. cbn [find_entry]. rewrite E.
      intros E'. now apply (IH rest').
Qed.

Lemma read_path_cons (seg seg2 : string) (rest : list string) (entries : list dirent) :
  read_path (seg :: seg2 :: rest) entries
  = match find_dir seg entries with
    | Some sub => read_path (seg2 :: rest) sub
    | None => None
    end.
Proof. reflexivity. Qed.

Lemma write_path_cons (seg seg2 : string) (rest : list string) (text : string)
    (entries : list dirent) :
  write_path (seg :: seg2 :: rest) text entries
  = update_dir seg (write_path (seg2 :: rest) text) entries.
Proof. reflexivity. Qed.

(** What was written is what is read. *)
Lemma read_after_write (segments : list string) (text : string)
    (entries entries' : list dirent) :
  write_path segments text entries = Some entries' ->
  read_path segments entries' = Some text.
Proof.
  revert entries entries'.
  induction segments as [|seg rest IH]; intros entries entries'; [discriminate|].
  destruct rest as [|seg2 rest].
  - cbn [write_path read_path]. apply write_file_read.
  - rewrite write_path_cons, read_path_cons. intros Hu.
    destruct (update_dir_read _ _ _ _ Hu) as (sub & sub' & _ & Hf & ->).
    now apply (IH sub).
Qed.

(** Writing one file leaves every other path as it was. *)
Lemma read_other_after_write (segments other : list string) (text : string)
    (entries entries' : list dirent) :
  write_path segments text entries = Some entries' -> other <> segments ->
  read_path other entries' = read_path other entries.
Proof.
  revert other entries entries'.
  induction segments as [|seg rest IH]; intros other entries entries'; [discriminate|].
  destruct rest as [|seg2 rest].
  - cbn [write_path]. intros Hw Hne.
    destruct other as [|o [|o2 orest]]; [reflexivity| |].
    + cbn [read_path]. unfold find_file.
      rewrite (write_file_other seg o text entries entries' Hw); [reflexivity|].
      intros ->. now apply Hne.
    + rewrite !read_path_cons.
      destruct (String.eqb_spec o seg) as [->|Ho].
      * now rewrite (write_file_dir seg text entries entries' Hw).
      * unfold find_dir. now rewrite (write_file_other seg o text entries entries' Hw).
  - rewrite write_path_cons. intros Hu Hne.
    destruct other as [|o [|o2 orest]]; [reflexivity| |].
    + cbn [read_path]. destruct (String.eqb_spec o seg) as [->|Ho].
      * apply (update_dir_file _ _ _ _ Hu).
      * unfold find_file. now rewrite (update_dir_other _ o _ _ _ Hu Ho).
    + rewrite !read_path_cons. destruct (String.eqb_spec o seg) as [->|Ho].
      * destruct (update_dir_read _ _ _ _ Hu) as (sub & sub' & -> & Hf & ->).
        apply (IH _ sub sub' Hf). intros E. apply Hne. now rewrite E.
      * unfold find_dir. now rewrite (update_dir_other _ o _ _ _ Hu Ho).
Qed.

End FilesAfterWrite.

Lemma bind_fail {A B} (m : M A) (f : A -> M B) (s s' : state) (e : error) :
  m s = (inr e, s') -> bind m f s = (inr e, s').
Proof. intros H. unfold bind. now rewrite H. Qed.

Section SyncOneDocFiles.

Variable notion : NotionClient.
Variable markdownToBlocks : string -> conversion.

Lemma resolveExistingDocPageId_files (fromFrontmatter : option string) (s : state) :
  files (snd (resolveExistingDocPageId notion fromFrontmatter s)) = files s.
Proof.
  unfold resolveExistingDocPageId.
  destruct (String.eqb _ EmptyString); [reflexivity|].
  unfold bind, isValidated.
  destruct (Set_has _ (validatedPageIds s)); [reflexivity|].
  unfold notionRetrievePageIfExists, request.
  destruct (pages_retrieve notion (calls s) _) as [page|e]; [reflexivity|].
  destruct (is_not_found e); reflexivity.
Qed.

Lemma appendChunks_files (pageId : string) (rest : list (list NotionBlock)) (s : state) :
  files (snd (appendChunks notion pageId rest s)) = files s.
Proof.
  destruct (appendChunks_stops notion pageId rest s) as (n & _ & -> & _).
  reflexivity.
Qed.

Lemma createSubpage_files (parentPageId title : string)
    (blockChunks : list (list NotionBlock)) (s : state) :
  files (snd (createSubpage notion parentPageId title blockChunks s)) = files s.
Proof.
  unfold createSubpage, bind.
  pose proof (request_state (PagesCreate parentPageId title (hd_error blockChunks))
                (fun h => pages_create notion h parentPageId title (hd_error blockChunks))
                s) as Hs.
  destruct (request _ _ s) as [[page|e] s1]; cbn [snd] in Hs; subst s1;
    [|reflexivity].
  pose proof (appendChunks_files (id page) (tl blockChunks)
                (with_calls s [PagesCreate parentPageId title (hd_error blockChunks)]))
    as Hf.
  destruct (appendChunks notion (id page) (tl blockChunks) _) as [[[]|e] s2];
    exact Hf.
Qed.

Lemma createSubpage_created (parentPageId title : string)
    (blockChunks : list (list NotionBlock)) (s s' : state) (newPageId : string) :
  createSubpage notion parentPageId title blockChunks s = (inl newPageId, s') ->
  exists page,
    pages_create notion (calls s) parentPageId title (hd_error blockChunks) = inl page
    /\ id page = newPageId.
Proof.
  unfold createSubpage, bind, request.
  destruct (pages_create notion (calls s) parentPageId title (hd_error blockChunks))
    as [page|e]; [|discriminate].
  destruct (appendChunks notion (id page) (tl blockChunks) _) as [[[]|e] s2];
    [|discriminate].
  cbn [ret]. intros [= <- <-]. eauto.
Qed.

(** The end of both branches of [syncOneDoc]: what a page creation followed
    by the write of the identifier does to the files. *)
Lemma create_then_write (parentPageId docTitle path : string)
    (chunks : list (list NotionBlock)) (r : SyncResult)
    (mk : string -> string) (s1 : state) :
  let run := (newPageId <- createSubpage notion parentPageId docTitle chunks ;;
              writeFileSync path (mk newPageId) ;;; ret r) s1 in
  match fst run with
  | inl _ =>
      exists h page,
        pages_create notion h parentPageId docTitle (hd_error chunks) = inl page
        /\ write_path (JS.split_char "/" path) (mk (id page)) (files s1)
           = Some (files (snd run))
  | inr _ => files (snd run) = files s1
  end.
Proof.
  cbv zeta. unfold bind.
  pose proof (createSubpage_files parentPageId docTitle chunks s1) as Hf.
  destruct (createSubpage notion parentPageId docTitle chunks s1)
    as [[newPageId|e] s2] eqn:Hc; cbn [fst snd] in *; [|exact Hf].
  destruct (createSubpage_created _ _ _ _ _ _ Hc) as (page & Hpage & <-).
  unfold writeFileSync. rewrite Hf.
  destruct (write_path (JS.split_char "/" path) (mk (id page)) (files s1))
    as [files'|] eqn:Hw; cbn [fst snd ret files]; [|exact Hf].
  exists (calls s1), page. auto.
Qed.

(** What [syncOneDoc] does to the files: on success the file of the document
    has been written with the decoded body and header and the identifier of
    a page the client created under the resolved parent with the document
    title; on failure nothing was written. *)
Lemma syncOneDoc_files (rootPageId : string) (folderPageCache : StringMap)
    (path : string) (s : state) :
  let run := syncOneDoc notion markdownToBlocks rootPageId folderPageCache path s in
  match fst run with
  | inl _ =>
      exists raw chunks h page,
        read_path (JS.split_char "/" path) (files s) = Some raw
        /\ chunkBlocks (convertMarkdownToNotionBlocks markdownToBlocks
                          (body (parseMdWithNotionId raw)))
                       NOTION_BLOCK_CHUNK_SIZE = Some chunks
        /\ pages_create notion h
             (resolveNotionParentId rootPageId (folderTitle (parseRelPath path))
                folderPageCache)
             (docTitle (parseRelPath path)) (hd_error chunks) = inl page
        /\ write_path (JS.split_char "/" path)
             (stringifyMdWithNotionId (body (parseMdWithNotionId raw))
                (data (parseMdWithNotionId raw)) (id page))
             (files s)
           = Some (files (snd run))
  | inr _ => files (snd run) = files s
  end.
Proof.
  cbv zeta. unfold syncOneDoc.
  destruct (read_path (JS.split_char "/" path) (files s)) as [raw|] eqn:Hread.
  2:{ assert (Hfail : readFileSync path s = (inr (FileFailure path), s))
        by (unfold readFileSync; now rewrite Hread).
      now rewrite (bind_fail _ _ _ _ _ Hfail). }
  assert (Hread' : readFileSync path s = (inl raw, s))
    by (unfold readFileSync; now rewrite Hread).
  rewrite (bind_ok _ _ _ _ _ Hread').
  destruct (chunkBlocks (convertMarkdownToNotionBlocks markdownToBlocks
                           (body (parseMdWithNotionId raw)))
                        NOTION_BLOCK_CHUNK_SIZE) as [chunks|] eqn:Hchunks.
  2:{ reflexivity. }
  cbn [orFail]. rewrite (bind_ok _ _ s s chunks eq_refl).
  pose proof (resolveExistingDocPageId_files
                (notionPageId (parseMdWithNotionId raw)) s) as Hres.
  destruct (resolveExistingDocPageId notion
              (notionPageId (parseMdWithNotionId raw)) s)
    as [[existing|e] s1] eqn:Hr; cbn [snd] in Hres.
  2:{ now rewrite (bind_fail _ _ _ _ _ Hr). }
  rewrite (bind_ok _ _ _ _ _ Hr).
  assert (Hend : forall (r : SyncResult) (s2 : state),
    files s2 = files s ->
    let run := (newPageId <- createSubpage notion
                   (resolveNotionParentId rootPageId (folderTitle (parseRelPath path))
                      folderPageCache)
                   (docTitle (parseRelPath path)) chunks ;;
                writeFileSync path
                  (stringifyMdWithNotionId (body (parseMdWithNotionId raw))
                     (data (parseMdWithNotionId raw)) newPageId) ;;; ret r) s2 in
    match fst run with
    | inl _ =>
        exists h page,
          pages_create notion h
            (resolveNotionParentId rootPageId (folderTitle (parseRelPath path))
               folderPageCache)
            (docTitle (parseRelPath path)) (hd_error chunks) = inl page
          /\ write_path (JS.split_char "/" path)
               (stringifyMdWithNotionId (body (parseMdWithNotionId raw))
                  (data (parseMdWithNotionId raw)) (id page))
               (files s)
             = Some (files (snd run))
    | inr _ => files (snd run) = files s
    end).
  { intros r s2 Hs2. cbv zeta.
    pose proof (create_then_write
                  (resolveNotionParentId rootPageId (folderTitle (parseRelPath path))
                     folderPageCache)
                  (docTitle (parseRelPath path)) path chunks r
                  (fun newPageId =>
                     stringifyMdWithNotionId (body (parseMdWithNotionId raw))
                       (data (parseMdWithNotionId raw)) newPageId) s2) as H.
    cbv zeta in H.
    destruct (fst _).
    - destruct H as (h & page & Hpage & Hw). rewrite Hs2 in Hw. eauto.
    - now rewrite H. }
  assert (Hfinish : forall (r : SyncResult) (s2 : state),
    files s2 = files s ->
    let run := (newPageId <- createSubpage notion
                   (resolveNotionParentId rootPageId (folderTitle (parseRelPath path))
                      folderPageCache)
                   (docTitle (parseRelPath path)) chunks ;;
                writeFileSync path
                  (stringifyMdWithNotionId (body (parseMdWithNotionId raw))
                     (data (parseMdWithNotionId raw)) newPageId) ;;; ret r) s2 in
    match fst run with
    | inl _ =>
        exists raw0 chunks0 h page,
          Some raw = Some raw0
          /\ chunkBlocks (convertMarkdownToNotionBlocks markdownToBlocks
                            (body (parseMdWithNotionId raw0)))
                         NOTION_BLOCK_CHUNK_SIZE = Some chunks0
          /\ pages_create notion h
               (resolveNotionParentId rootPageId (folderTitle (parseRelPath path))
                  folderPageCache)
               (docTitle (parseRelPath path)) (hd_error chunks0) = inl page
          /\ write_path (JS.split_char "/" path)
               (stringifyMdWithNotionId (body (parseMdWithNotionId raw0))
                  (data (parseMdWithNotionId raw0)) (id page))
               (files s)
             = Some (files (snd run))
    | inr _ => files (snd run) = files s
    end).
  { intros r s2 Hs2. specialize (Hend r s2 Hs2). cbv zeta in *.
    destruct (fst _); [|exact Hend].
    destruct Hend as (h & page & Hpage & Hw).
    exists raw, chunks, h, page. auto. }
  destruct existing as [existing|].
  - unfold sendPageToTrash.
    pose proof (request_state (PagesTrash existing)
                  (fun h => pages_update_trash notion h existing) s1) as Ht.
    destruct (request (PagesTrash existing)
                (fun h => pages_update_trash notion h existing) s1)
      as [[[]|e] s2] eqn:Hreq; cbn [snd] in Ht; subst s2.
    + rewrite (bind_ok _ _ _ _ _ Hreq). apply Hfinish. exact Hres.
    + rewrite (bind_fail _ _ _ _ _ Hreq). exact Hres.
  - apply Hfinish. exact Hres.
Qed.

End SyncOneDocFiles.

(** X12. A failed sync of a document has written nothing: whenever
    [syncOneDoc] fails, the files are the ones it started from; and when the
    file of the document cannot be read it fails at once, with no call to
    the client. *)
Theorem syncOneDoc_failure_writes_nothing
    (notion : NotionClient) (markdownToBlocks : string -> conversion)
    (rootPageId : string) (folderPageCache : StringMap) (path : string) (s : state) :
  let run := syncOneDoc notion markdownToBlocks rootPageId folderPageCache path s in
  (forall e, fst run = inr e -> files (snd run) = files s)
  /\ (read_path (JS.split_char "/" path) (files s) = None ->
      run = (inr (FileFailure path), s)).
Proof.
  cbv zeta. split.
  - intros e He.
    pose proof (syncOneDoc_files notion markdownToBlocks rootPageId folderPageCache
                  path s) as H.
    cbv zeta in H. rewrite He in H. exact H.
  - intros Hread. unfold syncOneDoc.
    apply bind_fail. unfold readFileSync. now rewrite Hread.
Qed.

(** X13. A successful sync of a document rewrites the file of that document
    and no other: the file then holds the encoding of the body and header
    decoded from the old text with the identifier of the page the client
    created for it, every other path reads as before, and, when that
    identifier is a good value without white space at either end, decoding
    the new text gives the old body and that identifier. *)
Theorem syncOneDoc_persists_identifier
    (notion : NotionClient) (markdownToBlocks : string -> conversion)
    (rootPageId : string) (folderPageCache : StringMap) (path : string) (s : state)
    (r : SyncResult) :
  let run := syncOneDoc notion markdownToBlocks rootPageId folderPageCache path s in
  fst run = inl r ->
  exists raw chunks h page,
    read_path (JS.split_char "/" path) (files s) = Some raw
    /\ pages_create notion h
         (resolveNotionParentId rootPageId (folderTitle (parseRelPath path))
            folderPageCache)
         (docTitle (parseRelPath path)) (hd_error chunks) = inl page
    /\ let parsed := parseMdWithNotionId raw in
       let text := stringifyMdWithNotionId (body parsed) (data parsed) (id page) in
       read_path (JS.split_char "/" path) (files (snd run)) = Some text
       /\ (forall other, other <> JS.split_char "/" path ->
             read_path other (files (snd run)) = read_path other (files s))
       /\ (value_ok (id page) = true -> JS.trim (id page) = id page ->
           body (parseMdWithNotionId text) = body parsed
           /\ notionPageId (parseMdWithNotionId text) = Some (id page)).
Proof.
  cbv zeta. intros Hok.
  pose proof (syncOneDoc_files notion markdownToBlocks rootPageId folderPageCache
                path s) as H.
  cbv zeta in H. rewrite Hok in H.
  destruct H as (raw & chunks & h & page & Hread & _ & Hpage & Hwrite).
  exists raw, chunks, h, page. split; [exact Hread|]. split; [exact Hpage|].
  split; [exact (read_after_write _ _ _ _ Hwrite)|]. split.
  - intros other Hne. exact (read_other_after_write _ _ _ _ _ Hwrite Hne).
  - intros Hid Htrim.
    assert (Hwf : NoDup (map fst (data (parseMdWithNotionId raw)))
                  /\ Forall (fun e => key_ok (fst e) = true
                                      /\ all_chars Regex.dot (snd e) = true)
                            (data (parseMdWithNotionId raw))).
    { destruct (parseMdWithNotionId_data raw) as [-> | [block ->]].
      - split; constructor.
      - apply parseFrontmatterBlock_well_formed. }
    destruct Hwf as [Hnd Hall].
    exact (stringify_then_parse _ _ (id page) Hnd Hall Hid Htrim).
Qed.

Lemma syncOneDoc_persists_identifier_witness :
  let run := syncOneDoc sample_client sample_converter "root" [] "intro.md"
               sample_state in
  let r := {| action := created; title := "Intro"; relPath := "intro.md";
              parent_label := "(root)" |} in
  fst run = inl r
  /\ exists raw chunks h page,
       read_path (JS.split_char "/" "intro.md") (files sample_state) = Some raw
       /\ pages_create sample_client h
            (resolveNotionParentId "root" (folderTitle (parseRelPath "intro.md")) [])
            (docTitle (parseRelPath "intro.md")) (hd_error chunks) = inl page
       /\ let parsed := parseMdWithNotionId raw in
          let text := stringifyMdWithNotionId (body parsed) (data parsed) (id page) in
          read_path (JS.split_char "/" "intro.md") (files (snd run)) = Some text
          /\ (forall other, other <> JS.split_char "/" "intro.md" ->
                read_path other (files (snd run)) = read_path other (files sample_state))
          /\ (value_ok (id page) = true -> JS.trim (id page) = id page ->
              body (parseMdWithNotionId text) = body parsed
              /\ notionPageId (parseMdWithNotionId text) = Some (id page)).
Proof.
  cbv zeta.
  assert (H : fst (syncOneDoc sample_client sample_converter "root" [] "intro.md"
                     sample_state)
              = inl {| action := created; title := "Intro"; relPath := "intro.md";
                       parent_label := "(root)" |})
    by (vm_compute; reflexivity).
  exact (conj H (syncOneDoc_persists_identifier sample_client sample_converter
                   "root" [] "intro.md" sample_state _ H)).
Defined.

(** X14. Replacing the page of a document is done in two steps that can
    fail apart.  For a document whose identifier is already validated: when
    the client rejects the trashing of the old page, that call is the only
    one made and no page is created; when it accepts the trashing and
    rejects the creation, the old page has been trashed, no new page exists,
    and in both cases the error is thrown and the file still holds the old
    identifier. *)
Theorem syncOneDoc_update_rejections
    (notion : NotionClient) (markdownToBlocks : string -> conversion)
    (rootPageId : string) (folderPageCache : StringMap)
    (path raw pageId : string) (s : state) :
  read_path (JS.split_char "/" path) (files s) = Some raw ->
  notionPageId (parseMdWithNotionId raw) = Some pageId ->
  Set_has pageId (validatedPageIds s) = true ->
  let run := syncOneDoc notion markdownToBlocks rootPageId folderPageCache path s in
  let parentPageId :=
    resolveNotionParentId rootPageId (folderTitle (parseRelPath path))
      folderPageCache in
  exists chunks,
    chunkBlocks (convertMarkdownToNotionBlocks markdownToBlocks
                   (body (parseMdWithNotionId raw)))
                NOTION_BLOCK_CHUNK_SIZE = Some chunks
    /\ match pages_update_trash notion (calls s) pageId with
       | inr e => run = (inr (NotionFailure e), with_calls s [PagesTrash pageId])
       | inl _ =>
           forall e,
             pages_create notion (calls s ++ [PagesTrash pageId]) parentPageId
               (docTitle (parseRelPath path)) (hd_error chunks) = inr e ->
             run = (inr (NotionFailure e),
                    with_calls s [PagesTrash pageId;
                                  PagesCreate parentPageId (docTitle (parseRelPath path))
                                    (hd_error chunks)])
       end.
Proof.
  intros Hread Hid Hknown. cbv zeta.
  destruct (chunkBlocks_partition
              (convertMarkdownToNotionBlocks markdownToBlocks
                 (body (parseMdWithNotionId raw))) NOTION_BLOCK_CHUNK_SIZE)
    as (chunks & Hchunks & _); [unfold NOTION_BLOCK_CHUNK_SIZE; lia|].
  exists chunks. split; [exact Hchunks|].
  assert (Hread' : readFileSync path s = (inl raw, s))
    by (unfold readFileSync; now rewrite Hread).
  assert (Hchunks' :
    orFail (chunkBlocks (convertMarkdownToNotionBlocks markdownToBlocks
                           (body (parseMdWithNotionId raw)))
                        NOTION_BLOCK_CHUNK_SIZE) s = (inl chunks, s))
    by (now rewrite Hchunks).
  pose proof (resolveExistingDocPageId_cases notion raw pageId s Hid) as Hres.
  rewrite Hknown in Hres.
  unfold syncOneDoc.
  rewrite (bind_ok _ _ _ _ _ Hread'), (bind_ok _ _ _ _ _ Hchunks'), Hid.
  rewrite (bind_ok _ _ _ _ _ Hres). unfold sendPageToTrash.
  destruct (pages_update_trash notion (calls s) pageId) as [[]|e] eqn:Htrash.
  - intros e Hcreate.
    rewrite (bind_ok _ _ _ _ _ (request_ok _ _ s tt Htrash)).
    apply bind_fail. unfold createSubpage. 
    rewrite (bind_fail _ _ _ _ _
               (request_rejected _ _ (with_calls s [PagesTrash pageId]) e Hcreate)).
    now rewrite with_calls_app.
  - apply bind_fail. now apply request_rejected.
Qed.

Lemma syncOneDoc_update_rejections_witness :
  let s := {| calls := []; files := sample_docs; validatedPageIds := ["known-1"] |} in
  let raw := "---" +++ String Regex.LF ("notion_page_id: known-1" +++ String Regex.LF
               ("---" +++ String Regex.LF "# Setup")) in
  read_path (JS.split_char "/" "guides/setup.md") (files s) = Some raw
  /\ notionPageId (parseMdWithNotionId raw) = Some "known-1"
  /\ Set_has "known-1" (validatedPageIds s) = true
  /\ exists chunks,
       chunkBlocks (convertMarkdownToNotionBlocks sample_converter
                      (body (parseMdWithNotionId raw)))
                   NOTION_BLOCK_CHUNK_SIZE = Some chunks
       /\ match pages_update_trash read_only_client (calls s) "known-1" with
          | inr e =>
              syncOneDoc read_only_client sample_converter "root" [] "guides/setup.md" s
              = (inr (NotionFailure e), with_calls s [PagesTrash "known-1"])
          | inl _ =>
              forall e,
                pages_create read_only_client (calls s ++ [PagesTrash "known-1"])
                  (resolveNotionParentId "root"
                     (folderTitle (parseRelPath "guides/setup.md")) [])
                  (docTitle (parseRelPath "guides/setup.md")) (hd_error chunks) = inr e ->
                syncOneDoc read_only_client sample_converter "root" [] "guides/setup.md" s
                = (inr (NotionFailure e),
                   with_calls s
                     [PagesTrash "known-1";
                      PagesCreate
                        (resolveNotionParentId "root"
                           (folderTitle (parseRelPath "guides/setup.md")) [])
                        (docTitle (parseRelPath "guides/setup.md")) (hd_error chunks)])
          end.
Proof.
  cbv zeta.
  assert (H1 : read_path (JS.split_char "/" "guides/setup.md") sample_docs
               = Some ("---" +++ String Regex.LF ("notion_page_id: known-1" +++ String Regex.LF
                        ("---" +++ String Regex.LF "# Setup"))))
    by (vm_compute; reflexivity).
  assert (H2 : notionPageId (parseMdWithNotionId
                  ("---" +++ String Regex.LF ("notion_page_id: known-1" +++ String Regex.LF
                        ("---" +++ String Regex.LF "# Setup")))) = Some "known-1")
    by (vm_compute; reflexivity).
  exact (conj H1 (conj H2 (conj eq_refl
           (syncOneDoc_update_rejections read_only_client sample_converter "root" []
              "guides/setup.md" _ "known-1"
              {| calls := []; files := sample_docs; validatedPageIds := ["known-1"] |}
              H1 H2 eq_refl)))).
Defined.

(** ** Folders of a run: titles, pre-pass and parents *)

Section FolderTitles.

Lemma getUniqueFolderTitles_spec (relPaths : list string) :
  NoDup (getUniqueFolderTitles relPaths)
  /\ forall t, In t (getUniqueFolderTitles relPaths) <->
       exists relPath, In relPath relPaths
                       /\ folderTitle (parseRelPath relPath) = Some t.
Proof.
  unfold getUniqueFolderTitles.
  assert (Hgen : forall set,
    NoDup set ->
    let r := fold_left (fun set relPath =>
                          match folderTitle (parseRelPath relPath) with
                          | Some t => Set_add t set
                          | None => set
                          end) relPaths set in
    NoDup r
    /\ forall t, In t r <->
         In t set \/ exists relPath, In relPath relPaths
                                     /\ folderTitle (parseRelPath relPath) = Some t).
  { induction relPaths as [|p rest IH]; intros set Hnd; cbn [fold_left].
    - split; [exact Hnd|]. intros t. split; [auto|]. intros [H|(p & [] & _)]. exact H.
    - destruct (folderTitle (parseRelPath p)) as [t0|] eqn:E.
      + destruct (Set_add_spec t0 set Hnd) as [Hnd' Hin'].
        destruct (IH _ Hnd') as [Hr Hin]. split; [exact Hr|].
        intros t. rewrite Hin, Hin'. split.
        * intros [[->|H]|(p' & Hp' & Ht)]; [right; exists p; split; [now left | exact E]
                                          | now left
                                          | right; exists p'; split; [now right | exact Ht]].
        * intros [H|(p' & [<-|Hp'] & Ht)].
          -- left. now right.
          -- left. left. congruence.
          -- right. eauto.
      + destruct (IH _ Hnd) as [Hr Hin]. split; [exact Hr|].
        intros t. rewrite Hin. split.
        * intros [H|(p' & Hp' & Ht)]; [now left | right; exists p'; split; [now right | exact Ht]].
        * intros [H|(p' & [<-|Hp'] & Ht)]; [now left | congruence | right; eauto]. }
  destruct (Hgen [] (NoDup_nil _)) as [Hnd Hin]. split; [exact Hnd|].
  intros t. rewrite Hin. split; [intros [[]|H]; exact H | auto].
Qed.

End FolderTitles.

(** X15. Every nested document of a run gets a folder page as parent: when
    [ensureFolderPagesCache] returns for the folder titles of the documents,
    the cache has an entry for the folder title of every document that lies
    in a folder, the parent resolved for that document is that entry and
    not a silent fall-back to the root page, and a document at the root of
    the docs directory has the root page as parent.  The folder titles are
    collected without duplicates. *)
Theorem nested_documents_get_folder_parent
    (notion : NotionClient) (fuel : nat) (rootPageId : string)
    (mdFiles : list string) (initialCache cache : StringMap) (s s' : state) :
  ensureFolderPagesCache notion fuel rootPageId (getUniqueFolderTitles mdFiles)
    initialCache s = (inl cache, s') ->
  NoDup (getUniqueFolderTitles mdFiles)
  /\ forall relPath, In relPath mdFiles ->
       match folderTitle (parseRelPath relPath) with
       | Some t =>
           exists pageId,
             Map_get t cache = Some pageId
             /\ resolveNotionParentId rootPageId (Some t) cache = pageId
       | None =>
           resolveNotionParentId rootPageId (folderTitle (parseRelPath relPath)) cache
           = rootPageId
       end.
Proof.
  intros Hrun. destruct (getUniqueFolderTitles_spec mdFiles) as [Hnd Hin].
  split; [exact Hnd|]. intros relPath Hp.
  destruct (folderTitle (parseRelPath relPath)) as [t|] eqn:E; [|reflexivity].
  destruct (ensureFolderPagesCache_complete notion fuel rootPageId _ _ _ _ _ Hrun)
    as [Hall _].
  assert (Ht : In t (getUniqueFolderTitles mdFiles)) by (apply Hin; eauto).
  specialize (Hall t Ht). unfold Map_has in Hall. unfold resolveNotionParentId.
  destruct (Map_get t cache) as [pageId|]; [|discriminate]. eauto.
Qed.

Lemma nested_documents_get_folder_parent_witness :
  let mdFiles := ["guides/setup.md"; "guides/stale.md"; "intro.md"] in
  let cache := [("Guides", "folder-guides")] in
  let s' := with_calls sample_state [BlocksList "root" None] in
  ensureFolderPagesCache sample_client 5 "root" (getUniqueFolderTitles mdFiles)
    [] sample_state = (inl cache, s')
  /\ NoDup (getUniqueFolderTitles mdFiles)
  /\ forall relPath, In relPath mdFiles ->
       match folderTitle (parseRelPath relPath) with
       | Some t =>
           exists pageId,
             Map_get t cache = Some pageId
             /\ resolveNotionParentId "root" (Some t) cache = pageId
       | None =>
           resolveNotionParentId "root" (folderTitle (parseRelPath relPath)) cache
           = "root"
       end.
Proof.
  cbv zeta.
  assert (H : ensureFolderPagesCache sample_client 5 "root"
                (getUniqueFolderTitles ["guides/setup.md"; "guides/stale.md"; "intro.md"])
                [] sample_state
              = (inl [("Guides", "folder-guides")],
                 with_calls sample_state [BlocksList "root" None]))
    by (vm_compute; reflexivity).
  exact (conj H (nested_documents_get_folder_parent sample_client 5 "root"
                   ["guides/setup.md"; "guides/stale.md"; "intro.md"] []
                   [("Guides", "folder-guides")] sample_state
                   (with_calls sample_state [BlocksList "root" None]) H)).
Defined.

(** X16. What the pre-pass does for a document that was synced before.
    When the file of a nested document records an identifier, the client
    still has that page and the page has a non-empty parent page, the
    pre-pass task retrieves the page once, writes nothing, marks the
    identifier as validated and sets the entry of the folder title in the
    shared map to that parent: an entry an earlier task made for the title
    is replaced, the entries of the other titles stay.  The per-document
    sync then resolves the validated identifier without asking the
    client. *)
Theorem prePassTask_validates_and_records_parent
    (notion : NotionClient)
    (path raw pageId t parentId : string) (page : Page)
    (initialFolderCache : StringMap) (s : state) :
  read_path (JS.split_char "/" path) (files s) = Some raw ->
  notionPageId (parseMdWithNotionId raw) = Some pageId ->
  pages_retrieve notion (calls s) pageId = inl page ->
  folderTitle (parseRelPath path) = Some t ->
  parent page = {| parent_type := Some "page_id";
                   parent_page_id := Some parentId |} ->
  parentId <> EmptyString ->
  let s1 := {| calls := calls s ++ [PagesRetrieve pageId]; files := files s;
               validatedPageIds := Set_add pageId (validatedPageIds s) |} in
  (exists cache,
     prePassTask notion path initialFolderCache s = (inl cache, s1)
     /\ Map_get t cache = Some parentId
     /\ (forall t', t' <> t -> Map_get t' cache = Map_get t' initialFolderCache))
  /\ Set_has pageId (validatedPageIds s1) = true
  /\ resolveExistingDocPageId notion (Some pageId) s1 = (inl (Some pageId), s1).
Proof.
  intros Hread Hid Hpage Ht Hpar Hne. cbv zeta.
  assert (Hparent : getParentPageId page = Some parentId)
    by (unfold getParentPageId; now rewrite Hpar).
  assert (Hhas : Set_has pageId (Set_add pageId (validatedPageIds s)) = true).
  { apply Set_has_In. unfold Set_add.
    destruct (Set_has pageId (validatedPageIds s)) eqn:E.
    - now apply Set_has_In.
    - apply in_or_app. right. now left. }
  split; [|split].
  - exists (Map_set t parentId initialFolderCache). split; [|split].
    + unfold prePassTask.
      assert (Hread' : readFileSync path s = (inl raw, s))
        by (unfold readFileSync; now rewrite Hread).
      rewrite (bind_ok _ _ _ _ _ Hread'), Hid.
      assert (Hret : notionRetrievePageIfExists notion pageId s
                     = (inl (Some page), with_calls s [PagesRetrieve pageId])).
      { unfold notionRetrievePageIfExists.
        now rewrite (request_ok _ _ s page Hpage). }
      rewrite (bind_ok _ _ _ _ _ Hret). unfold bind, validate.
      cbn [with_calls calls files validatedPageIds].
      rewrite Ht, Hparent.
      destruct (String.eqb_spec parentId EmptyString); [contradiction | reflexivity].
    + unfold Map_get, Map_set. apply obj_get_define.
    + intros t' Hne'. unfold Map_get, Map_set. now apply obj_get_define_other.
  - exact Hhas.
  - pose proof (resolveExistingDocPageId_cases notion raw pageId
                  {| calls := calls s ++ [PagesRetrieve pageId]; files := files s;
                     validatedPageIds := Set_add pageId (validatedPageIds s) |} Hid)
      as Hres.
    cbn [validatedPageIds] in Hres.
    now rewrite Hhas in Hres.
Qed.

(** The task of ["guides/setup.md"] on a map in which an earlier task has
    set the folder to another parent. *)
Lemma prePassTask_validates_and_records_parent_witness :
  let raw := "---" +++ String Regex.LF ("notion_page_id: known-1" +++ String Regex.LF
               ("---" +++ String Regex.LF "# Setup")) in
  let page := sample_page "known-1" "folder-guides" in
  let earlier := [("Guides", "folder-old"); ("Api", "folder-api")] in
  let s1 := {| calls := calls sample_state ++ [PagesRetrieve "known-1"];
               files := files sample_state;
               validatedPageIds := Set_add "known-1" (validatedPageIds sample_state) |} in
  read_path (JS.split_char "/" "guides/setup.md") (files sample_state) = Some raw
  /\ notionPageId (parseMdWithNotionId raw) = Some "known-1"
  /\ pages_retrieve sample_client (calls sample_state) "known-1" = inl page
  /\ folderTitle (parseRelPath "guides/setup.md") = Some "Guides"
  /\ parent page = {| parent_type := Some "page_id";
                      parent_page_id := Some "folder-guides" |}
  /\ (exists cache,
        prePassTask sample_client "guides/setup.md" earlier sample_state
        = (inl cache, s1)
        /\ Map_get "Guides" cache = Some "folder-guides"
        /\ (forall t', t' <> "Guides" -> Map_get t' cache = Map_get t' earlier))
  /\ Set_has "known-1" (validatedPageIds s1) = true
  /\ resolveExistingDocPageId sample_client (Some "known-1") s1
     = (inl (Some "known-1"), s1).
Proof.
  cbv zeta.
  assert (H1 : read_path (JS.split_char "/" "guides/setup.md") (files sample_state)
               = Some ("---" +++ String Regex.LF ("notion_page_id: known-1" +++ String Regex.LF
                        ("---" +++ String Regex.LF "# Setup"))))
    by (vm_compute; reflexivity).
  assert (H2 : notionPageId (parseMdWithNotionId
                  ("---" +++ String Regex.LF ("notion_page_id: known-1" +++ String Regex.LF
                        ("---" +++ String Regex.LF "# Setup")))) = Some "known-1")
    by (vm_compute; reflexivity).
  assert (H4 : folderTitle (parseRelPath "guides/setup.md") = Some "Guides")
    by (vm_compute; reflexivity).
  assert (H6 : "folder-guides" <> EmptyString) by discriminate.
  exact (conj H1 (conj H2 (conj eq_refl (conj H4 (conj eq_refl
           (prePassTask_validates_and_records_parent sample_client "guides/setup.md" _
              "known-1" "Guides" "folder-guides"
              (sample_page "known-1" "folder-guides")
              [("Guides", "folder-old"); ("Api", "folder-api")] sample_state
              H1 H2 eq_refl H4 eq_refl H6)))))).
Defined.

(** ** File collection *)

(** Induction over directory entries, through the lists that nest them. *)
Section DirentInduction.

Variable P : dirent -> Prop.
Hypothesis HFile : forall name text, P (RegularFile name text).
Hypothesis HDir : forall name sub, Forall P sub -> P (Directory name sub).
Hypothesis HOther : forall name, P (OtherEntry name).

Fixpoint dirent_nested_ind (e : dirent) : P e :=
  match e with
  | RegularFile name text => HFile name text
  | Directory name sub =>
      HDir name sub
        ((fix entries_ind (l : list dirent) : Forall P l :=
            match l with
            | [] => Forall_nil _
            | e' :: l' => Forall_cons e' (dirent_nested_ind e') (entries_ind l')
            end) sub)
  | OtherEntry name => HOther name
  end.

End DirentInduction.

Section SortFacts.

Lemma insert_sorted_sorted (x : string) (l : list string) :
  sorted_strings l -> sorted_strings (insert_sorted x l).
Proof.
  unfold sorted_strings. induction l as [|y l IH]; intros Hs; cbn [insert_sorted].
  - repeat constructor.
  - destruct (String.leb x y) eqn:E.
    + constructor; [exact Hs|]. constructor. exact E.
    + inversion Hs as [|? ? Hs' Hhd]; subst.
      constructor; [now apply IH|].
      assert (Hyx : String.leb y x = true)
        by (destruct (String.leb_total x y); congruence).
      destruct l as [|z l]; cbn [insert_sorted].
      * constructor. exact Hyx.
      * destruct (String.leb x z); constructor; [exact Hyx|].
        now inversion Hhd.
Qed.

Lemma sort_strings_sorted (l : list string) : sorted_strings (sort_strings l).
Proof.
  induction l as [|x l IH]; cbn [sort_strings fold_right].
  - constructor.
  - now apply insert_sorted_sorted.
Qed.

Lemma sort_strings_In (l : list string) (x : string) :
  In x (sort_strings l) <-> In x l.
Proof.
  split; apply Permutation_in;
    [apply sort_strings_perm | apply Permutation_sym, sort_strings_perm].
Qed.

Lemma sort_strings_NoDup (l : list string) : NoDup l -> NoDup (sort_strings l).
Proof.
  apply Permutation_NoDup, Permutation_sym, sort_strings_perm.
Qed.

End SortFacts.

Section PlainNames.

Lemma plain_no_slash (n : string) : all_chars plain_char n = true -> no_slash n = true.
Proof.
  induction n as [|c n IH]; [reflexivity|]. cbn [all_chars no_slash].
  intros H. apply andb_true_iff in H as [Hc Hn].
  unfold plain_char in Hc. apply andb_true_iff in Hc as [Hc _].
  now rewrite Hc, (IH Hn).
Qed.

Lemma plain_no_backslash (n : string) :
  all_chars plain_char n = true -> JS.backslashes_to_slashes n = n.
Proof.
  unfold JS.backslashes_to_slashes.
  induction n as [|c n IH]; [reflexivity|]. cbn [all_chars JS.map_chars].
  intros H. apply andb_true_iff in H as [Hc Hn].
  unfold plain_char in Hc. apply andb_true_iff in Hc as [_ Hc].
  apply negb_true_iff in Hc. now rewrite Hc, (IH Hn).
Qed.

Lemma rel_no_backslash (r : string) :
  all_chars rel_char r = true -> JS.backslashes_to_slashes r = r.
Proof.
  unfold JS.backslashes_to_slashes.
  induction r as [|c r IH]; [reflexivity|]. cbn [all_chars JS.map_chars].
  intros H. apply andb_true_iff in H as [Hc Hr].
  unfold rel_char in Hc. apply negb_true_iff in Hc. now rewrite Hc, (IH Hr).
Qed.

Lemma plain_rel (n : string) :
  all_chars plain_char n = true -> all_chars rel_char n = true.
Proof.
  apply all_chars_impl. intros c Hc. unfold plain_char in Hc.
  now apply andb_true_iff in Hc as [_ Hc].
Qed.

Lemma join_rel_rel (rel name : string) :
  all_chars rel_char rel = true -> all_chars rel_char name = true ->
  all_chars rel_char (join_rel rel name) = true.
Proof.
  intros Hr Hn. unfold join_rel. destruct (String.eqb rel EmptyString); [exact Hn|].
  rewrite !all_chars_append, Hr, Hn. reflexivity.
Qed.

Lemma join_rel_assoc (rel name q : string) :
  name <> EmptyString ->
  join_rel (join_rel rel name) q = join_rel rel (name +++ String "/" q).
Proof.
  intros Hne. unfold join_rel.
  destruct (String.eqb_spec rel EmptyString) as [->|Hrel].
  - destruct (String.eqb_spec name EmptyString); [contradiction | reflexivity].
  - destruct (String.eqb_spec (rel +++ "/" +++ name) EmptyString) as [E|_].
    + destruct rel; [contradiction | discriminate].
    + rewrite !append_assoc. reflexivity.
Qed.

Lemma plain_name_parts (n : string) :
  plain_name n = true -> n <> EmptyString /\ all_chars plain_char n = true.
Proof.
  unfold plain_name. intros H. apply andb_true_iff in H as [Hne Hall].
  split; [|exact Hall]. intros ->. discriminate.
Qed.

End PlainNames.

Section ReadingEntries.

Lemma existsb_eqb_In (x : string) (l : list string) :
  existsb (String.eqb x) l = true <-> In x l.
Proof.
  rewrite existsb_exists. split.
  - intros (y & Hy & E). apply String.eqb_eq in E. now subst.
  - intros H. exists x. split; [exact H | apply String.eqb_refl].
Qed.

Lemma find_entry_In (name : string) (entries : list dirent) (e : dirent) :
  find_entry name entries = Some e -> In e entries /\ entry_name e = name.
Proof.
  induction entries as [|e0 rest IH]; [discriminate|]. cbn [find_entry].
  destruct (String.eqb_spec (entry_name e0) name) as [E|_].
  - intros [= <-]. split; [now left | exact E].
  - intros H. destruct (IH H). split; [now right | assumption].
Qed.

Lemma find_entry_distinct (entries : list dirent) (e : dirent) :
  distinct (map entry_name entries) = true -> In e entries ->
  find_entry (entry_name e) entries = Some e.
Proof.
  induction entries as [|e0 rest IH]; [contradiction|].
  cbn [map distinct find_entry]. intros Hd Hin.
  apply andb_true_iff in Hd as [Hfresh Hd].
  destruct Hin as [->|Hin]; [now rewrite String.eqb_refl|].
  destruct (String.eqb_spec (entry_name e0) (entry_name e)) as [E|_]; [|now apply IH].
  exfalso. apply negb_true_iff in Hfresh.
  assert (Hex : existsb (String.eqb (entry_name e0)) (map entry_name rest) = true).
  { apply existsb_eqb_In. rewrite E. now apply in_map. }
  congruence.
Qed.

Lemma find_entry_single (name : string) (e : dirent) :
  find_entry name [e] = if String.eqb (entry_name e) name then Some e else None.
Proof. reflexivity. Qed.

(** A path that can be read starts at some entry of the directory. *)
Lemma read_path_first (segments : list string) (entries : list dirent) (text : string) :
  read_path segments entries = Some text ->
  exists e, In e entries /\ read_path segments [e] = Some text.
Proof.
  destruct segments as [|n [|s2 rest]]; [discriminate| |].
  - cbn [read_path]. unfold find_file.
    destruct (find_entry n entries) as [e|] eqn:E; [|discriminate].
    destruct (find_entry_In _ _ _ E) as [Hin Hname]. intros H.
    exists e. split; [exact Hin|].
    now rewrite find_entry_single, Hname, String.eqb_refl.
  - rewrite read_path_cons. unfold find_dir.
    destruct (find_entry n entries) as [e|] eqn:E; [|discriminate].
    destruct (find_entry_In _ _ _ E) as [Hin Hname]. intros H.
    exists e. split; [exact Hin|].
    rewrite read_path_cons. unfold find_dir.
    now rewrite find_entry_single, Hname, String.eqb_refl.
Qed.

(** In a directory without two entries of one name, a path read from an
    entry is read from the directory. *)
Lemma read_path_member (segments : list string) (entries : list dirent) (e : dirent)
    (text : string) :
  distinct (map entry_name entries) = true -> In e entries ->
  read_path segments [e] = Some text ->
  read_path segments entries = Some text.
Proof.
  intros Hd Hin.
  destruct segments as [|n [|s2 rest]]; [discriminate| |].
  - cbn [read_path]. unfold find_file. rewrite find_entry_single.
    destruct (String.eqb_spec (entry_name e) n) as [<-|_]; [|discriminate].
    now rewrite (find_entry_distinct _ _ Hd Hin).
  - rewrite !read_path_cons. unfold find_dir. rewrite find_entry_single.
    destruct (String.eqb_spec (entry_name e) n) as [<-|_]; [|discriminate].
    now rewrite (find_entry_distinct _ _ Hd Hin).
Qed.

Lemma concat_slash_cons (n : string) (segs : list string) :
  segs <> [] ->
  String.concat "/" (n :: segs) = n +++ String "/" (String.concat "/" segs).
Proof. destruct segs; [congruence | reflexivity]. Qed.

Lemma last_cons_nonempty {A} (x d : A) (l : list A) :
  l <> [] -> List.last (x :: l) d = List.last l d.
Proof. destruct l; [congruence | reflexivity]. Qed.

Lemma in_flat_map_iff {X Y} (f : X -> list Y) (l : list X) (y : Y) :
  In y (flat_map f l) <-> exists x, In x l /\ In y (f x).
Proof. apply in_flat_map. Qed.

End ReadingEntries.

Section Collection.

(** What one entry contributes: the paths, below [rel], of the files under
    that entry whose name ends in [.md] in any letter case. *)
Lemma collectEntry_spec (entry : dirent) :
  entry_ok entry = true ->
  forall rel p,
    all_chars rel_char rel = true ->
    (In p (collectEntry rel entry) <->
     exists segments text,
       p = join_rel rel (String.concat "/" segments)
       /\ read_path segments [entry] = Some text
       /\ JS.endsWith (JS.toLowerCase (List.last segments EmptyString)) ".md" = true).
Proof.
  apply (dirent_nested_ind
    (fun e => entry_ok e = true ->
      forall rel p,
        all_chars rel_char rel = true ->
        (In p (collectEntry rel e) <->
         exists segments text,
           p = join_rel rel (String.concat "/" segments)
           /\ read_path segments [e] = Some text
           /\ JS.endsWith (JS.toLowerCase (List.last segments EmptyString)) ".md"
              = true))).
  - (* a file *)
    intros name text Hok rel p Hrel. cbn [entry_ok] in Hok.
    destruct (plain_name_parts name Hok) as [Hne Hplain].
    cbn [collectEntry].
    assert (Hb2s : JS.backslashes_to_slashes (join_rel rel name) = join_rel rel name)
      by (apply rel_no_backslash, join_rel_rel; [exact Hrel | now apply plain_rel]).
    rewrite Hb2s. split.
    + destruct (JS.endsWith (JS.toLowerCase name) ".md") eqn:Hmd; [|contradiction].
      intros [<-|[]]. exists [name], text. cbn [String.concat List.last read_path].
      unfold find_file. rewrite find_entry_single. cbn [entry_name].
      rewrite String.eqb_refl. auto.
    + intros (segments & text' & -> & Hread & Hmd).
      destruct segments as [|n [|s2 rest]]; [discriminate| |].
      * cbn [read_path] in Hread. unfold find_file in Hread.
        rewrite find_entry_single in Hread. cbn [entry_name] in Hread.
        destruct (String.eqb_spec name n) as [<-|_]; [|discriminate].
        cbn [List.last] in Hmd. rewrite Hmd. cbn [String.concat]. now left.
      * rewrite read_path_cons in Hread. unfold find_dir in Hread.
        rewrite find_entry_single in Hread. cbn [entry_name] in Hread.
        destruct (String.eqb name n); discriminate.
  - (* a directory *)
    intros name sub IH Hok rel p Hrel. cbn [entry_ok] in Hok.
    apply andb_true_iff in Hok as [Hok Hdistinct].
    apply andb_true_iff in Hok as [Hname Hsub].
    destruct (plain_name_parts name Hname) as [Hne Hplain].
    rewrite forallb_forall in Hsub. rewrite Forall_forall in IH.
    cbn [collectEntry]. rewrite sort_strings_In, in_flat_map_iff.
    assert (Hrel' : all_chars rel_char (join_rel rel name) = true)
      by (apply join_rel_rel; [exact Hrel | now apply plain_rel]).
    split.
    + intros (e & Hin & Hp).
      apply (IH e Hin (Hsub e Hin) _ _ Hrel') in Hp.
      destruct Hp as (segments & text & -> & Hread & Hmd).
      assert (Hnonempty : segments <> []) by (intros ->; discriminate).
      exists (name :: segments), text. split; [|split].
      * rewrite concat_slash_cons by exact Hnonempty.
        now apply join_rel_assoc.
      * destruct segments as [|s2 rest]; [congruence|].
        rewrite read_path_cons. unfold find_dir. rewrite find_entry_single.
        cbn [entry_name]. rewrite String.eqb_refl.
        now apply (read_path_member _ _ e).
      * now rewrite last_cons_nonempty.
    + intros (segments & text & -> & Hread & Hmd).
      destruct segments as [|n [|s2 rest]]; [discriminate| |].
      * cbn [read_path] in Hread. unfold find_file in Hread.
        rewrite find_entry_single in Hread. cbn [entry_name] in Hread.
        destruct (String.eqb name n); discriminate.
      * rewrite read_path_cons in Hread. unfold find_dir in Hread.
        rewrite find_entry_single in Hread. cbn [entry_name] in Hread.
        destruct (String.eqb_spec name n) as [<-|_]; [|discriminate].
        destruct (read_path_first _ _ _ Hread) as (e & Hin & Hread').
        exists e. split; [exact Hin|].
        apply (IH e Hin (Hsub e Hin) _ _ Hrel').
        exists (s2 :: rest), text. split; [|split].
        -- rewrite concat_slash_cons by discriminate.
           symmetry. now apply join_rel_assoc.
        -- exact Hread'.
        -- now rewrite last_cons_nonempty in Hmd by discriminate.
  - (* neither *)
    intros name Hok rel p Hrel. cbn [collectEntry]. split; [contradiction|].
    intros (segments & text & _ & Hread & _).
    destruct segments as [|n [|s2 rest]]; [discriminate| |].
    + cbn [read_path] in Hread. unfold find_file in Hread.
      rewrite find_entry_single in Hread. cbn [entry_name] in Hread.
      destruct (String.eqb name n); discriminate.
    + rewrite read_path_cons in Hread. unfold find_dir in Hread.
      rewrite find_entry_single in Hread. cbn [entry_name] in Hread.
      destruct (String.eqb name n); discriminate.
Qed.

(** The collected paths are exactly the readable paths whose last segment
    ends in [.md]. *)
Lemma collectMdFiles_In (entries : list dirent) (p : string) :
  docs_ok entries = true ->
  (In p (collectMdFiles entries EmptyString) <->
   exists segments text,
     p = String.concat "/" segments
     /\ read_path segments entries = Some text
     /\ JS.endsWith (JS.toLowerCase (List.last segments EmptyString)) ".md" = true).
Proof.
  unfold docs_ok. intros Hok. apply andb_true_iff in Hok as [Hall Hdistinct].
  rewrite forallb_forall in Hall.
  unfold collectMdFiles. rewrite sort_strings_In, in_flat_map_iff. split.
  - intros (e & Hin & Hp).
    apply (collectEntry_spec e (Hall e Hin) EmptyString p eq_refl) in Hp.
    destruct Hp as (segments & text & -> & Hread & Hmd).
    exists segments, text. split; [reflexivity|]. split; [|exact Hmd].
    now apply (read_path_member _ _ e).
  - intros (segments & text & -> & Hread & Hmd).
    destruct (read_path_first _ _ _ Hread) as (e & Hin & Hread').
    exists e. split; [exact Hin|].
    apply (collectEntry_spec e (Hall e Hin) EmptyString _ eq_refl).
    exists segments, text. auto.
Qed.

End Collection.

Section CollectionNoDup.

Lemma append_inj_l (s a b : string) : s +++ a = s +++ b -> a = b.
Proof. induction s as [|c s IH]; cbn [append]; [auto|]. intros [= H]. auto. Qed.

Lemma join_rel_inj (rel a b : string) : join_rel rel a = join_rel rel b -> a = b.
Proof.
  unfold join_rel. destruct (String.eqb rel EmptyString); [auto|].
  intros H. apply append_inj_l in H. cbn [append] in H. now injection H.
Qed.

Lemma read_path_single_head (segments : list string) (e : dirent) (text : string) :
  read_path segments [e] = Some text ->
  exists rest, segments = entry_name e :: rest.
Proof.
  destruct segments as [|n [|s2 rest]]; [discriminate| |].
  - cbn [read_path]. unfold find_file. rewrite find_entry_single.
    destruct (String.eqb_spec (entry_name e) n) as [<-|_]; [eauto | discriminate].
  - rewrite read_path_cons. unfold find_dir. rewrite find_entry_single.
    destruct (String.eqb_spec (entry_name e) n) as [<-|_]; [eauto | discriminate].
Qed.

Lemma split_concat_head (n : string) (rest : list string) :
  no_slash n = true ->
  List.hd EmptyString (JS.split_char "/" (String.concat "/" (n :: rest))) = n.
Proof.
  intros Hn. destruct rest as [|s2 rest].
  - cbn [String.concat]. now rewrite split_char_segment.
  - rewrite concat_slash_cons by discriminate. now rewrite split_char_cons.
Qed.

Lemma entry_ok_name (e : dirent) : entry_ok e = true -> plain_name (entry_name e) = true.
Proof.
  destruct e as [name text | name sub | name]; cbn [entry_ok entry_name]; auto.
  intros H. apply andb_true_iff in H as [H _]. now apply andb_true_iff in H as [H _].
Qed.

(** Two entries that contribute one path have one name. *)
Lemma collectEntry_same_name (e1 e2 : dirent) (rel p : string) :
  entry_ok e1 = true -> entry_ok e2 = true -> all_chars rel_char rel = true ->
  In p (collectEntry rel e1) -> In p (collectEntry rel e2) ->
  entry_name e1 = entry_name e2.
Proof.
  intros Hok1 Hok2 Hrel H1 H2.
  apply (collectEntry_spec e1 Hok1 rel p Hrel) in H1.
  apply (collectEntry_spec e2 Hok2 rel p Hrel) in H2.
  destruct H1 as (segs1 & t1 & -> & Hr1 & _).
  destruct H2 as (segs2 & t2 & E & Hr2 & _).
  apply join_rel_inj in E.
  destruct (read_path_single_head _ _ _ Hr1) as [rest1 ->].
  destruct (read_path_single_head _ _ _ Hr2) as [rest2 ->].
  assert (Hn1 : no_slash (entry_name e1) = true)
    by (apply plain_no_slash, plain_name_parts, entry_ok_name, Hok1).
  assert (Hn2 : no_slash (entry_name e2) = true)
    by (apply plain_no_slash, plain_name_parts, entry_ok_name, Hok2).
  rewrite <- (split_concat_head (entry_name e1) rest1 Hn1).
  rewrite <- (split_concat_head (entry_name e2) rest2 Hn2).
  now rewrite E.
Qed.

Lemma collect_entries_NoDup (rel : string) (entries : list dirent) :
  all_chars rel_char rel = true ->
  forallb entry_ok entries = true -> distinct (map entry_name entries) = true ->
  Forall (fun e => NoDup (collectEntry rel e)) entries ->
  NoDup (flat_map (collectEntry rel) entries).
Proof.
  intros Hrel. induction entries as [|e rest IH]; intros Hok Hd Hall; [constructor|].
  cbn [forallb] in Hok. apply andb_true_iff in Hok as [Hok Hoks].
  cbn [map distinct] in Hd. apply andb_true_iff in Hd as [Hfresh Hd].
  inversion Hall as [|? ? He Hrest]; subst. cbn [flat_map].
  apply NoDup_app; [exact He | now apply IH |].
  intros p Hp Hp'. apply in_flat_map_iff in Hp' as (e' & Hin & Hp').
  rewrite forallb_forall in Hoks.
  pose proof (collectEntry_same_name e e' rel p Hok (Hoks e' Hin) Hrel Hp Hp') as E.
  apply negb_true_iff in Hfresh.
  assert (Hex : existsb (String.eqb (entry_name e)) (map entry_name rest) = true)
    by (apply existsb_eqb_In; rewrite E; now apply in_map).
  congruence.
Qed.

Lemma collectEntry_NoDup (entry : dirent) :
  entry_ok entry = true ->
  forall rel, all_chars rel_char rel = true -> NoDup (collectEntry rel entry).
Proof.
  apply (dirent_nested_ind
    (fun e => entry_ok e = true ->
      forall rel, all_chars rel_char rel = true -> NoDup (collectEntry rel e))).
  - intros name text _ rel _. cbn [collectEntry].
    destruct (JS.endsWith _ ".md"); repeat constructor. intros [].
  - intros name sub IH Hok rel Hrel. cbn [entry_ok] in Hok.
    apply andb_true_iff in Hok as [Hok Hdistinct].
    apply andb_true_iff in Hok as [Hname Hsub].
    destruct (plain_name_parts name Hname) as [Hne Hplain].
    cbn [collectEntry]. apply sort_strings_NoDup.
    assert (Hrel' : all_chars rel_char (join_rel rel name) = true)
      by (apply join_rel_rel; [exact Hrel | now apply plain_rel]).
    apply collect_entries_NoDup; auto.
    rewrite Forall_forall in *. rewrite forallb_forall in Hsub.
    intros e Hin. apply (IH e Hin (Hsub e Hin) _ Hrel').
  - intros name _ rel _. constructor.
Qed.

Lemma collectMdFiles_NoDup (entries : list dirent) :
  docs_ok entries = true -> NoDup (collectMdFiles entries EmptyString).
Proof.
  unfold docs_ok. intros Hok. apply andb_true_iff in Hok as [Hall Hdistinct].
  unfold collectMdFiles. apply sort_strings_NoDup.
  apply collect_entries_NoDup; auto.
  apply Forall_forall. intros e Hin. rewrite forallb_forall in Hall.
  now apply collectEntry_NoDup; [apply Hall|].
Qed.

End CollectionNoDup.

Section CollectedPathsReadable.

Lemma split_concat_segments (segments : list string) :
  segments <> [] -> Forall (fun s => no_slash s = true) segments ->
  JS.split_char "/" (String.concat "/" segments) = segments.
Proof.
  induction segments as [|n rest IH]; [congruence|]. intros _ Hall.
  inversion Hall as [|? ? Hn Hrest]; subst. destruct rest as [|s2 rest].
  - cbn [String.concat]. now apply split_char_segment.
  - rewrite concat_slash_cons by discriminate.
    rewrite split_char_cons by exact Hn. f_equal. apply IH; [discriminate | exact Hrest].
Qed.

Lemma entry_ok_sub (name : string) (sub : list dirent) :
  entry_ok (Directory name sub) = true -> forallb entry_ok sub = true.
Proof.
  cbn [entry_ok]. intros H. apply andb_true_iff in H as [H _].
  now apply andb_true_iff in H as [_ H].
Qed.

(** The segments of a readable path are names of entries. *)
Lemma read_path_plain (segments : list string) (entries : list dirent) (text : string) :
  forallb entry_ok entries = true ->
  read_path segments entries = Some text ->
  Forall (fun s => no_slash s = true) segments.
Proof.
  revert entries. induction segments as [|n rest IH]; intros entries Hok; [constructor|].
  rewrite forallb_forall in Hok.
  destruct rest as [|s2 rest].
  - cbn [read_path]. unfold find_file.
    destruct (find_entry n entries) as [e|] eqn:E; [|discriminate].
    destruct (find_entry_In _ _ _ E) as [Hin <-]. intros _.
    constructor; [|constructor].
    apply plain_no_slash, plain_name_parts, entry_ok_name, Hok, Hin.
  - rewrite read_path_cons. unfold find_dir.
    destruct (find_entry n entries) as [e|] eqn:E; [|discriminate].
    destruct (find_entry_In _ _ _ E) as [Hin <-].
    destruct e as [| name sub |]; try discriminate. intros Hread.
    constructor.
    + apply plain_no_slash, plain_name_parts.
      apply (entry_ok_name (Directory name sub)), Hok, Hin.
    + apply (IH sub); [|exact Hread].
      apply (entry_ok_sub name), Hok, Hin.
Qed.

Lemma docs_ok_entries (entries : list dirent) :
  docs_ok entries = true -> forallb entry_ok entries = true.
Proof. unfold docs_ok. intros H. now apply andb_true_iff in H as [H _]. Qed.

(** Every collected path can be read back through its own text. *)
Lemma collectMdFiles_readable (entries : list dirent) (p : string) :
  docs_ok entries = true -> In p (collectMdFiles entries EmptyString) ->
  exists text, read_path (JS.split_char "/" p) entries = Some text.
Proof.
  intros Hok Hin. apply (collectMdFiles_In entries p Hok) in Hin.
  destruct Hin as (segments & text & -> & Hread & _).
  exists text. rewrite split_concat_segments; [exact Hread | |].
  - intros ->. discriminate.
  - exact (read_path_plain _ _ _ (docs_ok_entries _ Hok) Hread).
Qed.

End CollectedPathsReadable.

(** X17. On a docs directory whose names are plain (not empty, no slash, no
    backslash) and distinct within each directory, the collected list is in
    the order of [sort()] and without duplicates; it holds exactly the
    paths, joined with slashes, of the regular files whose name ends in
    [.md] in any letter case, at any depth; and every path in it can be read
    back from the directory. *)
Theorem collectMdFiles_complete_and_sound (entries : list dirent) :
  docs_ok entries = true ->
  let mdFiles := collectMdFiles entries EmptyString in
  sorted_strings mdFiles
  /\ NoDup mdFiles
  /\ (forall p, In p mdFiles <->
        exists segments text,
          p = String.concat "/" segments
          /\ read_path segments entries = Some text
          /\ JS.endsWith (JS.toLowerCase (List.last segments EmptyString)) ".md" = true)
  /\ (forall p, In p mdFiles ->
        exists text, read_path (JS.split_char "/" p) entries = Some text).
Proof.
  intros Hok. cbv zeta. split; [apply sort_strings_sorted|].
  split; [now apply collectMdFiles_NoDup|]. split.
  - intros p. now apply collectMdFiles_In.
  - intros p. now apply collectMdFiles_readable.
Qed.

Lemma collectMdFiles_complete_and_sound_witness :
  docs_ok sample_docs = true
  /\ collectMdFiles sample_docs EmptyString
     = ["guides/setup.md"; "guides/stale.md"; "intro.md"]
  /\ (let mdFiles := collectMdFiles sample_docs EmptyString in
      sorted_strings mdFiles
      /\ NoDup mdFiles
      /\ (forall p, In p mdFiles <->
            exists segments text,
              p = String.concat "/" segments
              /\ read_path segments sample_docs = Some text
              /\ JS.endsWith (JS.toLowerCase (List.last segments EmptyString)) ".md"
                 = true)
      /\ (forall p, In p mdFiles ->
            exists text, read_path (JS.split_char "/" p) sample_docs = Some text)).
Proof.
  exact (conj eq_refl (conj eq_refl
           (collectMdFiles_complete_and_sound sample_docs eq_refl))).
Defined.

(** X18. With an explicit list of changed paths, on a docs directory with
    plain and distinct names, [runSync] works on a list that is sorted and
    without duplicates and holds exactly the listed paths and the collected
    documents that have no identifier; making the list reads files and
    changes nothing.  A listed path stays in the list even when no file
    can be read at it (a document the diff reports as deleted), and the sync
    of such a path fails with a file error and no call to the client. *)
Theorem working_set_of_changed_list
    (notion : NotionClient) (markdownToBlocks : string -> conversion)
    (rootPageId : string) (folderPageCache : StringMap)
    (paths : list string) (s : state) :
  docs_ok (files s) = true ->
  exists mdFiles,
    mdFilesOf (Some paths) s = (inl mdFiles, s)
    /\ sorted_strings mdFiles
    /\ NoDup mdFiles
    /\ (forall y, In y mdFiles <->
          In y paths
          \/ (In y (collectMdFiles (files s) EmptyString) /\ unsynced s y))
    /\ (forall y, In y paths ->
          read_path (JS.split_char "/" y) (files s) = None ->
          In y mdFiles
          /\ syncOneDoc notion markdownToBlocks rootPageId folderPageCache y s
             = (inr (FileFailure y), s)).
Proof.
  intros Hok. destruct (Set_of_spec paths) as [Hnd Hin].
  destruct (addDocsWithoutPageId_loop_spec
              (collectMdFiles (files s) EmptyString) (Set_of paths) s Hnd
              (fun p Hp => collectMdFiles_readable (files s) p Hok Hp))
    as (set' & Hrun & Hnd' & Hin').
  assert (Hmem : forall y, In y (sort_strings set') <->
            In y paths
            \/ (In y (collectMdFiles (files s) EmptyString) /\ unsynced s y))
    by (intros y; now rewrite sort_strings_In, Hin', Hin).
  exists (sort_strings set'). split; [|split; [|split; [|split]]].
  - cbn [mdFilesOf]. unfold bind, addDocsWithoutPageId. now rewrite Hrun.
  - apply sort_strings_sorted.
  - now apply sort_strings_NoDup.
  - exact Hmem.
  - intros y Hy Hread. split; [apply Hmem; now left|].
    unfold syncOneDoc. apply bind_fail. unfold readFileSync. now rewrite Hread.
Qed.

Lemma working_set_of_changed_list_witness :
  docs_ok (files sample_state) = true
  /\ exists mdFiles,
       mdFilesOf (Some ["guides/setup.md"; "old/gone.md"]) sample_state
       = (inl mdFiles, sample_state)
       /\ sorted_strings mdFiles
       /\ NoDup mdFiles
       /\ (forall y, In y mdFiles <->
             In y ["guides/setup.md"; "old/gone.md"]
             \/ (In y (collectMdFiles (files sample_state) EmptyString)
                 /\ unsynced sample_state y))
       /\ (forall y, In y ["guides/setup.md"; "old/gone.md"] ->
             read_path (JS.split_char "/" y) (files sample_state) = None ->
             In y mdFiles
             /\ syncOneDoc sample_client sample_converter "root" [] y sample_state
                = (inr (FileFailure y), sample_state)).
Proof.
  exact (conj eq_refl
           (working_set_of_changed_list sample_client sample_converter "root" []
              ["guides/setup.md"; "old/gone.md"] sample_state eq_refl)).
Defined.

(** ** Title matching *)

Section TitleNormalForm.

Lemma lower_char_idempotent (c : ascii) :
  JS.lower_char (JS.lower_char c) = JS.lower_char c.
Proof. destruct c as [[] [] [] [] [] [] [] []]; vm_compute; reflexivity. Qed.

Lemma map_chars_fixed f (s : string) :
  all_chars (fun c => Ascii.eqb (f c) c) s = true -> JS.map_chars f s = s.
Proof.
  induction s as [|c s IH]; [reflexivity|]. cbn [all_chars JS.map_chars].
  intros H. apply andb_true_iff in H as [Hc Hs].
  apply Ascii.eqb_eq in Hc. now rewrite Hc, (IH Hs).
Qed.

Lemma toLowerCase_lowered (s : string) : all_chars lowered (JS.toLowerCase s) = true.
Proof.
  unfold JS.toLowerCase, lowered.
  induction s as [|c s IH]; [reflexivity|]. cbn [JS.map_chars all_chars].
  now rewrite lower_char_idempotent, Ascii.eqb_refl, IH.
Qed.

Lemma all_chars_collapse q p r (b : bool) (s : string) :
  q r = true -> all_chars q s = true -> all_chars q (collapse_runs p r b s) = true.
Proof.
  intros Hr. revert b. induction s as [|c s IH]; intros b; [reflexivity|].
  cbn [all_chars collapse_runs]. intros H. apply andb_true_iff in H as [Hc Hs].
  destruct (p c).
  - destruct b; [now apply IH|]. cbn [all_chars]. now rewrite Hr, IH.
  - cbn [all_chars]. now rewrite Hc, IH.
Qed.

(** After its runs are collapsed a string has no character of the class,
    when the replacement is not one. *)
Lemma collapse_clears p r (b : bool) (s : string) :
  p r = false -> all_chars (fun c => negb (p c)) (collapse_runs p r b s) = true.
Proof.
  intros Hr. revert b. induction s as [|c s IH]; intros b; [reflexivity|].
  cbn [collapse_runs]. destruct (p c) eqn:Hc.
  - destruct b; [apply IH|]. cbn [all_chars]. now rewrite Hr, IH.
  - cbn [all_chars]. now rewrite Hc, IH.
Qed.

Lemma collapse_none p r (b : bool) (s : string) :
  all_chars (fun c => negb (p c)) s = true -> collapse_runs p r b s = s.
Proof.
  revert b. induction s as [|c s IH]; intros b; [reflexivity|].
  cbn [all_chars collapse_runs]. intros H. apply andb_true_iff in H as [Hc Hs].
  apply negb_true_iff in Hc. now rewrite Hc, IH.
Qed.

Lemma collapse_spaced (b : bool) (s : string) :
  spaced b (collapse_runs JS.is_space " " b s) = true.
Proof.
  revert b. induction s as [|c s IH]; intros b; [reflexivity|].
  cbn [collapse_runs]. destruct (JS.is_space c) eqn:Hc.
  - destruct b; [apply IH|]. cbn [spaced].
    change (JS.is_space " ") with true. cbn [negb andb Ascii.eqb Bool.eqb]. apply IH.
  - cbn [spaced]. rewrite Hc. apply IH.
Qed.

Lemma spaced_fixed (b : bool) (s : string) :
  spaced b s = true -> collapse_runs JS.is_space " " b s = s.
Proof.
  revert b. induction s as [|c s IH]; intros b; [reflexivity|].
  cbn [spaced collapse_runs]. destruct (JS.is_space c).
  - intros H. apply andb_true_iff in H as [H Hs]. apply andb_true_iff in H as [Hb Hc].
    apply negb_true_iff in Hb. apply Ascii.eqb_eq in Hc. subst b c.
    now rewrite (IH true Hs).
  - intros Hs. now rewrite (IH false Hs).
Qed.

Lemma spaced_weaken (s : string) : spaced true s = true -> spaced false s = true.
Proof.
  destruct s as [|c s]; [reflexivity|]. cbn [spaced].
  destruct (JS.is_space c); [discriminate | auto].
Qed.

Lemma spaced_trimStart (s : string) :
  spaced false s = true -> spaced false (JS.trimStart s) = true.
Proof.
  destruct s as [|c s]; [reflexivity|]. cbn [spaced JS.trimStart].
  destruct (JS.is_space c) eqn:Hc.
  - intros H. apply andb_true_iff in H as [_ Hs].
    destruct s as [|c' s]; [reflexivity|]. cbn [spaced] in Hs. cbn [JS.trimStart].
    destruct (JS.is_space c') eqn:Hc'; [discriminate|].
    cbn [spaced]. now rewrite Hc'.
  - intros Hs. cbn [spaced]. now rewrite Hc.
Qed.

Lemma spaced_trimEnd (b : bool) (s : string) :
  spaced b s = true -> spaced b (JS.trimEnd s) = true.
Proof.
  revert b. induction s as [|c s IH]; intros b; [reflexivity|].
  cbn [spaced JS.trimEnd]. destruct (JS.is_space c) eqn:Hc.
  - intros H. apply andb_true_iff in H as [H Hs].
    specialize (IH true Hs). destruct (JS.trimEnd s) as [|c' t]; [reflexivity|].
    cbn [spaced]. cbn [spaced] in IH. now rewrite Hc, H, IH.
  - intros Hs. specialize (IH false Hs).
    destruct (JS.trimEnd s) as [|c' t]; cbn [spaced]; rewrite Hc; [reflexivity|].
    exact IH.
Qed.

Lemma not_dash_space : is_dash_or_underscore " " = false.
Proof. reflexivity. Qed.

Lemma lowered_space : lowered " " = true.
Proof. reflexivity. Qed.

(** The normal form of a title is its own normal form. *)
Lemma normalizeTitleForMatch_fixed (s : string) :
  normalizeTitleForMatch (normalizeTitleForMatch s) = normalizeTitleForMatch s.
Proof.
  set (n := normalizeTitleForMatch s).
  assert (Htrim : JS.trim n = n) by apply trim_idempotent.
  assert (Hlow : all_chars lowered n = true).
  { unfold n, normalizeTitleForMatch. apply all_chars_trim.
    apply all_chars_collapse; [exact lowered_space|].
    apply all_chars_collapse; [exact lowered_space|].
    apply toLowerCase_lowered. }
  assert (Hdash : all_chars (fun c => negb (is_dash_or_underscore c)) n = true).
  { unfold n, normalizeTitleForMatch. apply all_chars_trim.
    apply all_chars_collapse; [reflexivity|].
    apply collapse_clears. exact not_dash_space. }
  assert (Hsp : spaced false n = true).
  { unfold n, normalizeTitleForMatch, JS.trim.
    apply spaced_trimEnd, spaced_trimStart, collapse_spaced. }
  unfold normalizeTitleForMatch at 1. rewrite Htrim.
  unfold JS.toLowerCase. rewrite (map_chars_fixed JS.lower_char n Hlow).
  rewrite (collapse_none _ _ _ n Hdash), (spaced_fixed false n Hsp).
  exact Htrim.
Qed.

Lemma normalizeTitleForMatch_trim (s : string) :
  normalizeTitleForMatch (JS.trim s) = normalizeTitleForMatch s.
Proof. unfold normalizeTitleForMatch. now rewrite trim_idempotent. Qed.

End TitleNormalForm.

(** X19. The normal form used to compare titles is a normal form:
    normalising twice is normalising once, and white space around the title
    does not count.  Hence two titles match exactly when their normal forms
    match, and matching is symmetric. *)
Theorem normalizeTitleForMatch_normal_form :
  (forall s, normalizeTitleForMatch (normalizeTitleForMatch s)
             = normalizeTitleForMatch s)
  /\ (forall s, normalizeTitleForMatch (JS.trim s) = normalizeTitleForMatch s)
  /\ (forall a b, titlesMatch (normalizeTitleForMatch a) (normalizeTitleForMatch b)
                  = titlesMatch a b)
  /\ (forall a b, titlesMatch a b = titlesMatch b a).
Proof.
  split; [exact normalizeTitleForMatch_fixed|].
  split; [exact normalizeTitleForMatch_trim|]. split.
  - intros a b. unfold titlesMatch. now rewrite !normalizeTitleForMatch_fixed.
  - intros a b. unfold titlesMatch.
    destruct (String.eqb_spec (normalizeTitleForMatch a) (normalizeTitleForMatch b))
      as [E|Hne].
    + now rewrite E, String.eqb_refl.
    + rewrite !andb_false_r. symmetry.
      destruct (String.eqb_spec (normalizeTitleForMatch b) (normalizeTitleForMatch a));
        [congruence|]. apply andb_false_r.
Qed.

Section FolderReuse.

Variable notion : NotionClient.

Lemma titlesMatch_parts (a b : string) :
  titlesMatch a b = true ->
  normalizeTitleForMatch a = normalizeTitleForMatch b
  /\ normalizeTitleForMatch b <> EmptyString.
Proof.
  unfold titlesMatch. intros H. apply andb_true_iff in H as [Hlen E].
  apply String.eqb_eq in E. split; [exact E|]. rewrite <- E.
  intros E0. now rewrite E0 in Hlen.
Qed.

(** [find] stops at the first element that passes the test. *)
Lemma find_first {A} (f : A -> bool) (before after : list A) (y : A) :
  (forall z, In z before -> f z = false) -> f y = true ->
  find f (before ++ y :: after) = Some y.
Proof.
  induction before as [|a before IH]; intros Hbefore Hy; cbn [app find].
  - now rewrite Hy.
  - rewrite (Hbefore a (or_introl eq_refl)). apply IH; [|exact Hy].
    intros z Hz. apply Hbefore. now right.
Qed.

(** The first matching child page of the first page of the listing is found
    with one call. *)
Lemma findFirstChildPageByTitle_first_page (fuel : nat) (parentPageId title : string)
    (s : state) (resp : ListResponse) (before after : list ChildBlock)
    (b : ChildBlock) :
  blocks_children_list notion (calls s) parentPageId None = inl resp ->
  results resp = before ++ b :: after ->
  child_type b = "child_page" ->
  titlesMatch (getBlockTitle b) title = true ->
  (forall x, In x before -> child_type x = "child_page" ->
             titlesMatch (getBlockTitle x) title = false) ->
  findFirstChildPageByTitle notion (S fuel) parentPageId title s
  = (inl (Some (child_id b)), with_calls s [BlocksList parentPageId None]).
Proof.
  intros Hresp Hsplit Hty Hmatch Hbefore.
  destruct (titlesMatch_parts _ _ Hmatch) as [E Hne].
  unfold findFirstChildPageByTitle.
  destruct (String.eqb_spec (normalizeTitleForMatch title) EmptyString) as [E0|_];
    [contradiction|].
  cbn [findFirstChildPage_loop].
  rewrite (bind_ok _ _ _ _ _ (request_ok _ _ s resp Hresp)), Hsplit.
  rewrite find_first; [reflexivity| |].
  - intros x Hx. destruct (String.eqb_spec (child_type x) "child_page") as [Hxty|_];
      [|reflexivity].
    specialize (Hbefore x Hx Hxty). unfold titlesMatch in Hbefore.
    cbv zeta in Hbefore. cbn [andb].
    destruct (String.eqb_spec (normalizeTitleForMatch (getBlockTitle x))
                (normalizeTitleForMatch title)) as [Ex|_]; [|reflexivity].
    rewrite Ex, andb_true_r in Hbefore.
    destruct (normalizeTitleForMatch title); [congruence | discriminate].
  - now rewrite Hty, E, !String.eqb_refl.
Qed.

End FolderReuse.

(** X20. A folder page is reused, not duplicated: when the first page of the
    listing of the parent holds a child page whose title matches the folder
    title, [getOrCreateFolderPage] returns the identifier of the first such
    child page of the listing (whatever stands after it), after that one
    listing call and without any creation, provided that identifier is not
    empty.  A child page titled with the folder title itself, as a creation
    by an earlier run leaves it, is such a page whenever the normal form of
    the title is not empty. *)
Theorem getOrCreateFolderPage_reuses_listed_page
    (notion : NotionClient) (fuel : nat) (parentPageId folderTitle : string)
    (s : state) (resp : ListResponse) (before after : list ChildBlock)
    (b : ChildBlock) :
  blocks_children_list notion (calls s) parentPageId None = inl resp ->
  results resp = before ++ b :: after ->
  child_type b = "child_page" ->
  titlesMatch (getBlockTitle b) folderTitle = true ->
  (forall x, In x before -> child_type x = "child_page" ->
             titlesMatch (getBlockTitle x) folderTitle = false) ->
  child_id b <> EmptyString ->
  getOrCreateFolderPage notion (S fuel) parentPageId folderTitle s
  = (inl (child_id b), with_calls s [BlocksList parentPageId None])
  /\ (forall b0, child_title b0 = Some [Some folderTitle] ->
        normalizeTitleForMatch folderTitle <> EmptyString ->
        titlesMatch (getBlockTitle b0) folderTitle = true).
Proof.
  intros Hresp Hsplit Hty Hmatch Hbefore Hne. split.
  - pose proof (findFirstChildPageByTitle_first_page notion fuel parentPageId
                  folderTitle s resp before after b Hresp Hsplit Hty Hmatch Hbefore)
      as Hrun.
    unfold getOrCreateFolderPage. rewrite (bind_ok _ _ _ _ _ Hrun).
    destruct (String.eqb_spec (child_id b) EmptyString); [contradiction | reflexivity].
  - intros b0 Htitle Hne0. unfold titlesMatch, getBlockTitle. rewrite Htitle.
    cbn [map String.concat]. rewrite normalizeTitleForMatch_trim.
    rewrite String.eqb_refl, andb_true_r.
    destruct (normalizeTitleForMatch folderTitle); [congruence | reflexivity].
Qed.

(** On a listing with a database and a page of another title before two
    matching pages, the first of the two is reused. *)
Lemma getOrCreateFolderPage_reuses_listed_page_witness :
  let database := {| child_id := "db-1"; child_type := "child_database";
                     child_title := Some [Some "Guides"] |} in
  let notes := {| child_id := "page-notes"; child_type := "child_page";
                  child_title := Some [Some "Notes"] |} in
  let first := {| child_id := "page-first"; child_type := "child_page";
                  child_title := Some [Some "  GUIDES "] |} in
  let second := {| child_id := "page-second"; child_type := "child_page";
                   child_title := Some [Some "Guides"] |} in
  let resp := {| results := [database; notes; first; second];
                 next_cursor := Some "more" |} in
  blocks_children_list crowded_client (calls sample_state) "root" None = inl resp
  /\ titlesMatch (getBlockTitle first) "guides" = true
  /\ titlesMatch (getBlockTitle second) "guides" = true
  /\ titlesMatch (getBlockTitle notes) "guides" = false
  /\ getOrCreateFolderPage crowded_client 1 "root" "guides" sample_state
     = (inl "page-first", with_calls sample_state [BlocksList "root" None])
  /\ (forall b0, child_title b0 = Some [Some "guides"] ->
        normalizeTitleForMatch "guides" <> EmptyString ->
        titlesMatch (getBlockTitle b0) "guides" = true).
Proof.
  cbv zeta.
  set (database := {| child_id := "db-1"; child_type := "child_database";
                      child_title := Some [Some "Guides"] |}).
  set (notes := {| child_id := "page-notes"; child_type := "child_page";
                   child_title := Some [Some "Notes"] |}).
  set (first := {| child_id := "page-first"; child_type := "child_page";
                   child_title := Some [Some "  GUIDES "] |}).
  set (second := {| child_id := "page-second"; child_type := "child_page";
                    child_title := Some [Some "Guides"] |}).
  assert (H1 : titlesMatch (getBlockTitle first) "guides" = true)
    by (vm_compute; reflexivity).
  assert (H2 : titlesMatch (getBlockTitle second) "guides" = true)
    by (vm_compute; reflexivity).
  assert (H3 : titlesMatch (getBlockTitle notes) "guides" = false)
    by (vm_compute; reflexivity).
  assert (Hbefore : forall x, In x [database; notes] -> child_type x = "child_page" ->
                              titlesMatch (getBlockTitle x) "guides" = false).
  { intros x [<-|[<-|[]]] Hx; [discriminate Hx | exact H3]. }
  exact (conj eq_refl (conj H1 (conj H2 (conj H3
           (getOrCreateFolderPage_reuses_listed_page crowded_client 0 "root" "guides"
              sample_state _ [database; notes] [second] first
              eq_refl eq_refl eq_refl H1 Hbefore ltac:(discriminate)))))).
Defined.

(** ** The entry point: when every document is synced *)

(** X21. The entry point falls back to all documents in four cases: the mode
    is not [changed], the reference before the push is empty, the reference
    after it is empty, or the diff command fails with status 128; the
    documents synced are then all the collected ones and nothing is changed
    by choosing them.  Any other failure of the diff command is thrown
    before a file is read or a call is made. *)
Theorem documentsSynced_fallbacks
    (execSync : string -> string -> exec_result) (repoRoot : string)
    (inputs : RunInputs) (s : state) :
  let diff := execSync (gitDiffCommand (gitBefore inputs) (gitAfter inputs)) repoRoot in
  (syncMode inputs <> "changed"
   \/ gitBefore inputs = EmptyString
   \/ gitAfter inputs = EmptyString
   \/ diff = ExecError (Some 128%Z) ->
   documentsSynced execSync repoRoot inputs s
   = (inl (collectMdFiles (files s) EmptyString), s))
  /\ (forall status,
        syncMode inputs = "changed" ->
        gitBefore inputs <> EmptyString -> gitAfter inputs <> EmptyString ->
        diff = ExecError status -> status <> Some 128%Z ->
        documentsSynced execSync repoRoot inputs s = (inr (ExecFailure status), s)).
Proof.
  cbv zeta. unfold documentsSynced, getChangedMdPaths. split.
  - intros H.
    destruct (String.eqb_spec (syncMode inputs) "changed") as [Hmode|_];
      [|reflexivity].
    destruct (String.eqb_spec (gitBefore inputs) EmptyString) as [Hb|Hb];
      [reflexivity|].
    destruct (String.eqb_spec (gitAfter inputs) EmptyString) as [Ha|Ha];
      [reflexivity|].
    cbn [negb andb].
    destruct H as [H|[H|[H|H]]]; try contradiction.
    now rewrite H.
  - intros status Hmode Hb Ha Hdiff Hst.
    rewrite Hmode, String.eqb_refl.
    destruct (String.eqb_spec (gitBefore inputs) EmptyString); [contradiction|].
    destruct (String.eqb_spec (gitAfter inputs) EmptyString); [contradiction|].
    cbn [negb andb]. rewrite Hdiff.
    destruct status as [[|p|p]|]; try reflexivity.
    repeat (destruct p as [p|p|]; try reflexivity).
    contradiction.
Qed.

(** ** The change selector: the shape of what it returns *)

Section SuffixFacts.

Lemma endsWith_split (s p : string) :
  JS.endsWith s p = true -> exists pre, s = pre +++ p.
Proof.
  unfold JS.endsWith. intros H. apply andb_true_iff in H as [_ H].
  apply String.eqb_eq in H.
  set (n := String.length s - String.length p) in *.
  exists (JS.take n s).
  transitivity (JS.take n s +++ JS.drop n s); [symmetry; apply take_drop|].
  now rewrite H.
Qed.

Lemma has_prefix_split (p s : string) :
  JS.has_prefix p s = true -> s = p +++ JS.drop (String.length p) s.
Proof.
  revert s. induction p as [|a p IH]; intros s; [reflexivity|].
  destruct s as [|b s]; [discriminate|]. cbn [JS.has_prefix String.length JS.drop append].
  intros H. apply andb_true_iff in H as [Hab Hp]. apply Ascii.eqb_eq in Hab.
  subst b. f_equal. now apply IH.
Qed.

(** A suffix without the character [c] of a string lies after every [c]. *)
Lemma suffix_after_char (x y p : string) (c : ascii) :
  all_chars (fun a => negb (Ascii.eqb a c)) p = true ->
  JS.endsWith (x +++ String c y) p = true -> JS.endsWith y p = true.
Proof.
  intros Hp H. apply endsWith_split in H as [pre E].
  revert pre E. induction x as [|d x IH]; intros pre E; cbn [append] in E.
  - destruct pre as [|d pre]; cbn [append] in E.
    + exfalso. rewrite <- E in Hp. cbn [all_chars] in Hp.
      now rewrite Ascii.eqb_refl in Hp.
    + injection E as _ ->. apply endsWith_append.
  - destruct pre as [|d' pre]; cbn [append] in E.
    + exfalso. rewrite <- E in Hp. cbn [all_chars] in Hp.
      apply andb_true_iff in Hp as [_ Hp]. rewrite all_chars_append in Hp.
      apply andb_true_iff in Hp as [_ Hp]. cbn [all_chars] in Hp.
      now rewrite Ascii.eqb_refl in Hp.
    + injection E as _ E. now apply (IH pre).
Qed.

Lemma backslashes_to_slashes_rel (s : string) :
  all_chars rel_char (JS.backslashes_to_slashes s) = true.
Proof.
  unfold JS.backslashes_to_slashes.
  induction s as [|c s IH]; [reflexivity|]. cbn [JS.map_chars all_chars].
  rewrite IH, andb_true_r. unfold rel_char.
  destruct (JS.code c =? 92) eqn:E; [reflexivity|]. now rewrite E.
Qed.

Lemma docsPrefixOf_slash (d : string) : JS.endsWith (docsPrefixOf d) "/" = true.
Proof.
  unfold docsPrefixOf. destruct (JS.endsWith d "/") eqn:E; [exact E|].
  apply endsWith_append.
Qed.

Lemma getDocsPrefix_slash (d : string) : JS.endsWith (getDocsPrefix d) "/" = true.
Proof.
  unfold getDocsPrefix. cbv zeta.
  set (cleaned := if JS.startsWith (JS.backslashes_to_slashes d) "./"
                  then JS.drop 2 (JS.backslashes_to_slashes d)
                  else JS.backslashes_to_slashes d).
  destruct (JS.endsWith cleaned "/") eqn:E; [exact E | apply endsWith_append].
Qed.

End SuffixFacts.

(** X22. Every path the change selector returns is a relative document
    path: it is not empty, holds no backslash, and ends in [.md] in some
    letter case.  The prefix the entry point passes already ends in a slash,
    so the selector uses it as it is. *)
Theorem changed_paths_are_document_paths
    (execSync : string -> string -> exec_result)
    (repoRoot docsPrefix baseRef headRef : string) (paths : list string) :
  getChangedMdPaths execSync repoRoot docsPrefix baseRef headRef
  = Returned (Some paths) ->
  (forall r, In r paths ->
     r <> EmptyString
     /\ all_chars rel_char r = true
     /\ JS.endsWith (JS.toLowerCase r) ".md" = true)
  /\ (forall rawDocsDir,
        docsPrefixOf (getDocsPrefix rawDocsDir) = getDocsPrefix rawDocsDir).
Proof.
  intros Hrun. split.
  - intros r Hr. unfold getChangedMdPaths in Hrun.
    destruct (execSync (gitDiffCommand baseRef headRef) repoRoot) as [out|status].
    2:{ destruct status as [[|p|p]|]; try discriminate.
        repeat (destruct p as [p|p|]; try discriminate). }
    injection Hrun as <-.
    destruct (uniq_spec (collectChanged (docsPrefixOf docsPrefix) (outputLines out)))
      as [_ Huniq].
    apply Huniq in Hr. apply collectChanged_In in Hr as (line & _ & Hline).
    apply changedPathOfLine_spec in Hline; [|apply docsPrefixOf_length].
    cbv zeta in Hline. destruct Hline as (Hmd & Hstart & Hne & ->).
    set (normalized := JS.backslashes_to_slashes line) in *.
    set (prefix := docsPrefixOf docsPrefix) in *.
    pose proof (has_prefix_split prefix normalized Hstart) as Hsplit.
    remember (JS.drop (String.length prefix) normalized) as r eqn:Er.
    split; [|split].
    + intros E. apply Hne. rewrite Hsplit, E. apply append_empty_r.
    + rewrite Er. apply all_chars_drop, backslashes_to_slashes_rel.
    + destruct (endsWith_split _ _ (docsPrefixOf_slash docsPrefix)) as [pre Hpre].
      fold prefix in Hpre. rewrite Hsplit, Hpre in Hmd.
      unfold JS.toLowerCase in *.
      rewrite append_assoc, map_chars_append in Hmd. cbn [append JS.map_chars] in Hmd.
      change (JS.lower_char "/") with "/"%char in Hmd.
      apply (suffix_after_char _ _ ".md" "/"%char eq_refl Hmd).
  - intros rawDocsDir. unfold docsPrefixOf. now rewrite getDocsPrefix_slash.
Qed.

Lemma changed_paths_are_document_paths_witness :
  let execSync := fun _ _ : string =>
    ExecOutput ("docs/guides/setup.md" +++ String Regex.LF
                ("README.md" +++ String Regex.LF
                 ("docs/Intro.MD" +++ String Regex.LF EmptyString))) in
  getChangedMdPaths execSync "/repo" "docs" "a1" "b2"
  = Returned (Some ["guides/setup.md"; "Intro.MD"])
  /\ (forall r, In r ["guides/setup.md"; "Intro.MD"] ->
        r <> EmptyString
        /\ all_chars rel_char r = true
        /\ JS.endsWith (JS.toLowerCase r) ".md" = true)
  /\ (forall rawDocsDir,
        docsPrefixOf (getDocsPrefix rawDocsDir) = getDocsPrefix rawDocsDir).
Proof.
  cbv zeta.
  assert (H : getChangedMdPaths
                (fun _ _ : string =>
                   ExecOutput ("docs/guides/setup.md" +++ String Regex.LF
                               ("README.md" +++ String Regex.LF
                                ("docs/Intro.MD" +++ String Regex.LF EmptyString))))
                "/repo" "docs" "a1" "b2"
              = Returned (Some ["guides/setup.md"; "Intro.MD"]))
    by (vm_compute; reflexivity).
  exact (conj H (changed_paths_are_document_paths _ "/repo" "docs" "a1" "b2" _ H)).
Defined.

(** ** More on the concurrency runner *)

Section RunnerOnce.

Import Runner.

Variables T E : Type.
Variable taskCount : nat.
Variable settle : nat -> T + E.

Lemma nth_error_repeat_lt {A} (x : A) (n j : nat) :
  j < n -> nth_error (repeat x n) j = Some x.
Proof.
  revert j. induction n as [|n IH]; intros j Hj; [lia|].
  destruct j as [|j]; [reflexivity|]. cbn [repeat nth_error]. apply IH. lia.
Qed.

Lemma start_claimed_once (concurrency : nat) :
  claimed_once taskCount (start T E taskCount concurrency).
Proof.
  rewrite start_shape. unfold claimed_once. cbn [index results workers].
  assert (Haw : forall w i,
    nth_error (map (@Awaiting E) (seq 0 (Nat.min concurrency taskCount))) w
    = Some (Awaiting i) -> w = i /\ i < Nat.min concurrency taskCount).
  { intros w i H. rewrite nth_error_map in H.
    destruct (nth_error (seq 0 (Nat.min concurrency taskCount)) w) as [j|] eqn:Ej;
      [|discriminate].
    injection H as ->.
    assert (Hw : w < List.length (seq 0 (Nat.min concurrency taskCount)))
      by (apply nth_error_Some; congruence).
    rewrite length_seq in Hw. rewrite nth_error_seq in Ej.
    destruct (Nat.ltb_spec w (Nat.min concurrency taskCount)); [|lia].
    injection Ej as <-. split; [reflexivity | lia]. }
  split; [|split].
  - intros w1 w2 i H1 H2. apply Haw in H1, H2. lia.
  - intros w i H. apply Haw in H. apply nth_error_repeat_lt. lia.
  - intros j _ Hj. now apply nth_error_repeat_lt.
Qed.

Lemma step_claimed_once (m w : nat) (p p' : pool T E) :
  invariant taskCount settle m p -> claimed_once taskCount p ->
  step taskCount settle w p = Some p' -> claimed_once taskCount p'.
Proof.
  intros [Hres Hwork Hidx Hstored Hclaimed Hawaited Hdone Hfailed]
         (Hone & Hempty & Hfree) Hstep.
  unfold step in Hstep.
  destruct (nth_error (workers p) w) as [[i| |e0]|] eqn:Ew; try discriminate.
  assert (Hw : w < List.length (workers p))
    by (apply nth_error_Some; congruence).
  pose proof (Hawaited w i Ew) as Hi.
  destruct (settle i) as [v|e] eqn:Es; injection Hstep as <-.
  - unfold next, claimed_once. cbn [index results workers rejection].
    destruct (Nat.ltb_spec (index p) taskCount) as [Hlt|Hge]; cbn [fst snd].
    + split; [|split].
      * intros w1 w2 j H1 H2.
        apply nth_error_set_nth in H1 as [[E1 H1]|[Hn1 H1]];
          apply nth_error_set_nth in H2 as [[E2 H2]|[Hn2 H2]].
        -- congruence.
        -- injection H1 as ->. apply Hawaited in H2. lia.
        -- injection H2 as ->. apply Hawaited in H1. lia.
        -- now apply (Hone w1 w2 j).
      * intros w0 j H. apply nth_error_set_nth in H as [[E0 H]|[Hn H]].
        -- injection H as ->. rewrite nth_error_set_nth_other by lia.
           apply Hfree; lia.
        -- assert (Hij : i <> j).
           { intros <-. apply Hn. now apply (Hone w w0 i). }
           rewrite nth_error_set_nth_other by exact Hij. now apply (Hempty w0).
      * intros j Hj Hjt. rewrite nth_error_set_nth_other by lia. apply Hfree; lia.
    + split; [|split].
      * intros w1 w2 j H1 H2.
        apply nth_error_set_nth in H1 as [[<- [=]]|[Hn1 H1]].
        apply nth_error_set_nth in H2 as [[<- [=]]|[Hn2 H2]].
        now apply (Hone w1 w2 j).
      * intros w0 j H. apply nth_error_set_nth in H as [[<- [=]]|[Hn H]].
        assert (Hij : i <> j).
        { intros <-. apply Hn. now apply (Hone w w0 i). }
        rewrite nth_error_set_nth_other by exact Hij. now apply (Hempty w0).
      * intros j Hj Hjt. lia.
  - unfold claimed_once. cbn [index results workers rejection].
    split; [|split].
    + intros w1 w2 j H1 H2.
      apply nth_error_set_nth in H1 as [[<- [=]]|[Hn1 H1]].
      apply nth_error_set_nth in H2 as [[<- [=]]|[Hn2 H2]].
      now apply (Hone w1 w2 j).
    + intros w0 j H. apply nth_error_set_nth in H as [[<- [=]]|[Hn H]].
      now apply (Hempty w0).
    + exact Hfree.
Qed.

Lemma exec_claimed_once (m : nat) (schedule : list nat) (p p' : pool T E) :
  invariant taskCount settle m p -> claimed_once taskCount p ->
  exec taskCount settle schedule p = Some p' -> claimed_once taskCount p'.
Proof.
  revert p. induction schedule as [|w rest IH]; intros p Hinv Hone Hexec.
  - injection Hexec as <-. exact Hone.
  - cbn [exec] in Hexec.
    destruct (step taskCount settle w p) as [p1|] eqn:Es; [|discriminate].
    apply (IH p1); [now apply (step_invariant _ _ _ _ m w p) | | exact Hexec].
    now apply (step_claimed_once m w p).
Qed.

(** A fulfilled run has taken exactly one step per task. *)
Lemma fulfilled_steps (concurrency : nat) (schedule : list nat) (p : pool T E)
    (rs : list (option T)) :
  0 < concurrency ->
  exec taskCount settle schedule (start T E taskCount concurrency) = Some p ->
  outcome p = Fulfilled rs -> List.length schedule = taskCount.
Proof.
  intros Hc Hexec Hful.
  pose proof (start_invariant _ _ taskCount settle concurrency) as Hinv0.
  pose proof (exec_invariant _ _ _ _ _ schedule _ p Hinv0 Hexec) as Hinv.
  pose proof (exec_budget _ _ _ _ _ schedule _ p Hinv0 Hexec) as Hb.
  rewrite start_budget in Hb.
  unfold outcome in Hful.
  destruct (rejection p) as [e|] eqn:Er; [discriminate|].
  destruct (forallb is_done (workers p)) eqn:Eall; [|discriminate].
  assert (Hdone : forall w x, nth_error (workers p) w = Some x -> x = Done).
  { intros w x Hw. apply nth_error_In in Hw.
    rewrite forallb_forall in Eall. specialize (Eall x Hw). now destruct x. }
  assert (Hflight : in_flight p = 0).
  { unfold in_flight. rewrite forallb_forall in Eall.
    clear -Eall. induction (workers p) as [|x l IH]; [reflexivity|].
    cbn [filter]. pose proof (Eall x (or_introl eq_refl)) as Hx.
    destruct x; try discriminate. cbn [is_awaiting]. apply IH.
    intros y Hy. apply Eall. now right. }
  assert (Hfull : taskCount <= index p).
  { destruct (nth_error (workers p) 0) as [x|] eqn:E0.
    - apply (inv_done Hinv 0). rewrite E0. f_equal. now apply (Hdone 0).
    - apply nth_error_None in E0. rewrite (inv_workers Hinv) in E0. lia. }
  unfold budget in Hb. rewrite Hflight in Hb. lia.
Qed.

End RunnerOnce.

(** X23. No task is started twice and no result is overwritten: at every
    point of every run of [runWithConcurrency], two workers never await the
    same task, the slot of a task that is awaited is still empty, and so is
    the slot of every task not yet claimed. *)
Theorem runWithConcurrency_claims_once (T E : Type) (taskCount concurrency : nat)
    (settle : nat -> T + E) (schedule : list nat) (p : Runner.pool T E) :
  Runner.exec taskCount settle schedule (Runner.start T E taskCount concurrency)
  = Some p ->
  (forall w1 w2 i,
     nth_error (Runner.workers p) w1 = Some (Runner.Awaiting i) ->
     nth_error (Runner.workers p) w2 = Some (Runner.Awaiting i) -> w1 = w2)
  /\ (forall w i,
        nth_error (Runner.workers p) w = Some (Runner.Awaiting i) ->
        nth_error (Runner.results p) i = Some None)
  /\ (forall j, Runner.index p <= j -> j < taskCount ->
        nth_error (Runner.results p) j = Some None).
Proof.
  intros Hexec.
  exact (exec_claimed_once T E taskCount settle _ schedule _ p
           (start_invariant T E taskCount settle concurrency)
           (start_claimed_once T E taskCount concurrency) Hexec).
Qed.

Lemma runWithConcurrency_claims_once_witness :
  let settle := fun i : nat => @inl nat string (i * i) in
  let p := {| Runner.index := 3;
              Runner.results := [Some 0; Some 1; None];
              Runner.workers := [Runner.Done; Runner.Awaiting 2];
              Runner.rejection := None |} : Runner.pool nat string in
  Runner.exec 3 settle [1; 0] (Runner.start nat string 3 2) = Some p
  /\ (forall w1 w2 i,
        nth_error (Runner.workers p) w1 = Some (Runner.Awaiting i) ->
        nth_error (Runner.workers p) w2 = Some (Runner.Awaiting i) -> w1 = w2)
  /\ (forall w i,
        nth_error (Runner.workers p) w = Some (Runner.Awaiting i) ->
        nth_error (Runner.results p) i = Some None)
  /\ (forall j, Runner.index p <= j -> j < 3 ->
        nth_error (Runner.results p) j = Some None).
Proof.
  cbv zeta.
  assert (H : Runner.exec 3 (fun i : nat => @inl nat string (i * i)) [1; 0]
                (Runner.start nat string 3 2)
              = Some ({| Runner.index := 3;
                         Runner.results := [Some 0; Some 1; None];
                         Runner.workers := [Runner.Done; Runner.Awaiting 2];
                         Runner.rejection := None |} : Runner.pool nat string))
    by (vm_compute; reflexivity).
  exact (conj H (runWithConcurrency_claims_once nat string 3 2 _ [1; 0] _ H)).
Defined.

(** X24. A run of [runWithConcurrency] with a positive bound that is
    fulfilled has seen exactly as many promises settle as there are tasks.
    With the bound 0 there is no worker: the returned promise is fulfilled
    at once with an array of empty slots and no task is ever started. *)
Theorem runWithConcurrency_step_count (T E : Type) (taskCount : nat)
    (settle : nat -> T + E) :
  (forall concurrency schedule p rs,
     0 < concurrency ->
     Runner.exec taskCount settle schedule (Runner.start T E taskCount concurrency)
     = Some p ->
     Runner.outcome p = Runner.Fulfilled rs ->
     List.length schedule = taskCount)
  /\ Runner.outcome (Runner.start T E taskCount 0)
     = Runner.Fulfilled (repeat None taskCount)
  /\ (forall w, Runner.step taskCount settle w (Runner.start T E taskCount 0) = None).
Proof.
  split; [|split].
  - intros concurrency schedule p rs. apply fulfilled_steps.
  - rewrite start_shape. reflexivity.
  - intros w. rewrite start_shape. unfold Runner.step. cbn [Runner.workers Nat.min seq map].
    now destruct w.
Qed.

(** ** What the per-document sync never does *)

Section SyncOneDocCalls.

Variable notion : NotionClient.
Variable markdownToBlocks : string -> conversion.

Lemma Set_has_add (x y : string) (set : StringSet) :
  Set_has x (Set_add y set) = true <-> x = y \/ Set_has x set = true.
Proof.
  unfold Set_add. destruct (Set_has y set) eqn:Ey.
  - split; [now right|]. intros [->|H]; assumption.
  - rewrite !Set_has_In, in_app_iff. cbn [In]. split.
    + intros [H|[->|[]]]; [right | left]; auto.
    + intros [->|H]; [right; now left | now left].
Qed.

(** How an identifier is resolved: at most one retrieval; an identifier is
    returned only if it is validated afterwards; and the validated set gains
    at most that identifier, and only when the client has the page. *)
Lemma resolveExistingDocPageId_run (pageId : string) (s : state) :
  JS.trim pageId = pageId ->
  let run := resolveExistingDocPageId notion (Some pageId) s in
  files (snd run) = files s
  /\ (calls (snd run) = calls s \/ calls (snd run) = calls s ++ [PagesRetrieve pageId])
  /\ (forall x, fst run = inl (Some x) ->
        x = pageId /\ Set_has x (validatedPageIds (snd run)) = true)
  /\ (forall x, Set_has x (validatedPageIds (snd run)) = true ->
        Set_has x (validatedPageIds s) = true
        \/ (x = pageId /\ exists page, pages_retrieve notion (calls s) pageId = inl page)).
Proof.
  intros Htrim. cbv zeta. unfold resolveExistingDocPageId. rewrite Htrim.
  destruct (String.eqb pageId EmptyString).
  - cbn [ret fst snd]. split; [reflexivity|]. split; [now left|].
    split; [discriminate | auto].
  - unfold bind, isValidated.
    destruct (Set_has pageId (validatedPageIds s)) eqn:Hknown.
    + cbn [ret fst snd]. split; [reflexivity|]. split; [now left|].
      split; [|auto]. intros x [= <-]. auto.
    + unfold notionRetrievePageIfExists, request.
      destruct (pages_retrieve notion (calls s) pageId) as [page|e] eqn:Hpage.
      * unfold validate. cbn [ret fst snd calls files validatedPageIds].
        split; [reflexivity|]. split; [now right|]. split.
        -- intros x [= <-]. split; [reflexivity|]. apply Set_has_add. now left.
        -- intros x Hx. apply Set_has_add in Hx as [->|Hx]; [right | left]; eauto.
      * destruct (is_not_found e); cbn [ret fst snd calls files validatedPageIds];
          (split; [reflexivity|]); (split; [now right|]);
          (split; [discriminate | auto]).
Qed.

Lemma appendChunks_creation_calls (pageId : string) (rest : list (list NotionBlock))
    (s : state) :
  exists cs, snd (appendChunks notion pageId rest s) = with_calls s cs
             /\ forallb is_creation_call cs = true.
Proof.
  destruct (appendChunks_stops notion pageId rest s) as (n & _ & Hs & _).
  exists (map (BlocksAppend pageId) (firstn n rest)). split; [exact Hs|].
  apply forallb_forall. intros c Hc. apply in_map_iff in Hc as (chunk & <- & _).
  reflexivity.
Qed.

Lemma createSubpage_creation_calls (parentPageId title : string)
    (blockChunks : list (list NotionBlock)) (s : state) :
  exists cs, snd (createSubpage notion parentPageId title blockChunks s) = with_calls s cs
             /\ forallb is_creation_call cs = true.
Proof.
  unfold createSubpage, bind.
  pose proof (request_state (PagesCreate parentPageId title (hd_error blockChunks))
                (fun h => pages_create notion h parentPageId title (hd_error blockChunks))
                s) as Hs.
  destruct (request _ _ s) as [[page|e] s1]; cbn [snd] in Hs; subst s1.
  - destruct (appendChunks_creation_calls (id page) (tl blockChunks)
                (with_calls s [PagesCreate parentPageId title (hd_error blockChunks)]))
      as (cs & Hcs & Hall).
    exists (PagesCreate parentPageId title (hd_error blockChunks) :: cs). split.
    + destruct (appendChunks notion (id page) (tl blockChunks) _) as [[[]|e] s2];
        cbn [snd ret] in *; subst s2; now rewrite with_calls_app.
    + cbn [forallb is_creation_call]. exact Hall.
  - exists [PagesCreate parentPageId title (hd_error blockChunks)]. auto.
Qed.

(** The end of both branches of [syncOneDoc]: creation calls only, and the
    validated identifiers as they were. *)
Lemma create_then_write_calls (parentPageId docTitle path : string)
    (chunks : list (list NotionBlock)) (r : SyncResult)
    (mk : string -> string) (s1 : state) :
  let run := (newPageId <- createSubpage notion parentPageId docTitle chunks ;;
              writeFileSync path (mk newPageId) ;;; ret r) s1 in
  exists cs,
    calls (snd run) = calls s1 ++ cs
    /\ forallb is_creation_call cs = true
    /\ validatedPageIds (snd run) = validatedPageIds s1.
Proof.
  cbv zeta. unfold bind.
  destruct (createSubpage_creation_calls parentPageId docTitle chunks s1)
    as (cs & Hs & Hall).
  exists cs.
  destruct (createSubpage notion parentPageId docTitle chunks s1)
    as [[newPageId|e] s2]; cbn [snd] in Hs; subst s2; [|auto].
  unfold writeFileSync. cbn [files with_calls].
  destruct (write_path _ _ (files s1)); cbn [ret snd calls validatedPageIds]; auto.
Qed.

End SyncOneDocCalls.

(** X25. The sync of a document trashes at most the page its file records,
    and only after the client has confirmed that page in this run: every
    trashing call it makes is for the identifier decoded from the file, and
    that identifier is then in the validated set.  The validated set only
    grows, by identifiers whose page the client returned; and the sync
    never lists children. *)
Theorem syncOneDoc_trashes_only_validated
    (notion : NotionClient) (markdownToBlocks : string -> conversion)
    (rootPageId : string) (folderPageCache : StringMap) (path : string) (s : state) :
  let run := syncOneDoc notion markdownToBlocks rootPageId folderPageCache path s in
  exists cs,
    calls (snd run) = calls s ++ cs
    /\ (forall x, In (PagesTrash x) cs ->
          Set_has x (validatedPageIds (snd run)) = true
          /\ exists raw,
               read_path (JS.split_char "/" path) (files s) = Some raw
               /\ notionPageId (parseMdWithNotionId raw) = Some x)
    /\ (forall x, Set_has x (validatedPageIds (snd run)) = true ->
          Set_has x (validatedPageIds s) = true
          \/ exists page, pages_retrieve notion (calls s) x = inl page)
    /\ (forall parentId cursor, ~ In (BlocksList parentId cursor) cs).
Proof.
  cbv zeta. unfold syncOneDoc.
  assert (Hnothing : forall (r : SyncResult + error),
    exists cs : list call,
      calls (snd (r, s)) = calls s ++ cs
      /\ (forall x, In (PagesTrash x) cs ->
            Set_has x (validatedPageIds (snd (r, s))) = true
            /\ exists raw,
                 read_path (JS.split_char "/" path) (files s) = Some raw
                 /\ notionPageId (parseMdWithNotionId raw) = Some x)
      /\ (forall x, Set_has x (validatedPageIds (snd (r, s))) = true ->
            Set_has x (validatedPageIds s) = true
            \/ exists page, pages_retrieve notion (calls s) x = inl page)
      /\ (forall parentId cursor, ~ In (BlocksList parentId cursor) cs)).
  { intros r. exists []. cbn [snd]. rewrite app_nil_r.
    split; [reflexivity|]. split; [intros x []|]. split; [auto|].
    intros parentId cursor []. }
  destruct (read_path (JS.split_char "/" path) (files s)) as [raw|] eqn:Hread.
  2:{ assert (Hfail : readFileSync path s = (inr (FileFailure path), s))
        by (unfold readFileSync; now rewrite Hread).
      rewrite (bind_fail _ _ _ _ _ Hfail). apply Hnothing. }
  assert (Hread' : readFileSync path s = (inl raw, s))
    by (unfold readFileSync; now rewrite Hread).
  rewrite (bind_ok _ _ _ _ _ Hread').
  destruct (chunkBlocks (convertMarkdownToNotionBlocks markdownToBlocks
                           (body (parseMdWithNotionId raw)))
                        NOTION_BLOCK_CHUNK_SIZE) as [chunks|] eqn:Hchunks.
  2:{ cbn [orFail]. rewrite (bind_fail (throw Unfinished) _ s s Unfinished eq_refl).
      apply Hnothing. }
  cbn [orFail]. rewrite (bind_ok (ret chunks) _ s s chunks eq_refl).
  destruct (notionPageId (parseMdWithNotionId raw)) as [pageId|] eqn:Hid.
  - destruct (notionPageId_trimmed raw pageId Hid) as [Htrim _].
    destruct (resolveExistingDocPageId_run notion pageId s Htrim)
      as (Hfiles & Hcalls & Hsome & Hval).
    destruct (resolveExistingDocPageId notion (Some pageId) s)
      as [[existing|e] s1] eqn:Hr; cbn [fst snd] in *.
    2:{ rewrite (bind_fail _ _ _ _ _ Hr). cbn [snd].
        exists (if Nat.eqb (List.length (calls s1)) (List.length (calls s)) then []
                else [PagesRetrieve pageId]).
        destruct Hcalls as [Hc|Hc]; rewrite Hc.
        - rewrite Nat.eqb_refl, app_nil_r.
          split; [reflexivity|]. split; [intros x []|]. split.
          + intros x Hx. destruct (Hval x Hx) as [H|[-> H]]; auto.
          + intros parentId cursor [].
        - rewrite length_app. cbn [List.length].
          destruct (Nat.eqb_spec (List.length (calls s) + 1) (List.length (calls s)));
            [lia|].
          split; [reflexivity|]. split; [|split].
          + intros x [H|[]]. discriminate.
          + intros x Hx. destruct (Hval x Hx) as [H|[-> H]]; auto.
          + intros parentId cursor [H|[]]. discriminate. }
    rewrite (bind_ok _ _ _ _ _ Hr).
    assert (Hpre : exists pre,
      calls s1 = calls s ++ pre
      /\ (forall x, ~ In (PagesTrash x) pre)
      /\ (forall parentId cursor, ~ In (BlocksList parentId cursor) pre)).
    { destruct Hcalls as [Hc|Hc].
      - exists []. rewrite Hc, app_nil_r.
        split; [reflexivity|]. split; [intros x [] | intros parentId cursor []].
      - exists [PagesRetrieve pageId]. split; [exact Hc|].
        split; [intros x [H|[]] | intros parentId cursor [H|[]]]; discriminate. }
    destruct Hpre as (pre & Hpre & Hpre_trash & Hpre_list).
    assert (Hval' : forall x, Set_has x (validatedPageIds s1) = true ->
              Set_has x (validatedPageIds s) = true
              \/ exists page, pages_retrieve notion (calls s) x = inl page).
    { intros x Hx. destruct (Hval x Hx) as [H|[-> H]]; auto. }
    destruct existing as [existing|].
    + destruct (Hsome existing eq_refl) as [-> Hvalidated].
      unfold sendPageToTrash.
      destruct (request (PagesTrash pageId)
                  (fun h => pages_update_trash notion h pageId) s1)
        as [[[]|e] s2] eqn:Hreq.
      * pose proof (request_state (PagesTrash pageId)
                      (fun h => pages_update_trash notion h pageId) s1) as Hs2.
        rewrite Hreq in Hs2. cbn [snd] in Hs2. subst s2.
        rewrite (bind_ok _ _ _ _ _ Hreq).
        destruct (create_then_write_calls notion
                    (resolveNotionParentId rootPageId (folderTitle (parseRelPath path))
                       folderPageCache)
                    (docTitle (parseRelPath path)) path chunks
                    {| action := updated; title := docTitle (parseRelPath path);
                       relPath := path;
                       parent_label := match folderTitle (parseRelPath path) with
                                       | Some t => t
                                       | None => "(root)"
                                       end |}
                    (fun newPageId => stringifyMdWithNotionId
                       (body (parseMdWithNotionId raw)) (data (parseMdWithNotionId raw))
                       newPageId)
                    (with_calls s1 [PagesTrash pageId]))
          as (cs & Hcs & Hall & Hv).
        cbv zeta in Hcs, Hv.
        exists (pre ++ PagesTrash pageId :: cs).
        rewrite Hcs, Hv. cbn [with_calls calls validatedPageIds].
        rewrite Hpre, <- !app_assoc. cbn [app].
        rewrite forallb_forall in Hall.
        split; [reflexivity|]. split; [|split; [exact Hval'|]].
        -- intros x Hx. apply in_app_iff in Hx as [Hx|[[= <-]|Hx]].
           ++ now apply Hpre_trash in Hx.
           ++ split; [exact Hvalidated|]. exists raw. auto.
           ++ apply Hall in Hx. discriminate.
        -- intros parentId cursor Hx. apply in_app_iff in Hx as [Hx|[Hx|Hx]].
           ++ now apply Hpre_list in Hx.
           ++ discriminate.
           ++ apply Hall in Hx. discriminate.
      * pose proof (request_state (PagesTrash pageId)
                      (fun h => pages_update_trash notion h pageId) s1) as Hs2.
        rewrite Hreq in Hs2. cbn [snd] in Hs2. subst s2.
        rewrite (bind_fail _ _ _ _ _ Hreq). cbn [snd with_calls calls validatedPageIds].
        exists (pre ++ [PagesTrash pageId]).
        rewrite Hpre, <- app_assoc.
        split; [reflexivity|]. split; [|split; [exact Hval'|]].
        -- intros x Hx. apply in_app_iff in Hx as [Hx|[[= <-]|[]]].
           ++ now apply Hpre_trash in Hx.
           ++ split; [exact Hvalidated|]. exists raw. auto.
        -- intros parentId cursor Hx. apply in_app_iff in Hx as [Hx|[Hx|[]]].
           ++ now apply Hpre_list in Hx.
           ++ discriminate.
    + destruct (create_then_write_calls notion
                  (resolveNotionParentId rootPageId (folderTitle (parseRelPath path))
                     folderPageCache)
                  (docTitle (parseRelPath path)) path chunks
                  {| action := created; title := docTitle (parseRelPath path);
                     relPath := path;
                     parent_label := match folderTitle (parseRelPath path) with
                                     | Some t => t
                                     | None => "(root)"
                                     end |}
                  (fun newPageId => stringifyMdWithNotionId
                     (body (parseMdWithNotionId raw)) (data (parseMdWithNotionId raw))
                     newPageId) s1)
        as (cs & Hcs & Hall & Hv).
      cbv zeta in Hcs, Hv.
      exists (pre ++ cs). rewrite Hcs, Hv, Hpre, <- app_assoc.
      rewrite forallb_forall in Hall.
      split; [reflexivity|]. split; [|split; [exact Hval'|]].
      * intros x Hx. apply in_app_iff in Hx as [Hx|Hx].
        -- now apply Hpre_trash in Hx.
        -- apply Hall in Hx. discriminate.
      * intros parentId cursor Hx. apply in_app_iff in Hx as [Hx|Hx].
        -- now apply Hpre_list in Hx.
        -- apply Hall in Hx. discriminate.
  - assert (Hnone : resolveExistingDocPageId notion None s = (inl None, s))
      by reflexivity.
    rewrite (bind_ok _ _ _ _ _ Hnone).
    destruct (create_then_write_calls notion
                (resolveNotionParentId rootPageId (folderTitle (parseRelPath path))
                   folderPageCache)
                (docTitle (parseRelPath path)) path chunks
                {| action := created; title := docTitle (parseRelPath path);
                   relPath := path;
                   parent_label := match folderTitle (parseRelPath path) with
                                   | Some t => t
                                   | None => "(root)"
                                   end |}
                (fun newPageId => stringifyMdWithNotionId
                   (body (parseMdWithNotionId raw)) (data (parseMdWithNotionId raw))
                   newPageId) s)
      as (cs & Hcs & Hall & Hv).
    cbv zeta in Hcs, Hv.
    exists cs. rewrite Hcs, Hv. rewrite forallb_forall in Hall.
    split; [reflexivity|]. split; [|split; [auto|]].
    + intros x Hx. apply Hall in Hx. discriminate.
    + intros parentId cursor Hx. apply Hall in Hx. discriminate.
Qed.

(** ** A whole run with one worker *)

Section SequentialRun.

Variable notion : NotionClient.
Variable markdownToBlocks : string -> conversion.

Lemma concat_split_char (s : string) :
  String.concat "/" (JS.split_char "/" s) = s.
Proof.
  induction s as [|c s IH]; [reflexivity|]. cbn [JS.split_char].
  destruct (Ascii.eqb_spec c "/") as [->|Hc].
  - destruct (JS.split_char "/" s) as [|h t] eqn:E.
    + cbn in IH. now subst s.
    + change (String.concat "/" (EmptyString :: h :: t))
        with (EmptyString +++ String "/" (String.concat "/" (h :: t))).
      now rewrite IH.
  - destruct (JS.split_char "/" s) as [|h t] eqn:E.
    + cbn in IH. now subst s.
    + destruct t as [|h2 t].
      * cbn [String.concat] in *. now subst.
      * change (String.concat "/" (String c h :: h2 :: t))
          with (String c (h +++ String "/" (String.concat "/" (h2 :: t)))).
        change (String.concat "/" (h :: h2 :: t))
          with (h +++ String "/" (String.concat "/" (h2 :: t))) in IH.
        now rewrite IH.
Qed.

Lemma split_char_inj (a b : string) :
  JS.split_char "/" a = JS.split_char "/" b -> a = b.
Proof.
  intros H. rewrite <- (concat_split_char a), <- (concat_split_char b). now rewrite H.
Qed.

Lemma prePassTask_files (relPath : string) (cache : StringMap) (s : state) :
  files (snd (prePassTask notion relPath cache s)) = files s.
Proof.
  unfold prePassTask, bind, readFileSync.
  destruct (read_path _ (files s)) as [raw|]; [|reflexivity].
  destruct (notionPageId (parseMdWithNotionId raw)) as [pageId|]; [|reflexivity].
  unfold notionRetrievePageIfExists, request.
  destruct (pages_retrieve notion (calls s) pageId) as [page|e].
  - unfold validate. destruct (folderTitle (parseRelPath relPath)); [|reflexivity].
    destruct (getParentPageId page) as [parentId|]; [|reflexivity].
    destruct (negb (String.eqb parentId EmptyString)); reflexivity.
  - destruct (is_not_found e); reflexivity.
Qed.

Lemma prePass_files (mdFiles : list string) (cache : StringMap) (s : state) :
  files (snd (prePass notion mdFiles cache s)) = files s.
Proof.
  revert cache s. induction mdFiles as [|p rest IH]; intros cache s; [reflexivity|].
  cbn [prePass]. unfold bind.
  pose proof (prePassTask_files p cache s) as Hp.
  destruct (prePassTask notion p cache s) as [[cache'|e] s1]; cbn [snd] in *;
    [|exact Hp].
  now rewrite IH.
Qed.

Lemma syncOneDoc_relPath (rootPageId : string) (folderPageCache : StringMap)
    (path : string) (s s' : state) (r : SyncResult) :
  syncOneDoc notion markdownToBlocks rootPageId folderPageCache path s = (inl r, s') ->
  relPath r = path.
Proof.
  unfold syncOneDoc, bind.
  destruct (readFileSync path s) as [[raw|e] s0]; [|discriminate].
  destruct (orFail _ s0) as [[chunks|e] s1]; [|discriminate].
  destruct (resolveExistingDocPageId notion _ s1) as [[[existing|]|e] s2];
    [| |discriminate].
  - destruct (sendPageToTrash notion existing s2) as [[[]|e] s3]; [|discriminate].
    destruct (createSubpage notion _ _ chunks s3) as [[newPageId|e] s4];
      [|discriminate].
    destruct (writeFileSync path _ s4) as [[[]|e] s5]; [|discriminate].
    cbn [ret]. now intros [= <- _].
  - destruct (createSubpage notion _ _ chunks s2) as [[newPageId|e] s4];
      [|discriminate].
    destruct (writeFileSync path _ s4) as [[[]|e] s5]; [|discriminate].
    cbn [ret]. now intros [= <- _].
Qed.

Hypothesis good : good_identifiers notion.

(** After a successful sync the file of the document holds an identifier,
    and its body is the old one. *)
Lemma syncOneDoc_identified (rootPageId : string) (folderPageCache : StringMap)
    (path : string) (s s' : state) (r : SyncResult) :
  syncOneDoc notion markdownToBlocks rootPageId folderPageCache path s = (inl r, s') ->
  (exists raw raw',
     read_path (JS.split_char "/" path) (files s) = Some raw
     /\ read_path (JS.split_char "/" path) (files s') = Some raw'
     /\ lacksPageId raw' = false
     /\ body (parseMdWithNotionId raw') = body (parseMdWithNotionId raw))
  /\ (forall other, other <> JS.split_char "/" path ->
        read_path other (files s') = read_path other (files s)).
Proof.
  intros Hrun.
  pose proof (syncOneDoc_files notion markdownToBlocks rootPageId folderPageCache
                path s) as H.
  cbv zeta in H. rewrite Hrun in H. cbn [fst snd] in H.
  destruct H as (raw & chunks & h & page & Hread & _ & Hpage & Hwrite).
  destruct (good _ _ _ _ _ Hpage) as [Hid Htrim].
  assert (Hwf : NoDup (map fst (data (parseMdWithNotionId raw)))
                /\ Forall (fun e => key_ok (fst e) = true
                                    /\ all_chars Regex.dot (snd e) = true)
                          (data (parseMdWithNotionId raw))).
  { destruct (parseMdWithNotionId_data raw) as [-> | [block ->]].
    - split; constructor.
    - apply parseFrontmatterBlock_well_formed. }
  destruct Hwf as [Hnd Hall].
  destruct (stringify_then_parse (body (parseMdWithNotionId raw))
              (data (parseMdWithNotionId raw)) (id page) Hnd Hall Hid Htrim)
    as [Hbody Hnew].
  split.
  - exists raw, (stringifyMdWithNotionId (body (parseMdWithNotionId raw))
                   (data (parseMdWithNotionId raw)) (id page)).
    split; [exact Hread|]. split; [exact (read_after_write _ _ _ _ Hwrite)|].
    split; [|exact Hbody].
    unfold lacksPageId. rewrite Hnew, Htrim.
    pose proof (value_ok_nonempty _ Hid) as Hne.
    now apply negb_true_iff in Hne.
  - intros other Hne. exact (read_other_after_write _ _ _ _ _ Hwrite Hne).
Qed.

(** The main pass with one worker: one result per document, in order; every
    document ends with an identifier and its old body; other paths are as
    before. *)
Lemma syncAll_identified (rootPageId : string) (folderPageCache : StringMap)
    (mdFiles : list string) :
  NoDup mdFiles ->
  forall (s s' : state) (results : list SyncResult),
    syncAll notion markdownToBlocks rootPageId folderPageCache mdFiles s
    = (inl results, s') ->
    map relPath results = mdFiles
    /\ (forall path, In path mdFiles ->
          exists raw raw',
            read_path (JS.split_char "/" path) (files s) = Some raw
            /\ read_path (JS.split_char "/" path) (files s') = Some raw'
            /\ lacksPageId raw' = false
            /\ body (parseMdWithNotionId raw') = body (parseMdWithNotionId raw))
    /\ (forall other, (forall path, In path mdFiles -> other <> JS.split_char "/" path) ->
          read_path other (files s') = read_path other (files s)).
Proof.
  induction mdFiles as [|p rest IH]; intros Hnd s s' results Hrun.
  - cbn [syncAll ret] in Hrun. injection Hrun as <- <-.
    split; [reflexivity|]. split; [intros path []|]. reflexivity.
  - inversion Hnd as [|? ? Hnotin Hnd']; subst.
    cbn [syncAll] in Hrun. unfold bind at 1 in Hrun.
    destruct (syncOneDoc notion markdownToBlocks rootPageId folderPageCache p s)
      as [[r|e] s1] eqn:Hone; [|discriminate].
    unfold bind in Hrun.
    destruct (syncAll notion markdownToBlocks rootPageId folderPageCache rest s1)
      as [[rs|e] s2] eqn:Hrest; [|discriminate].
    cbn [ret] in Hrun. injection Hrun as <- <-.
    destruct (syncOneDoc_identified _ _ _ _ _ _ Hone)
      as [(raw & raw' & Hread & Hread' & Hid & Hbody) Hother].
    destruct (IH Hnd' s1 s2 rs Hrest) as (Hmap & Hdocs & Hothers).
    assert (Hdiff : forall path, In path rest ->
              JS.split_char "/" path <> JS.split_char "/" p).
    { intros path Hin E. apply split_char_inj in E. now subst. }
    split; [|split].
    + cbn [map]. now rewrite (syncOneDoc_relPath _ _ _ _ _ _ Hone), Hmap.
    + intros path [<-|Hin].
      * exists raw, raw'. split; [exact Hread|]. split; [|auto].
        rewrite Hothers; [exact Hread'|].
        intros path Hin E. now apply (Hdiff path Hin).
      * destruct (Hdocs path Hin) as (raw1 & raw1' & Hr1 & Hr1' & Hid1 & Hb1).
        exists raw1, raw1'. split; [|auto].
        now rewrite <- (Hother _ (Hdiff path Hin)).
    + intros other Hne.
      rewrite Hothers by (intros path Hin; apply Hne; now right).
      apply Hother. apply Hne. now left.
Qed.

End SequentialRun.

Section SafeIdentifiers.

Lemma safe_char_facts (c : ascii) :
  safe_char c = true ->
  JS.is_space c = false /\ Regex.dot c = true /\ not_backslash c = true
  /\ (Ascii.eqb c Regex.LF || Ascii.eqb c Regex.DQ || Ascii.eqb c Regex.BSL
      || Ascii.eqb c ":") = false
  /\ Ascii.eqb Regex.SQ c = false.
Proof.
  destruct c as [[] [] [] [] [] [] [] []]; vm_compute; intros H;
    try discriminate; repeat split.
Qed.

Lemma trimEnd_no_space (s : string) :
  all_chars (fun c => negb (JS.is_space c)) s = true -> JS.trimEnd s = s.
Proof.
  induction s as [|c s IH]; [reflexivity|]. cbn [all_chars JS.trimEnd].
  intros H. apply andb_true_iff in H as [Hc Hs]. apply negb_true_iff in Hc.
  rewrite (IH Hs), Hc. now destruct s.
Qed.

(** A non-empty string of safe characters is an identifier the codec reads
    back. *)
Lemma safe_identifier_good (v : string) :
  v <> EmptyString -> all_chars safe_char v = true ->
  value_ok v = true /\ JS.trim v = v.
Proof.
  intros Hne Hsafe.
  assert (Hdot : all_chars Regex.dot v = true)
    by (apply (all_chars_impl safe_char); [intros c Hc; apply safe_char_facts, Hc | exact Hsafe]).
  assert (Hbs : all_chars not_backslash v = true)
    by (apply (all_chars_impl safe_char); [intros c Hc; apply safe_char_facts, Hc | exact Hsafe]).
  assert (Hsp : all_chars (fun c => negb (JS.is_space c)) v = true).
  { apply (all_chars_impl safe_char); [|exact Hsafe].
    intros c Hc. apply negb_true_iff. apply safe_char_facts, Hc. }
  assert (Hq : needs_quoting v = false).
  { clear -Hsafe. induction v as [|c v IH]; [reflexivity|].
    cbn [all_chars needs_quoting] in *. apply andb_true_iff in Hsafe as [Hc Hv].
    destruct (safe_char_facts c Hc) as (_ & _ & _ & Hn & _).
    now rewrite Hn, (IH Hv). }
  assert (Htrim : JS.trim v = v).
  { unfold JS.trim. rewrite trimStart_fixed.
    - now apply trimEnd_no_space.
    - destruct v as [|c v]; [reflexivity|]. cbn [all_chars head_not] in *.
      now apply andb_true_iff in Hsp as [Hc _]. }
  split; [|exact Htrim].
  unfold value_ok. rewrite Hdot, Hbs, Hq, Htrim, String.eqb_refl.
  destruct v as [|c v]; [congruence|].
  cbn [String.eqb negb andb orb]. unfold JS.startsWith. cbn [JS.has_prefix].
  cbn [all_chars] in Hsafe. apply andb_true_iff in Hsafe as [Hc _].
  destruct (safe_char_facts c Hc) as (_ & _ & _ & _ & Hsq).
  now rewrite Hsq.
Qed.

Lemma string_of_uint_safe (u : Decimal.uint) :
  all_chars safe_char (DecimalString.NilEmpty.string_of_uint u) = true.
Proof. induction u; cbn [DecimalString.NilEmpty.string_of_uint all_chars]; auto. Qed.

Lemma sample_client_good : good_identifiers sample_client.
Proof.
  intros h p t c page. cbn [sample_client pages_create]. intros [= <-].
  cbn [id sample_page]. apply safe_identifier_good; [discriminate|].
  cbn [all_chars]. unfold string_of_nat.
  now rewrite string_of_uint_safe.
Qed.

End SafeIdentifiers.

Section WritesKeepTheDirectory.

Lemma write_file_keeps (name text old : string) (entries entries' : list dirent) :
  find_file name entries = Some old ->
  write_file name text entries = Some entries' ->
  map entry_name entries' = map entry_name entries
  /\ (forallb entry_ok entries = true -> forallb entry_ok entries' = true).
Proof.
  unfold find_file. revert entries'.
  induction entries as [|e rest IH]; intros entries'; [discriminate|].
  cbn [find_entry write_file].
  destruct (String.eqb_spec (entry_name e) name) as [E|E].
  - destruct e as [n t| |]; try discriminate. cbn [entry_name] in E. subst n.
    intros _ [= <-]. cbn [map entry_name forallb entry_ok]. auto.
  - intros Hfind. destruct (write_file name text rest) as [rest'|]; [|discriminate].
    cbn [option_map]. intros [= <-].
    destruct (IH rest' Hfind eq_refl) as [Hnames Hok].
    cbn [map forallb]. rewrite Hnames. split; [reflexivity|].
    intros H. apply andb_true_iff in H as [He Hrest]. now rewrite He, Hok.
Qed.

(** Rewriting a file that exists keeps every name of the directory. *)
Lemma write_path_keeps (segments : list string) (text : string) :
  forall (entries entries' : list dirent) (old : string),
    read_path segments entries = Some old ->
    write_path segments text entries = Some entries' ->
    map entry_name entries' = map entry_name entries
    /\ (forallb entry_ok entries = true -> forallb entry_ok entries' = true).
Proof.
  induction segments as [|seg rest IH]; intros entries entries' old; [discriminate|].
  destruct rest as [|seg2 rest].
  - cbn [read_path write_path]. apply write_file_keeps.
  - rewrite read_path_cons, write_path_cons. intros Hread Hwrite.
    destruct (update_dir_read _ _ _ _ Hwrite) as (sub & sub' & Hsub & Hf & _).
    rewrite Hsub in Hread.
    assert (Hgen : forall es es',
      find_dir seg es = Some sub ->
      update_dir seg (write_path (seg2 :: rest) text) es = Some es' ->
      map entry_name es' = map entry_name es
      /\ (forallb entry_ok es = true -> forallb entry_ok es' = true)).
    { unfold find_dir. induction es as [|e es IHes]; intros es'; [discriminate|].
      cbn [find_entry update_dir].
      destruct (String.eqb_spec (entry_name e) seg) as [E|E].
      - destruct e as [| n sub0 |]; try discriminate. intros [= ->].
        cbn [entry_name] in E. subst n.
        destruct (write_path (seg2 :: rest) text sub) as [sub1|] eqn:Hw; [|discriminate].
        cbn [option_map]. intros [= <-].
        destruct (IH sub sub1 old Hread Hw) as [Hnames Hok].
        cbn [map entry_name forallb entry_ok]. split; [reflexivity|].
        intros H. apply andb_true_iff in H as [He Hrest].
        apply andb_true_iff in He as [He Hd]. apply andb_true_iff in He as [Hn Hs].
        now rewrite Hn, (Hok Hs), Hnames, Hd, Hrest.
      - intros Hfind.
        destruct (update_dir seg (write_path (seg2 :: rest) text) es) as [es1|];
          [|discriminate].
        cbn [option_map]. intros [= <-].
        destruct (IHes es1 Hfind eq_refl) as [Hnames Hok].
        cbn [map forallb]. rewrite Hnames. split; [reflexivity|].
        intros H. apply andb_true_iff in H as [He Hrest]. now rewrite He, Hok. }
    now apply Hgen.
Qed.

Lemma write_path_docs_ok (segments : list string) (text old : string)
    (entries entries' : list dirent) :
  read_path segments entries = Some old ->
  write_path segments text entries = Some entries' ->
  docs_ok entries = true -> docs_ok entries' = true.
Proof.
  intros Hread Hwrite. unfold docs_ok. intros H.
  apply andb_true_iff in H as [Hok Hd].
  destruct (write_path_keeps _ _ _ _ _ Hread Hwrite) as [Hnames Hkeep].
  now rewrite (Hkeep Hok), Hnames, Hd.
Qed.

End WritesKeepTheDirectory.

Section SequentialRunWhole.

Variable notion : NotionClient.
Variable markdownToBlocks : string -> conversion.

Lemma syncOneDoc_docs_ok (rootPageId : string) (folderPageCache : StringMap)
    (path : string) (s s' : state) (r : SyncResult) :
  syncOneDoc notion markdownToBlocks rootPageId folderPageCache path s = (inl r, s') ->
  docs_ok (files s) = true -> docs_ok (files s') = true.
Proof.
  intros Hrun.
  pose proof (syncOneDoc_files notion markdownToBlocks rootPageId folderPageCache
                path s) as H.
  cbv zeta in H. rewrite Hrun in H. cbn [fst snd] in H.
  destruct H as (raw & chunks & h & page & Hread & _ & _ & Hwrite).
  exact (write_path_docs_ok _ _ _ _ _ Hread Hwrite).
Qed.

Lemma syncAll_docs_ok (rootPageId : string) (folderPageCache : StringMap)
    (mdFiles : list string) :
  forall (s s' : state) (results : list SyncResult),
    syncAll notion markdownToBlocks rootPageId folderPageCache mdFiles s
    = (inl results, s') ->
    docs_ok (files s) = true -> docs_ok (files s') = true.
Proof.
  induction mdFiles as [|p rest IH]; intros s s' results Hrun.
  - cbn [syncAll ret] in Hrun. now injection Hrun as _ <-.
  - cbn [syncAll] in Hrun. unfold bind at 1 in Hrun.
    destruct (syncOneDoc notion markdownToBlocks rootPageId folderPageCache p s)
      as [[r|e] s1] eqn:Hone; [|discriminate].
    unfold bind in Hrun.
    destruct (syncAll notion markdownToBlocks rootPageId folderPageCache rest s1)
      as [[rs|e] s2] eqn:Hrest; [|discriminate].
    cbn [ret] in Hrun. injection Hrun as _ <-.
    intros Hok. apply (IH _ _ _ Hrest). exact (syncOneDoc_docs_ok _ _ _ _ _ _ Hone Hok).
Qed.

(** The list of documents of a run is made without changing anything, and
    has no duplicates. *)
Lemma mdFilesOf_run (optionalRelPaths : option (list string)) (s : state) :
  docs_ok (files s) = true ->
  exists mdFiles,
    mdFilesOf optionalRelPaths s = (inl mdFiles, s)
    /\ NoDup mdFiles
    /\ (forall y, In y (collectMdFiles (files s) EmptyString) -> unsynced s y ->
          In y mdFiles)
    /\ (optionalRelPaths = None -> mdFiles = collectMdFiles (files s) EmptyString).
Proof.
  intros Hok. destruct optionalRelPaths as [paths|].
  - destruct (Set_of_spec paths) as [Hnd Hin].
    destruct (addDocsWithoutPageId_loop_spec
                (collectMdFiles (files s) EmptyString) (Set_of paths) s Hnd
                (fun p Hp => collectMdFiles_readable (files s) p Hok Hp))
      as (set' & Hrun & Hnd' & Hin').
    exists (sort_strings set'). split; [|split; [|split]].
    + cbn [mdFilesOf]. unfold bind, addDocsWithoutPageId. now rewrite Hrun.
    + now apply sort_strings_NoDup.
    + intros y Hy Hu. apply sort_strings_In, Hin'. now right.
    + discriminate.
  - exists (collectMdFiles (files s) EmptyString). split; [reflexivity|].
    split; [now apply collectMdFiles_NoDup|]. auto.
Qed.

Hypothesis good : good_identifiers notion.

(** A successful run with one worker, as a whole. *)
Lemma runSync_sequential_run (fuel : nat) (rootPageId : string)
    (optionalRelPaths : option (list string)) (s s' : state)
    (results : list SyncResult) :
  docs_ok (files s) = true ->
  runSync_sequential notion markdownToBlocks fuel rootPageId optionalRelPaths s
  = (inl results, s') ->
  exists mdFiles,
    mdFilesOf optionalRelPaths s = (inl mdFiles, s)
    /\ map relPath results = mdFiles
    /\ (forall path, In path mdFiles ->
          exists raw raw',
            read_path (JS.split_char "/" path) (files s) = Some raw
            /\ read_path (JS.split_char "/" path) (files s') = Some raw'
            /\ lacksPageId raw' = false
            /\ body (parseMdWithNotionId raw') = body (parseMdWithNotionId raw))
    /\ (forall other, (forall path, In path mdFiles -> other <> JS.split_char "/" path) ->
          read_path other (files s') = read_path other (files s))
    /\ docs_ok (files s') = true.
Proof.
  intros Hok Hrun.
  destruct (mdFilesOf_run optionalRelPaths s Hok) as (mdFiles & Hmd & Hnd & _).
  exists mdFiles. split; [exact Hmd|].
  unfold runSync_sequential in Hrun. rewrite (bind_ok _ _ _ _ _ Hmd) in Hrun.
  destruct mdFiles as [|p rest].
  - cbn [ret] in Hrun. injection Hrun as <- <-.
    split; [reflexivity|]. split; [intros path []|]. split; [reflexivity | exact Hok].
  - unfold bind at 1 in Hrun. cbn [newValidatedPageIds] in Hrun.
    set (s0 := {| calls := calls s; files := files s; validatedPageIds := [] |}) in *.
    unfold bind at 1 in Hrun.
    pose proof (prePass_files notion (p :: rest) [] s0) as Hpre.
    destruct (prePass notion (p :: rest) [] s0) as [[cache0|e] s1]; [|discriminate].
    cbn [snd] in Hpre. unfold bind at 1 in Hrun.
    destruct (ensureFolderPagesCache notion fuel rootPageId
                (getUniqueFolderTitles (p :: rest)) cache0 s1)
      as [[cache|e] s2] eqn:Hens; [|discriminate].
    destruct (ensureFolderPages_loop_run notion fuel rootPageId _ _ _ _ _ Hens)
      as (_ & _ & cs & Hs2 & _).
    assert (Hfiles : files s2 = files s) by (rewrite Hs2; exact Hpre).
    destruct (syncAll_identified notion markdownToBlocks good rootPageId cache
                (p :: rest) Hnd s2 s' results Hrun) as (Hmap & Hdocs & Hothers).
    rewrite Hfiles in Hdocs, Hothers.
    split; [exact Hmap|]. split; [exact Hdocs|]. split; [exact Hothers|].
    apply (syncAll_docs_ok rootPageId cache (p :: rest) s2 s' results Hrun).
    now rewrite Hfiles.
Qed.

(** After a successful run no collected document lacks an identifier. *)
Lemma runSync_sequential_leaves_none (fuel : nat) (rootPageId : string)
    (optionalRelPaths : option (list string)) (s s' : state)
    (results : list SyncResult) :
  docs_ok (files s) = true ->
  runSync_sequential notion markdownToBlocks fuel rootPageId optionalRelPaths s
  = (inl results, s') ->
  forall y, In y (collectMdFiles (files s') EmptyString) -> ~ unsynced s' y.
Proof.
  intros Hok Hrun y Hy (text & Htext & Hlacks).
  destruct (runSync_sequential_run fuel rootPageId optionalRelPaths s s' results
              Hok Hrun) as (mdFiles & Hmd & _ & Hdocs & Hothers & Hok').
  destruct (mdFilesOf_run optionalRelPaths s Hok) as (mdFiles' & Hmd' & _ & Hunsynced & _).
  rewrite Hmd in Hmd'. injection Hmd' as <-.
  destruct (in_dec string_dec y mdFiles) as [Hin|Hnotin].
  - destruct (Hdocs y Hin) as (raw & raw' & _ & Hraw' & Hid & _).
    rewrite Htext in Hraw'. injection Hraw' as <-. congruence.
  - assert (Hsame : read_path (JS.split_char "/" y) (files s')
                    = read_path (JS.split_char "/" y) (files s)).
    { apply Hothers. intros path Hin E. apply split_char_inj in E. now subst. }
    rewrite Htext in Hsame. symmetry in Hsame.
    apply Hnotin, Hunsynced; [|now exists text].
    apply (collectMdFiles_In (files s) y Hok).
    apply (collectMdFiles_In (files s') y Hok') in Hy.
    destruct Hy as (segments & text' & -> & Hread & Hmdext).
    exists segments, text'. split; [reflexivity|]. split; [|exact Hmdext].
    rewrite <- Hread. symmetry. apply Hothers.
    intros path Hin E.
    assert (Hplain : Forall (fun seg => no_slash seg = true) segments)
      by exact (read_path_plain _ _ _ (docs_ok_entries _ Hok') Hread).
    assert (Hne : segments <> []) by (intros ->; discriminate).
    apply Hnotin. rewrite E, concat_split_char. exact Hin.
Qed.

End SequentialRunWhole.

(** X26. A successful run with one worker leaves every document it worked
    on with an identifier.  On a docs directory with plain and distinct
    names and with a client whose new pages have good identifiers, a run
    that returns gives one result per document of its list, in the order of
    the list; the file of each of these documents then holds an identifier
    and decodes to the body it had before; and every other path reads as
    before. *)
Theorem runSync_sequential_identifies_documents
    (notion : NotionClient) (markdownToBlocks : string -> conversion)
    (fuel : nat) (rootPageId : string) (optionalRelPaths : option (list string))
    (s s' : state) (results : list SyncResult) :
  docs_ok (files s) = true ->
  good_identifiers notion ->
  runSync_sequential notion markdownToBlocks fuel rootPageId optionalRelPaths s
  = (inl results, s') ->
  exists mdFiles,
    mdFilesOf optionalRelPaths s = (inl mdFiles, s)
    /\ map relPath results = mdFiles
    /\ (forall path, In path mdFiles ->
          exists raw raw',
            read_path (JS.split_char "/" path) (files s) = Some raw
            /\ read_path (JS.split_char "/" path) (files s') = Some raw'
            /\ lacksPageId raw' = false
            /\ body (parseMdWithNotionId raw') = body (parseMdWithNotionId raw))
    /\ (forall other, (forall path, In path mdFiles -> other <> JS.split_char "/" path) ->
          read_path other (files s') = read_path other (files s)).
Proof.
  intros Hok Hgood Hrun.
  destruct (runSync_sequential_run notion markdownToBlocks Hgood fuel rootPageId
              optionalRelPaths s s' results Hok Hrun)
    as (mdFiles & Hmd & Hmap & Hdocs & Hothers & _).
  exists mdFiles. auto.
Qed.

Lemma runSync_sequential_identifies_documents_witness :
  docs_ok (files sample_state) = true
  /\ exists results s',
       runSync_sequential sample_client sample_converter 5 "root" None sample_state
       = (inl results, s')
       /\ exists mdFiles,
            mdFilesOf None sample_state = (inl mdFiles, sample_state)
            /\ map relPath results = mdFiles
            /\ (forall path, In path mdFiles ->
                  exists raw raw',
                    read_path (JS.split_char "/" path) (files sample_state) = Some raw
                    /\ read_path (JS.split_char "/" path) (files s') = Some raw'
                    /\ lacksPageId raw' = false
                    /\ body (parseMdWithNotionId raw') = body (parseMdWithNotionId raw))
            /\ (forall other,
                  (forall path, In path mdFiles -> other <> JS.split_char "/" path) ->
                  read_path other (files s') = read_path other (files sample_state)).
Proof.
  assert (Hok : docs_ok (files sample_state) = true) by (vm_compute; reflexivity).
  split; [exact Hok|]. eexists. eexists.
  match goal with
  | |- ?A /\ _ => assert (E : A) by (vm_compute; reflexivity)
  end.
  exact (conj E
           (runSync_sequential_identifies_documents sample_client sample_converter
              5 "root" None sample_state _ _ Hok sample_client_good E)).
Defined.

(** X27. After a successful run with one worker nothing is left to sync for
    the first time: under the conditions of X26, no collected document of
    the directory the run leaves behind lacks an identifier, so a
    following run on an empty list of changed paths has an empty list of
    documents. *)
Theorem runSync_sequential_leaves_nothing_unsynced
    (notion : NotionClient) (markdownToBlocks : string -> conversion)
    (fuel : nat) (rootPageId : string) (optionalRelPaths : option (list string))
    (s s' : state) (results : list SyncResult) :
  docs_ok (files s) = true ->
  good_identifiers notion ->
  runSync_sequential notion markdownToBlocks fuel rootPageId optionalRelPaths s
  = (inl results, s') ->
  (forall y, In y (collectMdFiles (files s') EmptyString) ->
     exists raw, read_path (JS.split_char "/" y) (files s') = Some raw
                 /\ lacksPageId raw = false)
  /\ mdFilesOf (Some []) s' = (inl [], s').
Proof.
  intros Hok Hgood Hrun.
  pose proof (runSync_sequential_leaves_none notion markdownToBlocks Hgood fuel
                rootPageId optionalRelPaths s s' results Hok Hrun) as Hnone.
  destruct (runSync_sequential_run notion markdownToBlocks Hgood fuel rootPageId
              optionalRelPaths s s' results Hok Hrun)
    as (_ & _ & _ & _ & _ & Hok').
  split.
  - intros y Hy.
    destruct (collectMdFiles_readable (files s') y Hok' Hy) as [raw Hraw].
    exists raw. split; [exact Hraw|].
    destruct (lacksPageId raw) eqn:El; [|reflexivity].
    exfalso. apply (Hnone y Hy). now exists raw.
  - destruct (addDocsWithoutPageId_loop_spec
                (collectMdFiles (files s') EmptyString) (Set_of []) s' (NoDup_nil _)
                (fun p Hp => collectMdFiles_readable (files s') p Hok' Hp))
      as (set' & Hloop & _ & Hin).
    cbn [mdFilesOf]. unfold bind, addDocsWithoutPageId. rewrite Hloop.
    assert (Hempty : set' = []).
    { destruct set' as [|y rest]; [reflexivity|]. exfalso.
      destruct (proj1 (Hin y) (or_introl eq_refl)) as [[]|[Hy Hu]].
      now apply (Hnone y Hy). }
    now rewrite Hempty.
Qed.

Lemma runSync_sequential_leaves_nothing_unsynced_witness :
  docs_ok (files sample_state) = true
  /\ exists results s',
       runSync_sequential sample_client sample_converter 5 "root"
         (Some ["guides/setup.md"]) sample_state
       = (inl results, s')
       /\ (forall y, In y (collectMdFiles (files s') EmptyString) ->
             exists raw, read_path (JS.split_char "/" y) (files s') = Some raw
                         /\ lacksPageId raw = false)
       /\ mdFilesOf (Some []) s' = (inl [], s').
Proof.
  assert (Hok : docs_ok (files sample_state) = true) by (vm_compute; reflexivity).
  split; [exact Hok|]. eexists. eexists.
  match goal with
  | |- ?A /\ _ => assert (E : A) by (vm_compute; reflexivity)
  end.
  exact (conj E
           (runSync_sequential_leaves_nothing_unsynced sample_client sample_converter
              5 "root" (Some ["guides/setup.md"]) sample_state _ _
              Hok sample_client_good E)).
Defined.
Section OneWorker.

Import Runner.

Variables T E : Type.
Variable taskCount : nat.
Variable settle : nat -> T + E.

Lemma exec_stopped (w0 : worker E) (schedule : list nat) (p p' : pool T E) :
  workers p = [w0] -> is_awaiting w0 = false ->
  exec taskCount settle schedule p = Some p' -> p' = p.
Proof.
  intros Hw Hstop. destruct schedule as [|w rest]; cbn [exec].
  - now intros [= <-].
  - unfold step. rewrite Hw.
    destruct w as [|w]; cbn [nth_error].
    + destruct w0; try discriminate.
    + destruct w; discriminate.
Qed.

(** One worker that awaits task [k] awaits task [k + n] after [n] steps. *)
Lemma one_worker_in_order (schedule : list nat) :
  forall (p p' : pool T E) (k : nat),
    workers p = [Awaiting k] -> index p = S k ->
    exec taskCount settle schedule p = Some p' ->
    forall w i, nth_error (workers p') w = Some (Awaiting i) ->
                w = 0 /\ i = k + List.length schedule.
Proof.
  induction schedule as [|w0 rest IH]; intros p p' k Hw Hidx Hexec w i Hwi.
  - injection Hexec as <-. rewrite Hw in Hwi.
    destruct w as [|w]; cbn [nth_error] in Hwi.
    + injection Hwi as <-. cbn [List.length]. lia.
    + destruct w; discriminate.
  - cbn [exec] in Hexec.
    destruct (step taskCount settle w0 p) as [p1|] eqn:Hstep; [|discriminate].
    unfold step in Hstep. rewrite Hw in Hstep.
    destruct w0 as [|w0]; cbn [nth_error] in Hstep; [|destruct w0; discriminate].
    destruct (settle k) as [v|e]; injection Hstep as <-.
    + unfold next in Hexec. cbn [index results workers rejection] in Hexec.
      rewrite Hidx in Hexec. cbn [set_nth] in Hexec.
      destruct (Nat.ltb_spec (S k) taskCount) as [Hlt|Hge]; cbn [fst snd] in Hexec.
      * pose proof (fun Hw1 Hi1 => IH _ p' (S k) Hw1 Hi1 Hexec w i Hwi) as H.
        cbn [workers index] in H. destruct (H eq_refl eq_refl) as [-> ->].
        cbn [List.length]. lia.
      * apply exec_stopped with (w0 := Done) in Hexec; [|reflexivity|reflexivity].
        subst p'. cbn [workers] in Hwi.
        destruct w as [|w]; cbn [nth_error] in Hwi; [discriminate|].
        destruct w; discriminate.
    + cbn [set_nth] in Hexec.
      apply exec_stopped with (w0 := Failed e) in Hexec; [|reflexivity|reflexivity].
      subst p'. cbn [workers] in Hwi.
      destruct w as [|w]; cbn [nth_error] in Hwi; [discriminate|].
      destruct w; discriminate.
Qed.

End OneWorker.

(** X28. With the bound 1, [runWithConcurrency] runs the tasks one after the
    other in index order: there is one worker, and after [n] promises have
    settled the task it awaits, if any, is task [n]. *)
Theorem runWithConcurrency_one_worker_in_order (T E : Type) (taskCount : nat)
    (settle : nat -> T + E) (schedule : list nat) (p : Runner.pool T E) :
  Runner.exec taskCount settle schedule (Runner.start T E taskCount 1) = Some p ->
  List.length (Runner.workers p) <= 1
  /\ forall w i, nth_error (Runner.workers p) w = Some (Runner.Awaiting i) ->
                 w = 0 /\ i = List.length schedule.
Proof.
  intros Hexec.
  pose proof (exec_invariant T E taskCount settle _ schedule _ p
                (start_invariant T E taskCount settle 1) Hexec) as Hinv.
  split; [rewrite (Runner.inv_workers Hinv); lia|].
  intros w i Hwi. rewrite start_shape in Hexec.
  destruct taskCount as [|n] eqn:En.
  - cbn [Nat.min seq map] in Hexec.
    assert (Hlen : List.length (Runner.workers p) = 0)
      by (rewrite (Runner.inv_workers Hinv); reflexivity).
    destruct (Runner.workers p); [destruct w; discriminate | discriminate].
  - cbn [Nat.min seq map] in Hexec.
    pose proof (fun Hw1 Hi1 =>
                  one_worker_in_order T E (S n) settle schedule _ p 0 Hw1 Hi1
                    Hexec w i Hwi) as H.
    cbn [Runner.workers Runner.index] in H. exact (H eq_refl eq_refl).
Qed.

Lemma runWithConcurrency_one_worker_in_order_witness :
  let settle := fun i : nat => @inl nat string (i * i) in
  let p := {| Runner.index := 3;
              Runner.results := [Some 0; Some 1; None];
              Runner.workers := [Runner.Awaiting 2];
              Runner.rejection := None |} : Runner.pool nat string in
  Runner.exec 3 settle [0; 0] (Runner.start nat string 3 1) = Some p
  /\ List.length (Runner.workers p) <= 1
  /\ forall w i, nth_error (Runner.workers p) w = Some (Runner.Awaiting i) ->
                 w = 0 /\ i = List.length [0; 0].
Proof.
  cbv zeta.
  assert (H : Runner.exec 3 (fun i : nat => @inl nat string (i * i)) [0; 0]
                (Runner.start nat string 3 1)
              = Some ({| Runner.index := 3;
                         Runner.results := [Some 0; Some 1; None];
                         Runner.workers := [Runner.Awaiting 2];
                         Runner.rejection := None |} : Runner.pool nat string))
    by (vm_compute; reflexivity).
  exact (conj H (runWithConcurrency_one_worker_in_order nat string 3 _ [0; 0] _ H)).
Defined.

